(** * DevContext Sync: sync protocol, duplicate detection, search scoring and
      context-match merging.

    A shallow embedding of
      - [backend/src/routes/sync.ts]   (modules [Server] and [Pull]),
      - [storage.js]                   (modules [JS], [Dedup], [Search], [Client],
                                        [Sync] and [Finder]),
      - [ContextMatcher]               (modules [Matcher] and [Context]),
    together with the properties the specification states about them
    (modules [ServerSpec], [DedupSpec], [SearchSpec], [MatcherSpec] and
    [ClientSpec]) and further properties of the code (modules [PullSpec],
    [SyncSpec], [FinderSpec] and [ContextSpec]).

    Conventions.  JavaScript numbers that the code only uses as integers
    (timestamps, versions, counters, weights) are [Z]; ratios (Jaccard
    similarity, relevance scores) are exact rationals [Q]; strings are
    sequences of code units below 256 ([string]), so that lower-casing
    works on each character -- characters beyond, among them the two whose
    lower-case form is longer (U+0130) or an ASCII letter (U+212A), are not
    modelled; IndexedDB object stores and PostgreSQL tables keyed by a
    primary key are [gmap]s.  An awaited promise is a computation on the
    state of the module that returns, throws or never settles. *)

From Stdlib Require Import ZArith QArith Qround Lqa String Ascii List Lia Bool.
From Stdlib Require Import Sorted Permutation.
From stdpp Require Import gmap strings list.

Close Scope Q_scope.
Open Scope string_scope.
Open Scope Z_scope.

(* ================================================================== *)
(** * JavaScript values used by the code: sets, strings, numbers        *)
(* ================================================================== *)

Module JS.

(** ** [Set] of strings

    A [Set] iterates in insertion order and ignores a value it already
    holds; it is kept as the list of its elements in that order. *)
Definition Set_add (acc : list string) (x : string) : list string :=
  if bool_decide (x ∈ acc) then acc else (acc ++ [x])%list.

(** [new Set(l)] *)
Definition Set_of (l : list string) : list string := fold_left Set_add l [].

(** [s.has(x)] *)
Definition Set_has (s : list string) (x : string) : bool := bool_decide (x ∈ s).

(** ** Characters *)

Definition charCode (c : ascii) : Z := Z.of_N (N_of_ascii c).

Definition fromCharCode (z : Z) : ascii := ascii_of_N (Z.to_N z).

(** [\s], which is also what [trim] strips: tab, line feed, vertical tab,
    form feed, carriage return, space and no-break space. *)
Definition isSpace (c : ascii) : bool :=
  let n := charCode c in
  ((9 <=? n) && (n <=? 13)) || (n =? 32) || (n =? 160).

(** [\w]: letters, digits and underscore of ASCII. *)
Definition isWordChar (c : ascii) : bool :=
  let n := charCode c in
  ((48 <=? n) && (n <=? 57)) || ((65 <=? n) && (n <=? 90))
  || ((97 <=? n) && (n <=? 122)) || (n =? 95).

(** Lower-casing of one code unit below 256: A-Z, and the upper-case
    letters of Latin-1 (0xC0-0xDE without the multiplication sign). *)
Definition toLowerChar (c : ascii) : ascii :=
  let n := charCode c in
  if ((65 <=? n) && (n <=? 90))
     || ((192 <=? n) && (n <=? 222) && negb (n =? 215))
  then fromCharCode (n + 32) else c.

(** ** Strings *)

Definition isEmpty (s : string) : bool :=
  match s with EmptyString => true | String _ _ => false end.

Fixpoint mapChars (f : ascii -> ascii) (s : string) : string :=
  match s with
  | EmptyString => EmptyString
  | String c s' => String (f c) (mapChars f s')
  end.

Definition toLowerCase (s : string) : string := mapChars toLowerChar s.

Fixpoint trimStart (s : string) : string :=
  match s with
  | EmptyString => EmptyString
  | String c s' => if isSpace c then trimStart s' else s
  end.

Fixpoint trimEnd (s : string) : string :=
  match s with
  | EmptyString => EmptyString
  | String c s' =>
      let t := trimEnd s' in
      if isSpace c && isEmpty t then EmptyString else String c t
  end.

Definition trim (s : string) : string := trimEnd (trimStart s).

(** [s.replace(/\s+/g, ' ')]: [inRun] tells that the previous character
    belonged to the run of white space being replaced. *)
Fixpoint collapseSpaces (inRun : bool) (s : string) : string :=
  match s with
  | EmptyString => EmptyString
  | String c s' =>
      if isSpace c
      then if inRun then collapseSpaces true s'
           else String " " (collapseSpaces true s')
      else String c (collapseSpaces false s')
  end.

(** [s.replace(/[^\w\s]/g, ' ')] *)
Definition blankPunctuation (s : string) : string :=
  mapChars (fun c => if isWordChar c || isSpace c then c else " "%char) s.

Definition startsWithSpace (s : string) : bool :=
  match s with EmptyString => false | String c _ => isSpace c end.

(** [s.split(' ')]: the pieces between single spaces, empty pieces kept. *)
Fixpoint splitOnSpace (s : string) : list string :=
  match s with
  | EmptyString => [EmptyString]
  | String c s' =>
      match splitOnSpace s' with
      | w :: ws =>
          if Ascii.eqb c " " then EmptyString :: w :: ws else String c w :: ws
      | [] => []
      end
  end.

(** [s.split(/\s+/)]: the pieces between maximal runs of white space; a
    run at either end leaves an empty piece there. *)
Fixpoint splitOnSpaces (s : string) : list string :=
  match s with
  | EmptyString => [EmptyString]
  | String c s' =>
      match splitOnSpaces s' with
      | w :: ws =>
          if isSpace c
          then if startsWithSpace s' then w :: ws else EmptyString :: w :: ws
          else String c w :: ws
      | [] => []
      end
  end.

Fixpoint startsWith (s sub : string) : bool :=
  match sub, s with
  | EmptyString, _ => true
  | String _ _, EmptyString => false
  | String b sub', String a s' => Ascii.eqb a b && startsWith s' sub'
  end.

(** [s.includes(sub)] *)
Fixpoint includes (s sub : string) : bool :=
  startsWith s sub
  || match s with
     | EmptyString => false
     | String _ s' => includes s' sub
     end.

(** [s.length] *)
Definition strlen (s : string) : Z := Z.of_nat (String.length s).

(** ** Numbers *)

(** [x || 0] on a number. *)
Definition or_zero (z : Z) : Z := if z =? 0 then 0 else z.

(** [ToInt32]: what the bitwise operators make of their operands. *)
Definition toInt32 (z : Z) : Z := (z + 2 ^ 31) mod 2 ^ 32 - 2 ^ 31.

(** [a << n] *)
Definition shl (a n : Z) : Z := toInt32 (Z.shiftl (toInt32 a) n).

(** [a & b] *)
Definition band (a b : Z) : Z := toInt32 (Z.land (toInt32 a) (toInt32 b)).

Definition hexDigit (d : Z) : ascii :=
  if d <? 10 then fromCharCode (48 + d) else fromCharCode (87 + d).

Fixpoint hexDigits (fuel : nat) (n : Z) : string :=
  match fuel with
  | O => EmptyString
  | S fuel' =>
      if n <? 16 then String (hexDigit n) EmptyString
      else hexDigits fuel' (n / 16) ++ String (hexDigit (n mod 16)) EmptyString
  end.

(** [n.toString(16)] for a 32-bit integer [n] (at most eight digits). *)
Definition toString16 (n : Z) : string :=
  if n <? 0 then "-" ++ hexDigits 8 (- n) else hexDigits 8 n.

Fixpoint decDigits (fuel : nat) (n : Z) : string :=
  match fuel with
  | O => EmptyString
  | S fuel' =>
      if n <? 10 then String (fromCharCode (48 + n)) EmptyString
      else decDigits fuel' (n / 10) ++ String (fromCharCode (48 + n mod 10)) EmptyString
  end.

(** [`${n}`] for an integer [n] of at most twenty digits. *)
Definition toString10 (n : Z) : string :=
  if n <? 0 then "-" ++ decDigits 20 (- n) else decDigits 20 n.

(** [Math.round]: the nearest integer, halves upwards. *)
Definition round (q : Q) : Z := Qfloor (q + (1 # 2))%Q.

(** [a > b] on numbers. *)
Definition Qgtb (a b : Q) : bool := negb (Qle_bool a b).

End JS.

(* ================================================================== *)
(** * The push endpoint of the server ([routes/sync.ts])               *)
(* ================================================================== *)

Module Server.
Import JS.

(** ** Wire types: the body accepted by [syncPushSchema] *)

Record ProjectChange := {
  pc_id : string;
  pc_name : string;
  pc_description : option string;
  pc_createdAt : Z;
  pc_isDeleted : option bool
}.

Record SnippetChange := {
  sc_id : string;
  sc_projectId : string;
  sc_code : string;
  sc_language : string;
  sc_description : option string;
  sc_source : option string;
  sc_contentHash : option string;
  sc_createdAt : Z;
  sc_isDeleted : option bool
}.

Record KnowledgeChange := {
  kc_id : string;
  kc_projectId : string;
  kc_question : string;
  kc_answer : string;
  kc_source : option string;
  kc_tags : option (list string);
  kc_contentHash : option string;
  kc_createdAt : Z;
  kc_isDeleted : option bool
}.

Record Changes := {
  ch_projects : option (list ProjectChange);
  ch_snippets : option (list SnippetChange);
  ch_knowledge : option (list KnowledgeChange)
}.

Record PushBody := {
  deviceId : string;
  lastSyncVersion : Z;
  changes : Changes
}.

(** ** Tables (schema of [db]) *)

Record ProjectRow := {
  p_id : string;
  p_userId : string;
  p_name : string;
  p_description : option string;
  p_createdAt : Z;
  p_updatedAt : Z;
  p_syncVersion : Z;
  p_isDeleted : bool
}.

Record SnippetRow := {
  s_id : string;
  s_userId : string;
  s_projectId : string;
  s_code : string;
  s_language : string;
  s_description : option string;
  s_source : option string;
  s_contentHash : option string;
  s_createdAt : Z;
  s_updatedAt : Z;
  s_syncVersion : Z;
  s_isDeleted : bool
}.

Record KnowledgeRow := {
  k_id : string;
  k_userId : string;
  k_projectId : string;
  k_question : string;
  k_answer : string;
  k_source : option string;
  k_tags : option (list string);
  k_contentHash : option string;
  k_createdAt : Z;
  k_updatedAt : Z;
  k_syncVersion : Z;
  k_isDeleted : bool
}.

Record SessionRow := {
  ss_id : string;
  ss_userId : string;
  ss_deviceId : string;
  ss_lastSyncAt : Z;
  ss_syncVersion : Z
}.

(** The three data tables are keyed by their primary key [id].
    [sync_sessions] is kept as the list of its rows in insertion order: the
    handler selects from it by (user, device), not by primary key. *)
Record DB := {
  projects : gmap string ProjectRow;
  snippets : gmap string SnippetRow;
  knowledge : gmap string KnowledgeRow;
  syncSessions : list SessionRow
}.

Definition emptyDB : DB :=
  {| projects := ∅; snippets := ∅; knowledge := ∅; syncSessions := [] |}.

(** ** Responses of [router.post('/push')] *)

Inductive Response :=
| NotAuthenticated                                          (* 401 *)
| InvalidSyncData                                           (* 400 *)
| InvalidProjectReferences (invalidProjectIds : list string) (* 400 *)
| PushOk (syncVersion : Z)                                  (* 200 *)
| SyncFailed.                                               (* 500 *)

Definition status (r : Response) : Z :=
  match r with
  | NotAuthenticated => 401
  | InvalidSyncData => 400
  | InvalidProjectReferences _ => 400
  | PushOk _ => 200
  | SyncFailed => 500
  end.

(** ** [syncPushSchema] *)

Definition MAX_ITEMS_PER_SYNC : nat := 500.

Definition len_between (lo hi : Z) (s : string) : bool :=
  (lo <=? Z.of_nat (String.length s)) && (Z.of_nat (String.length s) <=? hi).

Definition opt_ok {A} (f : A -> bool) (o : option A) : bool :=
  match o with None => true | Some a => f a end.

Definition projectSchema (p : ProjectChange) : bool :=
  len_between 1 50 (pc_id p) && len_between 1 200 (pc_name p)
  && opt_ok (len_between 0 1000) (pc_description p)
  && (0 <=? pc_createdAt p).

Definition snippetSchema (s : SnippetChange) : bool :=
  len_between 1 50 (sc_id s) && len_between 1 50 (sc_projectId s)
  && len_between 0 100000 (sc_code s) && len_between 0 50 (sc_language s)
  && opt_ok (len_between 0 500) (sc_description s)
  && opt_ok (len_between 0 200) (sc_source s)
  && opt_ok (len_between 0 100) (sc_contentHash s)
  && (0 <=? sc_createdAt s).

Definition knowledgeSchema (k : KnowledgeChange) : bool :=
  len_between 1 50 (kc_id k) && len_between 1 50 (kc_projectId k)
  && len_between 1 2000 (kc_question k) && len_between 0 50000 (kc_answer k)
  && opt_ok (len_between 0 200) (kc_source k)
  && opt_ok (fun ts => forallb (len_between 0 50) ts && (length ts <=? 20)%nat)
            (kc_tags k)
  && opt_ok (len_between 0 100) (kc_contentHash k)
  && (0 <=? kc_createdAt k).

Definition arraySchema {A} (f : A -> bool) (l : list A) : bool :=
  forallb f l && (length l <=? MAX_ITEMS_PER_SYNC)%nat.

Definition syncPushSchema (b : PushBody) : bool :=
  len_between 1 100 (deviceId b)
  && (0 <=? lastSyncVersion b)
  && opt_ok (arraySchema projectSchema) (ch_projects (changes b))
  && opt_ok (arraySchema snippetSchema) (ch_snippets (changes b))
  && opt_ok (arraySchema knowledgeSchema) (ch_knowledge (changes b)).

(** ** Helpers of the handler *)

(** [x || []] on an optional array. *)
Definition or_nil {A} (o : option (list A)) : list A :=
  match o with Some l => l | None => [] end.

(** [x || false] on an optional boolean. *)
Definition or_false (o : option bool) : bool :=
  match o with Some b => b | None => false end.

(** The rows selected by [validateProjectOwnership]: a referenced id is
    returned by the query exactly when a project row with that id exists and
    belongs to the user. *)
Definition ownsProject (db : DB) (userId id : string) : bool :=
  match projects db !! id with
  | Some p => bool_decide (p_userId p = userId)
  | None => false
  end.

Definition validateProjectOwnership (db : DB) (userId : string)
    (projectIds : list string) : bool * list string :=
  match projectIds with
  | [] => (true, [])
  | _ =>
    let userProjects := List.filter (ownsProject db userId) projectIds in
    let validProjectIds := Set_of userProjects in
    let invalidIds :=
      List.filter (fun id => negb (Set_has validProjectIds id)) projectIds in
    (bool_decide (length invalidIds = 0%nat), invalidIds)
  end.

(** ** [INSERT ... ON CONFLICT (id) DO UPDATE SET ... WHERE user_id = userId]

    Rows of a batch are applied one after the other.  A row whose id is
    free is inserted; a row whose id is taken is updated with the [SET]
    columns only when the existing row belongs to [userId], and otherwise
    left alone. *)
Section Upsert.
Context {Row : Type}.
Variable owner : Row -> string.
Variable key : Row -> string.
Variable onConflictSet : Row -> Row -> Row.   (* existing, EXCLUDED *)

Definition upsert (userId : string) (t : gmap string Row) (excluded : Row)
    : gmap string Row :=
  match t !! key excluded with
  | None => <[key excluded := excluded]> t
  | Some existing =>
      if bool_decide (owner existing = userId)
      then <[key excluded := onConflictSet existing excluded]> t
      else t
  end.

Definition batchUpsert (userId : string) (values : list Row)
    (t : gmap string Row) : gmap string Row :=
  fold_left (upsert userId) values t.
End Upsert.

Definition projectValues (userId : string) (now newSyncVersion : Z)
    (proj : ProjectChange) : ProjectRow :=
  {| p_id := pc_id proj; p_userId := userId; p_name := pc_name proj;
     p_description := pc_description proj; p_createdAt := pc_createdAt proj;
     p_updatedAt := now; p_syncVersion := newSyncVersion;
     p_isDeleted := or_false (pc_isDeleted proj) |}.

Definition projectSet (existing excluded : ProjectRow) : ProjectRow :=
  {| p_id := p_id existing; p_userId := p_userId existing;
     p_name := p_name excluded; p_description := p_description excluded;
     p_createdAt := p_createdAt existing;
     p_updatedAt := p_updatedAt excluded;
     p_syncVersion := p_syncVersion excluded;
     p_isDeleted := p_isDeleted excluded |}.

Definition snippetValues (userId : string) (now newSyncVersion : Z)
    (snip : SnippetChange) : SnippetRow :=
  {| s_id := sc_id snip; s_userId := userId; s_projectId := sc_projectId snip;
     s_code := sc_code snip; s_language := sc_language snip;
     s_description := sc_description snip; s_source := sc_source snip;
     s_contentHash := sc_contentHash snip; s_createdAt := sc_createdAt snip;
     s_updatedAt := now; s_syncVersion := newSyncVersion;
     s_isDeleted := or_false (sc_isDeleted snip) |}.

Definition snippetSet (existing excluded : SnippetRow) : SnippetRow :=
  {| s_id := s_id existing; s_userId := s_userId existing;
     s_projectId := s_projectId existing;
     s_code := s_code excluded; s_language := s_language excluded;
     s_description := s_description excluded; s_source := s_source excluded;
     s_contentHash := s_contentHash excluded;
     s_createdAt := s_createdAt existing;
     s_updatedAt := s_updatedAt excluded;
     s_syncVersion := s_syncVersion excluded;
     s_isDeleted := s_isDeleted excluded |}.

Definition knowledgeValues (userId : string) (now newSyncVersion : Z)
    (know : KnowledgeChange) : KnowledgeRow :=
  {| k_id := kc_id know; k_userId := userId; k_projectId := kc_projectId know;
     k_question := kc_question know; k_answer := kc_answer know;
     k_source := kc_source know; k_tags := kc_tags know;
     k_contentHash := kc_contentHash know; k_createdAt := kc_createdAt know;
     k_updatedAt := now; k_syncVersion := newSyncVersion;
     k_isDeleted := or_false (kc_isDeleted know) |}.

Definition knowledgeSet (existing excluded : KnowledgeRow) : KnowledgeRow :=
  {| k_id := k_id existing; k_userId := k_userId existing;
     k_projectId := k_projectId existing;
     k_question := k_question excluded; k_answer := k_answer excluded;
     k_source := k_source excluded; k_tags := k_tags excluded;
     k_contentHash := k_contentHash excluded;
     k_createdAt := k_createdAt existing;
     k_updatedAt := k_updatedAt excluded;
     k_syncVersion := k_syncVersion excluded;
     k_isDeleted := k_isDeleted excluded |}.

(** ** The transaction of the handler

    [None] is a rolled-back transaction (the only failure the handler's own
    statements can cause: the fresh session id collides with a primary
    key); the caller then keeps the database it had. *)

Definition sessionOf (userId deviceId : string) (s : SessionRow) : bool :=
  bool_decide (ss_userId s = userId) && bool_decide (ss_deviceId s = deviceId).

Definition updateSession (sid : string) (newSyncVersion now : Z)
    (s : SessionRow) : SessionRow :=
  if bool_decide (ss_id s = sid)
  then {| ss_id := ss_id s; ss_userId := ss_userId s;
          ss_deviceId := ss_deviceId s;
          ss_lastSyncAt := now; ss_syncVersion := newSyncVersion |}
  else s.

Definition pushTransaction (userId : string) (deviceId : string)
    (ch : Changes) (validProjectIds : list string) (now : Z) (nanoid : string)
    (db : DB) : option (Z * DB) :=
  (* Get or create sync session for this user AND device *)
  let found := List.find (sessionOf userId deviceId) (syncSessions db) in
  let created :=
    match found with
    | Some session => Some (session, syncSessions db)
    | None =>
        if existsb (fun s => bool_decide (ss_id s = nanoid)) (syncSessions db)
        then None
        else
          let session := {| ss_id := nanoid; ss_userId := userId;
                            ss_deviceId := deviceId; ss_lastSyncAt := now;
                            ss_syncVersion := 0 |} in
          Some (session, (syncSessions db ++ [session])%list)
    end in
  match created with
  | None => None
  | Some (session, sessions1) =>
      let newSyncVersion := or_zero (ss_syncVersion session) + 1 in
      let projects1 :=
        batchUpsert p_userId p_id projectSet userId
          (map (projectValues userId now newSyncVersion) (or_nil (ch_projects ch)))
          (projects db) in
      let validSnippets :=
        List.filter (fun s => Set_has validProjectIds (sc_projectId s))
               (or_nil (ch_snippets ch)) in
      let snippets1 :=
        batchUpsert s_userId s_id snippetSet userId
          (map (snippetValues userId now newSyncVersion) validSnippets)
          (snippets db) in
      let validKnowledge :=
        List.filter (fun k => Set_has validProjectIds (kc_projectId k))
               (or_nil (ch_knowledge ch)) in
      let knowledge1 :=
        batchUpsert k_userId k_id knowledgeSet userId
          (map (knowledgeValues userId now newSyncVersion) validKnowledge)
          (knowledge db) in
      let sessions2 :=
        map (updateSession (ss_id session) newSyncVersion now) sessions1 in
      Some (newSyncVersion,
            {| projects := projects1; snippets := snippets1;
               knowledge := knowledge1; syncSessions := sessions2 |})
  end.

(** ** The project ids of a batch *)

Definition projectIdsFromSnippets (ch : Changes) : list string :=
  map sc_projectId (or_nil (ch_snippets ch)).

Definition projectIdsFromKnowledge (ch : Changes) : list string :=
  map kc_projectId (or_nil (ch_knowledge ch)).

Definition projectIdsFromProjects (ch : Changes) : list string :=
  map pc_id (or_nil (ch_projects ch)).

(** All referenced project IDs *)
Definition allReferencedProjectIds (ch : Changes) : list string :=
  Set_of (projectIdsFromSnippets ch ++ projectIdsFromKnowledge ch)%list.

(** The referenced ids that are not created in this sync: they must exist
    and belong to the user. *)
Definition existingProjectCheck (ch : Changes) : list string :=
  let newProjectIds := Set_of (projectIdsFromProjects ch) in
  List.filter (fun id => negb (Set_has newProjectIds id)) (allReferencedProjectIds ch).

(** ** [router.post('/push')]

    [user] is [authReq.user?.id]; [now] is the clock and [nanoid] the id the
    handler would give a new session.  The rate limiter in front of the
    handler is not part of this model. *)
Definition push (user : option string) (body : PushBody) (now : Z)
    (nanoid : string) (db : DB) : Response * DB :=
  match user with
  | None => (NotAuthenticated, db)
  | Some "" => (NotAuthenticated, db)
  | Some userId =>
    if negb (syncPushSchema body) then (InvalidSyncData, db) else
    let ch := changes body in
    let validation :=
      if (0 <? length (existingProjectCheck ch))%nat
      then validateProjectOwnership db userId (existingProjectCheck ch)
      else (true, []) in
    if negb (fst validation)
    then (InvalidProjectReferences (snd validation), db)
    else
      (* Build set of valid project IDs (existing + new) *)
      let validProjectIds :=
        Set_of (projectIdsFromProjects ch ++ existingProjectCheck ch)%list in
      match pushTransaction userId (deviceId body) ch validProjectIds now nanoid db with
      | Some (v, db') => (PushOk v, db')
      | None => (SyncFailed, db)
      end
  end.

(** A request as the handler sees it, and a sequence of requests served
    one after the other. *)
Record Request := {
  rq_user : option string;
  rq_body : PushBody;
  rq_now : Z;
  rq_nanoid : string
}.

Definition serve (db : DB) (r : Request) : Response * DB :=
  push (rq_user r) (rq_body r) (rq_now r) (rq_nanoid r) db.

Fixpoint serveAll (db : DB) (rs : list Request) : list Response * DB :=
  match rs with
  | [] => ([], db)
  | r :: rs' =>
      let '(resp, db1) := serve db r in
      let '(resps, db2) := serveAll db1 rs' in
      (resp :: resps, db2)
  end.

(** The version recorded for a device: the [syncVersion] of the session row
    the handler would select for (user, device), 0 when there is none. *)
Definition sessionVersion (db : DB) (userId deviceId : string) : Z :=
  match List.find (sessionOf userId deviceId) (syncSessions db) with
  | Some s => or_zero (ss_syncVersion s)
  | None => 0
  end.

(** ** Notions used in the statements *)

(** The primary key of [sync_sessions]: no two sessions share an id. *)
Definition sessions_wf (db : DB) : Prop := NoDup (map ss_id (syncSessions db)).

(** ** Sample data *)

Definition aProject (id name : string) : ProjectChange :=
  {| pc_id := id; pc_name := name; pc_description := None;
     pc_createdAt := 1700000000000; pc_isDeleted := None |}.

Definition aSnippet (id projectId code : string) : SnippetChange :=
  {| sc_id := id; sc_projectId := projectId; sc_code := code;
     sc_language := "js"; sc_description := None; sc_source := None;
     sc_contentHash := None; sc_createdAt := 1700000000000;
     sc_isDeleted := None |}.

Definition aBody (device : string) (ps : list ProjectChange)
    (ss : list SnippetChange) : PushBody :=
  {| deviceId := device; lastSyncVersion := 0;
     changes := {| ch_projects := Some ps; ch_snippets := Some ss;
                   ch_knowledge := None |} |}.

(** One project is created in the batch; snippet s1 refers to it, snippet
    s2 refers to a project nobody has. *)
Definition mixedBatch : PushBody :=
  aBody "devA" [aProject "p1" "Main"]
    [aSnippet "s1" "p1" "const x = 1;"; aSnippet "s2" "ghost" "let y;"].

(** What the endpoint answers to [mixedBatch], pushed by user u1 to an empty
    database, and the database afterwards. *)
Definition mixedPush : Response * DB :=
  push (Some "u1") mixedBatch 1700000000500 "sess1" emptyDB.

(** A database in which user v already owns a project and a snippet, and a
    batch of user u1 that reuses both ids. *)
Definition vProject : ProjectRow :=
  {| p_id := "p1"; p_userId := "v"; p_name := "Theirs"; p_description := None;
     p_createdAt := 5; p_updatedAt := 6; p_syncVersion := 3; p_isDeleted := false |}.

Definition vSnippet : SnippetRow :=
  {| s_id := "s1"; s_userId := "v"; s_projectId := "p1"; s_code := "their code";
     s_language := "js"; s_description := None; s_source := None;
     s_contentHash := None; s_createdAt := 5; s_updatedAt := 6;
     s_syncVersion := 3; s_isDeleted := false |}.

Definition foreignDB : DB :=
  {| projects := {[ "p1" := vProject ]}; snippets := {[ "s1" := vSnippet ]};
     knowledge := ∅; syncSessions := [] |}.

Definition clashBatch : PushBody :=
  aBody "devA" [aProject "p1" "Mine"] [aSnippet "s1" "p1" "my code"].

(** Three pushes of one user: twice from device A, then once from B. *)
Definition threePushes : list Request :=
  [ {| rq_user := Some "u1"; rq_body := aBody "devA" [aProject "p1" "One"] [];
       rq_now := 100; rq_nanoid := "sessA" |};
    {| rq_user := Some "u1"; rq_body := aBody "devA" [aProject "p2" "Two"] [];
       rq_now := 200; rq_nanoid := "unused" |};
    {| rq_user := Some "u1"; rq_body := aBody "devB" [aProject "p3" "Three"] [];
       rq_now := 300; rq_nanoid := "sessB" |} ].

End Server.
(* ================================================================== *)
(** * Content fingerprinting and duplicate detection ([storage.js])    *)
(* ================================================================== *)

Module Dedup.
Import JS.

(** A snippet and a knowledge item as the local store keeps them. *)
Record Snippet := {
  sn_id : string;
  sn_projectId : string;
  sn_code : string;
  sn_language : string;
  sn_createdAt : Z
}.

Record Knowledge := {
  kn_id : string;
  kn_projectId : string;
  kn_question : string;
  kn_answer : string;
  kn_createdAt : Z
}.

(** [getByIndex(store, 'projectId', projectId)]; [store] lists the records
    in the order the index returns them. *)
Definition getByProjectId {A} (projectIdOf : A -> string) (store : list A)
    (projectId : string) : list A :=
  List.filter (fun item => String.eqb (projectIdOf item) projectId) store.

(** One round of the loop of [hashContent]. *)
Definition hashStep (hash : Z) (c : ascii) : Z :=
  let char := charCode c in
  let hash := (shl hash 5 - hash) + char in
  band hash hash.

Fixpoint hashLoop (hash : Z) (str : string) : Z :=
  match str with
  | EmptyString => hash
  | String c str' => hashLoop (hashStep hash c) str'
  end.

Definition hashContent (content : string) : string :=
  if isEmpty content then "" else toString16 (hashLoop 0 content).

Definition normalizeContent (content : string) : string :=
  if isEmpty content then ""
  else collapseSpaces false (toLowerCase (trim content)).

Definition longWord (w : string) : bool := (2 <? strlen w).

(** Jaccard similarity on words. *)
Definition calculateSimilarity (str1 str2 : string) : Q :=
  if isEmpty str1 || isEmpty str2 then 0%Q else
  let words1 := Set_of (List.filter longWord (splitOnSpace str1)) in
  let words2 := Set_of (List.filter longWord (splitOnSpace str2)) in
  if (length words1 =? 0)%nat || (length words2 =? 0)%nat then 0%Q else
  let intersection := Set_of (List.filter (Set_has words2) words1) in
  let union := Set_of (words1 ++ words2)%list in
  (Z.of_nat (length intersection) # Pos.of_nat (length union))%Q.

Inductive MatchType := exact | similar.

(** The object the duplicate checks return; a field that the code leaves
    out is [None]. *)
Record DuplicateCheck (Item : Type) := {
  isDuplicate : bool;
  matchType : option MatchType;
  similarity : option Z;
  existingItem : option Item
}.
Arguments isDuplicate {Item}.
Arguments matchType {Item}.
Arguments similarity {Item}.
Arguments existingItem {Item}.

Definition notDuplicate {Item} : DuplicateCheck Item :=
  {| isDuplicate := false; matchType := None; similarity := None;
     existingItem := None |}.

Definition exactMatch {Item} (it : Item) : DuplicateCheck Item :=
  {| isDuplicate := true; matchType := Some exact; similarity := None;
     existingItem := Some it |}.

Definition similarMatch {Item} (sim : Q) (it : Item) : DuplicateCheck Item :=
  {| isDuplicate := true; matchType := Some similar;
     similarity := Some (round (sim * 100)%Q); existingItem := Some it |}.

(** The loop of [findDuplicateSnippet]. *)
Fixpoint scanSnippets (normalizedNew hashNew : string) (snippets : list Snippet)
    : DuplicateCheck Snippet :=
  match snippets with
  | [] => notDuplicate
  | snippet :: rest =>
      let normalizedExisting := normalizeContent (sn_code snippet) in
      let hashExisting := hashContent normalizedExisting in
      if String.eqb hashNew hashExisting then exactMatch snippet
      else
        let similarity := calculateSimilarity normalizedNew normalizedExisting in
        if Qgtb similarity (8 # 10) then similarMatch similarity snippet
        else scanSnippets normalizedNew hashNew rest
  end.

Definition findDuplicateSnippet (store : list Snippet) (code projectId : string)
    : DuplicateCheck Snippet :=
  let snippets := getByProjectId sn_projectId store projectId in
  let normalizedNew := normalizeContent code in
  let hashNew := hashContent normalizedNew in
  scanSnippets normalizedNew hashNew snippets.

(** The loop of [findDuplicateKnowledge]. *)
Fixpoint scanKnowledge (normalizedAnswer combinedHash : string)
    (knowledge : list Knowledge) : DuplicateCheck Knowledge :=
  match knowledge with
  | [] => notDuplicate
  | item :: rest =>
      let existingQuestion := normalizeContent (kn_question item) in
      let existingAnswer := normalizeContent (kn_answer item) in
      let existingHash := hashContent (existingQuestion ++ existingAnswer) in
      if String.eqb combinedHash existingHash then exactMatch item
      else
        let answerSimilarity := calculateSimilarity normalizedAnswer existingAnswer in
        if Qgtb answerSimilarity (85 # 100) then similarMatch answerSimilarity item
        else scanKnowledge normalizedAnswer combinedHash rest
  end.

Definition findDuplicateKnowledge (store : list Knowledge)
    (question answer projectId : string) : DuplicateCheck Knowledge :=
  let knowledge := getByProjectId kn_projectId store projectId in
  let normalizedQuestion := normalizeContent question in
  let normalizedAnswer := normalizeContent answer in
  let combinedHash := hashContent (normalizedQuestion ++ normalizedAnswer) in
  scanKnowledge normalizedAnswer combinedHash knowledge.

(** ** Notions used in the statements *)

(** A snippet that is reported as merely similar: its fingerprint differs
    from the new one and its similarity is above 0.8. *)
Definition onlySimilar (normalizedNew hashNew : string) (e : Snippet) : Prop :=
  hashContent (normalizeContent (sn_code e)) <> hashNew /\
  Qgtb (calculateSimilarity normalizedNew (normalizeContent (sn_code e))) (8 # 10)
    = true.

(** [n] is an integer nearest to [q]. *)
Definition nearestInteger (n : Z) (q : Q) : Prop :=
  (inject_Z n - (1 # 2) <= q)%Q /\ (q <= inject_Z n + (1 # 2))%Q.

(** The check [r] reports item [e] as similar, with the percentage that
    belongs to the Jaccard value [J]. *)
Definition reportsSimilar {Item} (r : DuplicateCheck Item) (e : Item) (J : Q)
    : Prop :=
  isDuplicate r = true /\ matchType r = Some similar /\ existingItem r = Some e /\
  similarity r = Some (round (J * 100)%Q) /\
  nearestInteger (round (J * 100)%Q) (J * 100)%Q.

(** Jaccard similarity of the new code and a stored snippet, and of the new
    answer and a stored knowledge item. *)
Definition snippetJ (code : string) (e : Snippet) : Q :=
  calculateSimilarity (normalizeContent code) (normalizeContent (sn_code e)).

Definition answerJ (answer : string) (e : Knowledge) : Q :=
  calculateSimilarity (normalizeContent answer) (normalizeContent (kn_answer e)).

Definition snippetHash (e : Snippet) : string :=
  hashContent (normalizeContent (sn_code e)).

Definition knowledgeHash (e : Knowledge) : string :=
  hashContent (normalizeContent (kn_question e) ++ normalizeContent (kn_answer e)).

(** ** Sample data *)

Definition seventeen : string :=
  "w01 w02 w03 w04 w05 w06 w07 w08 w09 w10 w11 w12 w13 w14 w15 w16 w17".

(** The project of the specification's scenario: it holds [const x = 1;]. *)
Definition projectP : list Snippet :=
  [ {| sn_id := "a"; sn_projectId := "P"; sn_code := "const x = 1;";
       sn_language := "js"; sn_createdAt := 1 |} ].

(** Two snippets that share five of their six words. *)
Definition snippetLong : Snippet :=
  {| sn_id := "a"; sn_projectId := "P"; sn_code := "aaa bbb ccc ddd eee fff";
     sn_language := "js"; sn_createdAt := 1 |}.

Definition snippetShort : Snippet :=
  {| sn_id := "b"; sn_projectId := "P"; sn_code := "aaa bbb ccc ddd eee";
     sn_language := "js"; sn_createdAt := 2 |}.

(** The check of code that equals [snippetShort] after normalization, in a
    project that lists [snippetLong] before it. *)
Definition checkAgain : DuplicateCheck Snippet :=
  findDuplicateSnippet [snippetLong; snippetShort] "  AAA  bbb ccc ddd eee " "P".

(** Content that shares four of five words with the code saved, and
    seventeen of twenty with the answer saved. *)
Definition fourWords : Snippet :=
  {| sn_id := "c"; sn_projectId := "P"; sn_code := "aaa bbb ccc ddd";
     sn_language := "js"; sn_createdAt := 3 |}.

Definition seventeenWords : Knowledge :=
  {| kn_id := "k"; kn_projectId := "P"; kn_question := "how?";
     kn_answer := seventeen;
     kn_createdAt := 4 |}.

End Dedup.

(* ================================================================== *)
(** * Search scoring ([storage.js])                                    *)
(* ================================================================== *)

Module Search.
Import JS.

Record Weights := { w_exact : Z; w_word : Z; w_partial : Z }.

(** The default value of the [weights] parameter. *)
Definition defaultWeights : Weights :=
  {| w_exact := 10; w_word := 3; w_partial := 1 |}.

Definition tokenizeForSearch (text : string) : list string :=
  if isEmpty text then []
  else List.filter (fun word => 2 <? strlen word)
         (splitOnSpaces (blankPunctuation (toLowerCase text))).

(** The inner loop over [textWords]: the first text word that contains the
    query word, or is contained in it, adds [weights.partial] and ends the
    loop. *)
Fixpoint partialLoop (weights : Weights) (queryWord : string)
    (textWords : list string) (score : Z) : Z :=
  match textWords with
  | [] => score
  | textWord :: rest =>
      if includes textWord queryWord || includes queryWord textWord
      then score + w_partial weights
      else partialLoop weights queryWord rest score
  end.

(** The loop over [queryWords]. *)
Fixpoint wordLoop (weights : Weights) (queryWords textWords : list string)
    (score : Z) : Z :=
  match queryWords with
  | [] => score
  | queryWord :: rest =>
      let score :=
        if Set_has textWords queryWord then score + w_word weights
        else partialLoop weights queryWord textWords score in
      wordLoop weights rest textWords score
  end.

Definition calculateSearchScore (query text : string) (weights : Weights) : Z :=
  if isEmpty query || isEmpty text then 0 else
  let queryLower := toLowerCase query in
  let textLower := toLowerCase text in
  let score := 0 in
  let score :=
    if includes textLower queryLower
    then score + w_exact weights * strlen queryLower else score in
  let queryWords := tokenizeForSearch query in
  let textWords := Set_of (tokenizeForSearch text) in
  wordLoop weights queryWords textWords score.

(** ** The scoring rule as the specification words it

    [+weights.exact * len(query)] when the lower-cased query is a substring
    of the lower-cased text; and per query token, [+weights.word] if the
    token appears verbatim among the text tokens, else [+weights.partial] if
    some text token contains the query token or the other way round. *)
Definition tokenContribution (weights : Weights) (textTokens : list string)
    (token : string) : Z :=
  if existsb (String.eqb token) textTokens then w_word weights
  else if existsb (fun textToken =>
                     includes textToken token || includes token textToken)
            textTokens
       then w_partial weights
       else 0.

Definition sumZ (l : list Z) : Z := fold_right Z.add 0 l.


(** ** Notions used in the statements *)

Definition touches (token textToken : string) : bool :=
  includes textToken token || includes token textToken.

End Search.

(* ================================================================== *)
(** * Merging the candidates of the context matcher                    *)
(* ================================================================== *)

Module Matcher.
Import JS.

Record Snippet := {
  sn_id : string;
  sn_projectId : string;
  sn_code : string;
  sn_language : string;
  sn_description : string;
  sn_source : string;
  sn_createdAt : Z
}.

Record Knowledge := {
  kn_id : string;
  kn_projectId : string;
  kn_question : string;
  kn_answer : string;
  kn_source : string;
  kn_tags : list string;
  kn_createdAt : Z
}.

(** [item: Snippet | Knowledge] *)
Inductive Item :=
| ASnippet (s : Snippet)
| AKnowledge (k : Knowledge).

Definition itemId (it : Item) : string :=
  match it with
  | ASnippet s => sn_id s
  | AKnowledge k => kn_id k
  end.

Inductive ReasonType :=
| error_match | language_match | tag_match
| import_match | framework_match | text_similarity.

Record MatchReason := {
  mr_type : ReasonType;
  mr_confidence : Q;
  mr_details : string
}.

Inductive ResultType := snippet | knowledge.

Definition typeName (t : ResultType) : string :=
  match t with
  | snippet => "snippet"
  | knowledge => "knowledge"
  end.

Record MatchResult := {
  item : Item;
  type : ResultType;
  relevanceScore : Q;
  matchReasons : list MatchReason
}.

(** ** [Map<string, MatchResult>]

    A [Map] iterates in the order in which its keys were first set; setting
    a key that is present replaces the value where it stands. *)
Definition MapOf (V : Type) : Type := list (string * V).

Fixpoint Map_get {V} (m : MapOf V) (k : string) : option V :=
  match m with
  | [] => None
  | (k', v) :: m' => if String.eqb k' k then Some v else Map_get m' k
  end.

Fixpoint Map_set {V} (m : MapOf V) (k : string) (v : V) : MapOf V :=
  match m with
  | [] => [(k, v)]
  | (k', v') :: m' =>
      if String.eqb k' k then (k, v) :: m' else (k', v') :: Map_set m' k v
  end.

Definition Map_values {V} (m : MapOf V) : list V := map snd m.

(** [Math.max(a, b)] *)
Definition max (a b : Q) : Q := if Qle_bool a b then b else a.

(** ** [Array.prototype.sort] with a comparator: a stable sort.  [x] is put
    in front of the first element it does not have to follow. *)
Fixpoint insertSorted {A} (cmp : A -> A -> Q) (x : A) (l : list A) : list A :=
  match l with
  | [] => [x]
  | y :: l' =>
      if Qle_bool (cmp x y) 0 then x :: y :: l'
      else y :: insertSorted cmp x l'
  end.

Definition sort {A} (cmp : A -> A -> Q) (l : list A) : list A :=
  fold_right (insertSorted cmp) [] l.

(** ** [deduplicateAndSort] *)

(** [`${result.type}:${result.item.id}`] *)
Definition keyOf (result : MatchResult) : string :=
  typeName (type result) ++ ":" ++ itemId (item result).

(** The body of the loop over [results]. *)
Definition dedupStep (seen : MapOf MatchResult) (result : MatchResult)
    : MapOf MatchResult :=
  let key := keyOf result in
  match Map_get seen key with
  | None => Map_set seen key result
  | Some existing =>
      if Qgtb (relevanceScore result) (relevanceScore existing)
      then
        (* Merge reasons if we're updating *)
        let result :=
          {| item := item result; type := type result;
             relevanceScore := max (relevanceScore result) (relevanceScore existing);
             matchReasons := (matchReasons existing ++ matchReasons result)%list |} in
        Map_set seen key result
      else seen
  end.

Definition byScoreDescending (a b : MatchResult) : Q :=
  (relevanceScore b - relevanceScore a)%Q.

Definition deduplicateAndSort (results : list MatchResult) : list MatchResult :=
  let seen := fold_left dedupStep results [] in
  sort byScoreDescending (Map_values seen).

(** ** Notions used in the statements *)

Definition merged (existing result : MatchResult) : MatchResult :=
  {| item := item result; type := type result;
     relevanceScore := max (relevanceScore result) (relevanceScore existing);
     matchReasons := (matchReasons existing ++ matchReasons result)%list |}.

(** What the loop body does to the entry of the candidate's key. *)
Definition mergeEntry (entry : option MatchResult) (result : MatchResult)
    : option MatchResult :=
  match entry with
  | None => Some result
  | Some existing =>
      if Qgtb (relevanceScore result) (relevanceScore existing)
      then Some (merged existing result)
      else Some existing
  end.

Definition hasKey (k : string) (r : MatchResult) : bool := String.eqb (keyOf r) k.

(** Every key of the map is the key of its value, and no key occurs twice. *)
Definition Map_wf (m : MapOf MatchResult) : Prop :=
  NoDup (map fst m) /\ Forall (fun kv => keyOf (snd kv) = fst kv) m.

Definition descending (a b : MatchResult) : Prop :=
  (relevanceScore b <= relevanceScore a)%Q.

(** Invariant of the entry of key [k] while the candidates [cs] of that key
    are merged into it. *)
Definition entryOf (k : string) (cs : list MatchResult) (entry : option MatchResult)
    : Prop :=
  match entry with
  | None => cs = []
  | Some e =>
      keyOf e = k /\
      (exists c, c ∈ cs /\ relevanceScore c = relevanceScore e) /\
      Forall (fun c => (relevanceScore c <= relevanceScore e)%Q) cs
  end.

(** ** Sample data *)




End Matcher.

(* ================================================================== *)
(** * The sync client ([storage.js])                                   *)
(* ================================================================== *)

Module Client.
Import JS.

(** ** Data *)

(** Values of the settings store. *)
Inductive Value :=
| VNull
| VBool (b : bool)
| VNum (n : Z)
| VStr (s : string).

Definition truthy (v : Value) : bool :=
  match v with
  | VNull => false
  | VBool b => b
  | VNum n => negb (n =? 0)
  | VStr s => negb (isEmpty s)
  end.

(** [v || null] *)
Definition or_null (v : option Value) : Value :=
  match v with
  | Some v => if truthy v then v else VNull
  | None => VNull
  end.

Inductive StoreName := projects | snippets | knowledge.

(** ['pending'] and ['synced'] *)
Inductive SyncStatus := Pending | Synced.

(** A record of one of the three data stores.  The sync code reads and
    writes [id], [updatedAt], [syncStatus] and [lastSyncedAt]; all other
    properties travel in [fields]. *)
Record Row := {
  id : string;
  updatedAt : Z;
  syncStatus : option SyncStatus;
  lastSyncedAt : option Z;
  fields : string
}.

Inductive Operation := upsert | delete.

(** An entry of the [syncQueue] store; [si_id] is its auto-increment key. *)
Record SyncItem := {
  si_id : Z;
  storeName : StoreName;
  operation : Operation;
  data : Row;
  timestamp : Z;
  retries : Z
}.

(** The IndexedDB database.  [syncQueue] lists its entries in key order,
    which is the order in which [getAll] returns them. *)
Record IDB := {
  idb_projects : gmap string Row;
  idb_snippets : gmap string Row;
  idb_knowledge : gmap string Row;
  settings : gmap string Value;
  syncQueue : list SyncItem
}.

Definition objectStore (db : IDB) (s : StoreName) : gmap string Row :=
  match s with
  | projects => idb_projects db
  | snippets => idb_snippets db
  | knowledge => idb_knowledge db
  end.

Definition withObjectStore (db : IDB) (s : StoreName) (m : gmap string Row) : IDB :=
  match s with
  | projects =>
      {| idb_projects := m; idb_snippets := idb_snippets db;
         idb_knowledge := idb_knowledge db; settings := settings db;
         syncQueue := syncQueue db |}
  | snippets =>
      {| idb_projects := idb_projects db; idb_snippets := m;
         idb_knowledge := idb_knowledge db; settings := settings db;
         syncQueue := syncQueue db |}
  | knowledge =>
      {| idb_projects := idb_projects db; idb_snippets := idb_snippets db;
         idb_knowledge := m; settings := settings db;
         syncQueue := syncQueue db |}
  end.

Definition withSettings (db : IDB) (m : gmap string Value) : IDB :=
  {| idb_projects := idb_projects db; idb_snippets := idb_snippets db;
     idb_knowledge := idb_knowledge db; settings := m;
     syncQueue := syncQueue db |}.

Definition withSyncQueue (db : IDB) (q : list SyncItem) : IDB :=
  {| idb_projects := idb_projects db; idb_snippets := idb_snippets db;
     idb_knowledge := idb_knowledge db; settings := settings db;
     syncQueue := q |}.

(** The state of the module: the flag [isSyncing], what [initDB] resolves
    to ([None] when IndexedDB cannot be opened), and the two keys of
    [chrome.storage.local] that serve as fallback.  [requests] counts the
    storage requests made so far; it indexes the failures of the
    environment. *)
Record State := {
  isSyncing : bool;
  database : option IDB;
  devContextData : StoreName -> list Row;
  devContextSettings : gmap string Value;
  requests : nat
}.

Definition withIsSyncing (st : State) (b : bool) : State :=
  {| isSyncing := b; database := database st;
     devContextData := devContextData st;
     devContextSettings := devContextSettings st; requests := requests st |}.

Definition withDatabase (st : State) (db : IDB) : State :=
  {| isSyncing := isSyncing st; database := Some db;
     devContextData := devContextData st;
     devContextSettings := devContextSettings st; requests := requests st |}.

Definition withDevContextSettings (st : State) (m : gmap string Value) : State :=
  {| isSyncing := isSyncing st; database := database st;
     devContextData := devContextData st;
     devContextSettings := m; requests := requests st |}.

Definition withRequests (st : State) (n : nat) : State :=
  {| isSyncing := isSyncing st; database := database st;
     devContextData := devContextData st;
     devContextSettings := devContextSettings st; requests := n |}.

(** ** The world outside the module *)

Inductive FetchResult (Body : Type) :=
| NetworkError (message : string)          (* fetch rejects, or times out *)
| Response (status : Z) (body : Body).
Arguments NetworkError {Body}.
Arguments Response {Body}.

(** [changes] in the answer of the pull endpoint of [sync.ts]: rows of the
    three tables, which travel with their dates as ISO strings. *)
Record Changes := {
  changedProjects : list Server.ProjectRow;
  changedSnippets : list Server.SnippetRow;
  changedKnowledge : list Server.KnowledgeRow
}.

(** The body of a pull response, a JSON object; [None] is a property that
    is missing.  The client reads [cloudData[storeName]] for the three
    stores, whose rows are modelled with a number as [updatedAt].  The
    server of [sync.ts] answers with [syncVersion] and [changes]. *)
Record CloudData := {
  cd_projects : option (list Row);
  cd_snippets : option (list Row);
  cd_knowledge : option (list Row);
  cd_syncVersion : option Z;
  cd_changes : option Changes
}.

Definition cloudStore (c : CloudData) (s : StoreName) : option (list Row) :=
  match s with
  | projects => cd_projects c
  | snippets => cd_snippets c
  | knowledge => cd_knowledge c
  end.

(** [now] is the clock; [pushResponse] answers the POST of a queue item;
    [pullResponse] answers the GET, its body [None] when [response.json()]
    rejects; [storageFails n] tells whether the n-th storage request
    fails. *)
Record Env := {
  now : Z;
  pushResponse : SyncItem -> FetchResult unit;
  pullResponse : Value -> FetchResult (option CloudData);
  storageFails : nat -> bool
}.

(** [response.ok] *)
Definition ok (status : Z) : bool := (200 <=? status) && (status <=? 299).

(** ** Promises: state and exceptions *)

(** How an awaited promise ends: it is fulfilled, it is rejected, or it
    never settles, and what awaits it never goes on. *)
Inductive Outcome (A : Type) :=
| Return (a : A)
| Throw (message : string)
| Unsettled.
Arguments Return {A}.
Arguments Throw {A}.
Arguments Unsettled {A}.

Definition settled {A} (o : Outcome A) : bool :=
  match o with
  | Unsettled => false
  | _ => true
  end.

Definition M (A : Type) : Type := State -> Outcome A * State.

Definition ret {A} (a : A) : M A := fun st => (Return a, st).

Definition throw {A} (message : string) : M A := fun st => (Throw message, st).

Definition bind {A B} (m : M A) (k : A -> M B) : M B :=
  fun st =>
    match m st with
    | (Return a, st') => k a st'
    | (Throw e, st') => (Throw e, st')
    | (Unsettled, st') => (Unsettled, st')
    end.

Notation "'await' x <- m ; k" := (bind m (fun x => k))
  (at level 10, x name, m at level 100, k at level 200).
Notation "'run' m ; k" := (bind m (fun _ => k))
  (at level 10, m at level 100, k at level 200).

(** [try { body } catch (error) { handler(error.message) }] *)
Definition tryCatch {A} (body : M A) (handler : string -> M A) : M A :=
  fun st =>
    match body st with
    | (Return a, st') => (Return a, st')
    | (Throw e, st') => handler e st'
    | (Unsettled, st') => (Unsettled, st')
    end.

(** [try { body } finally { cleanup }]: the cleanup runs when the body
    has settled. *)
Definition tryFinally {A} (body : M A) (cleanup : M unit) : M A :=
  fun st =>
    match body st with
    | (Unsettled, st') => (Unsettled, st')
    | (r, st') =>
        match cleanup st' with
        | (Return _, st'') => (r, st'')
        | (Throw e, st'') => (Throw e, st'')
        | (Unsettled, st'') => (Unsettled, st'')
        end
    end.

Definition getState : M State := fun st => (Return st, st).

Definition setIsSyncing (b : bool) : M unit :=
  fun st => (Return tt, withIsSyncing st b).

(** ** Storage primitives *)

Section WithEnv.
Variable env : Env.

(** One storage request: it is rejected when the environment says so. *)
Definition request : M unit :=
  fun st =>
    let st' := withRequests st (S (requests st)) in
    if storageFails env (requests st)
    then (Throw "storage request failed", st')
    else (Return tt, st').

(** A storage request awaited through a promise that has no [onerror]:
    when the request fails the promise never settles. *)
Definition requestWithoutOnerror : M unit :=
  fun st =>
    let st' := withRequests st (S (requests st)) in
    if storageFails env (requests st)
    then (Unsettled, st')
    else (Return tt, st').

Definition initDB : M (option IDB) := fun st => (Return (database st), st).

Definition getSetting (key : string) : M Value :=
  await database <- initDB;
  run request;
  await st <- getState;
  match database with
  | None => ret (or_null (devContextSettings st !! key))
  | Some db => ret (or_null (settings db !! key))
  end.

Definition setSetting (key : string) (value : Value) : M Value :=
  await database <- initDB;
  run request;
  match database with
  | None =>
      fun st =>
        (Return value,
         withDevContextSettings st (<[key := value]> (devContextSettings st)))
  | Some db =>
      fun st =>
        (Return value, withDatabase st (withSettings db (<[key := value]> (settings db))))
  end.

Definition getById (storeName : StoreName) (id' : string) : M (option Row) :=
  await database <- initDB;
  run request;
  await st <- getState;
  match database with
  | None =>
      ret (List.find (fun item => String.eqb (id item) id') (devContextData st storeName))
  | Some db => ret (objectStore db storeName !! id')
  end.

(** [objectStore(storeName).put(data)] *)
Definition put (storeName : StoreName) (data : Row) : M unit :=
  fun st =>
    match database st with
    | None => (Return tt, st)
    | Some db =>
        (Return tt,
         withDatabase st
           (withObjectStore db storeName (<[id data := data]> (objectStore db storeName))))
    end.

(** [objectStore('syncQueue').delete(key)] *)
Definition deleteFromQueue (key : Z) : M unit :=
  fun st =>
    match database st with
    | None => (Return tt, st)
    | Some db =>
        (Return tt,
         withDatabase st
           (withSyncQueue db
              (List.filter (fun item => negb (si_id item =? key)) (syncQueue db))))
    end.

(** Save without queuing for sync (used when pulling from cloud). *)
Definition saveDataDirect (storeName : StoreName) (data : Row) : M unit :=
  await database <- initDB;
  match database with
  | None => ret tt
  | Some _ =>
      run request;
      put storeName data
  end.

(** ** [processSyncQueue] *)

Definition apiUrl : string := "https://devcontext-sync-api.fly.dev/api/v1".
Definition maxRetries : Z := 3.

Inductive PushResult :=
| PushMessage (synced : Z) (message : string)
| PushSummary (synced : Z) (pending : Z) (errors : list string).

Definition withSynced (existing : Row) : Row :=
  {| id := id existing; updatedAt := updatedAt existing;
     syncStatus := Some Synced; lastSyncedAt := Some (now env);
     fields := fields existing |}.

(** Update sync status of the record a pushed item was about. *)
Definition markSynced (item : SyncItem) : M unit :=
  run requestWithoutOnerror;
  await st <- getState;
  match database st with
  | None => ret tt
  | Some db =>
      match objectStore db (storeName item) !! id (data item) with
      | Some existing => put (storeName item) (withSynced existing)
      | None => ret tt
      end
  end.

(** How one round of the loop over [items] ends: the loop goes on with the
    counters it has, or the function returns. *)
Inductive Step :=
| Continue (synced : Z) (errors : list string)
| Exit (result : PushResult).

(** The body of the loop, inside its [try]/[catch]. *)
Definition pushItem (item : SyncItem) (synced : Z) (errors : list string) : M Step :=
  tryCatch
    (match pushResponse env item with
     | NetworkError message => throw message
     | Response status _ =>
         if ok status then
           (* Remove from sync queue *)
           run deleteFromQueue (si_id item);
           run (if negb (isEmpty (id (data item))) then markSynced item else ret tt);
           ret (Continue (synced + 1) errors)
         else if status =? 401 then
           (* Auth failed, stop syncing *)
           run setSetting "cloudSyncEnabled" (VBool false);
           ret (Exit (PushMessage synced "Authentication failed. Please re-login."))
         else
           (* item.retries++ : on the copy of the entry that getAll returned *)
           let retries' := retries item + 1 in
           if retries' >=? maxRetries then
             run deleteFromQueue (si_id item);
             ret (Continue synced
                    (errors ++ [("Failed to sync item after " ++ toString10 maxRetries
                                   ++ " retries")%string])%list)
           else ret (Continue synced errors)
     end)
    (fun message => ret (Continue synced (errors ++ [message])%list)).

Fixpoint pushLoop (count : Z) (items : list SyncItem) (synced : Z)
    (errors : list string) : M PushResult :=
  match items with
  | [] => ret (PushSummary synced (count - synced) errors)
  | item :: rest =>
      await step <- pushItem item synced errors;
      match step with
      | Continue synced errors => pushLoop count rest synced errors
      | Exit result => ret result
      end
  end.

(** [store.getAll()] on the [syncQueue] store. *)
Definition getAllQueue : M (list SyncItem) :=
  run requestWithoutOnerror;
  fun st =>
    match database st with
    | None => (Return [], st)
    | Some db => (Return (syncQueue db), st)
    end.

Definition processSyncQueue : M PushResult :=
  await st <- getState;
  (* Prevent concurrent sync operations *)
  if isSyncing st then ret (PushMessage 0 "Sync already in progress") else
  (* Check prerequisites before setting isSyncing to avoid leaving it stuck *)
  await isPremium <- getSetting "isPremium";
  await cloudSyncEnabled <- getSetting "cloudSyncEnabled";
  await authToken <- getSetting "cloudAuthToken";
  if negb (truthy isPremium) || negb (truthy cloudSyncEnabled) || negb (truthy authToken)
  then ret (PushMessage 0 "Cloud sync not enabled") else
  if isEmpty apiUrl then ret (PushMessage 0 "Cloud API not configured") else
  await database <- initDB;
  match database with
  | None => ret (PushMessage 0 "Database not available")
  | Some _ =>
      (* Set isSyncing only after all prerequisites pass *)
      run setIsSyncing true;
      tryFinally
        (await items <- getAllQueue;
         pushLoop (Z.of_nat (length items)) items 0 [])
        (setIsSyncing false)
  end.

(** ** [pullFromCloud] *)

Record Imported := {
  im_projects : Z;
  im_snippets : Z;
  im_knowledge : Z
}.

Definition bump (imported : Imported) (s : StoreName) : Imported :=
  match s with
  | projects =>
      {| im_projects := im_projects imported + 1;
         im_snippets := im_snippets imported;
         im_knowledge := im_knowledge imported |}
  | snippets =>
      {| im_projects := im_projects imported;
         im_snippets := im_snippets imported + 1;
         im_knowledge := im_knowledge imported |}
  | knowledge =>
      {| im_projects := im_projects imported;
         im_snippets := im_snippets imported;
         im_knowledge := im_knowledge imported + 1 |}
  end.

Inductive PullResult :=
| PullFailure (message : string)
| PullSuccess (imported : Imported).

(** [item.syncStatus = 'synced'; item.lastSyncedAt = Date.now()] *)
Definition stamped (item : Row) : Row :=
  {| id := id item; updatedAt := updatedAt item;
     syncStatus := Some Synced; lastSyncedAt := Some (now env);
     fields := fields item |}.

(** Cloud wins if newer, or if local doesn't exist. *)
Definition cloudWins (local : option Row) (item : Row) : bool :=
  match local with
  | None => true
  | Some local => updatedAt item >? or_zero (updatedAt local)
  end.

(** The body of the inner loop of the merge. *)
Definition mergeItem (storeName : StoreName) (imported : Imported) (item : Row)
    : M Imported :=
  await local <- getById storeName (id item);
  if cloudWins local item then
    run saveDataDirect storeName (stamped item);   (* Skip sync queue *)
    ret (bump imported storeName)
  else ret imported.

Fixpoint mergeItems (storeName : StoreName) (items : list Row)
    (imported : Imported) : M Imported :=
  match items with
  | [] => ret imported
  | item :: rest =>
      await imported <- mergeItem storeName imported item;
      mergeItems storeName rest imported
  end.

(** [cloudData[storeName] || []] *)
Definition pulledRows (cloudData : CloudData) (storeName : StoreName) : list Row :=
  match cloudStore cloudData storeName with
  | Some items => items
  | None => []
  end.

Fixpoint mergeStores (cloudData : CloudData) (stores : list StoreName)
    (imported : Imported) : M Imported :=
  match stores with
  | [] => ret imported
  | storeName :: rest =>
      let items := pulledRows cloudData storeName in
      await imported <- mergeItems storeName items imported;
      mergeStores cloudData rest imported
  end.

Definition stores : list StoreName := [projects; snippets; knowledge].

Definition pullFromCloud : M PullResult :=
  await st <- getState;
  (* Prevent concurrent sync operations *)
  if isSyncing st then ret (PullFailure "Sync already in progress") else
  (* Check prerequisites before setting isSyncing to avoid leaving it stuck *)
  await isPremium <- getSetting "isPremium";
  await authToken <- getSetting "cloudAuthToken";
  if negb (truthy isPremium) || negb (truthy authToken) || isEmpty apiUrl
  then ret (PullFailure "Cloud sync not available") else
  await lastPullAt <- getSetting "lastCloudPullAt";
  let lastPullAt := if truthy lastPullAt then lastPullAt else VNum 0 in
  (* Set isSyncing only after all prerequisites pass *)
  run setIsSyncing true;
  tryFinally
    (tryCatch
       (match pullResponse env lastPullAt with
        | NetworkError message => throw message
        | Response status body =>
            if negb (ok status) then throw ("HTTP " ++ toString10 status) else
            match body with
            | None => throw "Unexpected end of JSON input"
            | Some cloudData =>
                (* Merge cloud data with local *)
                await imported <-
                  mergeStores cloudData stores
                    {| im_projects := 0; im_snippets := 0; im_knowledge := 0 |};
                run setSetting "lastCloudPullAt" (VNum (now env));
                ret (PullSuccess imported)
            end
        end)
       (fun message => ret (PullFailure message)))
    (setIsSyncing false).

End WithEnv.

(** ** Sync cycles *)

Inductive Call := CallProcessSyncQueue | CallPullFromCloud.

(** The state after a call. *)
Definition after (env : Env) (c : Call) (st : State) : State :=
  match c with
  | CallProcessSyncQueue => snd (processSyncQueue env st)
  | CallPullFromCloud => snd (pullFromCloud env st)
  end.

(** The state after a sequence of calls, each in its own environment. *)
Definition afterAll (calls : list (Env * Call)) (st : State) : State :=
  fold_left (fun st ec => after (fst ec) (snd ec) st) calls st.

(** ** Notions used in the statements *)

(** A computation that, started with the flag down, ends with the flag
    down when it settles, whether it returns or throws. *)
Definition releases {A} (m : M A) : Prop :=
  forall st, isSyncing st = false -> settled (fst (m st)) = true ->
             isSyncing (snd (m st)) = false.

(** A computation that settles: it returns or throws. *)
Definition settles {A} (m : M A) : Prop :=
  forall st, settled (fst (m st)) = true.

(** A computation that does not touch the flag. *)
Definition keepsFlag {A} (m : M A) : Prop :=
  forall st, isSyncing (snd (m st)) = isSyncing st.

(** [n] sync cycles of the queue, one after the other. *)
Fixpoint pushCycles (env : Env) (n : nat) (st : State) : State :=
  match n with
  | O => st
  | S n' => after env CallProcessSyncQueue (pushCycles env n' st)
  end.

(** Every storage request succeeds. *)
Definition noFailures (env : Env) : Prop := forall n, storageFails env n = false.

(** What the merge does to an open database for one pulled row. *)
Definition mergeRow (env : Env) (s : StoreName) (db : IDB) (item : Row) : IDB :=
  if cloudWins (objectStore db s !! id item) item
  then withObjectStore db s (<[id item := stamped env item]> (objectStore db s))
  else db.

(** ... and for all pulled rows of one store. *)
Definition mergeStore (env : Env) (cloudData : CloudData) (db : IDB) (s : StoreName)
    : IDB :=
  fold_left (mergeRow env s) (pulledRows cloudData s) db.

(** Last write wins: what the store holds for a pulled row [R] whose local
    counterpart is [local]. *)
Definition lastWriteWins (env : Env) (local : option Row) (R : Row) : Row :=
  match local with
  | Some L => if updatedAt R >? updatedAt L then stamped env R else L
  | None => stamped env R
  end.

(** The [since] that the client sends. *)
Definition lastPullAtOf (db : IDB) : Value :=
  let v := or_null (settings db !! "lastCloudPullAt") in
  if truthy v then v else VNum 0.

(** ** Sample data *)

Definition premiumSettings : gmap string Value :=
  {[ "isPremium" := VBool true; "cloudSyncEnabled" := VBool true;
     "cloudAuthToken" := VStr "token" ]}.

Definition aRow (id' : string) (t : Z) (text : string) : Row :=
  {| id := id'; updatedAt := t; syncStatus := Some Pending;
     lastSyncedAt := None; fields := text |}.

(** The entry that [queueForSync] made for snippet s1. *)
Definition queuedItem : SyncItem :=
  {| si_id := 1; storeName := snippets; operation := upsert;
     data := aRow "s1" 100 "local"; timestamp := 100; retries := 0 |}.

Definition queuedDB : IDB :=
  {| idb_projects := ∅; idb_snippets := {[ "s1" := aRow "s1" 100 "local" ]};
     idb_knowledge := ∅; settings := premiumSettings;
     syncQueue := [queuedItem] |}.

(** A client that is not syncing and has made [n] storage requests. *)
Definition clientOf (database : option IDB) (n : nat) : State :=
  {| isSyncing := false; database := database;
     devContextData := fun _ => []; devContextSettings := premiumSettings;
     requests := n |}.

(** A server that answers every push with 500, and storage that works. *)
Definition failingServer : Env :=
  {| now := 200;
     pushResponse := fun _ => Response 500 tt;
     pullResponse := fun _ => Response 500 None;
     storageFails := fun _ => false |}.

(** Storage whose fourth request fails: for a client that has made no
    request yet, the read of the sync queue that follows the three
    settings. *)
Definition failingQueueRead : Env :=
  {| now := 200;
     pushResponse := fun _ => Response 200 tt;
     pullResponse := fun _ => Response 500 None;
     storageFails := fun n => Nat.eqb n 3 |}.

(** A server whose pull answer carries two snippets: s1, newer than the
    local copy, and s9, which the client does not have. *)
Definition pulledS1 : Row :=
  {| id := "s1"; updatedAt := 500; syncStatus := None; lastSyncedAt := None;
     fields := "cloud" |}.

Definition pulledS9 : Row :=
  {| id := "s9"; updatedAt := 400; syncStatus := None; lastSyncedAt := None;
     fields := "cloud" |}.

Definition answeringServer : Env :=
  {| now := 900;
     pushResponse := fun _ => Response 200 tt;
     pullResponse := fun _ =>
       Response 200 (Some {| cd_projects := None;
                             cd_snippets := Some [pulledS1; pulledS9];
                             cd_knowledge := None;
                             cd_syncVersion := None; cd_changes := None |});
     storageFails := fun _ => false |}.



End Client.

(* ================================================================== *)
(** * The pull endpoint of the server ([routes/sync.ts])               *)
(* ================================================================== *)

Module Pull.
Import JS Server.

(** ** [parseInt(s, 10)]

    Leading white space is skipped, a sign is read, and the digits up to
    the first other character are the value; [None] is [NaN], the result
    when there is no digit.  (The value is kept exact.) *)
Definition isDigit (c : ascii) : bool :=
  (48 <=? charCode c) && (charCode c <=? 57).

Fixpoint digitsValue (acc : Z) (s : string) : Z :=
  match s with
  | EmptyString => acc
  | String c s' =>
      if isDigit c then digitsValue (10 * acc + (charCode c - 48)) s' else acc
  end.

Definition unsignedInt (s : string) : option Z :=
  match s with
  | EmptyString => None
  | String c _ => if isDigit c then Some (digitsValue 0 s) else None
  end.

Definition parseInt (s : string) : option Z :=
  match trimStart s with
  | String "-" rest => option_map Z.opp (unsignedInt rest)
  | String "+" rest => unsignedInt rest
  | rest => unsignedInt rest
  end.

(** ** [syncPullSchema] *)

(** The query string of the request. *)
Record PullQuery := {
  q_since : option string;
  q_projectId : option string;
  q_deviceId : option string
}.

(** The transform of [since]: prevent negative values and NaN. *)
Definition sinceVersion (val : option string) : Z :=
  let val := match val with
             | Some v => if isEmpty v then "0" else v
             | None => "0"
             end in
  match parseInt val with
  | None => 0
  | Some num => if num <? 0 then 0 else num
  end.

Definition syncPullSchema (q : PullQuery) : bool :=
  opt_ok (len_between 0 50) (q_projectId q)
  && opt_ok (len_between 0 100) (q_deviceId q).

(** An optional string that is present and not empty. *)
Definition given (o : option string) : option string :=
  match o with
  | Some s => if isEmpty s then None else Some s
  | None => None
  end.

(** ** Queries *)

(** [db.select().from(table).where(condition)]: the rows of the table that
    meet the condition.  SQL leaves their order open; they are listed in
    the order in which the map enumerates its keys. *)
Definition selectWhere {Row} (table : gmap string Row) (condition : Row -> bool)
    : list Row :=
  List.filter condition (map snd (map_to_list table)).

(** [MAX(sync_version)] over the sessions of a user; [None] is SQL's null,
    the maximum of no row. *)
Definition maxVersion (sessions : list SessionRow) (userId : string) : option Z :=
  fold_left
    (fun acc s =>
       if bool_decide (ss_userId s = userId)
       then match acc with
            | None => Some (ss_syncVersion s)
            | Some m => Some (Z.max m (ss_syncVersion s))
            end
       else acc)
    sessions None.

(** ** Responses of [router.get('/pull')] *)

Inductive PullResponse :=
| PullNotAuthenticated                                  (* 401 *)
| InvalidQueryParameters                                (* 400 *)
| ProjectNotFound                                       (* 404 *)
| PullOk (syncVersion : Z) (changedProjects : list ProjectRow)
         (changedSnippets : list SnippetRow)
         (changedKnowledge : list KnowledgeRow)         (* 200 *)
| PullFailed.                                           (* 500 *)

Definition pullStatus (r : PullResponse) : Z :=
  match r with
  | PullNotAuthenticated => 401
  | InvalidQueryParameters => 400
  | ProjectNotFound => 404
  | PullOk _ _ _ _ => 200
  | PullFailed => 500
  end.

(** The greatest value of the column type of [sync_version], [integer]. *)
Definition maxInteger : Z := 2147483647.

(** ** [router.get('/pull')]

    The values of the query string are strings.  A [since] beyond the range
    of [sync_version] makes the three selects fail, which the handler
    answers with 500; no other failure of the database is modelled. *)
Definition pull (user : option string) (q : PullQuery) (db : DB) : PullResponse :=
  match given user with
  | None => PullNotAuthenticated
  | Some userId =>
    if negb (syncPullSchema q) then InvalidQueryParameters else
    let sinceVersion := sinceVersion (q_since q) in
    (* Build base conditions *)
    let projectConditions (p : ProjectRow) :=
      bool_decide (p_userId p = userId) && (p_syncVersion p >? sinceVersion) in
    let snippetBase (s : SnippetRow) :=
      bool_decide (s_userId s = userId) && (s_syncVersion s >? sinceVersion) in
    let knowledgeBase (k : KnowledgeRow) :=
      bool_decide (k_userId k = userId) && (k_syncVersion k >? sinceVersion) in
    (* Optional: filter by specific project *)
    let filtered :=
      match given (q_projectId q) with
      | None => Some (snippetBase, knowledgeBase)
      | Some projectId =>
          (* Validate project ownership *)
          if ownsProject db userId projectId
          then Some
                 (fun s => snippetBase s && bool_decide (s_projectId s = projectId),
                  fun k => knowledgeBase k && bool_decide (k_projectId k = projectId))
          else None
      end in
    match filtered with
    | None => ProjectNotFound
    | Some (snippetConditions, knowledgeConditions) =>
        if maxInteger <? sinceVersion then PullFailed else
        let changedProjects := selectWhere (projects db) projectConditions in
        let changedSnippets := selectWhere (snippets db) snippetConditions in
        let changedKnowledge := selectWhere (knowledge db) knowledgeConditions in
        (* Get sync version for this user's device (if specified) or highest version *)
        let currentSyncVersion :=
          match given (q_deviceId q) with
          | Some deviceId =>
              match List.find (sessionOf userId deviceId) (syncSessions db) with
              | Some session => or_zero (ss_syncVersion session)
              | None => 0
              end
          | None =>
              match maxVersion (syncSessions db) userId with
              | Some m => or_zero m
              | None => 0
              end
          end in
        PullOk currentSyncVersion changedProjects changedSnippets changedKnowledge
    end
  end.

(** ** Notions used in the statements *)

(** A row as a push of user [U] with version [v] at time [now] leaves it. *)
Definition stampedRow {Row} (owner : Row -> string) (version written : Row -> Z)
    (U : string) (v now : Z) (r : Row) : Prop :=
  owner r = U /\ version r = v /\ written r = now.

(** What one [ON CONFLICT] upsert of [excluded] leaves under its id, given
    the row that was there. *)
Definition upserted {Row} (owner : Row -> string)
    (onConflictSet : Row -> Row -> Row) (U : string)
    (existing : option Row) (excluded : Row) : Row :=
  match existing with
  | None => excluded
  | Some e => if bool_decide (owner e = U) then onConflictSet e excluded else e
  end.

(** The columns of a row that no push changes. *)
Definition sameProject (a b : ProjectRow) : Prop :=
  p_id a = p_id b /\ p_userId a = p_userId b /\ p_createdAt a = p_createdAt b.

Definition sameSnippet (a b : SnippetRow) : Prop :=
  s_id a = s_id b /\ s_userId a = s_userId b /\ s_projectId a = s_projectId b
  /\ s_createdAt a = s_createdAt b.

Definition sameKnowledge (a b : KnowledgeRow) : Prop :=
  k_id a = k_id b /\ k_userId a = k_userId b /\ k_projectId a = k_projectId b
  /\ k_createdAt a = k_createdAt b.

(** A pull of everything newer than [since], for one device. *)
Definition pullFor (since : option string) (device : option string) : PullQuery :=
  {| q_since := since; q_projectId := None; q_deviceId := device |}.

(** ** Sample data *)

(** The database after the three pushes of [threePushes]. *)
Definition afterThreePushes : DB := snd (serveAll emptyDB threePushes).

(** A push of user u1 from device A: a project and a snippet in it. *)
Definition firstPush : PushBody :=
  aBody "devA" [aProject "p1" "Main"] [aSnippet "s1" "p1" "const x = 1;"].

End Pull.

(* ================================================================== *)
(** * What the sync client keeps and changes ([storage.js])            *)
(* ================================================================== *)

Module Sync.
Import JS Client.

(** ** The pull endpoint of [sync.ts] as this client meets it *)

(** A body with none of the properties of [CloudData], as
    [{ error: ... }]. *)
Definition errorBody : CloudData :=
  {| cd_projects := None; cd_snippets := None; cd_knowledge := None;
     cd_syncVersion := None; cd_changes := None |}.

(** What the endpoint sends for an outcome of its handler: [res.json(...)]
    and [res.status(...).json(...)]. *)
Definition pullAnswer (r : Pull.PullResponse) : FetchResult (option CloudData) :=
  match r with
  | Pull.PullOk currentSyncVersion changedProjects changedSnippets changedKnowledge =>
      Response 200
        (Some {| cd_projects := None; cd_snippets := None; cd_knowledge := None;
                 cd_syncVersion := Some currentSyncVersion;
                 cd_changes :=
                   Some {| changedProjects := changedProjects;
                           changedSnippets := changedSnippets;
                           changedKnowledge := changedKnowledge |} |})
  | _ => Response (Pull.pullStatus r) (Some errorBody)
  end.

(** [`${lastPullAt}`]: the client stores a number under [lastCloudPullAt];
    a string would be sent as it is. *)
Definition sinceOf (lastPullAt : Value) : string :=
  match lastPullAt with
  | VNull => "null"
  | VBool true => "true"
  | VBool false => "false"
  | VNum n => toString10 n
  | VStr s => s
  end.

(** The query of [GET /sync/pull?since=${lastPullAt}]. *)
Definition pullQuery (lastPullAt : Value) : Pull.PullQuery :=
  Pull.pullFor (Some (sinceOf lastPullAt)) None.

(** The pull endpoint with the database [db], answering the requests of
    [user] at the time [now] of the client; storage works.
    ([pushResponse] plays no part in a pull: no route of [sync.ts] answers
    the POST of the client.) *)
Definition pullEndpoint (now : Z) (user : option string) (db : Server.DB) : Env :=
  {| now := now;
     pushResponse := fun _ => Response 404 tt;
     pullResponse := fun lastPullAt =>
       pullAnswer (Pull.pull user (pullQuery lastPullAt) db);
     storageFails := fun _ => false |}.


(** ** Notions used in the statements *)

(** A computation whose final state is related to its initial state,
    whether it returns, throws or never settles. *)
Definition preserves {A} (R : State -> State -> Prop) (m : M A) : Prop :=
  forall st, R st (snd (m st)).

(** The entries of the [syncQueue] store. *)
Definition queueOf (st : State) : list SyncItem :=
  match database st with
  | Some db => syncQueue db
  | None => []
  end.

(** The record of a data store of IndexedDB under a key. *)
Definition recordOf (st : State) (s : StoreName) (k : string) : option Row :=
  match database st with
  | Some db => objectStore db s !! k
  | None => None
  end.

(** The stored value of a setting, where [getSetting] looks for it. *)
Definition settingOf (st : State) (key : string) : option Value :=
  match database st with
  | Some db => settings db !! key
  | None => devContextSettings st !! key
  end.

(** [keyPath: 'id']: a record is stored under its own id. *)
Definition keyed (db : IDB) : Prop :=
  forall s k r, objectStore db s !! k = Some r -> id r = k.

Definition keyedState (st : State) : Prop :=
  forall s k r, recordOf st s k = Some r -> id r = k.

(** Two records that differ at most in their sync status. *)
Definition sameContent (a b : Row) : Prop :=
  id a = id b /\ updatedAt a = updatedAt b /\ fields a = fields b.

Definition sameRecord (o o' : option Row) : Prop :=
  match o, o' with
  | Some r, Some r' => sameContent r r'
  | None, None => True
  | _, _ => False
  end.

(** What a pull leaves alone: the sync queue, every setting but the time
    of the last pull, and the fallback data; no record is removed or
    replaced by an older one, and every record written is marked synced. *)
Definition pullKeeps (st st' : State) : Prop :=
  queueOf st' = queueOf st /\
  (forall key, key <> "lastCloudPullAt" -> settingOf st' key = settingOf st key) /\
  devContextData st' = devContextData st /\
  (forall s k r, recordOf st s k = Some r ->
     exists r', recordOf st' s k = Some r' /\ updatedAt r <= updatedAt r') /\
  (forall s k r', recordOf st' s k = Some r' ->
     recordOf st s k = Some r' \/ syncStatus r' = Some Synced).

(** What a run of the sync queue leaves alone: no entry is added to the
    queue or changed in it, every setting but [cloudSyncEnabled] is kept,
    and the data stores hold the same records with the same content. *)
Definition pushKeeps (st st' : State) : Prop :=
  (forall item, item ∈ queueOf st' -> item ∈ queueOf st) /\
  (forall key, key <> "cloudSyncEnabled" -> settingOf st' key = settingOf st key) /\
  devContextData st' = devContextData st /\
  (keyedState st ->
   keyedState st' /\ forall s k, sameRecord (recordOf st s k) (recordOf st' s k)).

(** The sync queue, the data stores and the fallback data are what they
    were. *)
Definition sameData (st st' : State) : Prop :=
  queueOf st' = queueOf st /\
  devContextData st' = devContextData st /\
  forall s k, recordOf st' s k = recordOf st s k.

(** The three settings [processSyncQueue] asks for. *)
Definition syncEnabled (db : IDB) : Prop :=
  truthy (or_null (settings db !! "isPremium")) = true /\
  truthy (or_null (settings db !! "cloudSyncEnabled")) = true /\
  truthy (or_null (settings db !! "cloudAuthToken")) = true.

(** The two settings [pullFromCloud] asks for. *)
Definition pullEnabled (db : IDB) : Prop :=
  truthy (or_null (settings db !! "isPremium")) = true /\
  truthy (or_null (settings db !! "cloudAuthToken")) = true.

(** The database after the server accepted [item]: the entry has left the
    queue, and the record it was about, if there is one, is marked synced. *)
Definition dequeued (db : IDB) (item : SyncItem) : IDB :=
  withSyncQueue db
    (List.filter (fun i => negb (si_id i =? si_id item)) (syncQueue db)).

Definition acknowledged (env : Env) (db : IDB) (item : SyncItem) : IDB :=
  if negb (isEmpty (id (data item))) then
    match objectStore (dequeued db item) (storeName item) !! id (data item) with
    | Some existing =>
        withObjectStore (dequeued db item) (storeName item)
          (<[id (withSynced env existing) := withSynced env existing]>
             (objectStore (dequeued db item) (storeName item)))
    | None => dequeued db item
    end
  else dequeued db item.

(** The store holds a record for the pulled row [R] that is not older. *)
Definition covers (db : IDB) (s : StoreName) (R : Row) : Prop :=
  exists L, objectStore db s !! id R = Some L /\ updatedAt R <= updatedAt L.

(** The counters of a pull that imported nothing. *)
Definition noImport : Imported :=
  {| im_projects := 0; im_snippets := 0; im_knowledge := 0 |}.

(** ** Sample data *)

(** A server that accepts every push, and storage that works. *)
Definition acceptingServer : Env :=
  {| now := 700;
     pushResponse := fun _ => Response 200 tt;
     pullResponse := fun _ => Response 200 None;
     storageFails := fun _ => false |}.

(** A server that answers every push with 401. *)
Definition rejectingServer : Env :=
  {| now := 700;
     pushResponse := fun _ => Response 401 tt;
     pullResponse := fun _ => Response 401 None;
     storageFails := fun _ => false |}.

End Sync.

(* ================================================================== *)
(** * Search over the local stores ([storage.js])                      *)
(* ================================================================== *)

Module Finder.
Import JS Dedup Search.

(** ** Records as the search reads them

    A property that a record may lack is an [option]. *)
Record SnippetRecord := {
  sr_id : string;
  sr_projectId : string;
  sr_code : string;
  sr_description : option string;
  sr_language : option string
}.

Record KnowledgeRecord := {
  kr_id : string;
  kr_projectId : string;
  kr_question : string;
  kr_answer : string;
  kr_tags : option (list string)
}.

(** [{ limit, minScore }]; [None] is a property that is not given. *)
Record Options := {
  limit : option Z;
  minScore : option Z
}.

Definition orDefault (o : option Z) (default : Z) : Z :=
  match o with Some v => v | None => default end.

(** [calculateSearchScore(query, text, weights)] for a [text] that may be
    undefined. *)
Definition scoreOf (query : string) (text : option string) (weights : Weights) : Z :=
  match text with
  | Some text => calculateSearchScore query text weights
  | None => 0
  end.

(** [l.slice(0, n)] *)
Definition slice0 {A} (n : Z) (l : list A) : list A :=
  if n <? 0
  then firstn (Z.to_nat (Z.max (Z.of_nat (length l) + n) 0)) l
  else firstn (Z.to_nat n) l.

(** [l.sort((a, b) => score(b) - score(a))] *)
Definition byScore {A} (score : A -> Z) (a b : A) : Q := inject_Z (score b - score a).

Definition sortByScore {A} (score : A -> Z) (l : list A) : list A :=
  Matcher.sort (byScore score) l.

(** The records searched: those of the project when one is given. *)
Definition recordsOf {A} (projectIdOf : A -> string) (store : list A)
    (projectId : option string) : list A :=
  match projectId with
  | Some p => if isEmpty p then store else getByProjectId projectIdOf store p
  | None => store
  end.

(** ** [searchSnippets] *)

Inductive SnippetField := code | description.

Record SnippetHit := {
  sh_snippet : SnippetRecord;
  sh_searchScore : Z;
  sh_matchType : SnippetField
}.

Definition codeScore (query : string) (snippet : SnippetRecord) : Z :=
  calculateSearchScore query (sr_code snippet)
    {| w_exact := 15; w_word := 5; w_partial := 2 |}.

Definition descScore (query : string) (snippet : SnippetRecord) : Z :=
  scoreOf query (sr_description snippet)
    {| w_exact := 10; w_word := 3; w_partial := 1 |}.

Definition langScore (query : string) (snippet : SnippetRecord) : Z :=
  match sr_language snippet with
  | Some language =>
      if includes (toLowerCase language) (toLowerCase query) then 5 else 0
  | None => 0
  end.

Definition snippetHit (query : string) (snippet : SnippetRecord) : SnippetHit :=
  {| sh_snippet := snippet;
     sh_searchScore := codeScore query snippet + descScore query snippet
                       + langScore query snippet;
     sh_matchType := if codeScore query snippet >? descScore query snippet
                     then code else description |}.

Definition searchSnippets (store : list SnippetRecord) (query : string)
    (projectId : option string) (options : Options) : list SnippetHit :=
  let limit := orDefault (limit options) 20 in
  let minScore := orDefault (minScore options) 1 in
  let snippets := recordsOf sr_projectId store projectId in
  slice0 limit
    (sortByScore sh_searchScore
       (List.filter (fun item => sh_searchScore item >=? minScore)
          (map (snippetHit query) snippets))).

(** ** [searchKnowledge] *)

Inductive KnowledgeField := question | answer.

Record KnowledgeHit := {
  kh_item : KnowledgeRecord;
  kh_searchScore : Z;
  kh_matchType : KnowledgeField
}.

Definition questionScore (query : string) (item : KnowledgeRecord) : Z :=
  calculateSearchScore query (kr_question item)
    {| w_exact := 12; w_word := 4; w_partial := 1 |}.

Definition answerScore (query : string) (item : KnowledgeRecord) : Z :=
  calculateSearchScore query (kr_answer item)
    {| w_exact := 10; w_word := 3; w_partial := 1 |}.

Definition tagScore (query : string) (item : KnowledgeRecord) : Z :=
  match kr_tags item with
  | Some tags =>
      if existsb (fun t => includes (toLowerCase t) (toLowerCase query)) tags
      then 5 else 0
  | None => 0
  end.

Definition knowledgeHit (query : string) (item : KnowledgeRecord) : KnowledgeHit :=
  {| kh_item := item;
     kh_searchScore := questionScore query item + answerScore query item
                       + tagScore query item;
     kh_matchType := if questionScore query item >? answerScore query item
                     then question else answer |}.

Definition searchKnowledge (store : list KnowledgeRecord) (query : string)
    (projectId : option string) (options : Options) : list KnowledgeHit :=
  let limit := orDefault (limit options) 20 in
  let minScore := orDefault (minScore options) 1 in
  let knowledge := recordsOf kr_projectId store projectId in
  slice0 limit
    (sortByScore kh_searchScore
       (List.filter (fun item => kh_searchScore item >=? minScore)
          (map (knowledgeHit query) knowledge))).

(** ** [searchAll] *)




(** ** Notions used in the statements *)

(** The hash of [hashContent] without the 32-bit wrap-around: the
    polynomial in 31 with the character codes as coefficients. *)
Fixpoint polynomial31 (acc : Z) (str : string) : Z :=
  match str with
  | EmptyString => acc
  | String c str' => polynomial31 (31 * acc + charCode c) str'
  end.

(** A list in descending order of score. *)
Definition descendingBy {A} (score : A -> Z) (l : list A) : Prop :=
  StronglySorted (fun a b => score b <= score a) l.

(** The snippets a search looks at, and the knowledge items. *)
Definition inScope {A} (projectIdOf : A -> string) (store : list A)
    (projectId : option string) (x : A) : Prop :=
  x ∈ store /\
  forall p, projectId = Some p -> p <> "" -> projectIdOf x = p.

(** A string without white space at either end, with single spaces for
    white space, and without upper-case letters. *)
Definition normalized (s : string) : Prop := normalizeContent s = s.

(** The words of a normalized string that the similarity counts. *)
Definition wordsOf (s : string) : list string :=
  Set_of (List.filter longWord (splitOnSpace s)).

(** A query token and a text token that match as a word or in part. *)
Definition matchingTokens (query text : string) : Prop :=
  exists q t, q ∈ tokenizeForSearch query /\ t ∈ tokenizeForSearch text /\
              touches q t = true.

(** ** Sample data *)

Definition fetchSnippet : SnippetRecord :=
  {| sr_id := "s1"; sr_projectId := "P"; sr_code := "fetch(url).then(parse)";
     sr_description := Some "Fetch JSON from the API"; sr_language := Some "javascript" |}.

Definition sortSnippet : SnippetRecord :=
  {| sr_id := "s2"; sr_projectId := "P"; sr_code := "items.sort(compare)";
     sr_description := None; sr_language := None |}.

Definition fetchAnswer : KnowledgeRecord :=
  {| kr_id := "k1"; kr_projectId := "P"; kr_question := "How to fetch with a timeout?";
     kr_answer := "Use an AbortController"; kr_tags := Some ["fetch"; "http"] |}.

Definition defaults : Options := {| limit := None; minScore := None |}.

End Finder.

(* ================================================================== *)
(** * The context matcher ([ContextMatcher])                           *)
(* ================================================================== *)

Module Context.
Import JS Matcher.

(** ** [MATCH_WEIGHTS] (the weights of the matchers modelled here) *)

Definition MATCH_WEIGHTS_language_exact : Z := 30.
Definition MATCH_WEIGHTS_tag_match : Z := 25.
Definition MATCH_WEIGHTS_import_match : Z := 20.
Definition MATCH_WEIGHTS_framework_match : Z := 15.
Definition MATCH_WEIGHTS_recency_bonus : Z := 5.

Definition SEVEN_DAYS_MS : Z := 7 * 24 * 60 * 60 * 1000.

(** ** Small helpers *)

(** [l.join(sep)] *)
Fixpoint join (sep : string) (l : list string) : string :=
  match l with
  | [] => ""
  | [x] => x
  | x :: l' => x ++ sep ++ join sep l'
  end.

(** [text.split(/\W+/)]: the pieces between maximal runs of characters
    that are not word characters; a run at either end leaves an empty
    piece there. *)
Definition startsWithNonWord (s : string) : bool :=
  match s with EmptyString => false | String c _ => negb (isWordChar c) end.

Fixpoint splitOnNonWord (s : string) : list string :=
  match s with
  | EmptyString => [EmptyString]
  | String c s' =>
      match splitOnNonWord s' with
      | w :: ws =>
          if negb (isWordChar c)
          then if startsWithNonWord s' then w :: ws else EmptyString :: w :: ws
          else String c w :: ws
      | [] => []
      end
  end.

Definition tokenize (text : string) : list string :=
  map toLowerCase (List.filter (fun word => 2 <? strlen word) (splitOnNonWord text)).

(** The ratio is kept exact. *)
Definition calculateJaccardSimilarity (set1 set2 : list string) : Q :=
  let a := Set_of set1 in
  let b := Set_of set2 in
  let intersection := length (List.filter (Set_has b) a) in
  let union := length (Set_of (a ++ b)%list) in
  if (union =? 0)%nat then 0%Q
  else (Z.of_nat intersection # Pos.of_nat union)%Q.

(** [importPath.split('/')[0]] *)
Fixpoint beforeSlash (s : string) : string :=
  match s with
  | EmptyString => EmptyString
  | String c s' => if Ascii.eqb c "/" then EmptyString else String c (beforeSlash s')
  end.

Definition normalizeImport (importPath : string) : string :=
  toLowerCase (beforeSlash importPath).

(** [Date.now()] is [now]: one reading of the clock for a call. *)
Definition getRecencyBonus (now createdAt : Z) : Z :=
  let age := now - createdAt in
  if age <? SEVEN_DAYS_MS then MATCH_WEIGHTS_recency_bonus else 0.

(** ** The two regular expressions of [extractCodeImports]

    Neither expression can match in two ways at one position, so a match
    is found by reading the string from left to right. *)

(** ['] or the double quote *)
Definition isQuote (c : ascii) : bool := (charCode c =? 39) || (charCode c =? 34).

(** A literal at the start of [s]; the rest of [s] after it. *)
Fixpoint literal (lit s : string) : option string :=
  match lit, s with
  | EmptyString, _ => Some s
  | String _ _, EmptyString => None
  | String a lit', String b s' => if Ascii.eqb a b then literal lit' s' else None
  end.

(** [\s+]: one white space at least. *)
Definition spaces1 (s : string) : option string :=
  match s with
  | String c s' => if isSpace c then Some (trimStart s') else None
  | EmptyString => None
  end.

(** A run of characters that are no quotes, and the quote that ends it:
    the run, and what follows the quote. *)
Fixpoint untilQuote (s : string) : option (string * string) :=
  match s with
  | EmptyString => None
  | String c s' =>
      if isQuote c then Some (EmptyString, s')
      else match untilQuote s' with
           | Some (w, rest) => Some (String c w, rest)
           | None => None
           end
  end.

(** A quote, one character at least that is no quote, and a quote: the
    group that both expressions capture. *)
Definition quoted (s : string) : option (string * string) :=
  match s with
  | String c s' =>
      if isQuote c
      then match untilQuote s' with
           | Some (w, rest) => if isEmpty w then None else Some (w, rest)
           | None => None
           end
      else None
  | EmptyString => None
  end.

(** The expression for imports at the start of [s]: [import] or [from],
    white space, and the quoted group. *)
Definition importAt (s : string) : option (string * string) :=
  let afterKeyword (rest : option string) :=
    match rest with
    | Some rest =>
        match spaces1 rest with
        | Some rest => quoted rest
        | None => None
        end
    | None => None
    end in
  match afterKeyword (literal "import" s) with
  | Some m => Some m
  | None => afterKeyword (literal "from" s)
  end.

(** The expression for requires at the start of [s]: [require], an opening
    parenthesis, the quoted group and a closing parenthesis, with optional
    white space between them. *)
Definition requireAt (s : string) : option (string * string) :=
  match literal "require" s with
  | Some rest =>
      match literal "(" (trimStart rest) with
      | Some rest =>
          match quoted (trimStart rest) with
          | Some (w, rest) =>
              match literal ")" (trimStart rest) with
              | Some rest => Some (w, rest)
              | None => None
              end
          | None => None
          end
      | None => None
      end
  | None => None
  end.

(** [code.matchAll(re)]: the first groups of the matches, from left to
    right; after a match the search goes on behind it.  [skip] counts the
    characters of the last match that are still to be passed. *)
Fixpoint matchAll (matchAt : string -> option (string * string)) (skip : nat)
    (s : string) : list string :=
  match s with
  | EmptyString => []
  | String _ s' =>
      match skip with
      | S skip' => matchAll matchAt skip' s'
      | O =>
          match matchAt s with
          | Some (w, rest) =>
              w :: matchAll matchAt (String.length s - String.length rest - 1) s'
          | None => matchAll matchAt 0 s'
          end
      end
  end.

Definition extractCodeImports (code : string) : list string :=
  (* JS/TS imports *)
  (matchAll importAt 0 code
   (* Requires *)
   ++ matchAll requireAt 0 code)%list.

(** ** The matchers whose scores are integers *)

Definition languageReason (confidence : Q) (details : string) : list MatchReason :=
  [ {| mr_type := language_match; mr_confidence := confidence; mr_details := details |} ].

Definition snippetLanguageMatch (now : Z) (snippet : Snippet) : MatchResult :=
  {| item := ASnippet snippet; type := Matcher.snippet;
     relevanceScore :=
       inject_Z (MATCH_WEIGHTS_language_exact
                 + getRecencyBonus now (sn_createdAt snippet));
     matchReasons := languageReason 1 ("Same language: " ++ sn_language snippet) |}.

Definition knowledgeTagMatch (now : Z) (matchingTags : list string) (item : Knowledge)
    : MatchResult :=
  {| item := AKnowledge item; type := Matcher.knowledge;
     relevanceScore :=
       inject_Z (MATCH_WEIGHTS_tag_match + getRecencyBonus now (kn_createdAt item));
     matchReasons := languageReason (8 # 10) ("Tagged with: " ++ join ", " matchingTags) |}.

Definition matchByLanguage (now : Z) (language : string) (aliases : list string)
    (snippets : list Snippet) (knowledge : list Knowledge) : list MatchResult :=
  let langSet := Set_of (map toLowerCase aliases) in
  (map (snippetLanguageMatch now)
     (List.filter (fun snippet => Set_has langSet (toLowerCase (sn_language snippet)))
        snippets)
   (* Check knowledge tags for language matches *)
   ++ flat_map
        (fun item =>
           let matchingTags :=
             List.filter (fun t => Set_has langSet (toLowerCase t)) (kn_tags item) in
           if (0 <? length matchingTags)%nat
           then [knowledgeTagMatch now matchingTags item] else [])
        knowledge)%list.

Definition ratio (n d : nat) : Q := (Z.of_nat n # Pos.of_nat d)%Q.

Definition matchByFrameworks (frameworks : list string) (snippets : list Snippet)
    (knowledge : list Knowledge) : list MatchResult :=
  if (length frameworks =? 0)%nat then [] else
  let frameworkSet := Set_of (map toLowerCase frameworks) in
  flat_map
    (fun item =>
       let matchingTags :=
         List.filter (fun t => Set_has frameworkSet (toLowerCase t)) (kn_tags item) in
       if (0 <? length matchingTags)%nat
       then [ {| item := AKnowledge item; type := Matcher.knowledge;
                 relevanceScore :=
                   inject_Z (MATCH_WEIGHTS_framework_match * Z.of_nat (length matchingTags));
                 matchReasons :=
                   [ {| mr_type := framework_match;
                        mr_confidence := ratio (length matchingTags) (length frameworks);
                        mr_details := "Framework: " ++ join ", " matchingTags |} ] |} ]
       else [])
    knowledge.

Definition importReason (matches imports : list string) (verb : string)
    : list MatchReason :=
  [ {| mr_type := import_match;
       mr_confidence := ratio (length matches) (length imports);
       mr_details := verb ++ join ", " (firstn 3 matches) |} ].

Definition matchByImports (imports : list string) (snippets : list Snippet)
    (knowledge : list Knowledge) : list MatchResult :=
  if (length imports =? 0)%nat then [] else
  let importSet := Set_of (map normalizeImport imports) in
  (flat_map
     (fun snippet =>
        (* Check if snippet code contains any of the imports *)
        let codeImports := extractCodeImports (sn_code snippet) in
        let matches :=
          List.filter (fun i => Set_has importSet (normalizeImport i)) codeImports in
        if (0 <? length matches)%nat
        then [ {| item := ASnippet snippet; type := Matcher.snippet;
                  relevanceScore := inject_Z (MATCH_WEIGHTS_import_match * Z.of_nat (length matches));
                  matchReasons := importReason matches imports "Uses: " |} ]
        else [])
     snippets
   (* Check knowledge for import mentions in Q/A *)
   ++ flat_map
        (fun item =>
           let text := toLowerCase (kn_question item ++ " " ++ kn_answer item) in
           let matches :=
             List.filter (fun i => includes text (normalizeImport i)) imports in
           if (0 <? length matches)%nat
           then [ {| item := AKnowledge item; type := Matcher.knowledge;
                     relevanceScore :=
                       inject_Z (MATCH_WEIGHTS_import_match * Z.of_nat (length matches));
                     matchReasons := importReason matches imports "Discusses: " |} ]
           else [])
        knowledge)%list.

(** ** [findRelevantContext] *)

Record DiagnosticContext := { dg_message : string }.

(** The properties of the editor context that the matcher reads. *)
Record EditorContext := {
  language : string;
  languageAliases : list string;
  selection : option string;
  lineContent : string;
  imports : list string;
  diagnostics : list DiagnosticContext;
  frameworks : list string
}.

(** [{ maxResults, minScore }]; [None] is a property that is not given. *)
Record MatchOptions := {
  maxResults : option Z;
  minScore : option Q
}.

(** [editorContext.selection || editorContext.lineContent] *)
Definition textQuery (editorContext : EditorContext) : string :=
  match selection editorContext with
  | Some s => if isEmpty s then lineContent editorContext else s
  | None => lineContent editorContext
  end.

Section FindRelevantContext.

(** The two matchers that score with floating-point products of a
    similarity, [matchAgainstError] and [matchByTextSimilarity], are taken
    as they are: what they return is not looked into. *)
Variable matchAgainstError :
  DiagnosticContext -> list Snippet -> list Knowledge -> list MatchResult.
Variable matchByTextSimilarity :
  string -> list Snippet -> list Knowledge -> list MatchResult.
Variable now : Z.

(** [results] before it is deduplicated. *)
Definition candidates (editorContext : EditorContext) (snippets : list Snippet)
    (knowledge : list Knowledge) : list MatchResult :=
  (* Priority 1: Error message matching *)
  (flat_map (fun diagnostic => matchAgainstError diagnostic snippets knowledge)
     (diagnostics editorContext)
   (* Priority 2: Language matching *)
   ++ matchByLanguage now (language editorContext) (languageAliases editorContext)
        snippets knowledge
   (* Priority 3: Import/framework matching *)
   ++ matchByImports (imports editorContext) snippets knowledge
   ++ matchByFrameworks (frameworks editorContext) snippets knowledge
   (* Priority 4: Text similarity (if we have selection or line content) *)
   ++ (if isEmpty (textQuery editorContext) then []
       else matchByTextSimilarity (textQuery editorContext) snippets knowledge))%list.

Definition findRelevantContext (editorContext : EditorContext)
    (snippets : list Snippet) (knowledge : list Knowledge) (options : MatchOptions)
    : list MatchResult :=
  let maxResults := match maxResults options with Some n => n | None => 10 end in
  let minScore := match minScore options with Some q => q | None => 15%Q end in
  let results := candidates editorContext snippets knowledge in
  (* Deduplicate, sort by score, and filter *)
  let deduped := deduplicateAndSort results in
  Finder.slice0 maxResults
    (List.filter (fun r => Qle_bool minScore (relevanceScore r)) deduped).

End FindRelevantContext.

(** ** Notions used in the statements *)

(** A string of lower-case word characters. *)
Definition lowerWord (w : string) : Prop :=
  toLowerCase w = w /\ splitOnNonWord w = [w].

(** The words of a list, as a set. *)
Definition sameWords (l k : list string) : Prop := forall w, w ∈ l <-> w ∈ k.

Definition isSlash (c : ascii) : bool := Ascii.eqb c "/".

Definition isNonWord (c : ascii) : bool := negb (isWordChar c).

(** A character that lower-casing changes. *)
Definition isUpper (c : ascii) : bool := negb (Ascii.eqb (toLowerChar c) c).

(** A string none of whose characters is of the kind [p]. *)
Fixpoint noChar (p : ascii -> bool) (s : string) : bool :=
  match s with
  | EmptyString => true
  | String c s' => negb (p c) && noChar p s'
  end.

(** ** Sample data *)

Definition jsSnippet : Snippet :=
  {| sn_id := "s1"; sn_projectId := "P";
     sn_code := "import React from 'react';";
     sn_language := "JavaScript"; sn_description := "a component";
     sn_source := "chatgpt"; sn_createdAt := 0 |}.

Definition jsEditor : EditorContext :=
  {| language := "javascript"; languageAliases := ["javascript"; "js"; "node"];
     selection := None; lineContent := ""; imports := ["react-dom/client"];
     diagnostics := []; frameworks := [] |}.

Definition noOptions : MatchOptions := {| maxResults := None; minScore := None |}.

(** Matchers that find nothing. *)
Definition noErrorMatches (d : DiagnosticContext) (snippets : list Snippet)
    (knowledge : list Knowledge) : list MatchResult := [].

Definition noTextMatches (query : string) (snippets : list Snippet)
    (knowledge : list Knowledge) : list MatchResult := [].

End Context.


(* ================================================================== *)
(** * Facts about the JavaScript values                                *)
(* ================================================================== *)

Module JSFacts.
Import JS.

Lemma elem_of_List_filter {A} (f : A -> bool) (l : list A) x :
  x ∈ List.filter f l <-> x ∈ l /\ f x = true.
Proof. rewrite !list_elem_of_In. apply filter_In. Qed.

(** ** Sets *)

Lemma Set_add_elem (acc : list string) x y :
  y ∈ Set_add acc x <-> y ∈ acc \/ y = x.
Proof.
  unfold Set_add. case_bool_decide as Hx.
  - split; [auto | intros [H | ->]; auto].
  - rewrite elem_of_app, list_elem_of_singleton. tauto.
Qed.

Lemma fold_Set_add_elem (l acc : list string) y :
  y ∈ fold_left Set_add l acc <-> y ∈ acc \/ y ∈ l.
Proof.
  revert acc. induction l as [| x l IH]; intros acc; simpl.
  - rewrite elem_of_nil. tauto.
  - rewrite IH, Set_add_elem, elem_of_cons. tauto.
Qed.

Lemma Set_of_elem (l : list string) y : y ∈ Set_of l <-> y ∈ l.
Proof.
  unfold Set_of. rewrite fold_Set_add_elem, elem_of_nil. tauto.
Qed.

Lemma Set_has_Set_of (l : list string) y :
  Set_has (Set_of l) y = bool_decide (y ∈ l).
Proof.
  unfold Set_has. apply bool_decide_ext, Set_of_elem.
Qed.

(** ** Numbers *)

Lemma or_zero_id z : or_zero z = z.
Proof. unfold or_zero. destruct (Z.eqb_spec z 0); congruence. Qed.

Lemma Qgtb_true a b : Qgtb a b = true <-> (b < a)%Q.
Proof.
  unfold Qgtb. rewrite negb_true_iff. split.
  - intros H. apply Qnot_le_lt. intros Hle.
    apply Qle_bool_iff in Hle. congruence.
  - intros H. destruct (Qle_bool a b) eqn:E; [| reflexivity].
    apply Qle_bool_iff in E. exfalso. exact (Qlt_not_le _ _ H E).
Qed.

Lemma Qgtb_false a b : Qgtb a b = false <-> (a <= b)%Q.
Proof.
  unfold Qgtb. rewrite negb_false_iff. apply Qle_bool_iff.
Qed.

End JSFacts.

(* ================================================================== *)
(** * Properties of the push endpoint                                  *)
(* ================================================================== *)

Module ServerSpec.
Import JS JSFacts Server.

(** ** Validation of project references *)

Lemma validateProjectOwnership_invalid db userId ids x :
  x ∈ snd (validateProjectOwnership db userId ids) <->
  x ∈ ids /\ ownsProject db userId x = false.
Proof.
  unfold validateProjectOwnership.
  destruct ids as [| i ids]; cbn [snd].
  - rewrite elem_of_nil. tauto.
  - generalize (i :: ids). intros l. rewrite elem_of_List_filter.
    rewrite Set_has_Set_of, negb_true_iff, bool_decide_eq_false.
    rewrite elem_of_List_filter.
    destruct (ownsProject db userId x); split; intros [H1 H2];
      split; auto; try discriminate.
    + exfalso. apply H2. auto.
    + intros [_ ?]. discriminate.
  Qed.

Lemma validateProjectOwnership_valid db userId ids :
  fst (validateProjectOwnership db userId ids) = true <->
  snd (validateProjectOwnership db userId ids) = [].
Proof.
  unfold validateProjectOwnership.
  destruct ids as [| i ids]; cbn [fst snd]; [tauto |].
  rewrite bool_decide_eq_true. apply length_zero_iff_nil.
Qed.

Lemma existingProjectCheck_elem ch x :
  x ∈ existingProjectCheck ch <->
  x ∈ (projectIdsFromSnippets ch ++ projectIdsFromKnowledge ch)%list /\
  x ∉ projectIdsFromProjects ch.
Proof.
  unfold existingProjectCheck, allReferencedProjectIds.
  rewrite elem_of_List_filter, Set_of_elem, Set_has_Set_of,
    negb_true_iff, bool_decide_eq_false. tauto.
Qed.

(** C1 (as the code has it).  When a Snippet or Knowledge change of an
    authenticated, well-formed push references a project that is neither in
    the batch nor owned by the user, the endpoint answers 400 with the
    invalid references -- exactly the referenced project ids that are
    neither in the batch nor owned -- and the request is rejected as a
    whole: the database is what it was, so no item of the batch is
    written. *)
Theorem push_rejects_batch_with_invalid_reference :
  forall (U : string) (body : PushBody) (now : Z) (nanoid : string) (db : DB)
         (pid : string),
    U <> "" ->
    syncPushSchema body = true ->
    pid ∈ (projectIdsFromSnippets (changes body)
           ++ projectIdsFromKnowledge (changes body))%list ->
    pid ∉ projectIdsFromProjects (changes body) ->
    ownsProject db U pid = false ->
    exists invalid,
      push (Some U) body now nanoid db = (InvalidProjectReferences invalid, db) /\
      status (fst (push (Some U) body now nanoid db)) = 400 /\
      pid ∈ invalid /\
      (forall x, x ∈ invalid <->
                 x ∈ (projectIdsFromSnippets (changes body)
                      ++ projectIdsFromKnowledge (changes body))%list /\
                 (x ∉ projectIdsFromProjects (changes body)) /\
                 ownsProject db U x = false).
Proof.
  intros U body now nanoid db pid HU Hschema Href Hbatch Hown.
  set (ch := changes body) in *.
  assert (Hpid : pid ∈ existingProjectCheck ch)
    by (apply existingProjectCheck_elem; auto).
  exists (snd (validateProjectOwnership db U (existingProjectCheck ch))).
  assert (Hinv : pid ∈ snd (validateProjectOwnership db U (existingProjectCheck ch)))
    by (apply validateProjectOwnership_invalid; auto).
  assert (Hpush : push (Some U) body now nanoid db =
    (InvalidProjectReferences
       (snd (validateProjectOwnership db U (existingProjectCheck ch))), db)).
  { unfold push. destruct U as [| c U]; [contradiction |].
    rewrite Hschema. simpl negb. cbv iota. fold ch.
    destruct (existingProjectCheck ch) as [| e es] eqn:He.
    { apply elem_of_nil in Hpid. contradiction. }
    change ((0 <? length (e :: es))%nat) with true. cbv iota.
    destruct (fst (validateProjectOwnership db (String c U) (e :: es))) eqn:Hv.
    - apply validateProjectOwnership_valid in Hv. rewrite Hv in Hinv.
      apply elem_of_nil in Hinv. contradiction.
    - reflexivity. }
  rewrite Hpush. split; [reflexivity |]. split; [reflexivity |].
  split; [exact Hinv |].
  intros x. rewrite validateProjectOwnership_invalid, existingProjectCheck_elem. tauto.
Qed.

(** C1, counterexample.  The batch [mixedBatch] holds a valid snippet (s1,
    whose project p1 is created in the same batch) and an invalid one (s2).
    The answer is 400 with the invalid reference, but nothing of the batch is
    written: neither p1 nor the valid snippet s1 is in the database
    afterwards. *)
Lemma push_invalid_reference_drops_valid_items :
  syncPushSchema mixedBatch = true /\
  fst mixedPush = InvalidProjectReferences ["ghost"] /\
  status (fst mixedPush) = 400 /\
  snippets (snd mixedPush) !! "s1" = None /\
  projects (snd mixedPush) !! "p1" = None /\
  snd mixedPush = emptyDB.
Proof. vm_compute. repeat split. Qed.

Lemma push_rejects_batch_with_invalid_reference_witness :
  exists invalid,
    push (Some "u1") mixedBatch 1700000000500 "sess1" emptyDB
      = (InvalidProjectReferences invalid, emptyDB) /\
    status (fst (push (Some "u1") mixedBatch 1700000000500 "sess1" emptyDB)) = 400 /\
    "ghost" ∈ invalid /\
    (forall x, x ∈ invalid <->
       x ∈ (projectIdsFromSnippets (changes mixedBatch)
            ++ projectIdsFromKnowledge (changes mixedBatch))%list /\
       (x ∉ projectIdsFromProjects (changes mixedBatch)) /\
       ownsProject emptyDB "u1" x = false).
Proof.
  apply (push_rejects_batch_with_invalid_reference
           "u1" mixedBatch 1700000000500 "sess1" emptyDB "ghost").
  - discriminate.
  - vm_compute. reflexivity.
  - vm_compute. repeat constructor.
  - vm_compute. intros H. apply list_elem_of_singleton in H. discriminate.
  - reflexivity.
Defined.

(** ** Ownership is enforced at the write *)

Section UpsertFacts.
Context {Row : Type}.
Variable owner : Row -> string.
Variable key : Row -> string.
Variable onConflictSet : Row -> Row -> Row.

Lemma upsert_foreign userId (t : gmap string Row) x id r :
  t !! id = Some r -> owner r <> userId ->
  upsert owner key onConflictSet userId t x !! id = Some r.
Proof.
  intros Hr Hown. unfold upsert.
  destruct (t !! key x) as [existing |] eqn:Hk.
  - case_bool_decide as Ho; [| exact Hr].
    destruct (decide (key x = id)) as [Heq | Hne].
    + rewrite Heq, Hr in Hk. injection Hk as <-. contradiction.
    + rewrite lookup_insert_ne by exact Hne. exact Hr.
  - rewrite lookup_insert_ne; [exact Hr |].
    intros Heq. rewrite Heq, Hr in Hk. discriminate.
Qed.

Lemma batchUpsert_foreign userId values (t : gmap string Row) id r :
  t !! id = Some r -> owner r <> userId ->
  batchUpsert owner key onConflictSet userId values t !! id = Some r.
Proof.
  unfold batchUpsert. revert t.
  induction values as [| x values IH]; intros t Hr Hown; simpl.
  - exact Hr.
  - apply IH; [| exact Hown]. apply upsert_foreign; assumption.
Qed.
End UpsertFacts.

(** What [push] does to the database, whatever it answers. *)
Lemma push_database user body now nanoid db :
  snd (push user body now nanoid db) = db \/
  exists userId validProjectIds v db',
    user = Some userId /\
    pushTransaction userId (deviceId body) (changes body) validProjectIds
      now nanoid db = Some (v, db') /\
    push user body now nanoid db = (PushOk v, db').
Proof.
  unfold push.
  destruct user as [[| c u] |]; [left; reflexivity | | left; reflexivity].
  destruct (negb (syncPushSchema body)); [left; reflexivity |].
  match goal with |- context [negb (fst ?val)] => destruct (negb (fst val)) end;
    [left; reflexivity |].
  match goal with |- context [pushTransaction ?a ?b ?c ?d ?e ?f ?g] =>
    destruct (pushTransaction a b c d e f g) as [[v db'] |] eqn:Htx end;
    [| left; reflexivity].
  right. eexists _, _, v, db'. split; [reflexivity |]. split; [exact Htx | reflexivity].
Qed.

Lemma pushTransaction_tables userId dev ch valid now nanoid db v db' :
  pushTransaction userId dev ch valid now nanoid db = Some (v, db') ->
  projects db' =
    batchUpsert p_userId p_id projectSet userId
      (map (projectValues userId now v) (or_nil (ch_projects ch))) (projects db) /\
  snippets db' =
    batchUpsert s_userId s_id snippetSet userId
      (map (snippetValues userId now v)
         (List.filter (fun s => Set_has valid (sc_projectId s)) (or_nil (ch_snippets ch))))
      (snippets db) /\
  knowledge db' =
    batchUpsert k_userId k_id knowledgeSet userId
      (map (knowledgeValues userId now v)
         (List.filter (fun k => Set_has valid (kc_projectId k)) (or_nil (ch_knowledge ch))))
      (knowledge db).
Proof.
  unfold pushTransaction.
  destruct (List.find (sessionOf userId dev) (syncSessions db)) as [session |].
  - intros [= <- <-]. simpl. auto.
  - destruct (existsb _ _); [discriminate |].
    intros [= <- <-]. simpl. auto.
Qed.

(** C4.  A push by user [U] leaves every Project, Snippet and Knowledge row
    owned by another user exactly as it was, whatever ids the batch uses:
    the on-conflict update is applied only to rows [U] owns. *)
Theorem push_never_overwrites_foreign_rows :
  forall (U : string) (body : PushBody) (now : Z) (nanoid : string) (db : DB),
    let db' := snd (push (Some U) body now nanoid db) in
    (forall id row, projects db !! id = Some row -> p_userId row <> U ->
                    projects db' !! id = Some row) /\
    (forall id row, snippets db !! id = Some row -> s_userId row <> U ->
                    snippets db' !! id = Some row) /\
    (forall id row, knowledge db !! id = Some row -> k_userId row <> U ->
                    knowledge db' !! id = Some row).
Proof.
  intros U body now nanoid db db'. subst db'.
  destruct (push_database (Some U) body now nanoid db)
    as [-> | (userId & valid & v & db' & [= <-] & Htx & ->)].
  - auto.
  - simpl. apply pushTransaction_tables in Htx as (-> & -> & ->).
    repeat split; intros id row Hrow Hown;
      apply batchUpsert_foreign; assumption.
Qed.

Lemma push_never_overwrites_foreign_rows_witness :
  fst (push (Some "u1") clashBatch 9 "sess1" foreignDB) = PushOk 1 /\
  projects (snd (push (Some "u1") clashBatch 9 "sess1" foreignDB)) !! "p1"
    = Some vProject /\
  snippets (snd (push (Some "u1") clashBatch 9 "sess1" foreignDB)) !! "s1"
    = Some vSnippet.
Proof.
  destruct (push_never_overwrites_foreign_rows "u1" clashBatch 9 "sess1" foreignDB)
    as (Hp & Hs & _).
  split; [vm_compute; reflexivity |]. split.
  - apply Hp; [reflexivity | discriminate].
  - apply Hs; [reflexivity | discriminate].
Defined.

(** ** Sync versions *)

Lemma find_map_stable {A} (p : A -> bool) (f : A -> A) (l : list A) :
  (forall x, p (f x) = p x) ->
  List.find p (map f l) = option_map f (List.find p l).
Proof.
  intros Hp. induction l as [| x l IH]; simpl; [reflexivity |].
  rewrite Hp. destruct (p x); [reflexivity | exact IH].
Qed.

Lemma find_app_none {A} (p : A -> bool) (l1 l2 : list A) :
  List.find p l1 = None -> List.find p (l1 ++ l2) = List.find p l2.
Proof.
  induction l1 as [| x l1 IH]; simpl; [reflexivity |].
  destruct (p x); [discriminate | exact IH].
Qed.

Lemma find_app_last_false {A} (p : A -> bool) (l : list A) (y : A) :
  p y = false -> List.find p (l ++ [y]) = List.find p l.
Proof.
  intros Hy. induction l as [| x l IH]; simpl.
  - rewrite Hy. reflexivity.
  - destruct (p x); [reflexivity | exact IH].
Qed.

Lemma find_elem {A} (p : A -> bool) (l : list A) x :
  List.find p l = Some x -> x ∈ l /\ p x = true.
Proof.
  intros H. apply find_some in H as [H1 H2]. split; [| exact H2].
  apply list_elem_of_In. exact H1.
Qed.

Lemma NoDup_map_inj {A B} (f : A -> B) (l : list A) x y :
  NoDup (map f l) -> x ∈ l -> y ∈ l -> f x = f y -> x = y.
Proof.
  induction l as [| a l IH]; simpl; intros Hnd Hx Hy Hf.
  - apply elem_of_nil in Hx. contradiction.
  - apply NoDup_cons in Hnd as [Hna Hnd].
    apply elem_of_cons in Hx as [-> | Hx]; apply elem_of_cons in Hy as [-> | Hy].
    + reflexivity.
    + exfalso. apply Hna. rewrite Hf. apply (list_elem_of_fmap_2 f). exact Hy.
    + exfalso. apply Hna. rewrite <- Hf. apply (list_elem_of_fmap_2 f). exact Hx.
    + auto.
Qed.

Lemma sessionOf_updateSession u d sid v now s :
  sessionOf u d (updateSession sid v now s) = sessionOf u d s.
Proof. unfold updateSession. case_bool_decide; reflexivity. Qed.

(** The session rows after a committed transaction. *)
Lemma pushTransaction_sessions userId dev ch valid now nanoid db v db' :
  pushTransaction userId dev ch valid now nanoid db = Some (v, db') ->
  exists session sessions1,
    List.find (sessionOf userId dev) sessions1 = Some session /\
    (sessions1 = syncSessions db \/
     List.find (sessionOf userId dev) (syncSessions db) = None /\
     (ss_id session ∉ map ss_id (syncSessions db)) /\
     sessions1 = (syncSessions db ++ [session])%list) /\
    v = ss_syncVersion session + 1 /\
    syncSessions db' = map (updateSession (ss_id session) v now) sessions1.
Proof.
  unfold pushTransaction.
  destruct (List.find (sessionOf userId dev) (syncSessions db)) as [session |] eqn:Hf.
  - intros [= <- <-]. exists session, (syncSessions db).
    rewrite or_zero_id. simpl. auto.
  - destruct (existsb _ _) eqn:Hex; [discriminate |].
    intros [= <- <-].
    exists {| ss_id := nanoid; ss_userId := userId; ss_deviceId := dev;
              ss_lastSyncAt := now; ss_syncVersion := 0 |}.
    eexists. split; [| split; [right; split; [reflexivity |
      split; [| reflexivity]] | split; [reflexivity | reflexivity]]].
    + rewrite find_app_none by exact Hf. simpl. unfold sessionOf. simpl.
      rewrite !bool_decide_eq_true_2 by reflexivity. reflexivity.
    + simpl. intros Hin. apply list_elem_of_fmap in Hin as (s & Hs & Hin).
      assert (existsb (fun s0 => bool_decide (ss_id s0 = nanoid)) (syncSessions db) = true)
        as Htrue; [| rewrite Htrue in Hex; discriminate].
      apply existsb_exists. exists s. split; [apply list_elem_of_In; exact Hin |].
      apply bool_decide_eq_true_2. congruence.
Qed.

Lemma pushTransaction_version userId dev ch valid now nanoid db v db' :
  pushTransaction userId dev ch valid now nanoid db = Some (v, db') ->
  v = sessionVersion db userId dev + 1 /\ sessionVersion db' userId dev = v.
Proof.
  intros Htx.
  destruct (pushTransaction_sessions _ _ _ _ _ _ _ _ _ Htx)
    as (session & sessions1 & Hfind & Hs1 & Hv & Hss).
  split.
  - unfold sessionVersion. rewrite Hv.
    destruct Hs1 as [-> | (Hnone & _ & ->)].
    + rewrite Hfind, or_zero_id. reflexivity.
    + rewrite Hnone. rewrite find_app_none in Hfind by exact Hnone.
      simpl in Hfind. destruct (sessionOf userId dev session); [| discriminate].
      unfold pushTransaction in Htx. rewrite Hnone in Htx.
      destruct (existsb _ _); [discriminate |]. injection Htx as Hv' _.
      rewrite or_zero_id in Hv'. simpl in Hv'. lia.
  - unfold sessionVersion. rewrite Hss.
    rewrite find_map_stable by (intros; apply sessionOf_updateSession).
    rewrite Hfind. simpl. unfold updateSession.
    rewrite bool_decide_eq_true_2 by reflexivity. simpl. apply or_zero_id.
Qed.

Lemma pushTransaction_other_device userId dev ch valid now nanoid db v db' u d :
  sessions_wf db ->
  pushTransaction userId dev ch valid now nanoid db = Some (v, db') ->
  (u, d) <> (userId, dev) ->
  sessionVersion db' u d = sessionVersion db u d.
Proof.
  intros Hwf Htx Hne.
  destruct (pushTransaction_sessions _ _ _ _ _ _ _ _ _ Htx)
    as (session & sessions1 & Hfind & Hs1 & Hv & Hss).
  apply find_elem in Hfind as [Hin Hsess].
  assert (Hother : sessionOf u d session = false).
  { unfold sessionOf in *. apply andb_true_iff in Hsess as [H1 H2].
    apply bool_decide_eq_true in H1, H2.
    apply andb_false_iff.
    destruct (decide (ss_userId session = u)) as [Hu | Hu];
      [| left; apply bool_decide_eq_false_2; exact Hu].
    right. apply bool_decide_eq_false_2. intros Hd. apply Hne. congruence. }
  assert (Hwf1 : NoDup (map ss_id sessions1)).
  { destruct Hs1 as [-> | (_ & Hfresh & ->)]; [exact Hwf |].
    rewrite map_app. simpl. apply NoDup_app. split; [exact Hwf |].
    split; [| apply NoDup_singleton].
    intros x Hx Hx'. apply list_elem_of_singleton in Hx'. subst x. auto. }
  assert (Hsame : List.find (sessionOf u d) sessions1
                  = List.find (sessionOf u d) (syncSessions db)).
  { destruct Hs1 as [-> | (_ & _ & ->)]; [reflexivity |].
    apply find_app_last_false. exact Hother. }
  unfold sessionVersion. rewrite Hss.
  rewrite find_map_stable by (intros; apply sessionOf_updateSession).
  rewrite Hsame.
  destruct (List.find (sessionOf u d) (syncSessions db)) as [r |] eqn:Hr;
    [| reflexivity].
  simpl. apply find_elem in Hsame as [Hrin Hrp].
  unfold updateSession. case_bool_decide as Hid; [| reflexivity].
  assert (r = session) by (eapply NoDup_map_inj; eauto).
  subst r. congruence.
Qed.

Lemma pushTransaction_wf userId dev ch valid now nanoid db v db' :
  sessions_wf db ->
  pushTransaction userId dev ch valid now nanoid db = Some (v, db') ->
  sessions_wf db'.
Proof.
  intros Hwf Htx.
  destruct (pushTransaction_sessions _ _ _ _ _ _ _ _ _ Htx)
    as (session & sessions1 & Hfind & Hs1 & Hv & Hss).
  unfold sessions_wf. rewrite Hss, map_map.
  erewrite map_ext; [| intros s; unfold updateSession; case_bool_decide; reflexivity].
  destruct Hs1 as [-> | (_ & Hfresh & ->)]; [exact Hwf |].
  rewrite map_app. simpl. apply NoDup_app. split; [exact Hwf |].
  split; [| apply NoDup_singleton].
  intros x Hx Hx'. apply list_elem_of_singleton in Hx'. subst x. auto.
Qed.

(** One request: a successful push stamps the device's previous version
    plus one and records it; no request lowers any device's version. *)
Lemma serve_ok db r v db' :
  serve db r = (PushOk v, db') ->
  exists U, rq_user r = Some U /\
    v = sessionVersion db U (deviceId (rq_body r)) + 1 /\
    sessionVersion db' U (deviceId (rq_body r)) = v.
Proof.
  unfold serve, push.
  destruct (rq_user r) as [[| c u] |]; try discriminate.
  destruct (negb (syncPushSchema (rq_body r))); [discriminate |].
  match goal with |- context [negb (fst ?val)] => destruct (negb (fst val)) end;
    [discriminate |].
  match goal with |- context [pushTransaction ?a ?b ?c ?d ?e ?f ?g] =>
    destruct (pushTransaction a b c d e f g) as [[v1 db1] |] eqn:Htx end;
    [| discriminate].
  intros [= -> ->]. exists (String c u). split; [reflexivity |].
  eapply pushTransaction_version; exact Htx.
Qed.

Lemma serve_wf db r : sessions_wf db -> sessions_wf (snd (serve db r)).
Proof.
  intros Hwf. unfold serve.
  destruct (push_database (rq_user r) (rq_body r) (rq_now r) (rq_nanoid r) db)
    as [-> | (U & valid & v' & db'' & HU & Htx & ->)]; [exact Hwf |].
  simpl. eapply pushTransaction_wf; eauto.
Qed.

Lemma serve_mono db r u d :
  sessions_wf db ->
  sessionVersion db u d <= sessionVersion (snd (serve db r)) u d.
Proof.
  intros Hwf. unfold serve.
  destruct (push_database (rq_user r) (rq_body r) (rq_now r) (rq_nanoid r) db)
    as [-> | (U & valid & v' & db'' & HU & Htx & ->)]; [lia |].
  simpl. destruct (decide ((u, d) = (U, deviceId (rq_body r)))) as [[= -> ->] | Hne].
  - apply pushTransaction_version in Htx as [Hv1 Hv2]. lia.
  - rewrite (pushTransaction_other_device _ _ _ _ _ _ _ _ _ u d Hwf Htx Hne). lia.
Qed.

Lemma serveAll_cons db r rs :
  serveAll db (r :: rs) =
  (fst (serve db r) :: fst (serveAll (snd (serve db r)) rs),
   snd (serveAll (snd (serve db r)) rs)).
Proof.
  simpl. destruct (serve db r) as [resp db1]. simpl.
  destruct (serveAll db1 rs) as [resps db2]. reflexivity.
Qed.

(** A later successful push of a device stamps more than the device had. *)
Lemma serveAll_later_ok rs : forall db j rj U vj,
  sessions_wf db ->
  rs !! j = Some rj -> rq_user rj = Some U ->
  fst (serveAll db rs) !! j = Some (PushOk vj) ->
  sessionVersion db U (deviceId (rq_body rj)) < vj.
Proof.
  induction rs as [| r rs IH]; intros db j rj U vj Hwf Hj HU Hresp.
  - discriminate.
  - rewrite serveAll_cons in Hresp. destruct j as [| j]; simpl in Hj, Hresp.
    + injection Hj as ->. injection Hresp as Hresp.
      destruct (serve db rj) as [resp db1] eqn:Hs. simpl in Hresp. subst resp.
      apply serve_ok in Hs as (U' & HU' & Hv & _).
      rewrite HU in HU'. injection HU' as <-. lia.
    + pose proof (serve_mono db r U (deviceId (rq_body rj)) Hwf) as Hmono.
      pose proof (IH (snd (serve db r)) j rj U vj (serve_wf db r Hwf) Hj HU Hresp).
      lia.
Qed.

(** C3 (as the code has it).  The version counter lives in the session row
    of a (user, device) pair.  Among the requests served one after the other
    from a database whose session ids are unique, two successful pushes of
    the same user from the same device are stamped with strictly increasing
    versions. *)
Theorem push_versions_increase_per_device :
  forall (rs : list Request) (db : DB) (i j : nat) (ri rj : Request) (vi vj : Z),
    sessions_wf db ->
    (i < j)%nat ->
    rs !! i = Some ri -> rs !! j = Some rj ->
    rq_user ri = rq_user rj ->
    deviceId (rq_body ri) = deviceId (rq_body rj) ->
    fst (serveAll db rs) !! i = Some (PushOk vi) ->
    fst (serveAll db rs) !! j = Some (PushOk vj) ->
    vi < vj.
Proof.
  induction rs as [| r rs IH];
    intros db i j ri rj vi vj Hwf Hij Hi Hj Huser Hdev Hri Hrj.
  - discriminate.
  - rewrite serveAll_cons in Hri, Hrj.
    destruct j as [| j]; [lia |]. simpl in Hj, Hrj.
    destruct i as [| i]; simpl in Hi, Hri.
    + injection Hi as ->. injection Hri as Hri.
      destruct (serve db ri) as [resp db1] eqn:Hs. simpl in Hri, Hrj. subst resp.
      apply serve_ok in Hs as Hok. destruct Hok as (U & HU & _ & Hv).
      assert (Hwf1 : sessions_wf db1).
      { pose proof (serve_wf db ri Hwf) as H. rewrite Hs in H. exact H. }
      rewrite Huser in HU.
      pose proof (serveAll_later_ok rs db1 j rj U vj Hwf1 Hj HU Hrj) as Hlt.
      rewrite <- Hdev in Hlt. lia.
    + apply (IH (snd (serve db r)) i j ri rj vi vj); auto using serve_wf. lia.
Qed.

(** C3, counterexample.  The third push, by the user's second device, is
    stamped 1 although the second push of the same user was stamped 2; the
    rows written carry these versions. *)
Lemma push_versions_decrease_across_devices :
  fst (serveAll emptyDB threePushes) = [PushOk 1; PushOk 2; PushOk 1] /\
  p_syncVersion <$> projects (snd (serveAll emptyDB threePushes)) !! "p2" = Some 2 /\
  p_syncVersion <$> projects (snd (serveAll emptyDB threePushes)) !! "p3" = Some 1 /\
  p_userId <$> projects (snd (serveAll emptyDB threePushes)) !! "p2" = Some "u1" /\
  p_userId <$> projects (snd (serveAll emptyDB threePushes)) !! "p3" = Some "u1".
Proof. vm_compute. repeat split. Qed.

Lemma push_versions_increase_per_device_witness :
  fst (serveAll emptyDB threePushes) !! 0%nat = Some (PushOk 1) /\
  fst (serveAll emptyDB threePushes) !! 1%nat = Some (PushOk 2) /\
  1 < 2.
Proof.
  split; [vm_compute; reflexivity |]. split; [vm_compute; reflexivity |].
  apply (push_versions_increase_per_device threePushes emptyDB 0 1
           {| rq_user := Some "u1"; rq_body := aBody "devA" [aProject "p1" "One"] [];
              rq_now := 100; rq_nanoid := "sessA" |}
           {| rq_user := Some "u1"; rq_body := aBody "devA" [aProject "p2" "Two"] [];
              rq_now := 200; rq_nanoid := "unused" |}).
  - apply NoDup_nil_2.
  - lia.
  - reflexivity.
  - reflexivity.
  - reflexivity.
  - reflexivity.
  - vm_compute. reflexivity.
  - vm_compute. reflexivity.
Defined.

End ServerSpec.

(* ================================================================== *)
(** * Properties of duplicate detection                                *)
(* ================================================================== *)

Module DedupSpec.
Import JS JSFacts Dedup.

(** [round] picks the nearest integer. *)
Lemma round_nearest (q : Q) :
  (inject_Z (round q) - (1 # 2) <= q)%Q /\ (q < inject_Z (round q) + (1 # 2))%Q.
Proof.
  unfold round.
  pose proof (Qfloor_le (q + (1 # 2))) as Hlo.
  pose proof (Qlt_floor (q + (1 # 2))) as Hhi.
  set (n := Qfloor (q + (1 # 2))) in *.
  rewrite inject_Z_plus in Hhi. change (inject_Z 1) with 1%Q in Hhi.
  split; lra.
Qed.

(** ** Exact matches *)

Lemma scanSnippets_same_hash normalizedNew hashNew snippets s :
  s ∈ snippets ->
  hashContent (normalizeContent (sn_code s)) = hashNew ->
  isDuplicate (scanSnippets normalizedNew hashNew snippets) = true.
Proof.
  intros Hin Hh. induction snippets as [| e rest IH]; simpl.
  - apply elem_of_nil in Hin. contradiction.
  - destruct (String.eqb hashNew (hashContent (normalizeContent (sn_code e)))) eqn:He;
      [reflexivity |].
    destruct (Qgtb _ _); [reflexivity |].
    apply IH. apply elem_of_cons in Hin as [-> | Hin]; [| exact Hin].
    rewrite Hh, String.eqb_refl in He. discriminate.
Qed.

Lemma scanSnippets_exact normalizedNew hashNew pre s post :
  hashContent (normalizeContent (sn_code s)) = hashNew ->
  Forall (fun e => ~ onlySimilar normalizedNew hashNew e) pre ->
  matchType (scanSnippets normalizedNew hashNew (pre ++ s :: post)) = Some exact.
Proof.
  intros Hs Hpre. induction Hpre as [| e pre He _ IH]; simpl.
  - rewrite Hs, String.eqb_refl. reflexivity.
  - destruct (String.eqb hashNew (hashContent (normalizeContent (sn_code e)))) eqn:Hh;
      [reflexivity |].
    destruct (Qgtb _ _) eqn:Hq; [| exact IH].
    exfalso. apply He. split; [| exact Hq].
    apply String.eqb_neq in Hh. congruence.
Qed.

(** C6 (as the code has it).  When the project already holds a snippet [s]
    whose code equals the code being saved after normalization, the check
    reports a duplicate; and it reports it as exact whenever no snippet that
    the scan meets before [s] is merely similar to the new code. *)
Theorem identical_normalized_code_is_duplicate :
  forall (store : list Snippet) (code projectId : string)
         (pre : list Snippet) (s : Snippet) (post : list Snippet),
    getByProjectId sn_projectId store projectId = (pre ++ s :: post)%list ->
    normalizeContent (sn_code s) = normalizeContent code ->
    isDuplicate (findDuplicateSnippet store code projectId) = true /\
    (Forall (fun e => ~ onlySimilar (normalizeContent code)
                          (hashContent (normalizeContent code)) e) pre ->
     matchType (findDuplicateSnippet store code projectId) = Some exact).
Proof.
  intros store code projectId pre s post Hidx Hnorm.
  unfold findDuplicateSnippet. rewrite Hidx. split.
  - apply scanSnippets_same_hash with (s := s).
    + apply elem_of_app. right. apply elem_of_cons. left. reflexivity.
    + rewrite Hnorm. reflexivity.
  - intros Hpre. apply scanSnippets_exact; [| exact Hpre].
    rewrite Hnorm. reflexivity.
Qed.

(** The scenario of the specification: P holds [const x = 1;] and the same
    code is saved again with other spacing. *)
Lemma identical_normalized_code_is_duplicate_witness :
  isDuplicate (findDuplicateSnippet projectP "   const   x = 1;  " "P") = true /\
  matchType (findDuplicateSnippet projectP "   const   x = 1;  " "P") = Some exact.
Proof.
  destruct (identical_normalized_code_is_duplicate projectP "   const   x = 1;  " "P"
              [] {| sn_id := "a"; sn_projectId := "P"; sn_code := "const x = 1;";
                    sn_language := "js"; sn_createdAt := 1 |} [])
    as [Hdup Hexact].
  - reflexivity.
  - vm_compute. reflexivity.
  - split; [exact Hdup |]. apply Hexact. constructor.
Defined.

(** C6, counterexample.  The project holds [snippetShort], and the code
    saved is identical to it after normalization; but the scan first meets
    [snippetLong], which shares five of six words, and reports that one as
    similar. *)
Lemma identical_code_reported_as_similar :
  normalizeContent "  AAA  bbb ccc ddd eee " = normalizeContent (sn_code snippetShort) /\
  isDuplicate checkAgain = true /\
  matchType checkAgain = Some similar /\
  matchType checkAgain <> Some exact /\
  similarity checkAgain = Some 83 /\
  existingItem checkAgain = Some snippetLong.
Proof. vm_compute. repeat split; discriminate. Qed.

(** ** Similar matches *)

Lemma similarMatch_reports {Item} (J : Q) (e : Item) :
  reportsSimilar (similarMatch J e) e J.
Proof.
  destruct (round_nearest (J * 100)%Q) as [Hlo Hhi].
  unfold reportsSimilar, similarMatch, nearestInteger. simpl.
  split; [reflexivity |]. split; [reflexivity |]. split; [reflexivity |].
  split; [reflexivity |]. split; [exact Hlo | apply Qlt_le_weak; exact Hhi].
Qed.

Lemma scanSnippets_similar code hashNew snippets :
  Forall (fun e => snippetHash e <> hashNew) snippets ->
  Exists (fun e => (8 # 10 < snippetJ code e)%Q) snippets ->
  exists pre e post,
    snippets = (pre ++ e :: post)%list /\
    Forall (fun x => (snippetJ code x <= 8 # 10)%Q) pre /\
    (8 # 10 < snippetJ code e)%Q /\
    scanSnippets (normalizeContent code) hashNew snippets
      = similarMatch (snippetJ code e) e.
Proof.
  intros Hhash Hex. induction snippets as [| x rest IH].
  - inversion Hex.
  - apply Forall_cons in Hhash as [Hx Hrest]. simpl.
    fold (snippetHash x). fold (snippetJ code x).
    apply String.eqb_neq in Hx. rewrite String.eqb_sym in Hx. rewrite Hx.
    destruct (Qgtb (snippetJ code x) (8 # 10)) eqn:Hq.
    + exists [], x, rest. apply Qgtb_true in Hq. auto.
    + apply Qgtb_false in Hq.
      apply Exists_cons in Hex as [Hbad | Hex]; [exfalso; lra |].
      destruct (IH Hrest Hex) as (pre & e & post & -> & Hpre & He & Hscan).
      exists (x :: pre), e, post. auto.
Qed.

Lemma scanKnowledge_similar answer combinedHash knowledge :
  Forall (fun e => knowledgeHash e <> combinedHash) knowledge ->
  Exists (fun e => (85 # 100 < answerJ answer e)%Q) knowledge ->
  exists pre e post,
    knowledge = (pre ++ e :: post)%list /\
    Forall (fun x => (answerJ answer x <= 85 # 100)%Q) pre /\
    (85 # 100 < answerJ answer e)%Q /\
    scanKnowledge (normalizeContent answer) combinedHash knowledge
      = similarMatch (answerJ answer e) e.
Proof.
  intros Hhash Hex. induction knowledge as [| x rest IH].
  - inversion Hex.
  - apply Forall_cons in Hhash as [Hx Hrest]. simpl.
    fold (knowledgeHash x). fold (answerJ answer x).
    apply String.eqb_neq in Hx. rewrite String.eqb_sym in Hx. rewrite Hx.
    destruct (Qgtb (answerJ answer x) (85 # 100)) eqn:Hq.
    + exists [], x, rest. apply Qgtb_true in Hq. auto.
    + apply Qgtb_false in Hq.
      apply Exists_cons in Hex as [Hbad | Hex]; [exfalso; lra |].
      destruct (IH Hrest Hex) as (pre & e & post & -> & Hpre & He & Hscan).
      exists (x :: pre), e, post. auto.
Qed.

(** C7 (as the code has it).  When the new content has the fingerprint of
    no item of the project and its Jaccard similarity to some item is
    strictly above the threshold (0.80 on snippet code, 0.85 on knowledge
    answers), the check reports a duplicate of type similar: the first item
    of the scan that is above the threshold, with its Jaccard value times 100
    rounded to the nearest integer. *)
Theorem similar_content_is_reported :
  (forall (store : list Snippet) (code projectId : string),
     let snippets := getByProjectId sn_projectId store projectId in
     Forall (fun e => snippetHash e <> hashContent (normalizeContent code)) snippets ->
     Exists (fun e => (8 # 10 < snippetJ code e)%Q) snippets ->
     exists pre e post,
       snippets = (pre ++ e :: post)%list /\
       Forall (fun x => (snippetJ code x <= 8 # 10)%Q) pre /\
       (8 # 10 < snippetJ code e)%Q /\
       reportsSimilar (findDuplicateSnippet store code projectId) e (snippetJ code e))
  /\
  (forall (store : list Knowledge) (question answer projectId : string),
     let knowledge := getByProjectId kn_projectId store projectId in
     Forall (fun e => knowledgeHash e <>
                      hashContent (normalizeContent question ++ normalizeContent answer))
            knowledge ->
     Exists (fun e => (85 # 100 < answerJ answer e)%Q) knowledge ->
     exists pre e post,
       knowledge = (pre ++ e :: post)%list /\
       Forall (fun x => (answerJ answer x <= 85 # 100)%Q) pre /\
       (85 # 100 < answerJ answer e)%Q /\
       reportsSimilar (findDuplicateKnowledge store question answer projectId) e
         (answerJ answer e)).
Proof.
  split.
  - intros store code projectId snippets Hhash Hex.
    destruct (scanSnippets_similar code _ snippets Hhash Hex)
      as (pre & e & post & Hsplit & Hpre & He & Hscan).
    exists pre, e, post.
    split; [exact Hsplit |]. split; [exact Hpre |]. split; [exact He |].
    unfold findDuplicateSnippet. fold snippets. rewrite Hscan.
    apply similarMatch_reports.
  - intros store question answer projectId knowledge Hhash Hex.
    destruct (scanKnowledge_similar answer _ knowledge Hhash Hex)
      as (pre & e & post & Hsplit & Hpre & He & Hscan).
    exists pre, e, post.
    split; [exact Hsplit |]. split; [exact Hpre |]. split; [exact He |].
    unfold findDuplicateKnowledge. fold knowledge. rewrite Hscan.
    apply similarMatch_reports.
Qed.

(** C7, counterexample.  Four of five words shared is a similarity of
    exactly 0.80, and seventeen of twenty is exactly 0.85: content at the
    threshold is not reported at all. *)
Lemma content_at_threshold_is_not_reported :
  (snippetJ "aaa bbb ccc ddd eee" fourWords == 8 # 10)%Q /\
  findDuplicateSnippet [fourWords] "aaa bbb ccc ddd eee" "P" = notDuplicate /\
  (answerJ (seventeen ++ " x18 x19 x20") seventeenWords == 85 # 100)%Q /\
  findDuplicateKnowledge [seventeenWords] "why?" (seventeen ++ " x18 x19 x20") "P"
    = notDuplicate.
Proof. vm_compute. repeat split. Qed.

Lemma similar_content_is_reported_witness :
  exists pre e post,
    [snippetLong] = (pre ++ e :: post)%list /\
    Forall (fun x => (snippetJ "aaa bbb ccc ddd eee" x <= 8 # 10)%Q) pre /\
    (8 # 10 < snippetJ "aaa bbb ccc ddd eee" e)%Q /\
    reportsSimilar (findDuplicateSnippet [snippetLong] "aaa bbb ccc ddd eee" "P") e
      (snippetJ "aaa bbb ccc ddd eee" e).
Proof.
  apply (proj1 similar_content_is_reported [snippetLong] "aaa bbb ccc ddd eee" "P").
  - constructor; [| constructor]. vm_compute. discriminate.
  - apply Exists_cons. left. vm_compute. reflexivity.
Defined.

End DedupSpec.

(* ================================================================== *)
(** * The search score and its reference definition                    *)
(* ================================================================== *)

Module SearchSpec.
Import JS JSFacts Search.

Lemma partialLoop_spec weights queryWord textWords score :
  partialLoop weights queryWord textWords score
  = score + (if existsb (touches queryWord) textWords then w_partial weights else 0).
Proof.
  induction textWords as [| textWord rest IH]; simpl.
  - lia.
  - unfold touches at 1.
    destruct (includes textWord queryWord || includes queryWord textWord);
      simpl; [reflexivity | exact IH].
Qed.

Lemma existsb_eqb_elem (x : string) (l : list string) :
  existsb (String.eqb x) l = bool_decide (x ∈ l).
Proof.
  induction l as [| y l IH]; simpl.
  - reflexivity.
  - rewrite IH. destruct (String.eqb_spec x y) as [-> | Hne]; simpl.
    + symmetry. apply bool_decide_eq_true_2. apply elem_of_cons. auto.
    + apply bool_decide_ext. rewrite elem_of_cons. tauto.
Qed.

Lemma existsb_Set_of (f : string -> bool) (l : list string) :
  existsb f (Set_of l) = existsb f l.
Proof.
  apply eq_true_iff_eq. rewrite !existsb_exists.
  split; intros (x & Hx & Hf); exists x; split; auto;
    apply list_elem_of_In; apply list_elem_of_In in Hx;
    apply Set_of_elem; exact Hx.
Qed.

(** One query word against the [Set] of text words. *)
Lemma wordLoop_spec weights queryWords textTokens score :
  wordLoop weights queryWords (Set_of textTokens) score
  = score + sumZ (map (tokenContribution weights textTokens) queryWords).
Proof.
  revert score. induction queryWords as [| queryWord rest IH]; intros score; simpl.
  - lia.
  - rewrite IH. unfold tokenContribution at 2.
    rewrite Set_has_Set_of, existsb_eqb_elem, partialLoop_spec, existsb_Set_of.
    fold (touches queryWord).
    destruct (bool_decide (queryWord ∈ textTokens)); lia.
Qed.




(** At most one contribution per query token. *)
Lemma tokenContribution_cases weights textTokens token :
  tokenContribution weights textTokens token = w_word weights \/
  tokenContribution weights textTokens token = w_partial weights \/
  tokenContribution weights textTokens token = 0.
Proof.
  unfold tokenContribution.
  destruct (existsb (String.eqb token) textTokens); [auto |].
  destruct (existsb _ textTokens); auto.
Qed.

Example score_hello :
  calculateSearchScore "hello wor" "Hello, World! foo_bar" defaultWeights = 4
  /\ calculateSearchScore "World" "Hello, World! foo_bar" defaultWeights = 53.
Proof. vm_compute. split; reflexivity. Qed.

End SearchSpec.

(* ================================================================== *)
(** * Properties of the merge of match candidates                      *)
(* ================================================================== *)

Module MatcherSpec.
Import JS JSFacts Matcher.

(** ** The key stands for the pair (type, id) *)

Lemma keyOf_inj a b :
  keyOf a = keyOf b <-> type a = type b /\ itemId (item a) = itemId (item b).
Proof.
  unfold keyOf. split.
  - destruct (type a), (type b); simpl; intros H;
      try discriminate; injection H as H; auto.
  - intros [-> ->]. reflexivity.
Qed.

(** ** The map *)

Lemma Map_get_set {V} (m : MapOf V) k v k' :
  Map_get (Map_set m k v) k'
  = if String.eqb k k' then Some v else Map_get m k'.
Proof.
  induction m as [| [k1 v1] m IH]; simpl.
  - reflexivity.
  - destruct (String.eqb_spec k1 k) as [-> | Hne]; simpl.
    + destruct (String.eqb k k'); reflexivity.
    + rewrite IH. destruct (String.eqb_spec k1 k') as [-> | Hne'].
      * destruct (String.eqb_spec k k'); congruence.
      * reflexivity.
Qed.

Lemma Map_set_keys {V} (m : MapOf V) k v :
  map fst (Map_set m k v)
  = match Map_get m k with
    | Some _ => map fst m
    | None => (map fst m ++ [k])%list
    end.
Proof.
  induction m as [| [k1 v1] m IH]; simpl.
  - reflexivity.
  - destruct (String.eqb_spec k1 k) as [-> | Hne]; simpl.
    + reflexivity.
    + rewrite IH. destruct (Map_get m k); reflexivity.
Qed.

Lemma Map_get_None {V} (m : MapOf V) k :
  Map_get m k = None <-> k ∉ map fst m.
Proof.
  induction m as [| [k1 v1] m IH]; simpl.
  - split; [intros _; apply not_elem_of_nil | reflexivity].
  - rewrite not_elem_of_cons. destruct (String.eqb_spec k1 k) as [-> | Hne].
    + split; [discriminate | intros [H _]; congruence].
    + rewrite IH. split; [auto | tauto].
Qed.

Lemma Map_get_elem {V} (m : MapOf V) k v :
  NoDup (map fst m) -> (Map_get m k = Some v <-> (k, v) ∈ m).
Proof.
  induction m as [| [k1 v1] m IH]; simpl; intros Hnd.
  - rewrite elem_of_nil. split; [discriminate | tauto].
  - apply NoDup_cons in Hnd as [Hk1 Hnd]. rewrite elem_of_cons.
    destruct (String.eqb_spec k1 k) as [-> | Hne].
    + split.
      * intros [= ->]. auto.
      * intros [[= ->] | Hin]; [reflexivity |].
        exfalso. apply Hk1. apply (list_elem_of_fmap_2 fst) in Hin. exact Hin.
    + rewrite IH by exact Hnd. split; [auto |].
      intros [[= -> ->] | Hin]; [congruence | exact Hin].
Qed.

(** ** One candidate *)

Lemma dedupStep_get seen result k :
  Map_get (dedupStep seen result) k
  = if String.eqb (keyOf result) k then mergeEntry (Map_get seen k) result
    else Map_get seen k.
Proof.
  unfold dedupStep, mergeEntry.
  destruct (String.eqb_spec (keyOf result) k) as [<- | Hne].
  - destruct (Map_get seen (keyOf result)) as [existing |] eqn:Hg.
    + destruct (Qgtb _ _); [| exact Hg].
      rewrite Map_get_set, String.eqb_refl. reflexivity.
    + rewrite Map_get_set, String.eqb_refl. reflexivity.
  - destruct (Map_get seen (keyOf result)) as [existing |].
    + destruct (Qgtb _ _); [| reflexivity].
      rewrite Map_get_set. apply String.eqb_neq in Hne. rewrite Hne. reflexivity.
    + rewrite Map_get_set. apply String.eqb_neq in Hne. rewrite Hne. reflexivity.
Qed.

(** The entry of a key depends on the candidates of that key only. *)
Lemma fold_dedupStep_get results : forall seen k,
  Map_get (fold_left dedupStep results seen) k
  = fold_left mergeEntry (List.filter (hasKey k) results) (Map_get seen k).
Proof.
  induction results as [| r results IH]; intros seen k; simpl.
  - reflexivity.
  - rewrite IH, dedupStep_get. unfold hasKey at 2.
    destruct (String.eqb (keyOf r) k); reflexivity.
Qed.

Lemma Map_set_wf m k v :
  Map_wf m -> keyOf v = k -> Map_wf (Map_set m k v).
Proof.
  intros [Hnd Hkeys] Hk. split.
  - rewrite Map_set_keys. destruct (Map_get m k) eqn:Hg; [exact Hnd |].
    apply NoDup_app. split; [exact Hnd |]. split; [| apply NoDup_singleton].
    intros x Hx Hx'. apply list_elem_of_singleton in Hx'. subst x.
    apply Map_get_None in Hg. contradiction.
  - clear Hnd. induction m as [| [k1 v1] m IH]; simpl.
    + constructor; [exact Hk | constructor].
    + apply Forall_cons in Hkeys as [H1 Hkeys].
      destruct (String.eqb k1 k); constructor; auto.
Qed.

Lemma dedupStep_wf seen result : Map_wf seen -> Map_wf (dedupStep seen result).
Proof.
  intros Hwf. unfold dedupStep.
  destruct (Map_get seen (keyOf result)) as [existing |].
  - destruct (Qgtb _ _); [| exact Hwf].
    apply Map_set_wf; [exact Hwf | reflexivity].
  - apply Map_set_wf; [exact Hwf | reflexivity].
Qed.

Lemma fold_dedupStep_wf results : forall seen,
  Map_wf seen -> Map_wf (fold_left dedupStep results seen).
Proof.
  induction results as [| r results IH]; intros seen Hwf; simpl.
  - exact Hwf.
  - apply IH, dedupStep_wf, Hwf.
Qed.

Lemma Map_values_elem m e :
  Map_wf m -> (e ∈ Map_values m <-> Map_get m (keyOf e) = Some e).
Proof.
  intros [Hnd Hkeys]. rewrite Map_get_elem by exact Hnd.
  unfold Map_values. rewrite list_elem_of_fmap. split.
  - intros ([k v] & -> & Hin). simpl.
    rewrite Forall_forall in Hkeys. specialize (Hkeys (k, v)).
    simpl in Hkeys. rewrite Hkeys; [exact Hin | exact Hin].
  - intros Hin. exists (keyOf e, e). auto.
Qed.

Lemma Map_values_keys m : Map_wf m -> map keyOf (Map_values m) = map fst m.
Proof.
  intros [_ Hkeys]. unfold Map_values. rewrite map_map.
  induction Hkeys as [| kv m Hkv _ IH]; simpl; [reflexivity |].
  rewrite Hkv, IH. reflexivity.
Qed.

(** ** The sort *)

Lemma byScoreDescending_le x y :
  Qle_bool (byScoreDescending x y) 0 = true <-> descending x y.
Proof.
  unfold byScoreDescending, descending. rewrite Qle_bool_iff. split; intros; lra.
Qed.

Lemma insertSorted_perm {A} (cmp : A -> A -> Q) x l :
  Permutation (insertSorted cmp x l) (x :: l).
Proof.
  induction l as [| y l IH]; simpl.
  - reflexivity.
  - destruct (Qle_bool (cmp x y) 0); [reflexivity |].
    rewrite IH. apply perm_swap.
Qed.

Lemma sort_perm {A} (cmp : A -> A -> Q) l : Permutation (sort cmp l) l.
Proof.
  induction l as [| x l IH]; simpl.
  - reflexivity.
  - rewrite insertSorted_perm, IH. reflexivity.
Qed.

Lemma insertSorted_sorted x l :
  StronglySorted descending l ->
  StronglySorted descending (insertSorted byScoreDescending x l).
Proof.
  induction 1 as [| y l Hsorted IH Hy]; simpl.
  - repeat constructor.
  - destruct (Qle_bool (byScoreDescending x y) 0) eqn:Hc.
    + apply byScoreDescending_le in Hc.
      constructor; [constructor; assumption |].
      constructor; [exact Hc |].
      eapply Forall_impl; [exact Hy |].
      unfold descending in *. intros z Hz. lra.
    + constructor; [exact IH |].
      eapply Permutation_Forall; [symmetry; apply insertSorted_perm |].
      constructor; [| exact Hy].
      unfold descending. destruct (Qlt_le_dec (relevanceScore y) (relevanceScore x))
        as [Hlt | Hle]; [| exact Hle].
      assert (Qle_bool (byScoreDescending x y) 0 = true) as Habs;
        [| rewrite Habs in Hc; discriminate].
      apply byScoreDescending_le. unfold descending. lra.
Qed.

Lemma sort_sorted l : StronglySorted descending (sort byScoreDescending l).
Proof.
  induction l as [| x l IH]; simpl.
  - constructor.
  - apply insertSorted_sorted, IH.
Qed.

(** ** Scores *)

Lemma max_greater a b : Qgtb a b = true -> max a b = a.
Proof.
  unfold Qgtb, max. intros H. apply negb_true_iff in H. rewrite H. reflexivity.
Qed.

Lemma mergeEntry_entryOf k cs entry c :
  keyOf c = k -> entryOf k cs entry -> entryOf k (cs ++ [c]) (mergeEntry entry c).
Proof.
  intros Hk Hinv. unfold mergeEntry. destruct entry as [existing |]; simpl in *.
  - destruct Hinv as (Hke & (c0 & Hc0 & Hs0) & Hall).
    destruct (Qgtb (relevanceScore c) (relevanceScore existing)) eqn:Hq; simpl.
    + rewrite (max_greater _ _ Hq). apply Qgtb_true in Hq.
      split; [unfold keyOf in *; simpl; exact Hk |]. split.
      * exists c. split; [| reflexivity]. apply elem_of_app. right.
        apply list_elem_of_singleton. reflexivity.
      * apply Forall_app. split.
        -- eapply Forall_impl; [exact Hall |]. intros z Hz. simpl in *. lra.
        -- constructor; [lra | constructor].
    + apply Qgtb_false in Hq. split; [exact Hke |]. split.
      * exists c0. split; [| exact Hs0]. apply elem_of_app. auto.
      * apply Forall_app. split; [exact Hall |]. constructor; [exact Hq | constructor].
  - subst cs. simpl. split; [exact Hk |]. split.
    + exists c. split; [apply list_elem_of_singleton; reflexivity | reflexivity].
    + constructor; [lra | constructor].
Qed.

Lemma fold_mergeEntry_entryOf k cs : forall done entry,
  Forall (fun c => keyOf c = k) cs ->
  entryOf k done entry ->
  entryOf k (done ++ cs) (fold_left mergeEntry cs entry).
Proof.
  induction cs as [| c cs IH]; intros done entry Hkeys Hinv; simpl.
  - rewrite app_nil_r. exact Hinv.
  - apply Forall_cons in Hkeys as [Hc Hkeys].
    replace (done ++ c :: cs)%list with ((done ++ [c]) ++ cs)%list
      by (rewrite <- app_assoc; reflexivity).
    apply IH; [exact Hkeys |]. apply mergeEntry_entryOf; assumption.
Qed.

(** The entry of key [k] once all of [results] has been seen. *)
Lemma final_entry results k :
  entryOf k (List.filter (hasKey k) results)
    (Map_get (fold_left dedupStep results []) k).
Proof.
  rewrite fold_dedupStep_get. simpl.
  apply (fold_mergeEntry_entryOf k (List.filter (hasKey k) results) [] None).
  - apply Forall_forall. intros c Hc. apply elem_of_List_filter in Hc as [_ Hc].
    apply String.eqb_eq. exact Hc.
  - reflexivity.
Qed.

Lemma out_elem results e :
  e ∈ deduplicateAndSort results <->
  Map_get (fold_left dedupStep results []) (keyOf e) = Some e.
Proof.
  unfold deduplicateAndSort. rewrite (sort_perm byScoreDescending).
  apply Map_values_elem. apply fold_dedupStep_wf.
  split; constructor.
Qed.

Lemma out_keys_NoDup results : NoDup (map keyOf (deduplicateAndSort results)).
Proof.
  unfold deduplicateAndSort.
  rewrite (sort_perm byScoreDescending).
  assert (Hwf : Map_wf (fold_left dedupStep results []))
    by (apply fold_dedupStep_wf; split; constructor).
  rewrite Map_values_keys by exact Hwf. apply Hwf.
Qed.



(** ** Two candidates for one snippet *)



End MatcherSpec.

(* ================================================================== *)
(** * Properties of the sync client                                    *)
(* ================================================================== *)

Module ClientSpec.
Import JS JSFacts Client.

(** ** The guard flag *)

Lemma keepsFlag_releases {A} (m : M A) : keepsFlag m -> releases m.
Proof. intros H st Hst _. rewrite H. exact Hst. Qed.

Lemma keepsFlag_ret {A} (a : A) : keepsFlag (ret a).
Proof. intros st. reflexivity. Qed.

Lemma keepsFlag_bind {A B} (m : M A) (k : A -> M B) :
  keepsFlag m -> (forall a, keepsFlag (k a)) -> keepsFlag (bind m k).
Proof.
  intros Hm Hk st. unfold bind. specialize (Hm st).
  destruct (m st) as [[a | e |] st']; simpl in *.
  - rewrite Hk. exact Hm.
  - exact Hm.
  - exact Hm.
Qed.

Lemma releases_ret {A} (a : A) : releases (ret a).
Proof. intros st Hst _. exact Hst. Qed.

Lemma releases_bind {A B} (m : M A) (k : A -> M B) :
  releases m -> (forall a, releases (k a)) -> releases (bind m k).
Proof.
  intros Hm Hk st Hst. unfold bind. specialize (Hm st Hst).
  destruct (m st) as [[a | e |] st']; simpl in *.
  - intros Hs. apply Hk; [apply Hm; reflexivity | exact Hs].
  - intros _. apply Hm. reflexivity.
  - discriminate.
Qed.

Lemma keepsFlag_request env : keepsFlag (request env).
Proof. intros st. unfold request. destruct (storageFails env _); reflexivity. Qed.

Lemma keepsFlag_initDB : keepsFlag initDB.
Proof. intros st. reflexivity. Qed.

Lemma keepsFlag_getState : keepsFlag getState.
Proof. intros st. reflexivity. Qed.

Lemma keepsFlag_getSetting env key : keepsFlag (getSetting env key).
Proof.
  unfold getSetting.
  apply keepsFlag_bind; [apply keepsFlag_initDB | intros database].
  apply keepsFlag_bind; [apply keepsFlag_request | intros _].
  apply keepsFlag_bind; [apply keepsFlag_getState | intros st].
  destruct database; apply keepsFlag_ret.
Qed.

(** A [finally] that clears the flag has cleared it when the whole has
    settled. *)
Lemma tryFinally_clears {A} (body : M A) st :
  settled (fst (tryFinally body (setIsSyncing false) st)) = true ->
  isSyncing (snd (tryFinally body (setIsSyncing false) st)) = false.
Proof.
  unfold tryFinally. destruct (body st) as [[a | e |] st']; simpl;
    [reflexivity | reflexivity | discriminate].
Qed.

(** ... and has left it set when the body never settles. *)
Lemma tryFinally_unsettled {A} (body : M A) (cleanup : M unit) st st' :
  body st = (Unsettled, st') -> tryFinally body cleanup st = (Unsettled, st').
Proof. intros H. unfold tryFinally. rewrite H. reflexivity. Qed.

Lemma guarded_releases {A} (body : M A) :
  releases (bind (setIsSyncing true)
              (fun _ => tryFinally body (setIsSyncing false))).
Proof.
  intros st _. unfold bind. simpl. apply tryFinally_clears.
Qed.

Lemma processSyncQueue_releases env : releases (processSyncQueue env).
Proof.
  unfold processSyncQueue.
  apply releases_bind; [apply keepsFlag_releases, keepsFlag_getState | intros st].
  destruct (isSyncing st); [apply releases_ret |].
  apply releases_bind; [apply keepsFlag_releases, keepsFlag_getSetting | intros isPremium].
  apply releases_bind; [apply keepsFlag_releases, keepsFlag_getSetting | intros enabled].
  apply releases_bind; [apply keepsFlag_releases, keepsFlag_getSetting | intros token].
  destruct (_ || _); [apply releases_ret |].
  destruct (isEmpty apiUrl); [apply releases_ret |].
  apply releases_bind; [apply keepsFlag_releases, keepsFlag_initDB | intros database].
  destruct database; [apply guarded_releases | apply releases_ret].
Qed.

Lemma pullFromCloud_releases env : releases (pullFromCloud env).
Proof.
  unfold pullFromCloud.
  apply releases_bind; [apply keepsFlag_releases, keepsFlag_getState | intros st].
  destruct (isSyncing st); [apply releases_ret |].
  apply releases_bind; [apply keepsFlag_releases, keepsFlag_getSetting | intros isPremium].
  apply releases_bind; [apply keepsFlag_releases, keepsFlag_getSetting | intros token].
  destruct (_ || _); [apply releases_ret |].
  apply releases_bind; [apply keepsFlag_releases, keepsFlag_getSetting | intros lastPullAt].
  apply guarded_releases.
Qed.

(** ** Running a call step by step *)

Lemma bind_run {A B} (m : M A) (k : A -> M B) st a st' :
  m st = (Return a, st') -> bind m k st = k a st'.
Proof. intros H. unfold bind. rewrite H. reflexivity. Qed.

Lemma bind_unsettled {A B} (m : M A) (k : A -> M B) st st' :
  m st = (Unsettled, st') -> bind m k st = (Unsettled, st').
Proof. intros H. unfold bind. rewrite H. reflexivity. Qed.

Lemma getSetting_ok env key st db :
  storageFails env (requests st) = false -> database st = Some db ->
  getSetting env key st
  = (Return (or_null (settings db !! key)), withRequests st (S (requests st))).
Proof.
  intros Hok Hdb. unfold getSetting, bind, initDB, request, getState, ret.
  rewrite Hdb, Hok. reflexivity.
Qed.

Lemma getSetting_run env key st db :
  noFailures env -> database st = Some db ->
  getSetting env key st
  = (Return (or_null (settings db !! key)), withRequests st (S (requests st))).
Proof. intros Hnf. apply getSetting_ok, Hnf. Qed.

Lemma getAllQueue_ok env st db :
  storageFails env (requests st) = false -> database st = Some db ->
  getAllQueue env st = (Return (syncQueue db), withRequests st (S (requests st))).
Proof.
  intros Hok Hdb. unfold getAllQueue, bind, requestWithoutOnerror.
  rewrite Hok. cbn [database withRequests]. rewrite Hdb. reflexivity.
Qed.

(** While the flag is set every call is turned away and changes nothing. *)
Lemma processSyncQueue_busy env st :
  isSyncing st = true ->
  processSyncQueue env st = (Return (PushMessage 0 "Sync already in progress"), st).
Proof.
  intros Hflag. unfold processSyncQueue.
  rewrite (bind_run getState _ st st st eq_refl). rewrite Hflag. reflexivity.
Qed.

Lemma pullFromCloud_busy env st :
  isSyncing st = true ->
  pullFromCloud env st = (Return (PullFailure "Sync already in progress"), st).
Proof.
  intros Hflag. unfold pullFromCloud.
  rewrite (bind_run getState _ st st st eq_refl). rewrite Hflag. reflexivity.
Qed.

Lemma afterAll_busy calls : forall st,
  isSyncing st = true -> afterAll calls st = st.
Proof.
  unfold afterAll.
  induction calls as [| [e c] calls IH]; intros st Hflag; simpl; [reflexivity |].
  assert (Hstep : after e c st = st).
  { destruct c; unfold after;
      [rewrite processSyncQueue_busy | rewrite pullFromCloud_busy];
      auto. }
  rewrite Hstep. apply IH. exact Hflag.
Qed.

(** The run of [processSyncQueue] up to the read of the queue, when the
    prerequisites are met and the three settings can be read. *)
Lemma processSyncQueue_guarded env st db :
  database st = Some db ->
  isSyncing st = false ->
  truthy (or_null (settings db !! "isPremium")) = true ->
  truthy (or_null (settings db !! "cloudSyncEnabled")) = true ->
  truthy (or_null (settings db !! "cloudAuthToken")) = true ->
  storageFails env (requests st) = false ->
  storageFails env (1 + requests st) = false ->
  storageFails env (2 + requests st) = false ->
  processSyncQueue env st
  = tryFinally
      (bind (getAllQueue env)
         (fun items => pushLoop env (Z.of_nat (length items)) items 0 []))
      (setIsSyncing false)
      (withIsSyncing (withRequests st (3 + requests st)) true).
Proof.
  intros Hdb Hflag Hprem Hen Htok H0 H1 H2.
  unfold processSyncQueue.
  rewrite (bind_run getState _ st st st eq_refl). rewrite Hflag.
  rewrite (bind_run _ _ _ _ _ (getSetting_ok env "isPremium" st db H0 Hdb)).
  set (st1 := withRequests st (S (requests st))).
  rewrite (bind_run _ _ _ _ _ (getSetting_ok env "cloudSyncEnabled" st1 db H1 Hdb)).
  set (st2 := withRequests st1 (S (requests st1))).
  rewrite (bind_run _ _ _ _ _ (getSetting_ok env "cloudAuthToken" st2 db H2 Hdb)).
  rewrite Hprem, Hen, Htok.
  change (negb true || negb true || negb true) with false. cbv iota.
  change (isEmpty apiUrl) with false. cbv iota.
  unfold bind at 1, initDB at 1. cbn [database withRequests st2 st1].
  rewrite Hdb. reflexivity.
Qed.

(** C10, the code at the failing input.  A client with IndexedDB open
    that meets the prerequisites of [processSyncQueue] and reads its three
    settings, and whose next storage request -- the [getAll] on the sync
    queue, awaited through a promise without [onerror] -- fails: the call
    never settles, the [finally] block never runs and [isSyncing] stays
    true; every later call of [processSyncQueue] or [pullFromCloud], with
    whatever server and storage, is answered "Sync already in progress"
    and changes nothing. *)
Theorem failed_queue_read_leaves_isSyncing_set :
  forall (env : Env) (st : State) (db : IDB),
    database st = Some db ->
    isSyncing st = false ->
    truthy (or_null (settings db !! "isPremium")) = true ->
    truthy (or_null (settings db !! "cloudSyncEnabled")) = true ->
    truthy (or_null (settings db !! "cloudAuthToken")) = true ->
    storageFails env (requests st) = false ->
    storageFails env (1 + requests st) = false ->
    storageFails env (2 + requests st) = false ->
    storageFails env (3 + requests st) = true ->
    let stuck := snd (processSyncQueue env st) in
    fst (processSyncQueue env st) = Unsettled /\
    isSyncing stuck = true /\
    database stuck = Some db /\
    forall (calls : list (Env * Call)) (env' : Env),
      isSyncing (afterAll calls stuck) = true /\
      fst (processSyncQueue env' (afterAll calls stuck))
        = Return (PushMessage 0 "Sync already in progress") /\
      fst (pullFromCloud env' (afterAll calls stuck))
        = Return (PullFailure "Sync already in progress").
Proof.
  intros env st db Hdb Hflag Hprem Hen Htok H0 H1 H2 H3. cbv zeta.
  rewrite (processSyncQueue_guarded env st db Hdb Hflag Hprem Hen Htok H0 H1 H2).
  set (st3 := withIsSyncing (withRequests st (3 + requests st)) true).
  assert (Hread : getAllQueue env st3
                  = (Unsettled, withRequests st3 (S (requests st3)))).
  { unfold getAllQueue, bind, requestWithoutOnerror.
    change (requests st3) with (3 + requests st)%nat. rewrite H3. reflexivity. }
  rewrite (tryFinally_unsettled _ _ _ _ (bind_unsettled _ _ _ _ Hread)).
  cbn [fst snd].
  split; [reflexivity |]. split; [reflexivity |]. split; [exact Hdb |].
  intros calls env'.
  rewrite afterAll_busy by reflexivity.
  rewrite processSyncQueue_busy, pullFromCloud_busy by reflexivity.
  repeat split.
Qed.

Lemma failed_queue_read_leaves_isSyncing_set_witness :
  fst (processSyncQueue failingQueueRead (clientOf (Some queuedDB) 0)) = Unsettled /\
  isSyncing (snd (processSyncQueue failingQueueRead (clientOf (Some queuedDB) 0))) = true /\
  database (snd (processSyncQueue failingQueueRead (clientOf (Some queuedDB) 0)))
    = Some queuedDB /\
  forall (calls : list (Env * Call)) (env' : Env),
    isSyncing (afterAll calls
                 (snd (processSyncQueue failingQueueRead (clientOf (Some queuedDB) 0))))
      = true /\
    fst (processSyncQueue env'
           (afterAll calls
              (snd (processSyncQueue failingQueueRead (clientOf (Some queuedDB) 0)))))
      = Return (PushMessage 0 "Sync already in progress") /\
    fst (pullFromCloud env'
           (afterAll calls
              (snd (processSyncQueue failingQueueRead (clientOf (Some queuedDB) 0)))))
      = Return (PullFailure "Sync already in progress").
Proof.
  apply (failed_queue_read_leaves_isSyncing_set failingQueueRead
           (clientOf (Some queuedDB) 0) queuedDB);
    vm_compute; reflexivity.
Defined.

(** The same at the second promise without [onerror]: the server accepts
    the first queued item, its entry is deleted from the queue, and the
    read of the record that the item is about fails.  The call never
    settles and [isSyncing] stays true. *)
Lemma failed_record_read_leaves_isSyncing_set env st db item rest status :
  database st = Some db ->
  isSyncing st = false ->
  truthy (or_null (settings db !! "isPremium")) = true ->
  truthy (or_null (settings db !! "cloudSyncEnabled")) = true ->
  truthy (or_null (settings db !! "cloudAuthToken")) = true ->
  syncQueue db = item :: rest ->
  isEmpty (id (data item)) = false ->
  pushResponse env item = Response status tt -> ok status = true ->
  storageFails env (requests st) = false ->
  storageFails env (1 + requests st) = false ->
  storageFails env (2 + requests st) = false ->
  storageFails env (3 + requests st) = false ->
  storageFails env (4 + requests st) = true ->
  fst (processSyncQueue env st) = Unsettled /\
  isSyncing (snd (processSyncQueue env st)) = true /\
  database (snd (processSyncQueue env st)) = Some (Sync.dequeued db item).
Proof.
  intros Hdb Hflag Hprem Hen Htok Hq Hid Hresp Hok H0 H1 H2 H3 H4.
  rewrite (processSyncQueue_guarded env st db Hdb Hflag Hprem Hen Htok H0 H1 H2).
  set (st3 := withIsSyncing (withRequests st (3 + requests st)) true).
  set (st4 := withRequests st3 (S (requests st3))).
  set (st5 := withRequests (withDatabase st4 (Sync.dequeued db item))
                (S (requests st4))).
  assert (Hdelete : deleteFromQueue (si_id item) st4
                    = (Return tt, withDatabase st4 (Sync.dequeued db item))).
  { unfold deleteFromQueue. change (database st4) with (database st).
    rewrite Hdb. reflexivity. }
  assert (Hread : markSynced env item (withDatabase st4 (Sync.dequeued db item))
                  = (Unsettled, st5)).
  { unfold markSynced. apply bind_unsettled. unfold requestWithoutOnerror.
    change (requests (withDatabase st4 (Sync.dequeued db item)))
      with (4 + requests st)%nat.
    rewrite H4. reflexivity. }
  assert (Hitem : pushItem env item 0 [] st4 = (Unsettled, st5)).
  { unfold pushItem, tryCatch. rewrite Hresp, Hok, Hid. cbn [negb].
    rewrite (bind_run _ _ _ _ _ Hdelete).
    rewrite (bind_unsettled _ _ _ _ Hread). reflexivity. }
  assert (Hbody : bind (getAllQueue env)
                    (fun items => pushLoop env (Z.of_nat (length items)) items 0 [])
                    st3 = (Unsettled, st5)).
  { rewrite (bind_run _ _ _ _ _ (getAllQueue_ok env st3 db H3 Hdb)), Hq.
    cbn [pushLoop]. apply bind_unsettled. exact Hitem. }
  rewrite (tryFinally_unsettled _ _ _ _ Hbody). repeat split.
Qed.

(** ** Calls that settle *)

Lemma settles_ret {A} (a : A) : settles (ret a).
Proof. intros st. reflexivity. Qed.

Lemma settles_throw {A} message : settles (@throw A message).
Proof. intros st. reflexivity. Qed.

Lemma settles_bind {A B} (m : M A) (k : A -> M B) :
  settles m -> (forall a, settles (k a)) -> settles (bind m k).
Proof.
  intros Hm Hk st. unfold bind. specialize (Hm st).
  destruct (m st) as [[a | e |] st']; simpl in *;
    [apply Hk | reflexivity | discriminate].
Qed.

Lemma settles_tryCatch {A} (body : M A) (handler : string -> M A) :
  settles body -> (forall e, settles (handler e)) -> settles (tryCatch body handler).
Proof.
  intros Hb Hh st. unfold tryCatch. specialize (Hb st).
  destruct (body st) as [[a | e |] st']; simpl in *;
    [reflexivity | apply Hh | discriminate].
Qed.

Lemma settles_tryFinally {A} (body : M A) (cleanup : M unit) :
  settles body -> settles cleanup -> settles (tryFinally body cleanup).
Proof.
  intros Hb Hc st. unfold tryFinally. specialize (Hb st).
  destruct (body st) as [[a | e |] st']; simpl in *; [| | discriminate];
    specialize (Hc st'); destruct (cleanup st') as [[u | e' |] st''];
    simpl in *; try reflexivity; discriminate.
Qed.

Lemma settles_request env : settles (request env).
Proof. intros st. unfold request. destruct (storageFails env _); reflexivity. Qed.

Lemma settles_requestWithoutOnerror env :
  noFailures env -> settles (requestWithoutOnerror env).
Proof. intros Hnf st. unfold requestWithoutOnerror. rewrite Hnf. reflexivity. Qed.

Lemma settles_getSetting env key : settles (getSetting env key).
Proof.
  unfold getSetting.
  apply settles_bind; [intros st; reflexivity | intros database].
  apply settles_bind; [apply settles_request | intros _].
  apply settles_bind; [intros st; reflexivity | intros st].
  destruct database; apply settles_ret.
Qed.

Lemma settles_setSetting env key value : settles (setSetting env key value).
Proof.
  unfold setSetting.
  apply settles_bind; [intros st; reflexivity | intros database].
  apply settles_bind; [apply settles_request | intros _].
  destruct database; intros st; reflexivity.
Qed.

Lemma settles_put s row : settles (put s row).
Proof. intros st. unfold put. destruct (database st); reflexivity. Qed.

Lemma settles_deleteFromQueue key : settles (deleteFromQueue key).
Proof. intros st. unfold deleteFromQueue. destruct (database st); reflexivity. Qed.

Lemma settles_markSynced env item : noFailures env -> settles (markSynced env item).
Proof.
  intros Hnf. unfold markSynced.
  apply settles_bind; [apply settles_requestWithoutOnerror, Hnf | intros _].
  apply settles_bind; [intros st; reflexivity | intros st].
  destruct (database st) as [db |]; [| apply settles_ret].
  destruct (_ !! _); [apply settles_put | apply settles_ret].
Qed.

Lemma settles_pushItem env item synced errors :
  noFailures env -> settles (pushItem env item synced errors).
Proof.
  intros Hnf. unfold pushItem.
  apply settles_tryCatch; [| intros e; apply settles_ret].
  destruct (pushResponse env item) as [message | status body];
    [apply settles_throw |].
  destruct (ok status).
  - apply settles_bind; [apply settles_deleteFromQueue | intros _].
    apply settles_bind; [| intros _; apply settles_ret].
    destruct (negb _); [apply settles_markSynced, Hnf | apply settles_ret].
  - destruct (status =? 401).
    + apply settles_bind; [apply settles_setSetting | intros _; apply settles_ret].
    + destruct (_ >=? _); [| apply settles_ret].
      apply settles_bind; [apply settles_deleteFromQueue | intros _; apply settles_ret].
Qed.

Lemma settles_pushLoop env count items : forall synced errors,
  noFailures env -> settles (pushLoop env count items synced errors).
Proof.
  induction items as [| item rest IH]; intros synced errors Hnf; simpl.
  - apply settles_ret.
  - apply settles_bind; [apply settles_pushItem, Hnf |].
    intros [synced' errors' | result]; [apply IH, Hnf | apply settles_ret].
Qed.

Lemma settles_processSyncQueue env : noFailures env -> settles (processSyncQueue env).
Proof.
  intros Hnf. unfold processSyncQueue.
  apply settles_bind; [intros st; reflexivity | intros st].
  destruct (isSyncing st); [apply settles_ret |].
  apply settles_bind; [apply settles_getSetting | intros isPremium].
  apply settles_bind; [apply settles_getSetting | intros enabled].
  apply settles_bind; [apply settles_getSetting | intros token].
  destruct (_ || _); [apply settles_ret |].
  destruct (isEmpty apiUrl); [apply settles_ret |].
  apply settles_bind; [intros st'; reflexivity | intros database].
  destruct database; [| apply settles_ret].
  apply settles_bind; [intros st'; reflexivity | intros _].
  apply settles_tryFinally; [| intros st'; reflexivity].
  unfold getAllQueue.
  apply settles_bind; [| intros items; apply settles_pushLoop, Hnf].
  apply settles_bind; [apply settles_requestWithoutOnerror, Hnf | intros _].
  intros st'. destruct (database st'); reflexivity.
Qed.

(** X29.  A call of [processSyncQueue] or [pullFromCloud] that starts with
    [isSyncing] false and settles -- it returns or throws -- ends with
    [isSyncing] false, whatever the settings, the server's answers and the
    failures of storage requests are; and when no storage request fails, a
    call of [processSyncQueue] does settle. *)
Theorem settled_call_releases_isSyncing :
  forall (env : Env) (st : State),
    isSyncing st = false ->
    (settled (fst (processSyncQueue env st)) = true ->
     isSyncing (snd (processSyncQueue env st)) = false) /\
    (settled (fst (pullFromCloud env st)) = true ->
     isSyncing (snd (pullFromCloud env st)) = false) /\
    (noFailures env ->
     settled (fst (processSyncQueue env st)) = true /\
     isSyncing (snd (processSyncQueue env st)) = false).
Proof.
  intros env st Hst. split; [| split].
  - apply processSyncQueue_releases. exact Hst.
  - apply pullFromCloud_releases. exact Hst.
  - intros Hnf. pose proof (settles_processSyncQueue env Hnf st) as Hs.
    split; [exact Hs |]. apply processSyncQueue_releases; assumption.
Qed.

Lemma settled_call_releases_isSyncing_witness :
  settled (fst (processSyncQueue failingServer (clientOf (Some queuedDB) 0))) = true /\
  isSyncing (snd (processSyncQueue failingServer (clientOf (Some queuedDB) 0))) = false.
Proof.
  apply (settled_call_releases_isSyncing failingServer (clientOf (Some queuedDB) 0)).
  - reflexivity.
  - intros n. reflexivity.
Defined.

(** ** The pull merge *)

Lemma getById_run env s k st db :
  noFailures env -> database st = Some db ->
  getById env s k st
  = (Return (objectStore db s !! k), withRequests st (S (requests st))).
Proof.
  intros Hnf Hdb. unfold getById, bind, initDB, request, getState, ret.
  rewrite Hdb, Hnf. reflexivity.
Qed.

Lemma mergeItem_run env s imported item st db :
  noFailures env -> database st = Some db ->
  exists imported' st',
    mergeItem env s imported item st = (Return imported', st') /\
    database st' = Some (mergeRow env s db item).
Proof.
  intros Hnf Hdb. unfold mergeItem, mergeRow.
  rewrite (bind_run _ _ _ _ _ (getById_run env s (id item) st db Hnf Hdb)).
  destruct (cloudWins (objectStore db s !! id item) item).
  - unfold saveDataDirect, initDB, request, put, ret, bind. simpl.
    rewrite Hdb, Hnf. simpl. rewrite Hdb. simpl. eexists _, _.
    split; reflexivity.
  - unfold ret. eexists _, _. split; [reflexivity | exact Hdb].
Qed.

Lemma mergeItems_run env s items : forall imported st db,
  noFailures env -> database st = Some db ->
  exists imported' st',
    mergeItems env s items imported st = (Return imported', st') /\
    database st' = Some (fold_left (mergeRow env s) items db).
Proof.
  induction items as [| item rest IH]; intros imported st db Hnf Hdb; simpl.
  - eexists _, _. split; [reflexivity | exact Hdb].
  - destruct (mergeItem_run env s imported item st db Hnf Hdb)
      as (imported1 & st1 & Hrun & Hdb1).
    rewrite (bind_run _ _ _ _ _ Hrun). apply IH; assumption.
Qed.

Lemma mergeStores_run env cloudData stores : forall imported st db,
  noFailures env -> database st = Some db ->
  exists imported' st',
    mergeStores env cloudData stores imported st = (Return imported', st') /\
    database st' = Some (fold_left (mergeStore env cloudData) stores db).
Proof.
  induction stores as [| s rest IH]; intros imported st db Hnf Hdb; simpl.
  - eexists _, _. split; [reflexivity | exact Hdb].
  - destruct (mergeItems_run env s (pulledRows cloudData s) imported st db Hnf Hdb)
      as (imported1 & st1 & Hrun & Hdb1).
    rewrite (bind_run _ _ _ _ _ Hrun). apply IH; assumption.
Qed.

Lemma objectStore_with_same db s m : objectStore (withObjectStore db s m) s = m.
Proof. destruct s; reflexivity. Qed.

Lemma objectStore_with_other db s s' m :
  s <> s' -> objectStore (withObjectStore db s m) s' = objectStore db s'.
Proof. destruct s, s'; intros H; try reflexivity; contradiction. Qed.

Lemma syncQueue_withObjectStore db s m :
  syncQueue (withObjectStore db s m) = syncQueue db.
Proof. destruct s; reflexivity. Qed.




Lemma mergeRow_same env s db R :
  objectStore (mergeRow env s db R) s !! id R
  = Some (lastWriteWins env (objectStore db s !! id R) R).
Proof.
  unfold mergeRow, lastWriteWins, cloudWins.
  destruct (objectStore db s !! id R) as [L |] eqn:HL.
  - rewrite or_zero_id. destruct (updatedAt R >? updatedAt L).
    + rewrite objectStore_with_same. apply lookup_insert_eq.
    + exact HL.
  - rewrite objectStore_with_same. apply lookup_insert_eq.
Qed.








Lemma setSetting_run env key value st db :
  noFailures env -> database st = Some db ->
  exists st',
    setSetting env key value st = (Return value, st') /\
    database st' = Some (withSettings db (<[key := value]> (settings db))) /\
    isSyncing st' = isSyncing st.
Proof.
  intros Hnf Hdb. unfold setSetting, initDB, request, bind.
  rewrite Hdb, Hnf. eexists. split; [reflexivity |]. split; reflexivity.
Qed.

(** A pull that passes its prerequisites and gets a well-formed answer. *)
Lemma pullFromCloud_run env st db cloudData status :
  database st = Some db ->
  isSyncing st = false ->
  truthy (or_null (settings db !! "isPremium")) = true ->
  truthy (or_null (settings db !! "cloudAuthToken")) = true ->
  noFailures env ->
  pullResponse env (lastPullAtOf db) = Response status (Some cloudData) ->
  ok status = true ->
  exists imported st',
    pullFromCloud env st = (Return (PullSuccess imported), st') /\
    database st' =
      Some (withSettings (fold_left (mergeStore env cloudData) stores db)
              (<["lastCloudPullAt" := VNum (now env)]>
                 (settings (fold_left (mergeStore env cloudData) stores db)))).
Proof.
  intros Hdb Hflag Hprem Htoken Hnf Hresp Hok.
  unfold pullFromCloud.
  rewrite (bind_run getState _ st st st eq_refl). rewrite Hflag.
  rewrite (bind_run _ _ _ _ _ (getSetting_run env "isPremium" st db Hnf Hdb)).
  set (st1 := withRequests st (S (requests st))).
  assert (Hdb1 : database st1 = Some db) by exact Hdb.
  rewrite (bind_run _ _ _ _ _ (getSetting_run env "cloudAuthToken" st1 db Hnf Hdb1)).
  rewrite Hprem, Htoken.
  change (negb true || negb true || isEmpty apiUrl) with false. cbv iota.
  set (st2 := withRequests st1 (S (requests st1))).
  assert (Hdb2 : database st2 = Some db) by exact Hdb.
  rewrite (bind_run _ _ _ _ _ (getSetting_run env "lastCloudPullAt" st2 db Hnf Hdb2)).
  fold (lastPullAtOf db). rewrite Hresp, Hok. simpl negb. cbv iota.
  set (st3 := withRequests st2 (S (requests st2))).
  unfold bind at 1. unfold setIsSyncing at 1.
  set (st4 := withIsSyncing st3 true).
  assert (Hdb4 : database st4 = Some db) by exact Hdb.
  destruct (mergeStores_run env cloudData stores
              {| im_projects := 0; im_snippets := 0; im_knowledge := 0 |}
              st4 db Hnf Hdb4) as (imported & st5 & Hrun & Hdb5).
  destruct (setSetting_run env "lastCloudPullAt" (VNum (now env)) st5 _ Hnf Hdb5)
    as (st6 & Hset & Hdb6 & _).
  exists imported, (withIsSyncing st6 false).
  unfold tryFinally, tryCatch.
  rewrite (bind_run _ _ _ _ _ Hrun). rewrite (bind_run _ _ _ _ _ Hset).
  unfold ret, setIsSyncing. split; [reflexivity | exact Hdb6].
Qed.




(** ** Retries *)

(** One sync cycle in which the server refuses the only queued item with a
    status that is neither a success nor 401, and the item's stored
    [retries] is below the cap by more than one: nothing is synced, no
    error is reported, and the database -- the queue entry with its
    [retries] included -- is what it was. *)
Lemma refused_cycle env db item status n :
  noFailures env ->
  truthy (or_null (settings db !! "isPremium")) = true ->
  truthy (or_null (settings db !! "cloudSyncEnabled")) = true ->
  truthy (or_null (settings db !! "cloudAuthToken")) = true ->
  syncQueue db = [item] ->
  retries item + 1 < maxRetries ->
  pushResponse env item = Response status tt ->
  ok status = false -> status <> 401 ->
  processSyncQueue env (clientOf (Some db) n)
  = (Return (PushSummary 0 1 []), clientOf (Some db) (4 + n)).
Proof.
  intros Hnf Hprem Hen Htok Hq Hret Hresp Hok H401.
  rewrite (processSyncQueue_guarded env (clientOf (Some db) n) db
             eq_refl eq_refl Hprem Hen Htok (Hnf _) (Hnf _) (Hnf _)).
  set (st3 := withIsSyncing (withRequests (clientOf (Some db) n)
                               (3 + requests (clientOf (Some db) n))) true).
  unfold tryFinally.
  rewrite (bind_run _ _ _ _ _ (getAllQueue_ok env st3 db (Hnf _) eq_refl)).
  rewrite Hq. cbn [length pushLoop].
  unfold bind, pushItem, tryCatch, ret. rewrite Hresp, Hok.
  apply Z.eqb_neq in H401. rewrite H401.
  assert (Hcap : (retries item + 1 >=? maxRetries) = false)
    by (rewrite Z.geb_leb; apply Z.leb_gt; exact Hret).
  rewrite Hcap. reflexivity.
Qed.

Lemma refused_cycles env db item status :
  noFailures env ->
  truthy (or_null (settings db !! "isPremium")) = true ->
  truthy (or_null (settings db !! "cloudSyncEnabled")) = true ->
  truthy (or_null (settings db !! "cloudAuthToken")) = true ->
  syncQueue db = [item] ->
  retries item + 1 < maxRetries ->
  pushResponse env item = Response status tt ->
  ok status = false -> status <> 401 ->
  forall n,
    pushCycles env n (clientOf (Some db) 0) = clientOf (Some db) (4 * n)%nat.
Proof.
  intros Hnf Hprem Hen Htok Hq Hret Hresp Hok H401 n.
  induction n as [| n IH].
  - reflexivity.
  - cbn [pushCycles]. rewrite IH. unfold after.
    rewrite (refused_cycle env db item status _
               Hnf Hprem Hen Htok Hq Hret Hresp Hok H401).
    cbn [snd]. f_equal. lia.
Qed.

(** C5, the code at the failing input.  However many sync cycles run
    against a server that answers 500, the item stays in the queue with
    [retries] 0: it is never dropped and never reported. *)
Theorem failed_item_is_retried_forever :
  forall n : nat,
    let st := pushCycles failingServer n (clientOf (Some queuedDB) 0) in
    st = clientOf (Some queuedDB) (4 * n)%nat /\
    (syncQueue <$> database st) = Some [queuedItem] /\
    retries queuedItem = 0 /\
    fst (processSyncQueue failingServer st) = Return (PushSummary 0 1 []).
Proof.
  intros n. cbv zeta.
  assert (Hcycle : forall k,
            processSyncQueue failingServer (clientOf (Some queuedDB) k)
            = (Return (PushSummary 0 1 []), clientOf (Some queuedDB) (4 + k)))
    by (intros k; reflexivity).
  assert (Hst : pushCycles failingServer n (clientOf (Some queuedDB) 0)
                = clientOf (Some queuedDB) (4 * n)%nat).
  { apply (refused_cycles failingServer queuedDB queuedItem 500);
      try reflexivity; try (intros k; reflexivity).
    discriminate. }
  rewrite Hst. split; [reflexivity |]. split; [reflexivity |].
  split; [reflexivity |]. rewrite Hcycle. reflexivity.
Qed.

End ClientSpec.

(* ================================================================== *)
(** * Properties of the pull endpoint, and of push followed by pull     *)
(* ================================================================== *)

Module PullSpec.
Import JS JSFacts Server ServerSpec Pull.

Lemma selectWhere_elem {Row} (table : gmap string Row) (condition : Row -> bool) r :
  r ∈ selectWhere table condition <->
  (exists id, table !! id = Some r) /\ condition r = true.
Proof.
  unfold selectWhere. rewrite elem_of_List_filter, list_elem_of_fmap.
  split.
  - intros [([id r'] & -> & Hin) Hc]. split; [| exact Hc].
    exists id. apply elem_of_map_to_list. exact Hin.
  - intros [[id Hid] Hc]. split; [| exact Hc].
    exists (id, r). split; [reflexivity |]. apply elem_of_map_to_list. exact Hid.
Qed.

Lemma given_Some o s : given o = Some s -> o = Some s /\ s <> "".
Proof.
  unfold given. destruct o as [x |]; [| discriminate].
  destruct x; simpl; [discriminate |]. intros [= <-]. split; [reflexivity | discriminate].
Qed.

(** What a 200 answer is made of. *)
Lemma pull_ok user q db v ps ss ks :
  pull user q db = PullOk v ps ss ks ->
  exists U,
    given user = Some U /\
    (forall pid, given (q_projectId q) = Some pid -> ownsProject db U pid = true) /\
    ps = selectWhere (projects db)
           (fun p => bool_decide (p_userId p = U)
                     && (p_syncVersion p >? sinceVersion (q_since q))) /\
    ss = selectWhere (snippets db)
           (fun s => bool_decide (s_userId s = U)
                     && (s_syncVersion s >? sinceVersion (q_since q))
                     && match given (q_projectId q) with
                        | Some pid => bool_decide (s_projectId s = pid)
                        | None => true
                        end) /\
    ks = selectWhere (knowledge db)
           (fun k => bool_decide (k_userId k = U)
                     && (k_syncVersion k >? sinceVersion (q_since q))
                     && match given (q_projectId q) with
                        | Some pid => bool_decide (k_projectId k = pid)
                        | None => true
                        end).
Proof.
  unfold pull. destruct (given user) as [U |]; [| discriminate].
  destruct (negb (syncPullSchema q)); [discriminate |].
  destruct (given (q_projectId q)) as [pid |] eqn:Hpid.
  - destruct (ownsProject db U pid) eqn:Hown; [| discriminate].
    destruct (maxInteger <? sinceVersion (q_since q)); [discriminate |].
    intros [= _ <- <- <-]. exists U. split; [reflexivity |].
    split; [intros pid' [= <-]; exact Hown |].
    split; [reflexivity |]. split; reflexivity.
  - destruct (maxInteger <? sinceVersion (q_since q)); [discriminate |].
    intros [= _ <- <- <-]. exists U. split; [reflexivity |].
    split; [intros pid' [=] |].
    split; [reflexivity |].
    split; unfold selectWhere; apply List.filter_ext;
      intros r; rewrite andb_true_r; reflexivity.
Qed.

(** X1.  A 200 answer of the pull endpoint holds the rows of the requesting
    user that are newer than [since], all of them and no others: no row of
    another user is ever returned.  With a project filter the project is one
    the user owns, and the snippets and knowledge items are those of that
    project, while the projects are not filtered. *)
Theorem pull_returns_exactly_own_changes :
  forall (user : option string) (q : PullQuery) (db : DB) (v : Z)
         (ps : list ProjectRow) (ss : list SnippetRow) (ks : list KnowledgeRow),
    pull user q db = PullOk v ps ss ks ->
    exists U,
      user = Some U /\ U <> "" /\
      (forall pid, given (q_projectId q) = Some pid -> ownsProject db U pid = true) /\
      (forall p, p ∈ ps <->
         (exists id, projects db !! id = Some p) /\
         p_userId p = U /\ sinceVersion (q_since q) < p_syncVersion p) /\
      (forall s, s ∈ ss <->
         (exists id, snippets db !! id = Some s) /\
         s_userId s = U /\ sinceVersion (q_since q) < s_syncVersion s /\
         (forall pid, given (q_projectId q) = Some pid -> s_projectId s = pid)) /\
      (forall k, k ∈ ks <->
         (exists id, knowledge db !! id = Some k) /\
         k_userId k = U /\ sinceVersion (q_since q) < k_syncVersion k /\
         (forall pid, given (q_projectId q) = Some pid -> k_projectId k = pid)).
Proof.
  intros user q db v ps ss ks Hpull.
  destruct (pull_ok _ _ _ _ _ _ _ Hpull) as (U & HU & Hown & -> & -> & ->).
  apply given_Some in HU as [-> HU]. exists U.
  split; [reflexivity |]. split; [exact HU |]. split; [exact Hown |].
  split; [| split].
  - intros p. rewrite selectWhere_elem, andb_true_iff, bool_decide_eq_true.
    rewrite Z.gtb_ltb, Z.ltb_lt. tauto.
  - intros s. rewrite selectWhere_elem, !andb_true_iff, bool_decide_eq_true.
    rewrite Z.gtb_ltb, Z.ltb_lt.
    destruct (given (q_projectId q)) as [pid |].
    + rewrite bool_decide_eq_true. split.
      * intros (He & (Hu & Hv) & Hp). repeat split; try assumption.
        intros pid' [= <-]. exact Hp.
      * intros (He & Hu & Hv & Hp). repeat split; try assumption. apply Hp. reflexivity.
    + split.
      * intros (He & (Hu & Hv) & _). repeat split; try assumption. intros pid' [=].
      * intros (He & Hu & Hv & _). repeat split; assumption.
  - intros k. rewrite selectWhere_elem, !andb_true_iff, bool_decide_eq_true.
    rewrite Z.gtb_ltb, Z.ltb_lt.
    destruct (given (q_projectId q)) as [pid |].
    + rewrite bool_decide_eq_true. split.
      * intros (He & (Hu & Hv) & Hp). repeat split; try assumption.
        intros pid' [= <-]. exact Hp.
      * intros (He & Hu & Hv & Hp). repeat split; try assumption. apply Hp. reflexivity.
    + split.
      * intros (He & (Hu & Hv) & _). repeat split; try assumption. intros pid' [=].
      * intros (He & Hu & Hv & _). repeat split; assumption.
Qed.

(** ** What a batch upsert writes *)

Section UpsertWrites.
Context {Row : Type}.
Variable owner : Row -> string.
Variable key : Row -> string.
Variable version : Row -> Z.
Variable written : Row -> Z.
Variable onConflictSet : Row -> Row -> Row.
Variable same : Row -> Row -> Prop.
Variable U : string.
Variable v now : Z.

Hypothesis set_owner : forall e x, owner (onConflictSet e x) = owner e.
Hypothesis set_version : forall e x, version (onConflictSet e x) = version x.
Hypothesis set_written : forall e x, written (onConflictSet e x) = written x.
Hypothesis same_refl : forall r, same r r.
Hypothesis same_trans : forall a b c, same a b -> same b c -> same a c.
Hypothesis set_same : forall e x, same e (onConflictSet e x).


Lemma stampedRow_set e x :
  owner e = U -> (stampedRow owner version written U v now) x -> (stampedRow owner version written U v now) (onConflictSet e x).
Proof.
  intros He (Hx1 & Hx2 & Hx3). unfold stampedRow.
  rewrite set_owner, set_version, set_written. auto.
Qed.

Lemma upsert_result (t : gmap string Row) x k r' :
  (stampedRow owner version written U v now) x ->
  upsert owner key onConflictSet U t x !! k = Some r' ->
  t !! k = Some r' \/ (stampedRow owner version written U v now) r'.
Proof.
  intros Hx. unfold upsert.
  destruct (t !! key x) as [e |] eqn:He.
  - case_bool_decide as Ho; [| auto].
    destruct (decide (key x = k)) as [<- | Hne].
    + rewrite lookup_insert_eq. intros [= <-]. right.
      apply stampedRow_set; assumption.
    + rewrite lookup_insert_ne by exact Hne. auto.
  - destruct (decide (key x = k)) as [<- | Hne].
    + rewrite lookup_insert_eq. intros [= <-]. auto.
    + rewrite lookup_insert_ne by exact Hne. auto.
Qed.

Lemma upsert_writes (t : gmap string Row) x :
  (stampedRow owner version written U v now) x ->
  (forall r, t !! key x = Some r -> owner r = U) ->
  exists r', upsert owner key onConflictSet U t x !! key x = Some r' /\ (stampedRow owner version written U v now) r'.
Proof.
  intros Hx Hfree. unfold upsert.
  destruct (t !! key x) as [e |] eqn:He.
  - rewrite bool_decide_eq_true_2 by (apply Hfree; reflexivity).
    rewrite lookup_insert_eq. eexists. split; [reflexivity |].
    apply stampedRow_set; [apply Hfree; reflexivity | exact Hx].
  - rewrite lookup_insert_eq. eauto.
Qed.

Lemma upsert_keeps_stamped (t : gmap string Row) x k r :
  (stampedRow owner version written U v now) x -> t !! k = Some r -> (stampedRow owner version written U v now) r ->
  exists r', upsert owner key onConflictSet U t x !! k = Some r' /\ (stampedRow owner version written U v now) r'.
Proof.
  intros Hx Hr HP.
  destruct (decide (key x = k)) as [<- | Hne].
  - apply upsert_writes; [exact Hx |].
    intros r0 Hr0. rewrite Hr in Hr0. injection Hr0 as <-. apply HP.
  - exists r. split; [| exact HP]. unfold upsert.
    destruct (t !! key x) as [e |].
    + case_bool_decide; [rewrite lookup_insert_ne by exact Hne |]; exact Hr.
    + rewrite lookup_insert_ne by exact Hne. exact Hr.
Qed.

Lemma upsert_same (t : gmap string Row) x k r :
  t !! k = Some r ->
  exists r', upsert owner key onConflictSet U t x !! k = Some r' /\ same r r'.
Proof.
  intros Hr. unfold upsert.
  destruct (t !! key x) as [e |] eqn:He.
  - case_bool_decide as Ho; [| eauto].
    destruct (decide (key x = k)) as [Heq | Hne].
    + rewrite Heq in *. rewrite lookup_insert_eq.
      rewrite Hr in He. injection He as <-. eauto.
    + rewrite lookup_insert_ne by exact Hne. eauto.
  - rewrite lookup_insert_ne; [eauto |].
    intros Heq. rewrite Heq, Hr in He. discriminate.
Qed.

Lemma upsert_other (t : gmap string Row) x k :
  key x <> k -> upsert owner key onConflictSet U t x !! k = t !! k.
Proof.
  intros Hne. unfold upsert.
  destruct (t !! key x) as [e |].
  - case_bool_decide; [rewrite lookup_insert_ne by exact Hne |]; reflexivity.
  - rewrite lookup_insert_ne by exact Hne. reflexivity.
Qed.

Lemma upsert_at (t : gmap string Row) x :
  upsert owner key onConflictSet U t x !! key x
  = Some (upserted owner onConflictSet U (t !! key x) x).
Proof.
  unfold upsert, upserted.
  destruct (t !! key x) as [e |] eqn:He.
  - case_bool_decide; [rewrite lookup_insert_eq; reflexivity | exact He].
  - rewrite lookup_insert_eq. reflexivity.
Qed.

Lemma batchUpsert_other values : forall (t : gmap string Row) k,
  k ∉ map key values ->
  batchUpsert owner key onConflictSet U values t !! k = t !! k.
Proof.
  unfold batchUpsert.
  induction values as [| x values IH]; intros t k Hk; simpl; [reflexivity |].
  simpl in Hk. rewrite not_elem_of_cons in Hk. destruct Hk as [Hne Hk].
  rewrite IH by exact Hk. apply upsert_other. congruence.
Qed.

(** With unique ids in the batch, each row of the batch meets the table as
    it was before the batch. *)
Lemma batchUpsert_at values : forall (t : gmap string Row) x,
  NoDup (map key values) -> x ∈ values ->
  batchUpsert owner key onConflictSet U values t !! key x
  = Some (upserted owner onConflictSet U (t !! key x) x).
Proof.
  induction values as [| y values IH]; intros t x Hnd Hin.
  - apply elem_of_nil in Hin. contradiction.
  - simpl in Hnd. apply NoDup_cons in Hnd as [Hy Hnd].
    apply elem_of_cons in Hin as [-> | Hin].
    + change (batchUpsert owner key onConflictSet U (y :: values) t)
        with (batchUpsert owner key onConflictSet U values
                (upsert owner key onConflictSet U t y)).
      rewrite batchUpsert_other by exact Hy. apply upsert_at.
    + change (batchUpsert owner key onConflictSet U (y :: values) t)
        with (batchUpsert owner key onConflictSet U values
                (upsert owner key onConflictSet U t y)).
      rewrite (IH _ x Hnd Hin). rewrite upsert_other; [reflexivity |].
      intros Heq. apply Hy. rewrite Heq.
      apply list_elem_of_fmap. exists x. split; [reflexivity | exact Hin].
Qed.

Lemma batchUpsert_result values : forall (t : gmap string Row) k r',
  Forall (stampedRow owner version written U v now) values ->
  batchUpsert owner key onConflictSet U values t !! k = Some r' ->
  t !! k = Some r' \/
  (k ∈ map key values /\ stampedRow owner version written U v now r').
Proof.
  unfold batchUpsert.
  induction values as [| x values IH]; intros t k r' Hall Hr'; simpl in *.
  - auto.
  - apply Forall_cons in Hall as [Hx Hall].
    destruct (IH _ _ _ Hall Hr') as [Hprev | [Hk HP]].
    + destruct (decide (key x = k)) as [Heq | Hne].
      * destruct (upsert_result t x k r' Hx Hprev) as [Hold | HP]; [auto |].
        right. split; [rewrite <- Heq; apply elem_of_cons; auto | exact HP].
      * rewrite upsert_other in Hprev by exact Hne. auto.
    + right. split; [apply elem_of_cons; auto | exact HP].
Qed.

Lemma batchUpsert_keeps_stamped values : forall (t : gmap string Row) k r,
  Forall (stampedRow owner version written U v now) values -> t !! k = Some r -> (stampedRow owner version written U v now) r ->
  exists r', batchUpsert owner key onConflictSet U values t !! k = Some r'
             /\ (stampedRow owner version written U v now) r'.
Proof.
  unfold batchUpsert.
  induction values as [| x values IH]; intros t k r Hall Hr HP; simpl.
  - eauto.
  - apply Forall_cons in Hall as [Hx Hall].
    destruct (upsert_keeps_stamped t x k r Hx Hr HP) as (r1 & Hr1 & HP1).
    eapply IH; eauto.
Qed.

Lemma batchUpsert_writes values : forall (t : gmap string Row) x,
  Forall (stampedRow owner version written U v now) values -> x ∈ values ->
  (forall r, t !! key x = Some r -> owner r = U) ->
  exists r', batchUpsert owner key onConflictSet U values t !! key x = Some r'
             /\ (stampedRow owner version written U v now) r'.
Proof.
  induction values as [| y values IH]; intros t x Hall Hin Hfree.
  - apply elem_of_nil in Hin. contradiction.
  - apply Forall_cons in Hall as [Hy Hall].
    apply elem_of_cons in Hin as [-> | Hin].
    + destruct (upsert_writes t y Hy Hfree) as (r1 & Hr1 & HP1).
      exact (batchUpsert_keeps_stamped values _ _ _ Hall Hr1 HP1).
    + apply (IH (upsert owner key onConflictSet U t y) x Hall Hin).
      intros r Hr. destruct (upsert_result t y (key x) r Hy Hr) as [Hold | HP].
      * apply Hfree. exact Hold.
      * apply HP.
Qed.

Lemma batchUpsert_same values : forall (t : gmap string Row) k r,
  t !! k = Some r ->
  exists r', batchUpsert owner key onConflictSet U values t !! k = Some r'
             /\ same r r'.
Proof.
  unfold batchUpsert.
  induction values as [| x values IH]; intros t k r Hr; simpl.
  - eauto.
  - destruct (upsert_same t x k r Hr) as (r1 & Hr1 & Hs1).
    destruct (IH _ _ _ Hr1) as (r2 & Hr2 & Hs2). eauto.
Qed.

End UpsertWrites.

(** ** What an accepted push stores *)

Lemma push_accepted U body now nanoid db v db' :
  push (Some U) body now nanoid db = (PushOk v, db') ->
  U <> "" /\ syncPushSchema body = true /\
  pushTransaction U (deviceId body) (changes body)
    (Set_of (projectIdsFromProjects (changes body)
             ++ existingProjectCheck (changes body))%list)
    now nanoid db = Some (v, db').
Proof.
  unfold push. destruct U as [| c u]; [discriminate |].
  destruct (syncPushSchema body); [| discriminate]. cbn [negb].
  match goal with |- context [negb (fst ?val)] => destruct (negb (fst val)) end;
    [discriminate |].
  match goal with |- context [pushTransaction ?a ?b ?c ?d ?e ?f ?g] =>
    destruct (pushTransaction a b c d e f g) as [[v1 db1] |] end; [| discriminate].
  intros [= <- <-]. split; [discriminate |]. split; reflexivity.
Qed.

Lemma referenced_is_valid ch id :
  id ∈ (projectIdsFromSnippets ch ++ projectIdsFromKnowledge ch)%list ->
  Set_has (Set_of (projectIdsFromProjects ch ++ existingProjectCheck ch)%list) id
  = true.
Proof.
  intros Hin.
  rewrite Set_has_Set_of, bool_decide_eq_true, elem_of_app, existingProjectCheck_elem.
  destruct (decide (id ∈ projectIdsFromProjects ch)); tauto.
Qed.

Lemma filter_all {A} (f : A -> bool) (l : list A) :
  (forall x, x ∈ l -> f x = true) -> List.filter f l = l.
Proof.
  induction l as [| x l IH]; intros H; simpl; [reflexivity |].
  rewrite (H x) by (apply elem_of_cons; auto).
  rewrite IH; [reflexivity |]. intros y Hy. apply H, elem_of_cons. auto.
Qed.

(** X2.  The set of valid project ids that the push handler builds holds
    every project id a snippet or knowledge change of the batch refers to, so
    the two filters in front of the batch upserts never drop an item. *)
Theorem validProjectIds_filters_keep_every_item :
  forall ch : Changes,
    List.filter
      (fun s => Set_has (Set_of (projectIdsFromProjects ch
                                 ++ existingProjectCheck ch)%list) (sc_projectId s))
      (or_nil (ch_snippets ch)) = or_nil (ch_snippets ch) /\
    List.filter
      (fun k => Set_has (Set_of (projectIdsFromProjects ch
                                 ++ existingProjectCheck ch)%list) (kc_projectId k))
      (or_nil (ch_knowledge ch)) = or_nil (ch_knowledge ch).
Proof.
  intros ch. split; apply filter_all; intros x Hx; apply referenced_is_valid;
    apply elem_of_app; [left | right].
  - unfold projectIdsFromSnippets. apply list_elem_of_fmap. eauto.
  - unfold projectIdsFromKnowledge. apply list_elem_of_fmap. eauto.
Qed.

(** The tables after an accepted push: each is the batch upsert of all the
    changes of its kind. *)
Lemma push_tables U body now nanoid db v db' :
  push (Some U) body now nanoid db = (PushOk v, db') ->
  projects db' =
    batchUpsert p_userId p_id projectSet U
      (map (projectValues U now v) (or_nil (ch_projects (changes body))))
      (projects db) /\
  snippets db' =
    batchUpsert s_userId s_id snippetSet U
      (map (snippetValues U now v) (or_nil (ch_snippets (changes body))))
      (snippets db) /\
  knowledge db' =
    batchUpsert k_userId k_id knowledgeSet U
      (map (knowledgeValues U now v) (or_nil (ch_knowledge (changes body))))
      (knowledge db).
Proof.
  intros Hpush. apply push_accepted in Hpush as (_ & _ & Htx).
  apply pushTransaction_tables in Htx as (-> & -> & ->).
  split; [reflexivity |].
  split; (rewrite filter_all; [reflexivity |]);
    intros x Hx; apply referenced_is_valid; apply elem_of_app; [left | right].
  - unfold projectIdsFromSnippets. apply list_elem_of_fmap. eauto.
  - unfold projectIdsFromKnowledge. apply list_elem_of_fmap. eauto.
Qed.

Lemma map_key_values {A Row} (f : A -> Row) (key : Row -> string)
    (id : A -> string) (l : list A) :
  (forall x, key (f x) = id x) -> map key (map f l) = map id l.
Proof. intros H. rewrite map_map. apply map_ext. exact H. Qed.

(** X3.  After an accepted push whose changes of one kind have unique ids,
    the row under the id of each change is the outcome of one upsert against
    the row that was there before the push: the new row when the id was
    free, the old row with the pushed columns when the user owned it, the
    old row when somebody else did. *)
Theorem push_stores_each_item :
  forall (U : string) (body : PushBody) (now : Z) (nanoid : string)
         (db db' : DB) (v : Z),
    push (Some U) body now nanoid db = (PushOk v, db') ->
    (NoDup (map pc_id (or_nil (ch_projects (changes body)))) ->
     forall p, p ∈ or_nil (ch_projects (changes body)) ->
       projects db' !! pc_id p =
       Some (upserted p_userId projectSet U (projects db !! pc_id p)
               (projectValues U now v p))) /\
    (NoDup (map sc_id (or_nil (ch_snippets (changes body)))) ->
     forall s, s ∈ or_nil (ch_snippets (changes body)) ->
       snippets db' !! sc_id s =
       Some (upserted s_userId snippetSet U (snippets db !! sc_id s)
               (snippetValues U now v s))) /\
    (NoDup (map kc_id (or_nil (ch_knowledge (changes body)))) ->
     forall k, k ∈ or_nil (ch_knowledge (changes body)) ->
       knowledge db' !! kc_id k =
       Some (upserted k_userId knowledgeSet U (knowledge db !! kc_id k)
               (knowledgeValues U now v k))).
Proof.
  intros U body now nanoid db db' v Hpush.
  apply push_tables in Hpush as (-> & -> & ->).
  split; [| split]; intros Hnd x Hx.
  - apply (batchUpsert_at p_userId p_id projectSet U
             (map (projectValues U now v) (or_nil (ch_projects (changes body))))
             (projects db) (projectValues U now v x)).
    + rewrite (map_key_values _ p_id pc_id) by reflexivity. exact Hnd.
    + apply list_elem_of_fmap. eauto.
  - apply (batchUpsert_at s_userId s_id snippetSet U
             (map (snippetValues U now v) (or_nil (ch_snippets (changes body))))
             (snippets db) (snippetValues U now v x)).
    + rewrite (map_key_values _ s_id sc_id) by reflexivity. exact Hnd.
    + apply list_elem_of_fmap. eauto.
  - apply (batchUpsert_at k_userId k_id knowledgeSet U
             (map (knowledgeValues U now v) (or_nil (ch_knowledge (changes body))))
             (knowledge db) (knowledgeValues U now v x)).
    + rewrite (map_key_values _ k_id kc_id) by reflexivity. exact Hnd.
    + apply list_elem_of_fmap. eauto.
Qed.

Lemma push_stores_each_item_witness :
  push (Some "u1") clashBatch 9 "sess1" foreignDB = (PushOk 1, snd (push (Some "u1") clashBatch 9 "sess1" foreignDB)) /\
  snippets (snd (push (Some "u1") clashBatch 9 "sess1" foreignDB)) !! "s1"
  = Some (upserted s_userId snippetSet "u1" (snippets foreignDB !! "s1")
            (snippetValues "u1" 9 1 (aSnippet "s1" "p1" "my code"))).
Proof.
  assert (H : push (Some "u1") clashBatch 9 "sess1" foreignDB
              = (PushOk 1, snd (push (Some "u1") clashBatch 9 "sess1" foreignDB)))
    by (vm_compute; reflexivity).
  split; [exact H |].
  destruct (push_stores_each_item "u1" clashBatch 9 "sess1" foreignDB _ 1 H)
    as (_ & Hs & _).
  apply (Hs ltac:(repeat constructor; set_solver)
            (aSnippet "s1" "p1" "my code")).
  apply elem_of_cons. left. reflexivity.
Defined.

Lemma Forall_map_values {A Row} (f : A -> Row) (P : Row -> Prop) (l : list A) :
  (forall x, P (f x)) -> Forall P (map f l).
Proof. intros H. apply Forall_fmap, Forall_true. exact H. Qed.

(** X4.  A push changes a table only under ids of its batch, and every row
    it writes carries the user of the request, the version the push
    answers with and the time of the request: a row found after a push is
    either the row that was there before, or such a row under an id of the
    batch. *)
Theorem push_changes_only_batch_rows :
  forall (U : string) (body : PushBody) (now : Z) (nanoid : string)
         (db db' : DB) (v : Z),
    push (Some U) body now nanoid db = (PushOk v, db') ->
    (forall id r, projects db' !! id = Some r ->
       projects db !! id = Some r \/
       (id ∈ map pc_id (or_nil (ch_projects (changes body))) /\
        stampedRow p_userId p_syncVersion p_updatedAt U v now r)) /\
    (forall id r, snippets db' !! id = Some r ->
       snippets db !! id = Some r \/
       (id ∈ map sc_id (or_nil (ch_snippets (changes body))) /\
        stampedRow s_userId s_syncVersion s_updatedAt U v now r)) /\
    (forall id r, knowledge db' !! id = Some r ->
       knowledge db !! id = Some r \/
       (id ∈ map kc_id (or_nil (ch_knowledge (changes body))) /\
        stampedRow k_userId k_syncVersion k_updatedAt U v now r)).
Proof.
  intros U body now nanoid db db' v Hpush.
  apply push_tables in Hpush as (-> & -> & ->).
  split; [| split]; intros id r Hr.
  - rewrite <- (map_key_values (projectValues U now v) p_id pc_id) by reflexivity.
    apply (batchUpsert_result p_userId p_id p_syncVersion p_updatedAt projectSet
             U v now) in Hr; [exact Hr | reflexivity.. |].
    apply Forall_map_values. intros x. repeat split.
  - rewrite <- (map_key_values (snippetValues U now v) s_id sc_id) by reflexivity.
    apply (batchUpsert_result s_userId s_id s_syncVersion s_updatedAt snippetSet
             U v now) in Hr; [exact Hr | reflexivity.. |].
    apply Forall_map_values. intros x. repeat split.
  - rewrite <- (map_key_values (knowledgeValues U now v) k_id kc_id) by reflexivity.
    apply (batchUpsert_result k_userId k_id k_syncVersion k_updatedAt knowledgeSet
             U v now) in Hr; [exact Hr | reflexivity.. |].
    apply Forall_map_values. intros x. repeat split.
Qed.

Lemma push_changes_only_batch_rows_witness :
  snippets emptyDB !! "s1"
  = Some (snippetValues "u1" 9 1 (aSnippet "s1" "p1" "const x = 1;")) \/
  ("s1" ∈ map sc_id (or_nil (ch_snippets (changes firstPush))) /\
   stampedRow s_userId s_syncVersion s_updatedAt "u1" 1 9
     (snippetValues "u1" 9 1 (aSnippet "s1" "p1" "const x = 1;"))).
Proof.
  assert (H : push (Some "u1") firstPush 9 "sess1" emptyDB
              = (PushOk 1, snd (push (Some "u1") firstPush 9 "sess1" emptyDB)))
    by (vm_compute; reflexivity).
  destruct (push_changes_only_batch_rows "u1" firstPush 9 "sess1" emptyDB _ 1 H)
    as (_ & Hs & _).
  apply Hs. vm_compute. reflexivity.
Defined.

(** X5.  No push removes a row, and no push changes the id, the owner, the
    project or the creation time of a row: whatever the request and the
    answer, every row of the three tables is still there afterwards, under
    the same id and with these columns as they were. *)
Theorem push_keeps_rows_and_identity :
  forall (user : option string) (body : PushBody) (now : Z) (nanoid : string)
         (db : DB),
    let db' := snd (push user body now nanoid db) in
    (forall id r, projects db !! id = Some r ->
       exists r', projects db' !! id = Some r' /\ sameProject r r') /\
    (forall id r, snippets db !! id = Some r ->
       exists r', snippets db' !! id = Some r' /\ sameSnippet r r') /\
    (forall id r, knowledge db !! id = Some r ->
       exists r', knowledge db' !! id = Some r' /\ sameKnowledge r r').
Proof.
  intros user body now nanoid db db'. subst db'.
  destruct (push_database user body now nanoid db)
    as [-> | (userId & valid & v & db' & -> & Htx & ->)].
  - unfold sameProject, sameSnippet, sameKnowledge. repeat split; eauto 10.
  - simpl. apply pushTransaction_tables in Htx as (-> & -> & ->).
    split; [| split]; intros id r Hr.
    + apply (batchUpsert_same p_userId p_id projectSet sameProject);
        unfold sameProject; [tauto | intuition congruence | intros; simpl; tauto | exact Hr].
    + apply (batchUpsert_same s_userId s_id snippetSet sameSnippet);
        unfold sameSnippet; [tauto | intuition congruence | intros; simpl; tauto | exact Hr].
    + apply (batchUpsert_same k_userId k_id knowledgeSet sameKnowledge);
        unfold sameKnowledge; [tauto | intuition congruence | intros; simpl; tauto | exact Hr].
Qed.

Lemma push_keeps_rows_and_identity_witness :
  exists r', snippets (snd (push (Some "v") clashBatch 9 "sess1" foreignDB)) !! "s1"
             = Some r' /\ sameSnippet vSnippet r'.
Proof.
  destruct (push_keeps_rows_and_identity (Some "v") clashBatch 9 "sess1" foreignDB)
    as (_ & Hs & _).
  apply Hs. reflexivity.
Defined.

(** ** Push, then pull *)

Lemma syncPushSchema_device body :
  syncPushSchema body = true -> len_between 1 100 (deviceId body) = true.
Proof.
  unfold syncPushSchema. rewrite !andb_true_iff. tauto.
Qed.

Lemma len_between_1 hi s : len_between 1 hi s = true ->
  given (Some s) = Some s /\ len_between 0 hi s = true.
Proof.
  unfold len_between, given. rewrite !andb_true_iff, !Z.leb_le.
  destruct s; simpl String.length; [lia |]. intros [_ H].
  split; [reflexivity |]. split; [lia | exact H].
Qed.

Lemma given_nonempty U : U <> "" -> given (Some U) = Some U.
Proof. destruct U; [congruence | reflexivity]. Qed.

(** X6.  A device that pulls after its accepted push, with a [since] within
    the range of the version column, is answered with the version of that
    push; and when it asks for what is newer than a version below it, the
    answer holds the row stored under the id of every change
    of the batch whose id was free or the user's own before the push. *)
Theorem pull_after_push_sees_the_batch :
  forall (U : string) (body : PushBody) (now : Z) (nanoid : string)
         (db db' : DB) (v : Z) (since : option string),
    push (Some U) body now nanoid db = (PushOk v, db') ->
    sinceVersion since <= maxInteger ->
    exists ps ss ks,
      pull (Some U) (pullFor since (Some (deviceId body))) db' = PullOk v ps ss ks /\
      (sinceVersion since < v ->
       (forall p, p ∈ or_nil (ch_projects (changes body)) ->
          (forall e, projects db !! pc_id p = Some e -> p_userId e = U) ->
          exists r, projects db' !! pc_id p = Some r /\ r ∈ ps) /\
       (forall s, s ∈ or_nil (ch_snippets (changes body)) ->
          (forall e, snippets db !! sc_id s = Some e -> s_userId e = U) ->
          exists r, snippets db' !! sc_id s = Some r /\ r ∈ ss) /\
       (forall k, k ∈ or_nil (ch_knowledge (changes body)) ->
          (forall e, knowledge db !! kc_id k = Some e -> k_userId e = U) ->
          exists r, knowledge db' !! kc_id k = Some r /\ r ∈ ks)).
Proof.
  intros U body now nanoid db db' v since Hpush Hrange.
  pose proof (push_tables _ _ _ _ _ _ _ Hpush) as (Hp & Hs & Hk).
  apply push_accepted in Hpush as (HU & Hschema & Htx).
  apply pushTransaction_version in Htx as [_ Hv].
  apply syncPushSchema_device, len_between_1 in Hschema as [Hdev Hlen].
  do 3 eexists. split.
  - unfold pull, pullFor. rewrite (given_nonempty U HU).
    unfold syncPullSchema. cbn [q_projectId q_deviceId q_since opt_ok].
    rewrite Hlen. cbn [andb negb given]. fold (given (Some (deviceId body))).
    rewrite Hdev. fold (sessionVersion db' U (deviceId body)). rewrite Hv.
    apply Z.ltb_ge in Hrange. rewrite Hrange. reflexivity.
  - intros Hsince. split; [| split]; intros x Hx Hfree.
    + destruct (batchUpsert_writes p_userId p_id p_syncVersion p_updatedAt
                  projectSet U v now ltac:(reflexivity) ltac:(reflexivity)
                  ltac:(reflexivity)
                  (map (projectValues U now v) (or_nil (ch_projects (changes body))))
                  (projects db) (projectValues U now v x))
        as (r & Hr & HrU & Hrv & _).
      * apply Forall_map_values. intros y. repeat split.
      * apply list_elem_of_fmap. eauto.
      * exact Hfree.
      * exists r. rewrite Hp. split; [exact Hr |].
        apply selectWhere_elem. split; [eauto |].
        rewrite andb_true_iff, bool_decide_eq_true, Z.gtb_lt. split; [exact HrU | lia].
    + destruct (batchUpsert_writes s_userId s_id s_syncVersion s_updatedAt
                  snippetSet U v now ltac:(reflexivity) ltac:(reflexivity)
                  ltac:(reflexivity)
                  (map (snippetValues U now v) (or_nil (ch_snippets (changes body))))
                  (snippets db) (snippetValues U now v x))
        as (r & Hr & HrU & Hrv & _).
      * apply Forall_map_values. intros y. repeat split.
      * apply list_elem_of_fmap. eauto.
      * exact Hfree.
      * exists r. rewrite Hs. split; [exact Hr |].
        apply selectWhere_elem. split; [eauto |].
        rewrite andb_true_iff, bool_decide_eq_true, Z.gtb_lt. split; [exact HrU | lia].
    + destruct (batchUpsert_writes k_userId k_id k_syncVersion k_updatedAt
                  knowledgeSet U v now ltac:(reflexivity) ltac:(reflexivity)
                  ltac:(reflexivity)
                  (map (knowledgeValues U now v) (or_nil (ch_knowledge (changes body))))
                  (knowledge db) (knowledgeValues U now v x))
        as (r & Hr & HrU & Hrv & _).
      * apply Forall_map_values. intros y. repeat split.
      * apply list_elem_of_fmap. eauto.
      * exact Hfree.
      * exists r. rewrite Hk. split; [exact Hr |].
        apply selectWhere_elem. split; [eauto |].
        rewrite andb_true_iff, bool_decide_eq_true, Z.gtb_lt. split; [exact HrU | lia].
Qed.

Lemma pull_after_push_sees_the_batch_witness :
  exists ps ss ks,
    pull (Some "u1") (pullFor (Some "0") (Some (deviceId firstPush)))
         (snd (push (Some "u1") firstPush 9 "sess1" emptyDB)) = PullOk 1 ps ss ks /\
    exists r, snippets (snd (push (Some "u1") firstPush 9 "sess1" emptyDB)) !! "s1"
              = Some r /\ r ∈ ss.
Proof.
  assert (H : push (Some "u1") firstPush 9 "sess1" emptyDB
              = (PushOk 1, snd (push (Some "u1") firstPush 9 "sess1" emptyDB)))
    by (vm_compute; reflexivity).
  destruct (pull_after_push_sees_the_batch "u1" firstPush 9 "sess1" emptyDB _ 1
              (Some "0") H ltac:(vm_compute; discriminate))
    as (ps & ss & ks & Hpull & Hsee).
  exists ps, ss, ks. split; [exact Hpull |].
  destruct (Hsee ltac:(vm_compute; reflexivity)) as (_ & Hs & _).
  apply (Hs (aSnippet "s1" "p1" "const x = 1;")).
  - apply elem_of_cons. left. reflexivity.
  - intros e He. vm_compute in He. discriminate.
Defined.

(** ** The version a pull answers with *)

Lemma maxVersion_fold sessions U : forall acc m,
  fold_left
    (fun acc s =>
       if bool_decide (ss_userId s = U)
       then match acc with
            | None => Some (ss_syncVersion s)
            | Some m => Some (Z.max m (ss_syncVersion s))
            end
       else acc)
    sessions acc = Some m ->
  (forall a, acc = Some a -> a <= m) /\
  (forall s, s ∈ sessions -> ss_userId s = U -> ss_syncVersion s <= m) /\
  (acc = Some m \/ exists s, s ∈ sessions /\ ss_userId s = U /\ ss_syncVersion s = m).
Proof.
  induction sessions as [| x sessions IH]; intros acc m Hm; simpl in Hm.
  - subst acc. split; [intros a [= ->]; lia |].
    split; [intros s Hs; apply elem_of_nil in Hs; contradiction | auto].
  - apply IH in Hm as (Hacc & Hall & Hex).
    case_bool_decide as HxU.
    + split; [| split].
      * intros a ->. specialize (Hacc _ eq_refl). lia.
      * intros s Hs HsU. apply elem_of_cons in Hs as [-> | Hs]; [| auto].
        destruct acc as [a |]; specialize (Hacc _ eq_refl); lia.
      * destruct Hex as [Hex | (s & Hs & HsU & Hsv)].
        -- destruct acc as [a |]; injection Hex as Hex.
           ++ destruct (Z.max_spec a (ss_syncVersion x)) as [[_ Hmax] | [_ Hmax]].
              ** right. exists x. split; [apply elem_of_cons; auto |].
                 split; [exact HxU | lia].
              ** left. f_equal. lia.
           ++ right. exists x. split; [apply elem_of_cons; auto |]. auto.
        -- right. exists s. split; [apply elem_of_cons; auto |]. auto.
    + split; [exact Hacc |]. split.
      * intros s Hs HsU. apply elem_of_cons in Hs as [-> | Hs]; [contradiction | auto].
      * destruct Hex as [Hex | (s & Hs & HsU & Hsv)]; [auto |].
        right. exists s. split; [apply elem_of_cons; auto |]. auto.
Qed.

Lemma maxVersion_some sessions U : forall a,
  fold_left
    (fun acc s =>
       if bool_decide (ss_userId s = U)
       then match acc with
            | None => Some (ss_syncVersion s)
            | Some m => Some (Z.max m (ss_syncVersion s))
            end
       else acc)
    sessions (Some a) <> None.
Proof.
  induction sessions as [| x sessions IH]; intros a; simpl; [discriminate |].
  case_bool_decide; apply IH.
Qed.

Lemma maxVersion_none sessions U :
  maxVersion sessions U = None ->
  forall s, s ∈ sessions -> ss_userId s <> U.
Proof.
  unfold maxVersion.
  induction sessions as [| x sessions IH]; intros Hnone s Hs; simpl in Hnone.
  - apply elem_of_nil in Hs. contradiction.
  - case_bool_decide as HxU.
    + exfalso. exact (maxVersion_some _ _ _ Hnone).
    + apply elem_of_cons in Hs as [-> | Hs]; [exact HxU | exact (IH Hnone s Hs)].
Qed.

(** X7.  Without a device id, a 200 answer of the pull endpoint carries the
    highest version among the sessions of the user: no session of the user
    has a higher one, and it is the version of one of them, or 0 when the
    user has no session. *)
Theorem pull_version_without_device_is_highest :
  forall (user : option string) (q : PullQuery) (db : DB) (v : Z)
         (ps : list ProjectRow) (ss : list SnippetRow) (ks : list KnowledgeRow),
    pull user q db = PullOk v ps ss ks ->
    given (q_deviceId q) = None ->
    exists U,
      user = Some U /\
      (forall s, s ∈ syncSessions db -> ss_userId s = U -> ss_syncVersion s <= v) /\
      ((exists s, s ∈ syncSessions db /\ ss_userId s = U /\ ss_syncVersion s = v) \/
       (v = 0 /\ forall s, s ∈ syncSessions db -> ss_userId s <> U)).
Proof.
  intros user q db v ps ss ks Hpull Hdev. unfold pull in Hpull.
  destruct (given user) as [U |] eqn:HU; [| discriminate].
  apply given_Some in HU as [-> _]. exists U. split; [reflexivity |].
  destruct (negb (syncPullSchema q)); [discriminate |].
  rewrite Hdev in Hpull.
  assert (Hv : v = match maxVersion (syncSessions db) U with
                   | Some m => or_zero m | None => 0 end).
  { destruct (given (q_projectId q)) as [pid |].
    - destruct (ownsProject db U pid); [| discriminate].
      destruct (maxInteger <? sinceVersion (q_since q)); [discriminate | congruence].
    - destruct (maxInteger <? sinceVersion (q_since q)); [discriminate | congruence]. }
  clear Hpull.
  destruct (maxVersion (syncSessions db) U) as [m |] eqn:Hmax.
  - rewrite or_zero_id in Hv. subst v.
    apply maxVersion_fold in Hmax as (_ & Hall & [Hex | Hex]); [discriminate |].
    split; [exact Hall | left; exact Hex].
  - subst v. pose proof (maxVersion_none _ _ Hmax) as Hno.
    split; [| right; split; [reflexivity | exact Hno]].
    intros s Hs HsU. exfalso. exact (Hno s Hs HsU).
Qed.

Lemma pull_version_without_device_is_highest_witness :
  exists U,
    Some "u1" = Some U /\
    (forall s, s ∈ syncSessions afterThreePushes -> ss_userId s = U ->
               ss_syncVersion s <= 2) /\
    ((exists s, s ∈ syncSessions afterThreePushes /\ ss_userId s = U
                /\ ss_syncVersion s = 2) \/
     (2 = 0 /\ forall s, s ∈ syncSessions afterThreePushes -> ss_userId s <> U)).
Proof.
  eapply (pull_version_without_device_is_highest (Some "u1") (pullFor None None)
            afterThreePushes 2).
  - vm_compute. reflexivity.
  - reflexivity.
Defined.

(** The witness of X1: what user u1 pulls after the three pushes. *)
Lemma pull_returns_exactly_own_changes_witness :
  exists U,
    Some "u1" = Some U /\ U <> "" /\
    (forall p,
       p ∈ selectWhere (projects afterThreePushes)
             (fun p => bool_decide (p_userId p = "u1") && (p_syncVersion p >? 1)) <->
       (exists id, projects afterThreePushes !! id = Some p) /\
       p_userId p = U /\ sinceVersion (Some "1") < p_syncVersion p).
Proof.
  destruct (pull_returns_exactly_own_changes (Some "u1") (pullFor (Some "1") None)
              afterThreePushes 2
              (selectWhere (projects afterThreePushes)
                 (fun p => bool_decide (p_userId p = "u1") && (p_syncVersion p >? 1)))
              (selectWhere (snippets afterThreePushes)
                 (fun s => bool_decide (s_userId s = "u1") && (s_syncVersion s >? 1)))
              (selectWhere (knowledge afterThreePushes)
                 (fun k => bool_decide (k_userId k = "u1") && (k_syncVersion k >? 1))))
    as (U & HU & Hne & _ & Hp & _).
  - reflexivity.
  - exists U. split; [exact HU |]. split; [exact Hne | exact Hp].
Defined.

(** ** The [since] that a client sends as a number *)

Lemma digit_char d :
  0 <= d < 10 ->
  isDigit (fromCharCode (48 + d)) = true /\ charCode (fromCharCode (48 + d)) = 48 + d.
Proof.
  intros Hd.
  assert (H : d = 0 \/ d = 1 \/ d = 2 \/ d = 3 \/ d = 4 \/ d = 5 \/ d = 6 \/ d = 7
              \/ d = 8 \/ d = 9) by lia.
  repeat (destruct H as [-> | H]; [split; reflexivity |]). subst d. split; reflexivity.
Qed.

Lemma append_assoc (a b c : string) : ((a ++ b) ++ c)%string = (a ++ (b ++ c))%string.
Proof.
  induction a as [| x a IH]; [reflexivity |].
  change (String x ((a ++ b) ++ c) = String x (a ++ (b ++ c)))%string.
  rewrite IH. reflexivity.
Qed.

Lemma append_empty (a : string) : (a ++ "")%string = a.
Proof.
  induction a as [| x a IH]; [reflexivity |].
  change (String x (a ++ "") = String x a)%string. rewrite IH. reflexivity.
Qed.

(** Reading the decimal digits of [n] adds them to what was read before. *)
Lemma digitsValue_decDigits fuel : forall n acc rest,
  0 <= n < 10 ^ Z.of_nat fuel ->
  exists k, 0 <= k /\
    digitsValue acc (decDigits fuel n ++ rest)%string
    = digitsValue (acc * 10 ^ k + n) rest.
Proof.
  induction fuel as [| fuel IH]; intros n acc rest Hn.
  - change (10 ^ Z.of_nat 0) with 1 in Hn. exists 0. split; [lia |].
    replace n with 0 by lia. cbn [decDigits]. f_equal. lia.
  - cbn [decDigits].
    destruct (n <? 10) eqn:Hsmall.
    + apply Z.ltb_lt in Hsmall. destruct (digit_char n) as [Hdigit Hcode]; [lia |].
      exists 1. split; [lia |].
      change (digitsValue acc (String (fromCharCode (48 + n)) rest)
              = digitsValue (acc * 10 ^ 1 + n) rest).
      cbn [digitsValue]. rewrite Hdigit, Hcode. f_equal. lia.
    + apply Z.ltb_ge in Hsmall.
      rewrite Nat2Z.inj_succ, Z.pow_succ_r in Hn by lia.
      destruct (digit_char (n mod 10)) as [Hdigit Hcode];
        [apply Z.mod_pos_bound; lia |].
      rewrite append_assoc.
      destruct (IH (n / 10) acc
                  (String (fromCharCode (48 + n mod 10)) "" ++ rest)%string)
        as (k & Hk & ->).
      { split; [apply Z.div_pos; lia | apply Z.div_lt_upper_bound; lia]. }
      exists (k + 1). split; [lia |].
      change (digitsValue (acc * 10 ^ k + n / 10)
                (String (fromCharCode (48 + n mod 10)) rest)
              = digitsValue (acc * 10 ^ (k + 1) + n) rest).
      cbn [digitsValue]. rewrite Hdigit, Hcode. f_equal.
      rewrite Z.pow_add_r, Z.pow_1_r by lia.
      pose proof (Z.div_mod n 10 ltac:(lia)). lia.
Qed.

Lemma decDigits_S fuel n :
  decDigits (S fuel) n
  = if n <? 10 then String (fromCharCode (48 + n)) ""
    else (decDigits fuel (n / 10) ++ String (fromCharCode (48 + n mod 10)) "")%string.
Proof. reflexivity. Qed.

Lemma decDigits_first fuel : forall n,
  0 <= n -> exists c r, decDigits (S fuel) n = String c r /\ isDigit c = true.
Proof.
  induction fuel as [| fuel IH]; intros n Hn; rewrite decDigits_S.
  - destruct (n <? 10) eqn:Hsmall.
    + apply Z.ltb_lt in Hsmall. destruct (digit_char n) as [Hdigit _]; [lia |]. eauto.
    + destruct (digit_char (n mod 10)) as [Hdigit _];
        [apply Z.mod_pos_bound; lia |].
      eexists _, _. split; [reflexivity | exact Hdigit].
  - destruct (n <? 10) eqn:Hsmall.
    + apply Z.ltb_lt in Hsmall. destruct (digit_char n) as [Hdigit _]; [lia |]. eauto.
    + destruct (IH (n / 10)) as (c & r & Heq & Hc); [apply Z.div_pos; lia |].
      rewrite Heq. eexists _, _. split; [reflexivity | exact Hc].
Qed.

Lemma parseInt_digit c r :
  isDigit c = true -> parseInt (String c r) = Some (digitsValue 0 (String c r)).
Proof.
  destruct c as [[] [] [] [] [] [] [] []]; intros H; try discriminate H; reflexivity.
Qed.

(** [parseInt(`${n}`, 10)] is [n], for an integer that is not negative and
    has at most twenty digits. *)
Lemma parseInt_toString10 n :
  0 <= n < 10 ^ 20 -> parseInt (toString10 n) = Some n.
Proof.
  intros Hn. unfold toString10.
  assert (Hpos : (n <? 0) = false) by (apply Z.ltb_ge; lia). rewrite Hpos.
  destruct (decDigits_first 19 n) as (c & r & Heq & Hc); [lia |].
  rewrite Heq, (parseInt_digit c r Hc), <- Heq. f_equal.
  destruct (digitsValue_decDigits 20 n 0 "") as (k & _ & Hval);
    [exact Hn |].
  rewrite append_empty in Hval. rewrite Hval. cbn [digitsValue]. lia.
Qed.

Lemma sinceVersion_toString10 n :
  0 <= n < 10 ^ 20 -> sinceVersion (Some (toString10 n)) = n.
Proof.
  intros Hn. unfold sinceVersion.
  assert (Hne : isEmpty (toString10 n) = false).
  { unfold toString10.
    assert (Hpos : (n <? 0) = false) by (apply Z.ltb_ge; lia). rewrite Hpos.
    destruct (decDigits_first 19 n) as (c & r & -> & _); [lia | reflexivity]. }
  rewrite Hne, (parseInt_toString10 n Hn).
  assert (Hpos : (n <? 0) = false) by (apply Z.ltb_ge; lia). rewrite Hpos.
  reflexivity.
Qed.

End PullSpec.

(* ================================================================== *)
(** * What the sync client keeps, and how its runs end                 *)
(* ================================================================== *)

Module SyncSpec.
Import JS JSFacts Client ClientSpec Sync.

(** ** Relations that every step keeps *)

Section Preserves.
Variable R : State -> State -> Prop.
Hypothesis R_refl : forall st, R st st.
Hypothesis R_trans : forall a b c, R a b -> R b c -> R a c.
Hypothesis R_requests : forall st n, R st (withRequests st n).
Hypothesis R_isSyncing : forall st b, R st (withIsSyncing st b).

Lemma preserves_ret {A} (a : A) : preserves R (ret a).
Proof. intros st. apply R_refl. Qed.

Lemma preserves_throw {A} message : preserves R (@throw A message).
Proof. intros st. apply R_refl. Qed.

Lemma preserves_bind {A B} (m : M A) (k : A -> M B) :
  preserves R m -> (forall a, preserves R (k a)) -> preserves R (bind m k).
Proof.
  intros Hm Hk st. unfold bind. specialize (Hm st).
  destruct (m st) as [[a | e |] st']; simpl in *.
  - eapply R_trans; [exact Hm | apply Hk].
  - exact Hm.
  - exact Hm.
Qed.

Lemma preserves_tryCatch {A} (body : M A) (handler : string -> M A) :
  preserves R body -> (forall e, preserves R (handler e)) ->
  preserves R (tryCatch body handler).
Proof.
  intros Hb Hh st. unfold tryCatch. specialize (Hb st).
  destruct (body st) as [[a | e |] st']; simpl in *.
  - exact Hb.
  - eapply R_trans; [exact Hb | apply Hh].
  - exact Hb.
Qed.

Lemma preserves_tryFinally {A} (body : M A) (cleanup : M unit) :
  preserves R body -> preserves R cleanup ->
  preserves R (tryFinally body cleanup).
Proof.
  intros Hb Hc st. unfold tryFinally. specialize (Hb st).
  destruct (body st) as [r st']. specialize (Hc st').
  destruct r as [a | e |]; [| | exact Hb];
    destruct (cleanup st') as [[u | e' |] st'']; simpl in *;
    eapply R_trans; eassumption.
Qed.

Lemma preserves_getState : preserves R getState.
Proof. intros st. apply R_refl. Qed.

Lemma preserves_initDB : preserves R initDB.
Proof. intros st. apply R_refl. Qed.

Lemma preserves_setIsSyncing b : preserves R (setIsSyncing b).
Proof. intros st. apply R_isSyncing. Qed.

Lemma preserves_request env : preserves R (request env).
Proof.
  intros st. unfold request. destruct (storageFails env _); apply R_requests.
Qed.

Lemma preserves_getSetting env key : preserves R (getSetting env key).
Proof.
  unfold getSetting.
  apply preserves_bind; [apply preserves_initDB | intros database].
  apply preserves_bind; [apply preserves_request | intros _].
  apply preserves_bind; [apply preserves_getState | intros st].
  destruct database; apply preserves_ret.
Qed.

Lemma preserves_getById env s k : preserves R (getById env s k).
Proof.
  unfold getById.
  apply preserves_bind; [apply preserves_initDB | intros database].
  apply preserves_bind; [apply preserves_request | intros _].
  apply preserves_bind; [apply preserves_getState | intros st].
  destruct database; apply preserves_ret.
Qed.

Lemma preserves_requestWithoutOnerror env : preserves R (requestWithoutOnerror env).
Proof.
  intros st. unfold requestWithoutOnerror.
  destruct (storageFails env _); apply R_requests.
Qed.

Lemma preserves_getAllQueue env : preserves R (getAllQueue env).
Proof.
  unfold getAllQueue.
  apply preserves_bind; [apply preserves_requestWithoutOnerror | intros _].
  intros st. destruct (database st); apply R_refl.
Qed.

End Preserves.

(** ** What a pull keeps *)

Lemma objectStore_withSettings db m s :
  objectStore (withSettings db m) s = objectStore db s.
Proof. destruct s; reflexivity. Qed.

Lemma objectStore_withSyncQueue db q s :
  objectStore (withSyncQueue db q) s = objectStore db s.
Proof. destruct s; reflexivity. Qed.

Lemma settings_withObjectStore db s m :
  settings (withObjectStore db s m) = settings db.
Proof. destruct s; reflexivity. Qed.

Lemma StoreName_dec (a b : StoreName) : {a = b} + {a <> b}.
Proof. decide equality. Qed.

Lemma pullKeeps_refl st : pullKeeps st st.
Proof.
  unfold pullKeeps. repeat split; auto.
  intros s k r Hr. exists r. split; [exact Hr | lia].
Qed.

Lemma pullKeeps_trans a b c : pullKeeps a b -> pullKeeps b c -> pullKeeps a c.
Proof.
  intros (Hq1 & Hs1 & Hd1 & Hr1 & Hw1) (Hq2 & Hs2 & Hd2 & Hr2 & Hw2).
  unfold pullKeeps. repeat split.
  - congruence.
  - intros key Hkey. rewrite Hs2, Hs1 by exact Hkey. reflexivity.
  - congruence.
  - intros s k r Hr. destruct (Hr1 s k r Hr) as (r1 & Hr1' & Hle1).
    destruct (Hr2 s k r1 Hr1') as (r2 & Hr2' & Hle2).
    exists r2. split; [exact Hr2' | lia].
  - intros s k r' Hr'. destruct (Hw2 s k r' Hr') as [Hb | Hsy]; [| auto].
    apply Hw1. exact Hb.
Qed.

Lemma pullKeeps_requests st n : pullKeeps st (withRequests st n).
Proof. exact (pullKeeps_refl st). Qed.

Lemma pullKeeps_isSyncing st b : pullKeeps st (withIsSyncing st b).
Proof. exact (pullKeeps_refl st). Qed.

Lemma pullKeeps_setSetting env value :
  preserves pullKeeps (setSetting env "lastCloudPullAt" value).
Proof.
  intros st. unfold setSetting, bind, initDB, request.
  destruct (database st) as [db |] eqn:Hdb;
    destruct (storageFails env (requests st)); cbn [snd];
    try apply pullKeeps_requests.
  - unfold pullKeeps, queueOf, recordOf, settingOf. cbn. rewrite Hdb.
    split; [reflexivity |]. split.
    { intros key Hkey. apply lookup_insert_ne. congruence. }
    split; [reflexivity |]. split.
    + intros s k r Hr. exists r. rewrite objectStore_withSettings.
      split; [exact Hr | lia].
    + intros s k r'. rewrite objectStore_withSettings. auto.
  - unfold pullKeeps, queueOf, recordOf, settingOf. cbn. rewrite Hdb.
    split; [reflexivity |]. split.
    { intros key Hkey. apply lookup_insert_ne. congruence. }
    split; [reflexivity |]. split; [intros s k r Hr; discriminate | auto].
Qed.

Lemma getById_inv env s k st o st1 :
  getById env s k st = (o, st1) ->
  st1 = withRequests st (S (requests st)) /\
  forall local db, o = Return local -> database st = Some db ->
                   local = objectStore db s !! k.
Proof.
  unfold getById, bind, initDB, request, getState, ret.
  destruct (storageFails env (requests st)); destruct (database st) as [db |];
    cbn; intros [= <- <-]; (split; [reflexivity |]);
    intros local db' Ho Hdb'; congruence.
Qed.

Lemma saveDataDirect_inv env s row st :
  (database st = None /\ snd (saveDataDirect env s row st) = st) \/
  exists db,
    database st = Some db /\
    (snd (saveDataDirect env s row st) = withRequests st (S (requests st)) \/
     snd (saveDataDirect env s row st) =
       withDatabase (withRequests st (S (requests st)))
         (withObjectStore db s (<[id row := row]> (objectStore db s)))).
Proof.
  unfold saveDataDirect, bind, initDB, request, ret, put.
  destruct (database st) as [db |] eqn:Hdb; [right; exists db | left; auto].
  split; [reflexivity |].
  destruct (storageFails env (requests st)); cbn; [left; reflexivity |].
  rewrite Hdb. right. reflexivity.
Qed.

Lemma pullKeeps_put env s item st db n :
  database st = Some db ->
  cloudWins (objectStore db s !! id item) item = true ->
  pullKeeps st
    (withDatabase (withRequests st n)
       (withObjectStore db s
          (<[id (stamped env item) := stamped env item]> (objectStore db s)))).
Proof.
  intros Hdb Hwin.
  unfold pullKeeps, queueOf, recordOf, settingOf. cbn. rewrite Hdb.
  split; [destruct s; reflexivity |].
  split; [intros key _; rewrite settings_withObjectStore; reflexivity |].
  split; [reflexivity |]. split.
  - intros s' k r Hr.
    destruct (StoreName_dec s' s) as [-> | Hs].
    + rewrite objectStore_with_same.
      destruct (decide (id item = k)) as [<- | Hk].
      * rewrite lookup_insert_eq. eexists. split; [reflexivity |].
        unfold cloudWins in Hwin. rewrite Hr, or_zero_id in Hwin.
        apply Z.gtb_lt in Hwin. cbn. lia.
      * rewrite lookup_insert_ne by exact Hk. exists r. split; [exact Hr | lia].
    + rewrite objectStore_with_other by congruence.
      exists r. split; [exact Hr | lia].
  - intros s' k r'.
    destruct (StoreName_dec s' s) as [-> | Hs].
    + rewrite objectStore_with_same.
      destruct (decide (id item = k)) as [<- | Hk].
      * rewrite lookup_insert_eq. intros [= <-]. right. reflexivity.
      * rewrite lookup_insert_ne by exact Hk. auto.
    + rewrite objectStore_with_other by congruence. auto.
Qed.

Lemma pullKeeps_mergeItem env s imported item :
  preserves pullKeeps (mergeItem env s imported item).
Proof.
  intros st. unfold mergeItem, bind.
  destruct (getById env s (id item) st) as [[local | e |] st1] eqn:Hget;
    apply getById_inv in Hget as [-> Hlocal];
    [| apply pullKeeps_requests | apply pullKeeps_requests].
  destruct (cloudWins local item) eqn:Hwin; [| apply pullKeeps_requests].
  set (st1 := withRequests st (S (requests st))).
  assert (Hsave : pullKeeps st (snd (saveDataDirect env s (stamped env item) st1))).
  { destruct (saveDataDirect_inv env s (stamped env item) st1)
      as [[_ ->] | (db & Hdb & [-> | ->])];
      [exact (pullKeeps_refl st) | exact (pullKeeps_refl st) |].
    refine (pullKeeps_put env s item st db (S (requests st1)) Hdb _).
    rewrite <- (Hlocal local db eq_refl Hdb). exact Hwin. }
  destruct (saveDataDirect env s (stamped env item) st1) as [[u | e |] st2];
    exact Hsave.
Qed.

Lemma pullKeeps_mergeItems env s items : forall imported,
  preserves pullKeeps (mergeItems env s items imported).
Proof.
  induction items as [| item rest IH]; intros imported; simpl.
  - apply preserves_ret, pullKeeps_refl.
  - apply preserves_bind; [exact pullKeeps_trans | apply pullKeeps_mergeItem |].
    intros imported'. apply IH.
Qed.

Lemma pullKeeps_mergeStores env cloudData ss : forall imported,
  preserves pullKeeps (mergeStores env cloudData ss imported).
Proof.
  induction ss as [| s rest IH]; intros imported; simpl.
  - apply preserves_ret, pullKeeps_refl.
  - apply preserves_bind; [exact pullKeeps_trans | apply pullKeeps_mergeItems |].
    intros imported'. apply IH.
Qed.

(** X8.  Whatever the settings, the server's answer and the failures of
    storage requests are, [pullFromCloud] leaves the sync queue as it was
    (what it stores is not queued for a push), changes no setting other
    than [lastCloudPullAt], never writes the fallback data of
    [chrome.storage.local], never removes a record or replaces it by one
    with an older [updatedAt], and marks every record it writes as
    synced. *)
Theorem pullFromCloud_keeps :
  forall (env : Env) (st : State), pullKeeps st (snd (pullFromCloud env st)).
Proof.
  intros env. change (preserves pullKeeps (pullFromCloud env)).
  pose proof pullKeeps_refl as Hrefl. pose proof pullKeeps_trans as Htrans.
  pose proof pullKeeps_requests as Hreq. pose proof pullKeeps_isSyncing as Hflag.
  unfold pullFromCloud.
  apply preserves_bind; [exact Htrans | apply preserves_getState, Hrefl | intros st].
  destruct (isSyncing st); [apply preserves_ret, Hrefl |].
  apply preserves_bind; [exact Htrans | apply preserves_getSetting; assumption |].
  intros isPremium.
  apply preserves_bind; [exact Htrans | apply preserves_getSetting; assumption |].
  intros token.
  destruct (_ || _); [apply preserves_ret, Hrefl |].
  apply preserves_bind; [exact Htrans | apply preserves_getSetting; assumption |].
  intros lastPullAt.
  apply preserves_bind; [exact Htrans | apply preserves_setIsSyncing, Hflag | intros _].
  apply preserves_tryFinally; [exact Htrans | | apply preserves_setIsSyncing, Hflag].
  apply preserves_tryCatch; [exact Htrans | | intros e; apply preserves_ret, Hrefl].
  destruct (pullResponse env _) as [message | status body];
    [apply preserves_throw, Hrefl |].
  destruct (negb (ok status)); [apply preserves_throw, Hrefl |].
  destruct body as [cloudData |]; [| apply preserves_throw, Hrefl].
  apply preserves_bind; [exact Htrans | apply pullKeeps_mergeStores | intros imported].
  apply preserves_bind; [exact Htrans | apply pullKeeps_setSetting | intros _].
  apply preserves_ret, Hrefl.
Qed.

(** ** What a run of the sync queue keeps *)

Lemma sameRecord_refl o : sameRecord o o.
Proof. destruct o; simpl; unfold sameContent; auto. Qed.

Lemma sameRecord_trans a b c : sameRecord a b -> sameRecord b c -> sameRecord a c.
Proof.
  destruct a, b, c; simpl; unfold sameContent; try tauto.
  intros (? & ? & ?) (? & ? & ?). repeat split; congruence.
Qed.

Lemma pushKeeps_refl st : pushKeeps st st.
Proof.
  unfold pushKeeps. repeat split; auto. intros s k. apply sameRecord_refl.
Qed.

Lemma pushKeeps_trans a b c : pushKeeps a b -> pushKeeps b c -> pushKeeps a c.
Proof.
  intros (Hq1 & Hs1 & Hd1 & Hr1) (Hq2 & Hs2 & Hd2 & Hr2).
  unfold pushKeeps. repeat split.
  - auto.
  - intros key Hkey. rewrite Hs2, Hs1 by exact Hkey. reflexivity.
  - congruence.
  - apply Hr2, Hr1. assumption.
  - intros s k. destruct (Hr1 H) as [Hk1 Hsame1]. destruct (Hr2 Hk1) as [_ Hsame2].
    eapply sameRecord_trans; [apply Hsame1 | apply Hsame2].
Qed.

Lemma pushKeeps_setSetting env value :
  preserves pushKeeps (setSetting env "cloudSyncEnabled" value).
Proof.
  intros st. unfold setSetting, bind, initDB, request.
  destruct (database st) as [db |] eqn:Hdb;
    destruct (storageFails env (requests st)); cbn [snd];
    try exact (pushKeeps_refl st).
  - unfold pushKeeps, keyedState, queueOf, recordOf, settingOf. cbn. rewrite Hdb.
    split; [auto |]. split.
    { intros key Hkey. apply lookup_insert_ne. congruence. }
    split; [reflexivity |]. intros Hkeyed. split.
    + intros s k r. rewrite objectStore_withSettings. apply Hkeyed.
    + intros s k. rewrite objectStore_withSettings. apply sameRecord_refl.
  - unfold pushKeeps, keyedState, queueOf, recordOf, settingOf. cbn. rewrite Hdb.
    split; [auto |]. split.
    { intros key Hkey. apply lookup_insert_ne. congruence. }
    split; [reflexivity |]. intros Hkeyed.
    split; [discriminate | intros s k; exact I].
Qed.

Lemma pushKeeps_deleteFromQueue key : preserves pushKeeps (deleteFromQueue key).
Proof.
  intros st. unfold deleteFromQueue.
  destruct (database st) as [db |] eqn:Hdb; [| exact (pushKeeps_refl st)].
  unfold pushKeeps, keyedState, queueOf, recordOf, settingOf. cbn. rewrite Hdb.
  split; [intros item Hitem; apply elem_of_List_filter in Hitem; tauto |].
  split; [reflexivity |]. split; [reflexivity |]. intros Hkeyed. split.
  - intros s k r. rewrite objectStore_withSyncQueue. apply Hkeyed.
  - intros s k. rewrite objectStore_withSyncQueue. apply sameRecord_refl.
Qed.

Lemma pushKeeps_markSynced env item : preserves pushKeeps (markSynced env item).
Proof.
  unfold markSynced.
  apply preserves_bind;
    [exact pushKeeps_trans
    | apply preserves_requestWithoutOnerror; intros st n; exact (pushKeeps_refl st)
    | intros _].
  intros st. unfold bind, getState.
  destruct (database st) as [db |] eqn:Hdb; [| exact (pushKeeps_refl st)].
  destruct (objectStore db (storeName item) !! id (data item)) as [existing |] eqn:Hex;
    [| exact (pushKeeps_refl st)].
  unfold put. rewrite Hdb. cbn [snd].
  unfold pushKeeps, keyedState, queueOf, recordOf, settingOf. cbn. rewrite Hdb.
  split; [rewrite syncQueue_withObjectStore; auto |].
  split; [intros key _; rewrite settings_withObjectStore; reflexivity |].
  split; [reflexivity |]. intros Hkeyed.
  pose proof (Hkeyed _ _ _ Hex) as Hid.
  split.
  - intros s k r.
    destruct (StoreName_dec s (storeName item)) as [-> | Hs].
    + rewrite objectStore_with_same.
      destruct (decide (id existing = k)) as [<- | Hk].
      * rewrite lookup_insert_eq. intros [= <-]. reflexivity.
      * rewrite lookup_insert_ne by exact Hk. apply Hkeyed.
    + rewrite objectStore_with_other by congruence. apply Hkeyed.
  - intros s k.
    destruct (StoreName_dec s (storeName item)) as [-> | Hs].
    + rewrite objectStore_with_same.
      destruct (decide (id existing = k)) as [<- | Hk].
      * rewrite lookup_insert_eq. rewrite Hid, Hex. simpl.
        unfold sameContent. auto.
      * rewrite lookup_insert_ne by exact Hk. apply sameRecord_refl.
    + rewrite objectStore_with_other by congruence. apply sameRecord_refl.
Qed.

Lemma pushKeeps_pushItem env item synced errors :
  preserves pushKeeps (pushItem env item synced errors).
Proof.
  pose proof pushKeeps_refl as Hrefl. pose proof pushKeeps_trans as Htrans.
  unfold pushItem.
  apply preserves_tryCatch; [exact Htrans | | intros e; apply preserves_ret, Hrefl].
  destruct (pushResponse env item) as [message | status body];
    [apply preserves_throw, Hrefl |].
  destruct (ok status).
  - apply preserves_bind; [exact Htrans | apply pushKeeps_deleteFromQueue | intros _].
    apply preserves_bind; [exact Htrans | | intros _; apply preserves_ret, Hrefl].
    destruct (negb _); [apply pushKeeps_markSynced | apply preserves_ret, Hrefl].
  - destruct (status =? 401).
    + apply preserves_bind; [exact Htrans | apply pushKeeps_setSetting | intros _].
      apply preserves_ret, Hrefl.
    + destruct (_ >=? _); [| apply preserves_ret, Hrefl].
      apply preserves_bind; [exact Htrans | apply pushKeeps_deleteFromQueue | intros _].
      apply preserves_ret, Hrefl.
Qed.

Lemma pushKeeps_pushLoop env count items : forall synced errors,
  preserves pushKeeps (pushLoop env count items synced errors).
Proof.
  induction items as [| item rest IH]; intros synced errors; simpl.
  - apply preserves_ret, pushKeeps_refl.
  - apply preserves_bind; [exact pushKeeps_trans | apply pushKeeps_pushItem |].
    intros [synced' errors' | result]; [apply IH | apply preserves_ret, pushKeeps_refl].
Qed.

(** X9.  Whatever the settings, the server's answers and the failures of
    storage requests are, [processSyncQueue] adds no entry to the sync queue
    and changes none in it (a raised retry count is never written back),
    changes no setting other than [cloudSyncEnabled], never writes the
    fallback data, and, when every record is stored under its id, leaves
    every data store with the same records: none added, none removed, and
    each with the [id], [updatedAt] and other properties it had. *)
Theorem processSyncQueue_keeps :
  forall (env : Env) (st : State), pushKeeps st (snd (processSyncQueue env st)).
Proof.
  intros env. change (preserves pushKeeps (processSyncQueue env)).
  pose proof pushKeeps_refl as Hrefl. pose proof pushKeeps_trans as Htrans.
  assert (Hreq : forall st n, pushKeeps st (withRequests st n))
    by (intros st n; exact (pushKeeps_refl st)).
  assert (Hflag : forall st b, pushKeeps st (withIsSyncing st b))
    by (intros st b; exact (pushKeeps_refl st)).
  unfold processSyncQueue.
  apply preserves_bind; [exact Htrans | apply preserves_getState, Hrefl | intros st].
  destruct (isSyncing st); [apply preserves_ret, Hrefl |].
  apply preserves_bind; [exact Htrans | apply preserves_getSetting; assumption |].
  intros isPremium.
  apply preserves_bind; [exact Htrans | apply preserves_getSetting; assumption |].
  intros enabled.
  apply preserves_bind; [exact Htrans | apply preserves_getSetting; assumption |].
  intros token.
  destruct (_ || _); [apply preserves_ret, Hrefl |].
  destruct (isEmpty apiUrl); [apply preserves_ret, Hrefl |].
  apply preserves_bind; [exact Htrans | apply preserves_initDB, Hrefl | intros database].
  destruct database; [| apply preserves_ret, Hrefl].
  apply preserves_bind; [exact Htrans | apply preserves_setIsSyncing, Hflag | intros _].
  apply preserves_tryFinally; [exact Htrans | | apply preserves_setIsSyncing, Hflag].
  apply preserves_bind; [exact Htrans | apply preserves_getAllQueue; assumption | intros items].
  apply pushKeeps_pushLoop.
Qed.

(** ** How a run of the sync queue ends *)

(** A run that passes its prerequisites reaches the loop. *)
Lemma processSyncQueue_start env st db :
  noFailures env -> database st = Some db -> isSyncing st = false ->
  syncEnabled db ->
  exists st0,
    database st0 = Some db /\
    processSyncQueue env st =
    tryFinally
      (bind (getAllQueue env)
         (fun items => pushLoop env (Z.of_nat (length items)) items 0 []))
      (setIsSyncing false) st0.
Proof.
  intros Hnf Hdb Hflag (Hprem & Hen & Htok).
  unfold processSyncQueue.
  rewrite (bind_run getState _ st st st eq_refl). rewrite Hflag.
  rewrite (bind_run _ _ _ _ _ (getSetting_run env "isPremium" st db Hnf Hdb)).
  set (st1 := withRequests st (S (requests st))).
  assert (Hdb1 : database st1 = Some db) by exact Hdb.
  rewrite (bind_run _ _ _ _ _ (getSetting_run env "cloudSyncEnabled" st1 db Hnf Hdb1)).
  set (st2 := withRequests st1 (S (requests st1))).
  assert (Hdb2 : database st2 = Some db) by exact Hdb.
  rewrite (bind_run _ _ _ _ _ (getSetting_run env "cloudAuthToken" st2 db Hnf Hdb2)).
  rewrite Hprem, Hen, Htok.
  change (negb true || negb true || negb true) with false. cbv iota.
  change (isEmpty apiUrl) with false. cbv iota.
  set (st3 := withRequests st2 (S (requests st2))).
  assert (Hdb3 : database st3 = Some db) by exact Hdb.
  rewrite (bind_run initDB _ st3 (Some db) st3)
    by (unfold initDB; rewrite Hdb3; reflexivity).
  exists (withIsSyncing st3 true). split; [exact Hdb |]. reflexivity.
Qed.

Lemma pushItem_accepted env item synced errors st db status :
  noFailures env ->
  database st = Some db ->
  pushResponse env item = Response status tt -> ok status = true ->
  exists st',
    pushItem env item synced errors st
    = (Return (Continue (synced + 1) errors), st') /\
    database st' = Some (acknowledged env db item).
Proof.
  intros Hnf Hdb Hresp Hok. unfold pushItem, tryCatch. rewrite Hresp, Hok.
  unfold bind at 1. unfold deleteFromQueue at 1. rewrite Hdb.
  fold (dequeued db item). unfold acknowledged.
  set (st1 := withDatabase st (dequeued db item)).
  destruct (negb (isEmpty (id (data item)))).
  - unfold markSynced, bind, getState, requestWithoutOnerror. rewrite Hnf.
    cbn [database st1 withDatabase withRequests].
    destruct (objectStore (dequeued db item) (storeName item) !! id (data item))
      as [existing |].
    + unfold put. cbn [database st1 withDatabase]. eexists. split; reflexivity.
    + eexists. split; reflexivity.
  - eexists. split; reflexivity.
Qed.

Lemma pushLoop_accepted env count items : forall st db synced errors,
  noFailures env ->
  database st = Some db ->
  (forall item, item ∈ items ->
     exists status, pushResponse env item = Response status tt /\ ok status = true) ->
  exists st',
    pushLoop env count items synced errors st
    = (Return (PushSummary (synced + Z.of_nat (length items))
                 (count - (synced + Z.of_nat (length items))) errors), st') /\
    database st' = Some (fold_left (acknowledged env) items db).
Proof.
  induction items as [| item rest IH]; intros st db synced errors Hnf Hdb Hall.
  - exists st. simpl. rewrite Z.add_0_r. split; [reflexivity | exact Hdb].
  - destruct (Hall item) as (status & Hresp & Hok); [apply elem_of_cons; auto |].
    destruct (pushItem_accepted env item synced errors st db status Hnf Hdb Hresp Hok)
      as (st1 & Hrun & Hdb1).
    cbn [pushLoop]. rewrite (bind_run _ _ _ _ _ Hrun).
    destruct (IH st1 _ (synced + 1) errors Hnf Hdb1) as (st2 & Hloop & Hdb2).
    { intros i Hi. apply Hall, elem_of_cons. auto. }
    exists st2. rewrite Hloop. cbn [length fold_left].
    replace (synced + 1 + Z.of_nat (length rest))
      with (synced + Z.of_nat (S (length rest))) by lia.
    split; [reflexivity | exact Hdb2].
Qed.

Lemma acknowledged_queue env db item i :
  i ∈ syncQueue (acknowledged env db item) <->
  i ∈ syncQueue db /\ si_id i <> si_id item.
Proof.
  assert (Hq : syncQueue (acknowledged env db item) = syncQueue (dequeued db item)).
  { unfold acknowledged. destruct (negb _); [| reflexivity].
    destruct (_ !! _); [apply syncQueue_withObjectStore | reflexivity]. }
  rewrite Hq. unfold dequeued. cbn [syncQueue withSyncQueue].
  rewrite elem_of_List_filter, negb_true_iff, Z.eqb_neq. reflexivity.
Qed.

Lemma acknowledged_all_queue env items : forall db i,
  i ∈ syncQueue (fold_left (acknowledged env) items db) ->
  i ∈ syncQueue db /\ forall item, item ∈ items -> si_id i <> si_id item.
Proof.
  induction items as [| x rest IH]; intros db i Hi; simpl in Hi.
  - split; [exact Hi |]. intros item Hitem. apply elem_of_nil in Hitem. contradiction.
  - apply IH in Hi as [Hi Hrest]. apply acknowledged_queue in Hi as [Hi Hx].
    split; [exact Hi |]. intros item Hitem.
    apply elem_of_cons in Hitem as [-> | Hitem]; auto.
Qed.

Lemma acknowledged_keyed env db item : keyed db -> keyed (acknowledged env db item).
Proof.
  intros Hk. unfold acknowledged.
  assert (Hd : keyed (dequeued db item)).
  { intros s k r. unfold dequeued. rewrite objectStore_withSyncQueue. apply Hk. }
  destruct (negb _); [| exact Hd].
  destruct (_ !! _) as [existing |] eqn:Hex; [| exact Hd].
  intros s k r.
  destruct (StoreName_dec s (storeName item)) as [-> | Hs].
  - rewrite objectStore_with_same.
    destruct (decide (id (withSynced env existing) = k)) as [<- | Hne].
    + rewrite lookup_insert_eq. intros [= <-]. reflexivity.
    + rewrite lookup_insert_ne by exact Hne. apply Hd.
  - rewrite objectStore_with_other by congruence. apply Hd.
Qed.

Lemma acknowledged_lookup env db item s k x :
  keyed db -> objectStore db s !! k = Some x ->
  (objectStore (acknowledged env db item) s !! k = Some x \/
   objectStore (acknowledged env db item) s !! k = Some (withSynced env x)) /\
  (storeName item = s -> id (data item) = k -> k <> "" ->
   objectStore (acknowledged env db item) s !! k = Some (withSynced env x)).
Proof.
  intros Hk Hx. unfold acknowledged.
  assert (Hd : forall s' k', objectStore (dequeued db item) s' !! k'
                             = objectStore db s' !! k').
  { intros s' k'. unfold dequeued. rewrite objectStore_withSyncQueue. reflexivity. }
  destruct (isEmpty (id (data item))) eqn:Hempty; cbn [negb].
  - rewrite Hd. split; [auto |]. intros _ Hid Hne. exfalso. apply Hne.
    rewrite <- Hid. destruct (id (data item)); [reflexivity | discriminate].
  - rewrite Hd.
    destruct (objectStore db (storeName item) !! id (data item)) as [existing |] eqn:Hex.
    + pose proof (Hk _ _ _ Hex) as Hid.
      destruct (StoreName_dec s (storeName item)) as [-> | Hs].
      * rewrite objectStore_with_same. cbn [id withSynced]. rewrite Hid.
        destruct (decide (id (data item) = k)) as [Heq | Hne].
        -- rewrite Heq in *. rewrite lookup_insert_eq.
           rewrite Hex in Hx. injection Hx as ->. auto.
        -- rewrite lookup_insert_ne by exact Hne. rewrite Hd.
           split; [auto |]. intros _ Heq. contradiction.
      * rewrite objectStore_with_other by congruence. rewrite Hd.
        split; [auto |]. intros Heq. congruence.
    + rewrite Hd. split; [auto |]. intros <- <-. congruence.
Qed.

Lemma acknowledged_all_lookup env items : forall db s k x,
  keyed db -> objectStore db s !! k = Some x ->
  (objectStore (fold_left (acknowledged env) items db) s !! k = Some x \/
   objectStore (fold_left (acknowledged env) items db) s !! k
   = Some (withSynced env x)) /\
  (forall item, item ∈ items -> storeName item = s -> id (data item) = k ->
                k <> "" ->
   objectStore (fold_left (acknowledged env) items db) s !! k
   = Some (withSynced env x)).
Proof.
  induction items as [| y rest IH]; intros db s k x Hk Hx; cbn [fold_left].
  - split; [auto |]. intros item Hitem. apply elem_of_nil in Hitem. contradiction.
  - pose proof (acknowledged_keyed env db y Hk) as Hk1.
    destruct (acknowledged_lookup env db y s k x Hk Hx) as [Hany Htarget].
    split.
    + destruct Hany as [H1 | H1]; destruct (IH _ s k _ Hk1 H1) as [[H2 | H2] _]; auto.
    + intros item Hitem Hs Hid Hne.
      apply elem_of_cons in Hitem as [-> | Hitem].
      * specialize (Htarget Hs Hid Hne).
        destruct (IH _ s k _ Hk1 Htarget) as [[H2 | H2] _]; exact H2.
      * destruct Hany as [H1 | H1];
          destruct (IH _ s k _ Hk1 H1) as [_ H2];
          exact (H2 item Hitem Hs Hid Hne).
Qed.

(** X10.  When storage works, sync is enabled and the server accepts every
    queued item, a run of [processSyncQueue] reports all of them as synced
    with nothing pending and no error, leaves the queue empty, and leaves
    every record a queued item was about marked as synced at the time of
    the run, with its other properties as they were. *)
Theorem accepted_queue_is_drained :
  forall (env : Env) (st : State) (db : IDB),
    noFailures env -> database st = Some db -> isSyncing st = false ->
    syncEnabled db -> keyed db ->
    (forall item, item ∈ syncQueue db ->
       exists status, pushResponse env item = Response status tt /\ ok status = true) ->
    exists st' db',
      processSyncQueue env st
      = (Return (PushSummary (Z.of_nat (length (syncQueue db))) 0 []), st') /\
      database st' = Some db' /\
      syncQueue db' = [] /\
      (forall item r,
         item ∈ syncQueue db -> id (data item) <> "" ->
         objectStore db (storeName item) !! id (data item) = Some r ->
         objectStore db' (storeName item) !! id (data item)
         = Some (withSynced env r)).
Proof.
  intros env st db Hnf Hdb Hflag Hen Hkeyed Hall.
  destruct (processSyncQueue_start env st db Hnf Hdb Hflag Hen) as (st0 & Hdb0 & ->).
  destruct (pushLoop_accepted env (Z.of_nat (length (syncQueue db))) (syncQueue db)
              (withRequests st0 (S (requests st0))) db 0 [] Hnf Hdb0 Hall)
    as (st1 & Hloop & Hdb1).
  exists (withIsSyncing st1 false), (fold_left (acknowledged env) (syncQueue db) db).
  split; [| split; [exact Hdb1 | split]].
  - unfold tryFinally.
    rewrite (bind_run _ _ _ _ _ (getAllQueue_ok env st0 db (Hnf _) Hdb0)), Hloop.
    cbn. repeat f_equal. lia.
  - destruct (syncQueue (fold_left (acknowledged env) (syncQueue db) db))
      as [| i l] eqn:Hq; [reflexivity | exfalso].
    assert (Hi : i ∈ syncQueue (fold_left (acknowledged env) (syncQueue db) db))
      by (rewrite Hq; apply elem_of_cons; auto).
    apply acknowledged_all_queue in Hi as [Hi Hnot]. exact (Hnot i Hi eq_refl).
  - intros item r Hitem Hne Hr.
    destruct (acknowledged_all_lookup env (syncQueue db) db _ _ r Hkeyed Hr)
      as [_ Hsynced].
    exact (Hsynced item Hitem eq_refl eq_refl Hne).
Qed.

Lemma queuedDB_keyed : keyed queuedDB.
Proof.
  intros s k r. destruct s; cbn.
  - rewrite lookup_empty. discriminate.
  - intros H. apply lookup_singleton_Some in H as [<- <-]. reflexivity.
  - rewrite lookup_empty. discriminate.
Qed.

Lemma accepted_queue_is_drained_witness :
  exists st' db',
    processSyncQueue acceptingServer (clientOf (Some queuedDB) 0)
    = (Return (PushSummary 1 0 []), st') /\
    database st' = Some db' /\
    syncQueue db' = [] /\
    objectStore db' snippets !! "s1"
    = Some (withSynced acceptingServer (aRow "s1" 100 "local")).
Proof.
  destruct (accepted_queue_is_drained acceptingServer (clientOf (Some queuedDB) 0)
              queuedDB)
    as (st' & db' & Hrun & Hdb & Hq & Hrec).
  - intros n. reflexivity.
  - reflexivity.
  - reflexivity.
  - repeat split; reflexivity.
  - exact queuedDB_keyed.
  - intros item _. exists 200. split; reflexivity.
  - exists st', db'. split; [exact Hrun |]. split; [exact Hdb |].
    split; [exact Hq |].
    apply (Hrec queuedItem (aRow "s1" 100 "local")).
    + apply elem_of_cons. left. reflexivity.
    + discriminate.
    + reflexivity.
Defined.

(** A run whose first item the server answers with 401. *)
Lemma pushItem_unauthorized env item synced errors st db :
  noFailures env -> database st = Some db ->
  pushResponse env item = Response 401 tt ->
  exists st',
    pushItem env item synced errors st
    = (Return (Exit (PushMessage synced "Authentication failed. Please re-login.")),
       st') /\
    database st' =
      Some (withSettings db (<["cloudSyncEnabled" := VBool false]> (settings db))) /\
    isSyncing st' = isSyncing st.
Proof.
  intros Hnf Hdb Hresp. unfold pushItem, tryCatch. rewrite Hresp.
  change (ok 401) with false. change (401 =? 401) with true. cbv iota.
  destruct (setSetting_run env "cloudSyncEnabled" (VBool false) st db Hnf Hdb)
    as (st1 & Hset & Hdb1 & Hflag1).
  rewrite (bind_run _ _ _ _ _ Hset). exists st1.
  split; [reflexivity |]. split; assumption.
Qed.

(** X11.  When the server answers the first queued item with 401, the run
    stops there: it reports the authentication failure with nothing synced,
    sends no further item, leaves the whole queue in place, and stores
    [cloudSyncEnabled = false]; every later run then ends at once with
    "Cloud sync not enabled", whatever the server would answer. *)
Theorem unauthorized_push_disables_sync :
  forall (env : Env) (st : State) (db : IDB) (item : SyncItem)
         (rest : list SyncItem),
    noFailures env -> database st = Some db -> isSyncing st = false ->
    syncEnabled db ->
    syncQueue db = item :: rest ->
    pushResponse env item = Response 401 tt ->
    exists st',
      processSyncQueue env st
      = (Return (PushMessage 0 "Authentication failed. Please re-login."), st') /\
      database st' =
        Some (withSettings db (<["cloudSyncEnabled" := VBool false]> (settings db))) /\
      (forall env', noFailures env' ->
         fst (processSyncQueue env' st')
         = Return (PushMessage 0 "Cloud sync not enabled") /\
         database (snd (processSyncQueue env' st')) = database st').
Proof.
  intros env st db item rest Hnf Hdb Hflag Hen Hq Hresp.
  destruct (processSyncQueue_start env st db Hnf Hdb Hflag Hen) as (st0 & Hdb0 & ->).
  destruct (pushItem_unauthorized env item 0 [] (withRequests st0 (S (requests st0)))
              db Hnf Hdb0 Hresp)
    as (st1 & Hitem & Hdb1 & _).
  exists (withIsSyncing st1 false).
  split; [| split; [exact Hdb1 |]].
  - unfold tryFinally.
    rewrite (bind_run _ _ _ _ _ (getAllQueue_ok env st0 db (Hnf _) Hdb0)), Hq.
    cbn [pushLoop]. unfold bind. rewrite Hitem. reflexivity.
  - intros env' Hnf'.
    set (db1 := withSettings db (<["cloudSyncEnabled" := VBool false]> (settings db))).
    set (st2 := withIsSyncing st1 false).
    assert (Hdb2 : database st2 = Some db1) by exact Hdb1.
    unfold processSyncQueue.
    rewrite (bind_run getState _ st2 st2 st2 eq_refl).
    change (isSyncing st2) with false. cbv iota.
    rewrite (bind_run _ _ _ _ _ (getSetting_run env' "isPremium" st2 db1 Hnf' Hdb2)).
    set (st3 := withRequests st2 (S (requests st2))).
    assert (Hdb3 : database st3 = Some db1) by exact Hdb1.
    rewrite (bind_run _ _ _ _ _
               (getSetting_run env' "cloudSyncEnabled" st3 db1 Hnf' Hdb3)).
    set (st4 := withRequests st3 (S (requests st3))).
    assert (Hdb4 : database st4 = Some db1) by exact Hdb1.
    rewrite (bind_run _ _ _ _ _
               (getSetting_run env' "cloudAuthToken" st4 db1 Hnf' Hdb4)).
    assert (Hoff : truthy (or_null (settings db1 !! "cloudSyncEnabled")) = false).
    { unfold db1. cbn [settings withSettings]. rewrite lookup_insert_eq. reflexivity. }
    rewrite Hoff. rewrite orb_true_r. cbn [negb orb]. split; reflexivity.
Qed.

Lemma unauthorized_push_disables_sync_witness :
  exists st',
    processSyncQueue rejectingServer (clientOf (Some queuedDB) 0)
    = (Return (PushMessage 0 "Authentication failed. Please re-login."), st') /\
    fst (processSyncQueue acceptingServer st')
    = Return (PushMessage 0 "Cloud sync not enabled").
Proof.
  destruct (unauthorized_push_disables_sync rejectingServer
              (clientOf (Some queuedDB) 0) queuedDB queuedItem [])
    as (st' & Hrun & _ & Hnext).
  - intros n. reflexivity.
  - reflexivity.
  - reflexivity.
  - repeat split; reflexivity.
  - reflexivity.
  - reflexivity.
  - exists st'. split; [exact Hrun |].
    apply (Hnext acceptingServer). intros n. reflexivity.
Defined.

(** ** How a pull ends *)

(** A pull that passes its prerequisites reaches the request. *)
Lemma pullFromCloud_start env st db :
  noFailures env -> database st = Some db -> isSyncing st = false ->
  pullEnabled db ->
  exists st0,
    database st0 = Some db /\
    pullFromCloud env st =
    tryFinally
      (tryCatch
         (match pullResponse env (lastPullAtOf db) with
          | NetworkError message => throw message
          | Response status body =>
              if negb (ok status) then throw ("HTTP " ++ toString10 status) else
              match body with
              | None => throw "Unexpected end of JSON input"
              | Some cloudData =>
                  await imported <- mergeStores env cloudData stores noImport;
                  run setSetting env "lastCloudPullAt" (VNum (now env));
                  ret (PullSuccess imported)
              end
          end)
         (fun message => ret (PullFailure message)))
      (setIsSyncing false) st0.
Proof.
  intros Hnf Hdb Hflag (Hprem & Htoken).
  unfold pullFromCloud.
  rewrite (bind_run getState _ st st st eq_refl). rewrite Hflag.
  rewrite (bind_run _ _ _ _ _ (getSetting_run env "isPremium" st db Hnf Hdb)).
  set (st1 := withRequests st (S (requests st))).
  assert (Hdb1 : database st1 = Some db) by exact Hdb.
  rewrite (bind_run _ _ _ _ _ (getSetting_run env "cloudAuthToken" st1 db Hnf Hdb1)).
  rewrite Hprem, Htoken.
  change (negb true || negb true || isEmpty apiUrl) with false. cbv iota.
  set (st2 := withRequests st1 (S (requests st1))).
  assert (Hdb2 : database st2 = Some db) by exact Hdb.
  rewrite (bind_run _ _ _ _ _ (getSetting_run env "lastCloudPullAt" st2 db Hnf Hdb2)).
  fold (lastPullAtOf db).
  set (st3 := withRequests st2 (S (requests st2))).
  exists (withIsSyncing st3 true). split; [exact Hdb |]. reflexivity.
Qed.

(** X12.  A pull that gets no usable answer -- the request fails, the
    status is not a success, or the body cannot be read -- reports a failure
    and changes nothing in the database, [lastCloudPullAt] included, so the
    next pull asks for the same changes again.  The message is that of the
    network error, or "HTTP " followed by the status. *)
Theorem failed_pull_changes_nothing :
  forall (env : Env) (st : State) (db : IDB),
    noFailures env -> database st = Some db -> isSyncing st = false ->
    pullEnabled db ->
    (forall status cloudData,
       pullResponse env (lastPullAtOf db) = Response status (Some cloudData) ->
       ok status = false) ->
    exists message st',
      pullFromCloud env st = (Return (PullFailure message), st') /\
      database st' = Some db /\
      isSyncing st' = false /\
      (forall m, pullResponse env (lastPullAtOf db) = NetworkError m -> message = m) /\
      (forall status body,
         pullResponse env (lastPullAtOf db) = Response status body ->
         ok status = false -> message = ("HTTP " ++ toString10 status)%string).
Proof.
  intros env st db Hnf Hdb Hflag Hen Hbad.
  destruct (pullFromCloud_start env st db Hnf Hdb Hflag Hen) as (st0 & Hdb0 & ->).
  unfold tryFinally, tryCatch.
  destruct (pullResponse env (lastPullAtOf db)) as [m | status body] eqn:Hresp.
  - exists m, (withIsSyncing st0 false). cbn.
    split; [reflexivity |]. split; [exact Hdb0 |]. split; [reflexivity |].
    split; [intros m' [= <-]; reflexivity | intros status body [=]].
  - destruct (ok status) eqn:Hok; cbn [negb].
    + destruct body as [cloudData |].
      * specialize (Hbad status cloudData eq_refl). congruence.
      * exists "Unexpected end of JSON input", (withIsSyncing st0 false). cbn.
        split; [reflexivity |]. split; [exact Hdb0 |]. split; [reflexivity |].
        split; [intros m [=] | intros s b [= <- <-] Hno; congruence].
    + exists ("HTTP " ++ toString10 status)%string, (withIsSyncing st0 false). cbn.
      split; [reflexivity |]. split; [exact Hdb0 |]. split; [reflexivity |].
      split; [intros m [=] | intros s b [= <- <-] _; reflexivity].
Qed.

Lemma failed_pull_changes_nothing_witness :
  exists message st',
    pullFromCloud failingServer (clientOf (Some queuedDB) 0)
    = (Return (PullFailure message), st') /\
    database st' = Some queuedDB /\
    message = "HTTP 500".
Proof.
  destruct (failed_pull_changes_nothing failingServer (clientOf (Some queuedDB) 0)
              queuedDB)
    as (message & st' & Hrun & Hdb & _ & _ & Hmsg).
  - intros n. reflexivity.
  - reflexivity.
  - reflexivity.
  - split; reflexivity.
  - intros status cloudData H. discriminate H.
  - exists message, st'. split; [exact Hrun |]. split; [exact Hdb |].
    apply (Hmsg 500 None); reflexivity.
Defined.

(** ** Pulling the same changes again *)

Lemma covers_loses db s R : covers db s R -> cloudWins (objectStore db s !! id R) R = false.
Proof.
  intros (L & HL & Hle). unfold cloudWins. rewrite HL, or_zero_id.
  rewrite Z.gtb_ltb. apply Z.ltb_ge. exact Hle.
Qed.

Lemma mergeRow_grows env s' db item s k L :
  objectStore db s !! k = Some L ->
  exists L', objectStore (mergeRow env s' db item) s !! k = Some L' /\
             updatedAt L <= updatedAt L'.
Proof.
  intros HL. unfold mergeRow.
  destruct (cloudWins (objectStore db s' !! id item) item) eqn:Hwin;
    [| exists L; split; [exact HL | lia]].
  destruct (StoreName_dec s' s) as [-> | Hs].
  - rewrite objectStore_with_same.
    destruct (decide (id item = k)) as [<- | Hk].
    + rewrite lookup_insert_eq. eexists. split; [reflexivity |].
      unfold cloudWins in Hwin. rewrite HL, or_zero_id in Hwin.
      apply Z.gtb_lt in Hwin. cbn. lia.
    + rewrite lookup_insert_ne by exact Hk. exists L. split; [exact HL | lia].
  - rewrite objectStore_with_other by exact Hs. exists L. split; [exact HL | lia].
Qed.

Lemma mergeRow_covers_other env s' db item s R :
  covers db s R -> covers (mergeRow env s' db item) s R.
Proof.
  intros (L & HL & Hle).
  destruct (mergeRow_grows env s' db item s (id R) L HL) as (L' & HL' & Hle').
  exists L'. split; [exact HL' | lia].
Qed.

Lemma mergeRow_covers env s db R : covers (mergeRow env s db R) s R.
Proof.
  unfold covers. rewrite mergeRow_same. eexists. split; [reflexivity |].
  unfold lastWriteWins. destruct (objectStore db s !! id R) as [L |]; [| cbn; lia].
  destruct (updatedAt R >? updatedAt L) eqn:Hgt; [cbn; lia |].
  rewrite Z.gtb_ltb in Hgt. apply Z.ltb_ge in Hgt. exact Hgt.
Qed.

Lemma mergeRows_covers_other env s' items s R : forall db,
  covers db s R -> covers (fold_left (mergeRow env s') items db) s R.
Proof.
  induction items as [| x rest IH]; intros db Hc; simpl; [exact Hc |].
  apply IH, mergeRow_covers_other, Hc.
Qed.

Lemma mergeRows_covers env s items R : forall db,
  R ∈ items -> covers (fold_left (mergeRow env s) items db) s R.
Proof.
  induction items as [| x rest IH]; intros db Hin; simpl.
  - apply elem_of_nil in Hin. contradiction.
  - apply elem_of_cons in Hin as [-> | Hin]; [| apply IH, Hin].
    apply mergeRows_covers_other, mergeRow_covers.
Qed.

Lemma mergeAll_covers env cloudData db s R :
  R ∈ pulledRows cloudData s ->
  covers (fold_left (mergeStore env cloudData) stores db) s R.
Proof.
  intros Hin. unfold stores, mergeStore. cbn [fold_left].
  destruct s.
  - do 2 apply mergeRows_covers_other. apply mergeRows_covers, Hin.
  - apply mergeRows_covers_other. apply mergeRows_covers, Hin.
  - apply mergeRows_covers, Hin.
Qed.

Lemma mergeRows_settings env s items : forall db,
  settings (fold_left (mergeRow env s) items db) = settings db.
Proof.
  induction items as [| x rest IH]; intros db; simpl; [reflexivity |].
  rewrite IH. unfold mergeRow. destruct (cloudWins _ _); [| reflexivity].
  apply settings_withObjectStore.
Qed.

Lemma mergeAll_settings env cloudData db :
  settings (fold_left (mergeStore env cloudData) stores db) = settings db.
Proof.
  unfold stores, mergeStore. simpl. rewrite !mergeRows_settings. reflexivity.
Qed.

Lemma mergeItem_quiet env s imported item st db :
  noFailures env -> database st = Some db ->
  cloudWins (objectStore db s !! id item) item = false ->
  exists st',
    mergeItem env s imported item st = (Return imported, st') /\
    database st' = Some db.
Proof.
  intros Hnf Hdb Hlose. unfold mergeItem.
  rewrite (bind_run _ _ _ _ _ (getById_run env s (id item) st db Hnf Hdb)).
  rewrite Hlose. eexists. split; [reflexivity | exact Hdb].
Qed.

Lemma mergeItems_quiet env s items : forall imported st db,
  noFailures env -> database st = Some db ->
  (forall item, item ∈ items -> covers db s item) ->
  exists st',
    mergeItems env s items imported st = (Return imported, st') /\
    database st' = Some db.
Proof.
  induction items as [| item rest IH]; intros imported st db Hnf Hdb Hall; simpl.
  - eexists. split; [reflexivity | exact Hdb].
  - destruct (mergeItem_quiet env s imported item st db Hnf Hdb) as (st1 & Hrun & Hdb1).
    { apply covers_loses, Hall, elem_of_cons. auto. }
    rewrite (bind_run _ _ _ _ _ Hrun).
    apply IH; [exact Hnf | exact Hdb1 |].
    intros i Hi. apply Hall, elem_of_cons. auto.
Qed.

Lemma mergeStores_quiet env cloudData ss : forall imported st db,
  noFailures env -> database st = Some db ->
  (forall s item, item ∈ pulledRows cloudData s -> covers db s item) ->
  exists st',
    mergeStores env cloudData ss imported st = (Return imported, st') /\
    database st' = Some db.
Proof.
  induction ss as [| s rest IH]; intros imported st db Hnf Hdb Hall; simpl.
  - eexists. split; [reflexivity | exact Hdb].
  - destruct (mergeItems_quiet env s (pulledRows cloudData s) imported st db Hnf Hdb)
      as (st1 & Hrun & Hdb1); [apply Hall |].
    rewrite (bind_run _ _ _ _ _ Hrun). apply IH; assumption.
Qed.

(** X13.  Pulling the same changes a second time imports nothing: after a
    successful pull, a pull that is answered with the same rows counts no
    import in any store and changes nothing in the database but the time of
    the last pull.  (Storage works and the user is entitled to pull.) *)
Theorem second_pull_imports_nothing :
  forall (env env2 : Env) (st : State) (db : IDB) (cloudData : CloudData)
         (status status2 : Z),
    noFailures env -> noFailures env2 ->
    database st = Some db -> isSyncing st = false -> pullEnabled db ->
    pullResponse env (lastPullAtOf db) = Response status (Some cloudData) ->
    ok status = true ->
    pullResponse env2 (VNum (now env)) = Response status2 (Some cloudData) ->
    ok status2 = true ->
    exists imported st1 db1 st2,
      pullFromCloud env st = (Return (PullSuccess imported), st1) /\
      database st1 = Some db1 /\
      pullFromCloud env2 st1 = (Return (PullSuccess noImport), st2) /\
      database st2 =
        Some (withSettings db1 (<["lastCloudPullAt" := VNum (now env2)]> (settings db1))).
Proof.
  intros env env2 st db cloudData status status2 Hnf Hnf2 Hdb Hflag Hen Hresp Hok
         Hresp2 Hok2.
  destruct Hen as [Hprem Htoken].
  destruct (pullFromCloud_run env st db cloudData status Hdb Hflag Hprem Htoken Hnf
              Hresp Hok) as (imported & st1 & Hrun & Hdb1).
  set (merged := fold_left (mergeStore env cloudData) stores db) in *.
  set (db1 := withSettings merged (<["lastCloudPullAt" := VNum (now env)]> (settings merged)))
    in *.
  assert (Hflag1 : isSyncing st1 = false).
  { replace st1 with (snd (pullFromCloud env st)) by (rewrite Hrun; reflexivity).
    apply pullFromCloud_releases; [exact Hflag | rewrite Hrun; reflexivity]. }
  assert (Hen1 : pullEnabled db1).
  { unfold pullEnabled, db1. cbn [settings withSettings].
    rewrite !lookup_insert_ne by discriminate.
    unfold merged. rewrite mergeAll_settings. split; assumption. }
  assert (Hsince : lastPullAtOf db1 = VNum (now env)).
  { unfold lastPullAtOf, db1. cbn [settings withSettings].
    rewrite lookup_insert_eq. cbn [or_null truthy].
    destruct (now env =? 0) eqn:Hz; cbn [negb truthy].
    - apply Z.eqb_eq in Hz. rewrite Hz. reflexivity.
    - rewrite Hz. reflexivity. }
  assert (Hcov : forall s item, item ∈ pulledRows cloudData s -> covers db1 s item).
  { intros s item Hitem.
    destruct (mergeAll_covers env cloudData db s item Hitem) as (L & HL & Hle).
    exists L. unfold db1. rewrite objectStore_withSettings. split; assumption. }
  destruct (pullFromCloud_start env2 st1 db1 Hnf2 Hdb1 Hflag1 Hen1)
    as (st0 & Hdb0 & Hstart).
  rewrite Hsince, Hresp2, Hok2 in Hstart. cbn [negb] in Hstart.
  destruct (mergeStores_quiet env2 cloudData stores noImport st0 db1 Hnf2 Hdb0 Hcov)
    as (st2 & Hmerge & Hdb2).
  destruct (setSetting_run env2 "lastCloudPullAt" (VNum (now env2)) st2 db1 Hnf2 Hdb2)
    as (st3 & Hset & Hdb3 & _).
  exists imported, st1, db1, (withIsSyncing st3 false).
  split; [exact Hrun |]. split; [exact Hdb1 |].
  rewrite Hstart. unfold tryFinally, tryCatch.
  rewrite (bind_run _ _ _ _ _ Hmerge). rewrite (bind_run _ _ _ _ _ Hset).
  split; [reflexivity | exact Hdb3].
Qed.

Lemma second_pull_imports_nothing_witness :
  exists imported st1 db1 st2,
    pullFromCloud answeringServer (clientOf (Some queuedDB) 0)
    = (Return (PullSuccess imported), st1) /\
    database st1 = Some db1 /\
    pullFromCloud answeringServer st1 = (Return (PullSuccess noImport), st2) /\
    database st2 =
      Some (withSettings db1
              (<["lastCloudPullAt" := VNum (now answeringServer)]> (settings db1))).
Proof.
  apply (second_pull_imports_nothing answeringServer answeringServer
           (clientOf (Some queuedDB) 0) queuedDB
           {| cd_projects := None; cd_snippets := Some [pulledS1; pulledS9];
              cd_knowledge := None; cd_syncVersion := None;
              cd_changes := None |} 200 200).
  - intros n. reflexivity.
  - intros n. reflexivity.
  - reflexivity.
  - reflexivity.
  - split; reflexivity.
  - reflexivity.
  - reflexivity.
  - reflexivity.
  - reflexivity.
Defined.

(** ** Pulling from the endpoint of [sync.ts] *)

Lemma sameData_refl st : sameData st st.
Proof. unfold sameData. auto. Qed.

Lemma sameData_trans a b c : sameData a b -> sameData b c -> sameData a c.
Proof.
  intros (Hq1 & Hd1 & Hr1) (Hq2 & Hd2 & Hr2). unfold sameData.
  split; [congruence |]. split; [congruence |].
  intros s k. rewrite Hr2. apply Hr1.
Qed.

Lemma sameData_setSetting env key value :
  preserves sameData (setSetting env key value).
Proof.
  intros st. unfold setSetting, bind, initDB, request.
  destruct (database st) as [db |] eqn:Hdb;
    destruct (storageFails env (requests st)); cbn [snd];
    try exact (sameData_refl st);
    unfold sameData, queueOf, recordOf; cbn; rewrite Hdb;
    (split; [reflexivity |]); (split; [reflexivity |]); intros s k;
    try rewrite objectStore_withSettings; reflexivity.
Qed.

(** An answer of the endpoint has none of the properties the client reads. *)
Lemma pullAnswer_rows r status cloudData s :
  pullAnswer r = Response status (Some cloudData) -> pulledRows cloudData s = [].
Proof.
  destruct r; cbn; intros [= _ <-]; destruct s; reflexivity.
Qed.

Lemma pullAnswer_ok r status body :
  pullAnswer r = Response status body -> ok status = true ->
  exists v ps ss ks, r = Pull.PullOk v ps ss ks.
Proof.
  destruct r; cbn; intros [= <- _] Hok; try discriminate Hok. eauto.
Qed.

Lemma mergeStores_nothing env cloudData imported st :
  (forall s, pulledRows cloudData s = []) ->
  mergeStores env cloudData stores imported st = (Return imported, st).
Proof.
  intros Hrows. unfold stores. cbn [mergeStores]. rewrite !Hrows. reflexivity.
Qed.

Lemma bind_returns {A B} (m : M A) (k : A -> M B) st b :
  fst (bind m k st) = Return b ->
  exists a st', m st = (Return a, st') /\ fst (k a st') = Return b.
Proof.
  unfold bind. destruct (m st) as [[a | e |] st']; cbn; intros H;
    [eauto | discriminate | discriminate].
Qed.

Lemma tryFinally_returns {A} (body : M A) (cleanup : M unit) st a :
  fst (tryFinally body cleanup st) = Return a -> fst (body st) = Return a.
Proof.
  unfold tryFinally. destruct (body st) as [[a' | e |] st']; cbn;
    [| | discriminate];
    destruct (cleanup st') as [[u | e' |] st'']; cbn; intros H;
    try discriminate; exact H.
Qed.

Lemma tryCatch_imported (body : M PullResult) st imported :
  fst (tryCatch body (fun message => ret (PullFailure message)) st)
  = Return (PullSuccess imported) ->
  fst (body st) = Return (PullSuccess imported).
Proof.
  unfold tryCatch. destruct (body st) as [[a | e |] st']; cbn; intros H;
    [exact H | discriminate | discriminate].
Qed.

(** X28.  Against the pull endpoint of [sync.ts] the client imports
    nothing.  The endpoint answers with [syncVersion] and [changes], and
    the client looks for the rows in [projects], [snippets] and [knowledge]
    of the answer itself: whatever the server holds for the user, whatever
    the query, the settings and the failures of storage are, a pull leaves
    the data stores, the fallback data and the sync queue as they were, and
    when it succeeds it reports no import. *)
Theorem pull_from_the_endpoint_imports_nothing :
  forall (env : Env) (user : option string) (query : Value -> Pull.PullQuery)
         (serverDB : Server.DB) (st : State),
    (forall lastPullAt,
       pullResponse env lastPullAt
       = pullAnswer (Pull.pull user (query lastPullAt) serverDB)) ->
    sameData st (snd (pullFromCloud env st)) /\
    (forall imported,
       fst (pullFromCloud env st) = Return (PullSuccess imported) ->
       imported = noImport).
Proof.
  intros env user query serverDB st Hserver. split.
  - revert st. change (preserves sameData (pullFromCloud env)).
    pose proof sameData_refl as Hrefl. pose proof sameData_trans as Htrans.
    assert (Hreq : forall st n, sameData st (withRequests st n))
      by (intros st n; exact (sameData_refl st)).
    assert (Hflag : forall st b, sameData st (withIsSyncing st b))
      by (intros st b; exact (sameData_refl st)).
    unfold pullFromCloud.
    apply preserves_bind; [exact Htrans | apply preserves_getState, Hrefl | intros st].
    destruct (isSyncing st); [apply preserves_ret, Hrefl |].
    apply preserves_bind; [exact Htrans | apply preserves_getSetting; assumption |].
    intros isPremium.
    apply preserves_bind; [exact Htrans | apply preserves_getSetting; assumption |].
    intros token.
    destruct (_ || _); [apply preserves_ret, Hrefl |].
    apply preserves_bind; [exact Htrans | apply preserves_getSetting; assumption |].
    intros lastPullAt.
    apply preserves_bind; [exact Htrans | apply preserves_setIsSyncing, Hflag | intros _].
    apply preserves_tryFinally; [exact Htrans | | apply preserves_setIsSyncing, Hflag].
    apply preserves_tryCatch; [exact Htrans | | intros e; apply preserves_ret, Hrefl].
    destruct (pullResponse env _) as [message | status body] eqn:Hresp;
      [apply preserves_throw, Hrefl |].
    destruct (negb (ok status)); [apply preserves_throw, Hrefl |].
    destruct body as [cloudData |]; [| apply preserves_throw, Hrefl].
    rewrite Hserver in Hresp.
    apply preserves_bind; [exact Htrans | | intros imported].
    + intros st'. rewrite mergeStores_nothing; [apply Hrefl |].
      intros s. exact (pullAnswer_rows _ _ _ s Hresp).
    + apply preserves_bind; [exact Htrans | apply sameData_setSetting | intros _].
      apply preserves_ret, Hrefl.
  - intros imported. unfold pullFromCloud. intros H.
    apply bind_returns in H as (st0 & st0' & _ & H).
    destruct (isSyncing st0); [discriminate H |].
    apply bind_returns in H as (isPremium & st1 & _ & H).
    apply bind_returns in H as (token & st2 & _ & H).
    destruct (_ || _); [discriminate H |].
    apply bind_returns in H as (lastPullAt & st3 & _ & H).
    apply bind_returns in H as (u & st4 & _ & H).
    apply tryFinally_returns, tryCatch_imported in H.
    destruct (pullResponse env _) as [message | status body] eqn:Hresp;
      [discriminate H |].
    destruct (negb (ok status)); [discriminate H |].
    destruct body as [cloudData |]; [| discriminate H].
    rewrite Hserver in Hresp.
    apply bind_returns in H as (imported' & st5 & Hmerge & H).
    rewrite mergeStores_nothing in Hmerge
      by (intros s; exact (pullAnswer_rows _ _ _ s Hresp)).
    injection Hmerge as <- _.
    apply bind_returns in H as (v & st6 & _ & H).
    cbn in H. injection H as <-. reflexivity.
Qed.

(** The witness of X28: the client pulls from an endpoint that holds three
    projects of the user. *)
Lemma pull_from_the_endpoint_imports_nothing_witness :
  sameData (clientOf (Some queuedDB) 0)
    (snd (pullFromCloud (pullEndpoint 900 (Some "u1") Pull.afterThreePushes)
            (clientOf (Some queuedDB) 0))) /\
  (forall imported,
     fst (pullFromCloud (pullEndpoint 900 (Some "u1") Pull.afterThreePushes)
            (clientOf (Some queuedDB) 0)) = Return (PullSuccess imported) ->
     imported = noImport).
Proof.
  apply (pull_from_the_endpoint_imports_nothing
           (pullEndpoint 900 (Some "u1") Pull.afterThreePushes) (Some "u1") pullQuery
           Pull.afterThreePushes (clientOf (Some queuedDB) 0)).
  intros lastPullAt. reflexivity.
Defined.

(** X30.  The client sends the time of its last pull, in milliseconds, as
    [since], and the endpoint of [sync.ts] reads [since] as a sync version:
    once [lastCloudPullAt] holds a time beyond the range of the version
    column -- any time after January 1970 -- the endpoint answers 500, the
    pull fails with "HTTP 500" and leaves the database, [lastCloudPullAt]
    included, as it was; so the next pull fails in the same way. *)
Theorem endpoint_refuses_the_time_of_the_last_pull :
  forall (now : Z) (U : string) (serverDB : Server.DB) (st : State) (db : IDB)
         (t : Z),
    U <> "" ->
    database st = Some db -> isSyncing st = false -> pullEnabled db ->
    settings db !! "lastCloudPullAt" = Some (VNum t) ->
    Pull.maxInteger < t < 10 ^ 20 ->
    Pull.pull (Some U) (pullQuery (VNum t)) serverDB = Pull.PullFailed /\
    exists st',
      pullFromCloud (pullEndpoint now (Some U) serverDB) st
      = (Return (PullFailure "HTTP 500"), st') /\
      database st' = Some db /\
      isSyncing st' = false.
Proof.
  intros now U serverDB st db t HU Hdb Hflag Hen Hlast Ht.
  assert (Hpull : Pull.pull (Some U) (pullQuery (VNum t)) serverDB = Pull.PullFailed).
  { unfold Pull.pull. rewrite (PullSpec.given_nonempty U HU).
    cbn [pullQuery Pull.pullFor Pull.syncPullSchema Pull.q_projectId Pull.q_deviceId
         Pull.q_since Server.opt_ok andb negb Pull.given sinceOf].
    rewrite PullSpec.sinceVersion_toString10 by (unfold Pull.maxInteger in Ht; lia).
    destruct Ht as [Hbig _]. apply Z.ltb_lt in Hbig. rewrite Hbig. reflexivity. }
  split; [exact Hpull |].
  assert (Hsince : lastPullAtOf db = VNum t).
  { unfold lastPullAtOf. rewrite Hlast. cbn [or_null truthy].
    assert (Hnz : (t =? 0) = false)
      by (apply Z.eqb_neq; unfold Pull.maxInteger in Ht; lia).
    rewrite Hnz. cbn [negb truthy]. rewrite Hnz. reflexivity. }
  destruct (pullFromCloud_start (pullEndpoint now (Some U) serverDB) st db
              ltac:(intros n; reflexivity) Hdb Hflag Hen) as (st0 & Hdb0 & ->).
  rewrite Hsince.
  change (pullResponse (pullEndpoint now (Some U) serverDB) (VNum t))
    with (pullAnswer (Pull.pull (Some U) (pullQuery (VNum t)) serverDB)).
  rewrite Hpull.
  exists (withIsSyncing st0 false). split; [reflexivity |].
  split; [exact Hdb0 | reflexivity].
Qed.

(** The witness of X30: the client has pulled once, at a time of the year
    2023. *)
Lemma endpoint_refuses_the_time_of_the_last_pull_witness :
  exists st',
    pullFromCloud (pullEndpoint 1700000000900 (Some "u1") Pull.afterThreePushes)
      (clientOf
         (Some (withSettings queuedDB
                  (<["lastCloudPullAt" := VNum 1700000000000]> (settings queuedDB))))
         0)
    = (Return (PullFailure "HTTP 500"), st') /\
    isSyncing st' = false.
Proof.
  destruct (endpoint_refuses_the_time_of_the_last_pull 1700000000900 "u1"
              Pull.afterThreePushes
              (clientOf
                 (Some (withSettings queuedDB
                          (<["lastCloudPullAt" := VNum 1700000000000]>
                             (settings queuedDB))))
                 0)
              (withSettings queuedDB
                 (<["lastCloudPullAt" := VNum 1700000000000]> (settings queuedDB)))
              1700000000000)
    as (_ & st' & Hrun & _ & Hflag).
  - discriminate.
  - reflexivity.
  - reflexivity.
  - split; vm_compute; reflexivity.
  - vm_compute. reflexivity.
  - unfold Pull.maxInteger. lia.
  - exists st'. split; [exact Hrun | exact Hflag].
Defined.

(** ** Settings *)

(** X27.  A setting that is stored is read back -- from IndexedDB, or from
    [chrome.storage.local] when IndexedDB is not available -- unless it is
    falsy: [false], [0] and the empty string are read back as [null].
    Storing a setting leaves the other settings, the records and the sync
    queue as they were.  (Storage requests succeed.) *)
Theorem settings_round_trip :
  forall (env : Env) (st : State) (key : string) (value : Value),
    noFailures env ->
    let st1 := snd (setSetting env key value st) in
    fst (setSetting env key value st) = Return value /\
    fst (getSetting env key st1) = Return (if truthy value then value else VNull) /\
    (forall key', key' <> key ->
       fst (getSetting env key' st1) = fst (getSetting env key' st)) /\
    (forall s k, recordOf st1 s k = recordOf st s k) /\
    queueOf st1 = queueOf st.
Proof.
  intros env st key value Hnf st1. subst st1.
  assert (Hget : forall k s,
            fst (getSetting env k s) = Return (or_null (settingOf s k))).
  { intros k s. unfold getSetting, bind, initDB, request, getState, ret, settingOf.
    rewrite Hnf. destruct (database s) as [db |] eqn:Hs; cbn; try rewrite Hs;
      reflexivity. }
  assert (Hset : fst (setSetting env key value st) = Return value /\
                 (forall k, settingOf (snd (setSetting env key value st)) k
                            = if String.eqb key k then Some value else settingOf st k) /\
                 (forall s k, recordOf (snd (setSetting env key value st)) s k
                              = recordOf st s k) /\
                 queueOf (snd (setSetting env key value st)) = queueOf st).
  { unfold setSetting, bind, initDB, request, settingOf, recordOf, queueOf.
    rewrite Hnf. destruct (database st) as [db |] eqn:Hs; cbn.
    - split; [reflexivity |]. split; [| split; [| reflexivity]].
      + intros k. destruct (String.eqb_spec key k) as [-> | Hne].
        * apply lookup_insert_eq.
        * apply lookup_insert_ne. exact Hne.
      + intros s k. apply (f_equal (fun m => m !! k)), objectStore_withSettings.
    - try rewrite Hs. split; [reflexivity |]. split; [| split; reflexivity].
      intros k. destruct (String.eqb_spec key k) as [-> | Hne].
      + apply lookup_insert_eq.
      + apply lookup_insert_ne. exact Hne. }
  destruct Hset as (Hret & Hsettings & Hrecords & Hqueue).
  split; [exact Hret |]. split; [| split; [| split; assumption]].
  - rewrite Hget, Hsettings, String.eqb_refl. reflexivity.
  - intros key' Hne. rewrite !Hget, Hsettings.
    destruct (String.eqb_spec key key') as [-> | _]; [congruence | reflexivity].
Qed.

Lemma settings_round_trip_witness :
  fst (getSetting acceptingServer "cloudSyncEnabled"
         (snd (setSetting acceptingServer "cloudSyncEnabled" (VBool false)
                 (clientOf (Some queuedDB) 0))))
  = Return VNull.
Proof.
  destruct (settings_round_trip acceptingServer (clientOf (Some queuedDB) 0)
              "cloudSyncEnabled" (VBool false)) as (_ & Hget & _).
  - intros n. reflexivity.
  - exact Hget.
Defined.

End SyncSpec.

(* ================================================================== *)
(** * Properties of fingerprints, duplicate checks and search           *)
(* ================================================================== *)

Module FinderSpec.
Import JS JSFacts Dedup Search Finder.

(** ** The fingerprint *)

Lemma toInt32_shift z : exists k, toInt32 z = z + k * 2 ^ 32.
Proof.
  unfold toInt32. exists (- ((z + 2 ^ 31) / 2 ^ 32)).
  pose proof (Z.div_mod (z + 2 ^ 31) (2 ^ 32) ltac:(lia)). lia.
Qed.

Lemma toInt32_plus z k : toInt32 (z + k * 2 ^ 32) = toInt32 z.
Proof.
  unfold toInt32. replace (z + k * 2 ^ 32 + 2 ^ 31) with (z + 2 ^ 31 + k * 2 ^ 32) by lia.
  rewrite Z_mod_plus_full. reflexivity.
Qed.

Lemma toInt32_range z : - 2 ^ 31 <= toInt32 z < 2 ^ 31.
Proof.
  unfold toInt32. pose proof (Z.mod_pos_bound (z + 2 ^ 31) (2 ^ 32) ltac:(lia)). lia.
Qed.

Lemma hashStep_arith h c h' k :
  h = h' + k * 2 ^ 32 -> hashStep h c = toInt32 (31 * h' + charCode c).
Proof.
  intros ->. unfold hashStep, band, shl. rewrite Z.land_diag.
  rewrite Z.shiftl_mul_pow2 by lia.
  destruct (toInt32_shift (h' + k * 2 ^ 32)) as [k1 ->].
  destruct (toInt32_shift ((h' + k * 2 ^ 32 + k1 * 2 ^ 32) * 2 ^ 5)) as [k2 ->].
  match goal with |- toInt32 (toInt32 ?X) = _ =>
    destruct (toInt32_shift X) as [k3 ->] end.
  rewrite <- (toInt32_plus (31 * h' + charCode c) (32 * k + 32 * k1 + k2 - k + k3)).
  f_equal. lia.
Qed.

Lemma hashLoop_arith str : forall h h' k,
  h = h' + k * 2 ^ 32 -> str <> "" ->
  hashLoop h str = toInt32 (polynomial31 h' str).
Proof.
  induction str as [| c str IH]; intros h h' k Hh Hne; [congruence |].
  cbn [hashLoop polynomial31].
  destruct str as [| d str].
  - cbn [hashLoop polynomial31]. eapply hashStep_arith, Hh.
  - destruct (toInt32_shift (31 * h' + charCode c)) as [k1 Hk1].
    apply (IH _ _ k1); [| discriminate].
    rewrite (hashStep_arith h c h' k Hh). exact Hk1.
Qed.

(** X14.  The loop of [hashContent] computes the polynomial hash in 31 of
    the character codes, wrapped to a signed 32-bit integer: the shift, the
    subtraction and the [hash & hash] of every round amount to
    [31 * hash + char] modulo 2^32.  The hash is therefore always a 32-bit
    integer, and two non-empty contents whose polynomials agree modulo 2^32
    have the same fingerprint. *)
Theorem hashContent_is_polynomial_hash :
  forall content : string,
    hashLoop 0 content = toInt32 (polynomial31 0 content) /\
    - 2 ^ 31 <= hashLoop 0 content < 2 ^ 31 /\
    hashContent content
    = (if isEmpty content then "" else toString16 (toInt32 (polynomial31 0 content))) /\
    (forall other : string,
       content <> "" -> other <> "" ->
       (polynomial31 0 content) mod 2 ^ 32 = (polynomial31 0 other) mod 2 ^ 32 ->
       hashContent content = hashContent other).
Proof.
  intros content.
  assert (Hloop : forall s, hashLoop 0 s = toInt32 (polynomial31 0 s)).
  { intros s. destruct s as [| c s]; [reflexivity |].
    apply (hashLoop_arith _ 0 0 0); [reflexivity | discriminate]. }
  split; [apply Hloop |]. split; [rewrite Hloop; apply toInt32_range |].
  split.
  - unfold hashContent. rewrite Hloop. reflexivity.
  - intros other Hc Ho Hmod. unfold hashContent.
    destruct content; [congruence |]. destruct other; [congruence |].
    cbn [isEmpty]. rewrite !Hloop. f_equal.
    unfold toInt32. rewrite <- Zplus_mod_idemp_l, Hmod, Zplus_mod_idemp_l.
    reflexivity.
Qed.

Lemma hashContent_is_polynomial_hash_witness :
  hashContent "Aa" = hashContent "BB".
Proof.
  destruct (hashContent_is_polynomial_hash "Aa") as (_ & _ & _ & Hsame).
  apply Hsame; [discriminate | discriminate | reflexivity].
Defined.

(** ** The duplicate checks *)

Lemma getByProjectId_elem {A} (projectIdOf : A -> string) store projectId x :
  x ∈ getByProjectId projectIdOf store projectId <->
  x ∈ store /\ projectIdOf x = projectId.
Proof.
  unfold getByProjectId. rewrite elem_of_List_filter, String.eqb_eq. reflexivity.
Qed.

Lemma scanSnippets_first code hashNew snippets :
  (scanSnippets (normalizeContent code) hashNew snippets = notDuplicate /\
   Forall (fun x => snippetHash x <> hashNew /\ (snippetJ code x <= 8 # 10)%Q) snippets)
  \/
  exists pre e post,
    snippets = (pre ++ e :: post)%list /\
    Forall (fun x => snippetHash x <> hashNew /\ (snippetJ code x <= 8 # 10)%Q) pre /\
    ((snippetHash e = hashNew /\
      scanSnippets (normalizeContent code) hashNew snippets = exactMatch e) \/
     (snippetHash e <> hashNew /\ (8 # 10 < snippetJ code e)%Q /\
      scanSnippets (normalizeContent code) hashNew snippets
      = similarMatch (snippetJ code e) e)).
Proof.
  induction snippets as [| x rest IH]; [left; split; [reflexivity | constructor] |].
  cbn [scanSnippets]. fold (snippetHash x). fold (snippetJ code x).
  destruct (String.eqb hashNew (snippetHash x)) eqn:Hh.
  - apply String.eqb_eq in Hh. right. exists [], x, rest.
    split; [reflexivity |]. split; [constructor |]. left. auto.
  - apply String.eqb_neq in Hh.
    destruct (Qgtb (snippetJ code x) (8 # 10)) eqn:Hq.
    + apply Qgtb_true in Hq. right. exists [], x, rest.
      split; [reflexivity |]. split; [constructor |]. right. auto.
    + apply Qgtb_false in Hq.
      destruct IH as [[Hnone Hall] | (pre & e & post & -> & Hpre & Hcase)].
      * left. split; [exact Hnone |]. constructor; [split; [congruence | exact Hq] | exact Hall].
      * right. exists (x :: pre), e, post. split; [reflexivity |].
        split; [constructor; [split; [congruence | exact Hq] | exact Hpre] | exact Hcase].
Qed.

Lemma scanKnowledge_first answer combinedHash knowledge :
  (scanKnowledge (normalizeContent answer) combinedHash knowledge = notDuplicate /\
   Forall (fun x => knowledgeHash x <> combinedHash /\ (answerJ answer x <= 85 # 100)%Q)
     knowledge)
  \/
  exists pre e post,
    knowledge = (pre ++ e :: post)%list /\
    Forall (fun x => knowledgeHash x <> combinedHash /\ (answerJ answer x <= 85 # 100)%Q)
      pre /\
    ((knowledgeHash e = combinedHash /\
      scanKnowledge (normalizeContent answer) combinedHash knowledge = exactMatch e) \/
     (knowledgeHash e <> combinedHash /\ (85 # 100 < answerJ answer e)%Q /\
      scanKnowledge (normalizeContent answer) combinedHash knowledge
      = similarMatch (answerJ answer e) e)).
Proof.
  induction knowledge as [| x rest IH]; [left; split; [reflexivity | constructor] |].
  cbn [scanKnowledge]. fold (knowledgeHash x). fold (answerJ answer x).
  destruct (String.eqb combinedHash (knowledgeHash x)) eqn:Hh.
  - apply String.eqb_eq in Hh. right. exists [], x, rest.
    split; [reflexivity |]. split; [constructor |]. left. auto.
  - apply String.eqb_neq in Hh.
    destruct (Qgtb (answerJ answer x) (85 # 100)) eqn:Hq.
    + apply Qgtb_true in Hq. right. exists [], x, rest.
      split; [reflexivity |]. split; [constructor |]. right. auto.
    + apply Qgtb_false in Hq.
      destruct IH as [[Hnone Hall] | (pre & e & post & -> & Hpre & Hcase)].
      * left. split; [exact Hnone |]. constructor; [split; [congruence | exact Hq] | exact Hall].
      * right. exists (x :: pre), e, post. split; [reflexivity |].
        split; [constructor; [split; [congruence | exact Hq] | exact Hpre] | exact Hcase].
Qed.

(** X15.  [findDuplicateSnippet] reports the first snippet of the project,
    in the order of the index, that has the fingerprint of the new code or a
    similarity above 0.8 -- as exact in the first case, as similar in the
    second -- and never a snippet of another project; it reports no
    duplicate exactly when the project has no such snippet. *)
Theorem findDuplicateSnippet_reports_first_match :
  forall (store : list Snippet) (code projectId : string),
    let r := findDuplicateSnippet store code projectId in
    let hashNew := hashContent (normalizeContent code) in
    (isDuplicate r = false <->
     forall e, e ∈ store -> sn_projectId e = projectId ->
               snippetHash e <> hashNew /\ (snippetJ code e <= 8 # 10)%Q) /\
    (isDuplicate r = true ->
     exists pre e post,
       getByProjectId sn_projectId store projectId = (pre ++ e :: post)%list /\
       existingItem r = Some e /\ e ∈ store /\ sn_projectId e = projectId /\
       Forall (fun x => snippetHash x <> hashNew /\ (snippetJ code x <= 8 # 10)%Q) pre /\
       ((matchType r = Some exact /\ snippetHash e = hashNew) \/
        (matchType r = Some similar /\ snippetHash e <> hashNew /\
         (8 # 10 < snippetJ code e)%Q))).
Proof.
  intros store code projectId r hashNew. subst r hashNew.
  unfold findDuplicateSnippet.
  set (snippets := getByProjectId sn_projectId store projectId).
  set (hashNew := hashContent (normalizeContent code)).
  destruct (scanSnippets_first code hashNew snippets)
    as [[-> Hall] | (pre & e & post & Hsplit & Hpre & Hcase)].
  - split; [| discriminate]. split; [| reflexivity].
    intros _ e He Hp. rewrite Forall_forall in Hall. apply Hall.
    apply getByProjectId_elem. auto.
  - assert (He : e ∈ snippets).
    { rewrite Hsplit. apply elem_of_app. right. apply elem_of_cons. auto. }
    apply getByProjectId_elem in He as [Hstore Hproj].
    split.
    + split.
      * destruct Hcase as [[_ ->] | (_ & _ & ->)]; discriminate.
      * intros Hnone. destruct (Hnone e Hstore Hproj) as [Hh Hj].
        destruct Hcase as [[Heq _] | (_ & Hgt & _)]; [contradiction |].
        exfalso. apply (Qlt_not_le _ _ Hgt Hj).
    + intros _. exists pre, e, post. split; [exact Hsplit |].
      destruct Hcase as [[Heq ->] | (Hne & Hgt & ->)];
        (split; [reflexivity |]); (split; [exact Hstore |]);
        (split; [exact Hproj |]); (split; [exact Hpre |]); [left | right]; auto.
Qed.

(** X16.  [findDuplicateKnowledge] reports the first item of the project
    that has the fingerprint of the new question and answer together, or
    whose answer has a similarity above 0.85 to the new answer -- the
    question plays no part in the similarity --, and never an item of
    another project; it reports no duplicate exactly when the project has
    no such item. *)
Theorem findDuplicateKnowledge_reports_first_match :
  forall (store : list Knowledge) (question answer projectId : string),
    let r := findDuplicateKnowledge store question answer projectId in
    let combinedHash :=
      hashContent (normalizeContent question ++ normalizeContent answer) in
    (isDuplicate r = false <->
     forall e, e ∈ store -> kn_projectId e = projectId ->
               knowledgeHash e <> combinedHash /\ (answerJ answer e <= 85 # 100)%Q) /\
    (isDuplicate r = true ->
     exists pre e post,
       getByProjectId kn_projectId store projectId = (pre ++ e :: post)%list /\
       existingItem r = Some e /\ e ∈ store /\ kn_projectId e = projectId /\
       Forall (fun x => knowledgeHash x <> combinedHash
                        /\ (answerJ answer x <= 85 # 100)%Q) pre /\
       ((matchType r = Some exact /\ knowledgeHash e = combinedHash) \/
        (matchType r = Some similar /\ knowledgeHash e <> combinedHash /\
         (85 # 100 < answerJ answer e)%Q))).
Proof.
  intros store question answer projectId r combinedHash. subst r combinedHash.
  unfold findDuplicateKnowledge.
  set (knowledge := getByProjectId kn_projectId store projectId).
  set (combinedHash := hashContent (normalizeContent question ++ normalizeContent answer)).
  destruct (scanKnowledge_first answer combinedHash knowledge)
    as [[-> Hall] | (pre & e & post & Hsplit & Hpre & Hcase)].
  - split; [| discriminate]. split; [| reflexivity].
    intros _ e He Hp. rewrite Forall_forall in Hall. apply Hall.
    apply getByProjectId_elem. auto.
  - assert (He : e ∈ knowledge).
    { rewrite Hsplit. apply elem_of_app. right. apply elem_of_cons. auto. }
    apply getByProjectId_elem in He as [Hstore Hproj].
    split.
    + split.
      * destruct Hcase as [[_ ->] | (_ & _ & ->)]; discriminate.
      * intros Hnone. destruct (Hnone e Hstore Hproj) as [Hh Hj].
        destruct Hcase as [[Heq _] | (_ & Hgt & _)]; [contradiction |].
        exfalso. apply (Qlt_not_le _ _ Hgt Hj).
    + intros _. exists pre, e, post. split; [exact Hsplit |].
      destruct Hcase as [[Heq ->] | (Hne & Hgt & ->)];
        (split; [reflexivity |]); (split; [exact Hstore |]);
        (split; [exact Hproj |]); (split; [exact Hpre |]); [left | right]; auto.
Qed.

Lemma findDuplicateSnippet_reports_first_match_witness :
  exists pre e post,
    getByProjectId sn_projectId [snippetLong; snippetShort] "P"
    = (pre ++ e :: post)%list /\
    existingItem checkAgain = Some e /\ e ∈ [snippetLong; snippetShort] /\
    sn_projectId e = "P".
Proof.
  destruct (findDuplicateSnippet_reports_first_match [snippetLong; snippetShort]
              "  AAA  bbb ccc ddd eee " "P") as [_ Hdup].
  destruct (Hdup ltac:(vm_compute; reflexivity))
    as (pre & e & post & Hsplit & Hitem & Hstore & Hproj & _).
  exists pre, e, post. auto.
Defined.

Lemma findDuplicateKnowledge_reports_first_match_witness :
  exists pre e post,
    getByProjectId kn_projectId [seventeenWords] "P" = (pre ++ e :: post)%list /\
    existingItem (findDuplicateKnowledge [seventeenWords] "how?" seventeen "P")
    = Some e /\
    kn_projectId e = "P".
Proof.
  destruct (findDuplicateKnowledge_reports_first_match [seventeenWords]
              "how?" seventeen "P") as [_ Hdup].
  destruct (Hdup ltac:(vm_compute; reflexivity))
    as (pre & e & post & Hsplit & Hitem & _ & Hproj & _).
  exists pre, e, post. auto.
Defined.

(** ** The similarity of two contents *)

Lemma Set_add_NoDup acc x : NoDup acc -> NoDup (Set_add acc x).
Proof.
  intros Hnd. unfold Set_add. case_bool_decide as Hx; [exact Hnd |].
  apply NoDup_app. split; [exact Hnd |]. split; [| apply NoDup_singleton].
  intros y Hy Hy'. apply list_elem_of_singleton in Hy'. congruence.
Qed.

Lemma Set_of_NoDup l : NoDup (Set_of l).
Proof.
  unfold Set_of.
  assert (H : forall acc, NoDup acc -> NoDup (fold_left Set_add l acc)).
  { induction l as [| x l IH]; intros acc Hacc; simpl; [exact Hacc |].
    apply IH, Set_add_NoDup, Hacc. }
  apply H, NoDup_nil_2.
Qed.

Lemma Set_of_length_same l k :
  (forall x, x ∈ l <-> x ∈ k) -> length (Set_of l) = length (Set_of k).
Proof.
  intros H. apply Permutation_length.
  apply NoDup_Permutation; [apply Set_of_NoDup | apply Set_of_NoDup |].
  intros x. rewrite !Set_of_elem. apply H.
Qed.

Lemma Set_of_length_le l k :
  (forall x, x ∈ l -> x ∈ k) -> (length (Set_of l) <= length (Set_of k))%nat.
Proof.
  intros H. apply submseteq_length, NoDup_submseteq; [apply Set_of_NoDup |].
  intros x. rewrite !Set_of_elem. apply H.
Qed.

Lemma Set_of_fixed l : NoDup l -> Set_of l = l.
Proof.
  unfold Set_of.
  assert (H : forall acc, NoDup (acc ++ l) -> fold_left Set_add l acc = (acc ++ l)%list).
  { induction l as [| x l IH]; intros acc Hnd; simpl.
    - rewrite app_nil_r. reflexivity.
    - replace (acc ++ x :: l)%list with ((acc ++ [x]) ++ l)%list in *
        by (rewrite <- app_assoc; reflexivity).
      rewrite <- IH by exact Hnd. f_equal.
      unfold Set_add. rewrite bool_decide_eq_false_2; [reflexivity |].
      apply NoDup_app in Hnd as [Hnd _]. apply NoDup_app in Hnd as (_ & Hx & _).
      intros Hin. apply (Hx x Hin). apply list_elem_of_singleton. reflexivity. }
  intros Hnd. apply (H []). exact Hnd.
Qed.

Lemma Pos_of_nat_Z n : (0 < n)%nat -> Z.pos (Pos.of_nat n) = Z.of_nat n.
Proof.
  intros Hn. rewrite <- positive_nat_Z. rewrite Nat2Pos.id by lia. reflexivity.
Qed.

(** The value of [calculateSimilarity] on two contents that both have a
    counted word. *)
Lemma calculateSimilarity_value str1 str2 :
  wordsOf str1 <> [] -> wordsOf str2 <> [] ->
  calculateSimilarity str1 str2
  = (Z.of_nat (length (Set_of (List.filter (Set_has (wordsOf str2)) (wordsOf str1))))
     # Pos.of_nat (length (Set_of (wordsOf str1 ++ wordsOf str2)%list)))%Q.
Proof.
  intros H1 H2. unfold calculateSimilarity. fold (wordsOf str1). fold (wordsOf str2).
  destruct str1 as [| c1 s1]; [exfalso; apply H1; reflexivity |].
  destruct str2 as [| c2 s2]; [exfalso; apply H2; reflexivity |].
  cbn [isEmpty orb].
  destruct (wordsOf (String c1 s1)) as [| w1 l1]; [congruence |].
  destruct (wordsOf (String c2 s2)) as [| w2 l2]; [congruence |].
  reflexivity.
Qed.

Lemma calculateSimilarity_zero str1 str2 :
  wordsOf str1 = [] \/ wordsOf str2 = [] -> calculateSimilarity str1 str2 = 0%Q.
Proof.
  intros H. unfold calculateSimilarity. fold (wordsOf str1). fold (wordsOf str2).
  destruct (isEmpty str1 || isEmpty str2); [reflexivity |].
  destruct H as [-> | ->]; [reflexivity |]. rewrite orb_true_r. reflexivity.
Qed.

(** X17.  [calculateSimilarity] is a Jaccard index: it lies between 0 and
    1, it does not depend on the order of its two arguments, it is 1 for two
    contents with the same non-empty set of counted words (words of more
    than two characters), and 0 when either has no such word. *)
Theorem calculateSimilarity_is_jaccard :
  forall str1 str2 : string,
    (0 <= calculateSimilarity str1 str2 <= 1)%Q /\
    calculateSimilarity str1 str2 = calculateSimilarity str2 str1 /\
    (wordsOf str1 <> [] ->
     (forall w, w ∈ wordsOf str1 <-> w ∈ wordsOf str2) ->
     (calculateSimilarity str1 str2 == 1)%Q) /\
    (wordsOf str1 = [] \/ wordsOf str2 = [] -> calculateSimilarity str1 str2 = 0%Q).
Proof.
  intros str1 str2.
  destruct (wordsOf str1) as [| a1 l1] eqn:H1.
  { rewrite !calculateSimilarity_zero by auto.
    split; [split; apply Qle_refl || discriminate |].
    split; [reflexivity |]. split; [congruence | reflexivity]. }
  destruct (wordsOf str2) as [| a2 l2] eqn:H2.
  { rewrite !calculateSimilarity_zero by auto.
    split; [split; apply Qle_refl || discriminate |].
    split; [reflexivity |]. split; [| reflexivity].
    intros _ Hsame. exfalso.
    assert (Ha : a1 ∈ a1 :: l1) by (apply elem_of_cons; auto).
    apply Hsame in Ha. apply elem_of_nil in Ha. exact Ha. }
  rewrite <- H1, <- H2.
  assert (Hne1 : wordsOf str1 <> []) by congruence.
  assert (Hne2 : wordsOf str2 <> []) by congruence.
  rewrite (calculateSimilarity_value str1 str2 Hne1 Hne2).
  rewrite (calculateSimilarity_value str2 str1 Hne2 Hne1).
  set (w1 := wordsOf str1) in *. set (w2 := wordsOf str2) in *.
  assert (Hunion : (0 < length (Set_of (w1 ++ w2)%list))%nat).
  { destruct (Set_of (w1 ++ w2)%list) as [| u us] eqn:Hu; [| simpl; lia].
    exfalso. assert (Ha : a1 ∈ Set_of (w1 ++ w2)%list).
    { apply Set_of_elem, elem_of_app. left. rewrite H1. apply elem_of_cons. auto. }
    rewrite Hu in Ha. apply elem_of_nil in Ha. exact Ha. }
  assert (Hle : (length (Set_of (List.filter (Set_has w2) w1))
                 <= length (Set_of (w1 ++ w2)%list))%nat).
  { apply Set_of_length_le. intros x Hx.
    apply elem_of_List_filter in Hx as [Hx _]. apply elem_of_app. auto. }
  split; [| split; [| split]].
  - unfold Qle. cbn [Qnum Qden]. rewrite (Pos_of_nat_Z _ Hunion). split; lia.
  - f_equal.
    + f_equal. apply Set_of_length_same. intros x.
      rewrite !elem_of_List_filter. unfold Set_has.
      rewrite !bool_decide_eq_true. tauto.
    + f_equal. apply Set_of_length_same. intros x. rewrite !elem_of_app. tauto.
  - intros _ Hsame. unfold Qeq. cbn [Qnum Qden]. rewrite (Pos_of_nat_Z _ Hunion).
    rewrite Z.mul_1_r, Z.mul_1_l. f_equal. apply Set_of_length_same. intros x.
    rewrite elem_of_List_filter, elem_of_app. unfold Set_has.
    rewrite bool_decide_eq_true. destruct (Hsame x) as [Hs1 Hs2].
    split; [intros [Ha _]; left; exact Ha | intros [Ha | Ha]; auto].
  - intros [H | H]; congruence.
Qed.

Lemma calculateSimilarity_is_jaccard_witness :
  (calculateSimilarity "aaa bbb ccc" "ccc aaa bbb aaa" == 1)%Q.
Proof.
  destruct (calculateSimilarity_is_jaccard "aaa bbb ccc" "ccc aaa bbb aaa")
    as (_ & _ & Hone & _).
  apply Hone; [discriminate |].
  intros w. vm_compute wordsOf. rewrite !elem_of_cons, !elem_of_nil. tauto.
Defined.

(** ** Normalization *)

Lemma isSpace_toLowerChar c : isSpace (toLowerChar c) = isSpace c.
Proof. destruct c as [[] [] [] [] [] [] [] []]; reflexivity. Qed.

Lemma toLowerChar_idem c : toLowerChar (toLowerChar c) = toLowerChar c.
Proof. destruct c as [[] [] [] [] [] [] [] []]; reflexivity. Qed.

Lemma toLowerCase_idem s : toLowerCase (toLowerCase s) = toLowerCase s.
Proof.
  unfold toLowerCase. induction s as [| c s IH]; simpl; [reflexivity |].
  rewrite toLowerChar_idem, IH. reflexivity.
Qed.

Lemma toLowerCase_collapseSpaces s : forall inRun,
  toLowerCase (collapseSpaces inRun s) = collapseSpaces inRun (toLowerCase s).
Proof.
  unfold toLowerCase. induction s as [| c s IH]; intros inRun; simpl; [reflexivity |].
  rewrite isSpace_toLowerChar. destruct (isSpace c).
  - destruct inRun; simpl; rewrite IH; reflexivity.
  - simpl. rewrite IH. reflexivity.
Qed.

Lemma collapseSpaces_inRun z :
  startsWithSpace z = false -> collapseSpaces true z = collapseSpaces false z.
Proof.
  destruct z as [| c z]; simpl; [reflexivity |]. intros ->. reflexivity.
Qed.

Lemma collapseSpaces_idem s : forall inRun,
  collapseSpaces false (collapseSpaces inRun s) = collapseSpaces inRun s /\
  (inRun = true -> startsWithSpace (collapseSpaces inRun s) = false).
Proof.
  induction s as [| c s IH]; intros inRun; simpl; [auto |].
  destruct (isSpace c) eqn:Hc.
  - destruct inRun.
    + apply IH.
    + split; [| discriminate]. simpl.
      destruct (IH true) as [Hfix Hstart].
      rewrite (collapseSpaces_inRun _ (Hstart eq_refl)), Hfix. reflexivity.
  - split; [| intros _; simpl; exact Hc]. simpl. rewrite Hc.
    destruct (IH false) as [Hfix _]. rewrite Hfix. reflexivity.
Qed.

Lemma trimStart_fixed z : startsWithSpace z = false -> trimStart z = z.
Proof. destruct z as [| c z]; simpl; [reflexivity |]. intros ->. reflexivity. Qed.

Lemma startsWithSpace_trimStart s : startsWithSpace (trimStart s) = false.
Proof.
  induction s as [| c s IH]; simpl; [reflexivity |].
  destruct (isSpace c) eqn:Hc; [exact IH | simpl; exact Hc].
Qed.

Lemma startsWithSpace_trimEnd z :
  startsWithSpace z = false -> startsWithSpace (trimEnd z) = false.
Proof.
  destruct z as [| c z]; simpl; [reflexivity |]. intros Hc. rewrite Hc. exact Hc.
Qed.

Lemma startsWithSpace_toLowerCase z :
  startsWithSpace (toLowerCase z) = startsWithSpace z.
Proof. destruct z as [| c z]; simpl; [reflexivity | apply isSpace_toLowerChar]. Qed.

Lemma startsWithSpace_collapseSpaces z inRun :
  startsWithSpace z = false -> startsWithSpace (collapseSpaces inRun z) = false.
Proof.
  destruct z as [| c z]; simpl; [reflexivity |]. intros Hc. rewrite Hc. exact Hc.
Qed.

Lemma trimEnd_idem z : trimEnd (trimEnd z) = trimEnd z.
Proof.
  induction z as [| c z IH]; simpl; [reflexivity |].
  destruct (isSpace c && isEmpty (trimEnd z)) eqn:Hc; [reflexivity |].
  simpl. rewrite IH, Hc. reflexivity.
Qed.

Lemma isEmpty_toLowerCase z : isEmpty (toLowerCase z) = isEmpty z.
Proof. destruct z; reflexivity. Qed.

Lemma trimEnd_toLowerCase z : trimEnd (toLowerCase z) = toLowerCase (trimEnd z).
Proof.
  induction z as [| c z IH]; simpl; [reflexivity |].
  fold (toLowerCase z). rewrite IH, isSpace_toLowerChar, isEmpty_toLowerCase.
  destruct (isSpace c && isEmpty (trimEnd z)); reflexivity.
Qed.

Lemma trimEnd_cons c z :
  trimEnd (String c z) = String c z ->
  trimEnd z = z /\ (isSpace c = true -> z <> "").
Proof.
  simpl. destruct (isSpace c && isEmpty (trimEnd z)) eqn:Hc; [discriminate |].
  intros [= Hz]. split; [exact Hz |]. intros Hs Hempty.
  rewrite Hs, Hz, Hempty in Hc. discriminate.
Qed.

Lemma collapseSpaces_nonempty z : forall inRun,
  trimEnd z = z -> z <> "" -> collapseSpaces inRun z <> "".
Proof.
  induction z as [| c z IH]; intros inRun Hfix Hne; [congruence |].
  apply trimEnd_cons in Hfix as [Hz Hc]. simpl.
  destruct (isSpace c) eqn:Hs; [| discriminate].
  destruct inRun; [| discriminate]. apply IH; [exact Hz | apply Hc; reflexivity].
Qed.

Lemma trimEnd_collapseSpaces z : forall inRun,
  trimEnd z = z -> trimEnd (collapseSpaces inRun z) = collapseSpaces inRun z.
Proof.
  induction z as [| c z IH]; intros inRun Hfix; [reflexivity |].
  apply trimEnd_cons in Hfix as [Hz Hc]. simpl.
  destruct (isSpace c) eqn:Hs.
  - destruct inRun; [apply IH, Hz |].
    simpl. rewrite (IH true Hz).
    destruct (collapseSpaces true z) eqn:Hcol; [| reflexivity].
    exfalso. apply (collapseSpaces_nonempty z true Hz (Hc eq_refl)). exact Hcol.
  - simpl. rewrite Hs, (IH false Hz). reflexivity.
Qed.

Lemma normalizeContent_fixed content :
  normalizeContent (normalizeContent content) = normalizeContent content.
Proof.
  unfold normalizeContent at 2 3.
  destruct (isEmpty content); [reflexivity |].
  set (v := trim content).
  assert (Hstart : startsWithSpace v = false)
    by (apply startsWithSpace_trimEnd, startsWithSpace_trimStart).
  assert (Hend : trimEnd v = v) by apply trimEnd_idem.
  set (t := collapseSpaces false (toLowerCase v)).
  assert (Hstart' : startsWithSpace t = false).
  { apply startsWithSpace_collapseSpaces. rewrite startsWithSpace_toLowerCase.
    exact Hstart. }
  assert (Hend' : trimEnd t = t).
  { apply trimEnd_collapseSpaces. rewrite trimEnd_toLowerCase, Hend. reflexivity. }
  unfold normalizeContent. destruct (isEmpty t) eqn:Ht.
  - destruct t; [reflexivity | discriminate].
  - unfold trim. rewrite (trimStart_fixed t Hstart'), Hend'.
    unfold t at 1. rewrite toLowerCase_collapseSpaces, toLowerCase_idem.
    apply collapseSpaces_idem.
Qed.

(** X18.  Normalizing is idempotent: normalized content is left as it is.
    The duplicate checks therefore give the same answer for a content and
    for its normalized form. *)
Theorem normalizeContent_is_idempotent :
  forall content : string,
    normalized (normalizeContent content) /\
    (forall (store : list Snippet) (projectId : string),
       findDuplicateSnippet store (normalizeContent content) projectId
       = findDuplicateSnippet store content projectId) /\
    (forall (store : list Knowledge) (question projectId : string),
       findDuplicateKnowledge store (normalizeContent question)
         (normalizeContent content) projectId
       = findDuplicateKnowledge store question content projectId).
Proof.
  intros content. split; [apply normalizeContent_fixed |]. split.
  - intros store projectId. unfold findDuplicateSnippet.
    rewrite normalizeContent_fixed. reflexivity.
  - intros store question projectId. unfold findDuplicateKnowledge.
    rewrite !normalizeContent_fixed. reflexivity.
Qed.

(** ** Ranking *)

Lemma byScore_le {A} (score : A -> Z) x y :
  Qle_bool (byScore score x y) 0 = true <-> score y <= score x.
Proof.
  unfold byScore. rewrite Qle_bool_iff. unfold Qle. cbn. lia.
Qed.

Lemma insertByScore_sorted {A} (score : A -> Z) x l :
  descendingBy score l ->
  descendingBy score (Matcher.insertSorted (byScore score) x l).
Proof.
  unfold descendingBy. induction 1 as [| y l Hsorted IH Hy]; simpl.
  - repeat constructor.
  - destruct (Qle_bool (byScore score x y) 0) eqn:Hc.
    + apply byScore_le in Hc.
      constructor; [constructor; assumption |].
      constructor; [exact Hc |].
      rewrite Forall_forall in Hy |- *. intros z Hz. specialize (Hy z Hz). lia.
    + assert (Hxy : score x <= score y).
      { destruct (Z.le_gt_cases (score y) (score x)) as [Hle | Hgt]; [| lia].
        apply byScore_le in Hle. congruence. }
      constructor; [exact IH |].
      rewrite Forall_forall in Hy |- *. intros z Hz.
      apply list_elem_of_In, (Permutation_in _ (MatcherSpec.insertSorted_perm _ _ _)) in Hz.
      destruct Hz as [<- | Hz]; [exact Hxy | apply Hy, list_elem_of_In, Hz].
Qed.

Lemma sortByScore_sorted {A} (score : A -> Z) l :
  descendingBy score (sortByScore score l).
Proof.
  unfold sortByScore, Matcher.sort. induction l as [| x l IH]; simpl.
  - constructor.
  - apply insertByScore_sorted, IH.
Qed.

Lemma sortByScore_elem {A} (score : A -> Z) l x :
  x ∈ sortByScore score l <-> x ∈ l.
Proof.
  unfold sortByScore. rewrite !list_elem_of_In.
  split; apply Permutation_in; [| symmetry]; apply MatcherSpec.sort_perm.
Qed.

Lemma slice0_prefix {A} n (l : list A) : exists rest, l = (slice0 n l ++ rest)%list.
Proof.
  unfold slice0. destruct (n <? 0); eexists; symmetry; apply firstn_skipn.
Qed.

Lemma slice0_length {A} n (l : list A) :
  0 <= n -> Z.of_nat (length (slice0 n l)) <= n.
Proof.
  intros Hn. unfold slice0. destruct (Z.ltb_spec n 0); [lia |].
  rewrite length_firstn. lia.
Qed.

Lemma slice0_all {A} n (l : list A) :
  Z.of_nat (length l) <= n -> slice0 n l = l.
Proof.
  intros Hn. unfold slice0. destruct (Z.ltb_spec n 0); [lia |].
  apply firstn_all2. lia.
Qed.

Lemma descendingBy_app {A} (score : A -> Z) l1 l2 :
  descendingBy score (l1 ++ l2) ->
  descendingBy score l1 /\
  forall h x, h ∈ l1 -> x ∈ l2 -> score x <= score h.
Proof.
  unfold descendingBy. induction l1 as [| y l1 IH]; simpl; intros Hs.
  - split; [constructor |]. intros h x Hh. apply elem_of_nil in Hh. contradiction.
  - apply StronglySorted_inv in Hs as [Hs Hy]. destruct (IH Hs) as [Hs1 Hle].
    split.
    + constructor; [exact Hs1 |]. rewrite Forall_forall in Hy |- *.
      intros z Hz. apply Hy, elem_of_app. auto.
    + intros h x Hh Hx. apply elem_of_cons in Hh as [-> | Hh]; [| apply Hle; assumption].
      rewrite Forall_forall in Hy. apply Hy, elem_of_app. auto.
Qed.

(** What [filter], [sort] and [slice] make of the scored records: the best
    of those that reach the minimal score, best first. *)
Lemma ranked {A} (score : A -> Z) (limit minScore : Z) (l : list A) :
  let r := slice0 limit
             (sortByScore score (List.filter (fun x => score x >=? minScore) l)) in
  (forall h, h ∈ r -> h ∈ l /\ minScore <= score h) /\
  descendingBy score r /\
  (0 <= limit -> Z.of_nat (length r) <= limit) /\
  (forall x, x ∈ l -> minScore <= score x ->
     x ∈ r \/ forall h, h ∈ r -> score x <= score h) /\
  (Z.of_nat (length l) <= limit -> forall x, x ∈ l -> minScore <= score x -> x ∈ r) /\
  (forall x, x ∈ l -> minScore <= score x -> 0 <= limit ->
     x ∈ r \/ Z.of_nat (length r) = limit).
Proof.
  intros r. subst r.
  set (kept := List.filter (fun x => score x >=? minScore) l).
  set (sorted := sortByScore score kept).
  destruct (slice0_prefix limit sorted) as [rest Hsplit].
  pose proof (sortByScore_sorted score kept) as Hsorted. fold sorted in Hsorted.
  rewrite Hsplit in Hsorted. apply descendingBy_app in Hsorted as [Hdesc Htop].
  assert (Hkept : forall x, x ∈ sorted <-> x ∈ l /\ minScore <= score x).
  { intros x. unfold sorted, kept.
    rewrite sortByScore_elem, elem_of_List_filter, Z.geb_le. reflexivity. }
  split; [| split; [exact Hdesc | split; [apply slice0_length | split; [| split]]]].
  - intros h Hh. apply Hkept. rewrite Hsplit. apply elem_of_app. auto.
  - intros x Hx Hmin.
    assert (Hin : x ∈ sorted) by (apply Hkept; auto).
    rewrite Hsplit in Hin. apply elem_of_app in Hin as [Hin | Hin]; [auto |].
    right. intros h Hh. apply Htop; assumption.
  - intros Hlen x Hx Hmin. rewrite slice0_all; [apply Hkept; auto |].
    unfold sorted, sortByScore.
    rewrite (Permutation_length (MatcherSpec.sort_perm _ _)).
    pose proof (filter_length_le (fun x => score x >=? minScore) l) as Hf.
    unfold kept. lia.
  - intros x Hx Hmin Hlimit.
    assert (Hin : x ∈ sorted) by (apply Hkept; auto).
    destruct (Z.le_gt_cases (Z.of_nat (length sorted)) limit) as [Hall | Hmore].
    + left. rewrite slice0_all by exact Hall. exact Hin.
    + right. unfold slice0. destruct (Z.ltb_spec limit 0); [lia |].
      rewrite length_firstn. lia.
Qed.

Lemma recordsOf_elem {A} (projectIdOf : A -> string) store projectId x :
  x ∈ recordsOf projectIdOf store projectId <->
  inScope projectIdOf store projectId x.
Proof.
  unfold recordsOf, inScope. destruct projectId as [p |].
  - destruct p as [| c p]; cbn [isEmpty].
    + split; [intros Hx; split; [exact Hx | intros q [= <-] Hq; congruence] | tauto].
    + rewrite getByProjectId_elem. split.
      * intros [Hx Hp]. split; [exact Hx | intros q [= <-] _; exact Hp].
      * intros [Hx Hp]. split; [exact Hx | apply Hp; [reflexivity | discriminate]].
  - split; [intros Hx; split; [exact Hx | intros q [=]] | tauto].
Qed.

Lemma searchSnippets_ranked store query projectId options :
  let r := searchSnippets store query projectId options in
  let top := orDefault (limit options) 20 in
  let least := orDefault (minScore options) 1 in
  (forall h, h ∈ r ->
     inScope sr_projectId store projectId (sh_snippet h) /\
     h = snippetHit query (sh_snippet h) /\ least <= sh_searchScore h) /\
  descendingBy sh_searchScore r /\
  (0 <= top -> Z.of_nat (length r) <= top) /\
  (forall s, inScope sr_projectId store projectId s ->
     least <= sh_searchScore (snippetHit query s) ->
     snippetHit query s ∈ r \/
     forall h, h ∈ r -> sh_searchScore (snippetHit query s) <= sh_searchScore h) /\
  (Z.of_nat (length store) <= top ->
   forall s, inScope sr_projectId store projectId s ->
     least <= sh_searchScore (snippetHit query s) -> snippetHit query s ∈ r) /\
  (forall s, inScope sr_projectId store projectId s ->
     least <= sh_searchScore (snippetHit query s) -> 0 <= top ->
     snippetHit query s ∈ r \/ Z.of_nat (length r) = top).
Proof.
  intros r top least. subst r top least. unfold searchSnippets.
  set (records := recordsOf sr_projectId store projectId).
  destruct (ranked sh_searchScore (orDefault (limit options) 20)
              (orDefault (minScore options) 1) (map (snippetHit query) records))
    as (Hin & Hdesc & Hlen & Htop & Hall & Hfull).
  assert (Hrec : forall s, inScope sr_projectId store projectId s ->
                           snippetHit query s ∈ map (snippetHit query) records).
  { intros s Hs. apply list_elem_of_fmap. exists s. split; [reflexivity |].
    apply recordsOf_elem, Hs. }
  split; [| split; [exact Hdesc | split; [exact Hlen | split; [| split]]]].
  - intros h Hh. destruct (Hin h Hh) as [Hmap Hmin].
    apply list_elem_of_fmap in Hmap as (s & -> & Hs).
    split; [apply recordsOf_elem, Hs | split; [reflexivity | exact Hmin]].
  - intros s Hs Hmin. apply Htop; [apply Hrec, Hs | exact Hmin].
  - intros Hsmall s Hs Hmin. apply Hall; [| apply Hrec, Hs | exact Hmin].
    rewrite length_map.
    assert (Hsub : (length records <= length store)%nat).
    { unfold records, recordsOf, getByProjectId.
      destruct projectId as [p |]; [| lia].
      destruct (isEmpty p); [lia | apply filter_length_le]. }
    lia.
  - intros s Hs Hmin Hlimit. apply Hfull; [apply Hrec, Hs | exact Hmin | exact Hlimit].
Qed.

Lemma searchKnowledge_ranked store query projectId options :
  let r := searchKnowledge store query projectId options in
  let top := orDefault (limit options) 20 in
  let least := orDefault (minScore options) 1 in
  (forall h, h ∈ r ->
     inScope kr_projectId store projectId (kh_item h) /\
     h = knowledgeHit query (kh_item h) /\ least <= kh_searchScore h) /\
  descendingBy kh_searchScore r /\
  (0 <= top -> Z.of_nat (length r) <= top) /\
  (forall k, inScope kr_projectId store projectId k ->
     least <= kh_searchScore (knowledgeHit query k) ->
     knowledgeHit query k ∈ r \/
     forall h, h ∈ r -> kh_searchScore (knowledgeHit query k) <= kh_searchScore h) /\
  (Z.of_nat (length store) <= top ->
   forall k, inScope kr_projectId store projectId k ->
     least <= kh_searchScore (knowledgeHit query k) -> knowledgeHit query k ∈ r) /\
  (forall k, inScope kr_projectId store projectId k ->
     least <= kh_searchScore (knowledgeHit query k) -> 0 <= top ->
     knowledgeHit query k ∈ r \/ Z.of_nat (length r) = top).
Proof.
  intros r top least. subst r top least. unfold searchKnowledge.
  set (records := recordsOf kr_projectId store projectId).
  destruct (ranked kh_searchScore (orDefault (limit options) 20)
              (orDefault (minScore options) 1) (map (knowledgeHit query) records))
    as (Hin & Hdesc & Hlen & Htop & Hall & Hfull).
  assert (Hrec : forall k, inScope kr_projectId store projectId k ->
                           knowledgeHit query k ∈ map (knowledgeHit query) records).
  { intros k Hk. apply list_elem_of_fmap. exists k. split; [reflexivity |].
    apply recordsOf_elem, Hk. }
  split; [| split; [exact Hdesc | split; [exact Hlen | split; [| split]]]].
  - intros h Hh. destruct (Hin h Hh) as [Hmap Hmin].
    apply list_elem_of_fmap in Hmap as (k & -> & Hk).
    split; [apply recordsOf_elem, Hk | split; [reflexivity | exact Hmin]].
  - intros k Hk Hmin. apply Htop; [apply Hrec, Hk | exact Hmin].
  - intros Hsmall k Hk Hmin. apply Hall; [| apply Hrec, Hk | exact Hmin].
    rewrite length_map.
    assert (Hsub : (length records <= length store)%nat).
    { unfold records, recordsOf, getByProjectId.
      destruct projectId as [p |]; [| lia].
      destruct (isEmpty p); [lia | apply filter_length_le]. }
    lia.
  - intros k Hk Hmin Hlimit. apply Hfull; [apply Hrec, Hk | exact Hmin | exact Hlimit].
Qed.

(** X19.  [searchSnippets] and [searchKnowledge] return the best hits, best
    first: every result is a record of the store (of the project, when one
    is given) with the score the three fields add up to, at least
    [minScore] (1 by default); the results are in descending order of
    score and at most [limit] (20 by default); a record that reaches
    [minScore] and is not returned scores no higher than any result; and
    when the store has no more than [limit] records, every record that
    reaches [minScore] is returned. *)
Theorem search_returns_the_best_hits :
  (forall (store : list SnippetRecord) (query : string)
          (projectId : option string) (options : Options),
     let r := searchSnippets store query projectId options in
     let top := orDefault (limit options) 20 in
     let least := orDefault (minScore options) 1 in
     (forall h, h ∈ r ->
        inScope sr_projectId store projectId (sh_snippet h) /\
        h = snippetHit query (sh_snippet h) /\ least <= sh_searchScore h) /\
     descendingBy sh_searchScore r /\
     (0 <= top -> Z.of_nat (length r) <= top) /\
     (forall s, inScope sr_projectId store projectId s ->
        least <= sh_searchScore (snippetHit query s) ->
        snippetHit query s ∈ r \/
        forall h, h ∈ r -> sh_searchScore (snippetHit query s) <= sh_searchScore h) /\
     (Z.of_nat (length store) <= top ->
      forall s, inScope sr_projectId store projectId s ->
        least <= sh_searchScore (snippetHit query s) -> snippetHit query s ∈ r))
  /\
  (forall (store : list KnowledgeRecord) (query : string)
          (projectId : option string) (options : Options),
     let r := searchKnowledge store query projectId options in
     let top := orDefault (limit options) 20 in
     let least := orDefault (minScore options) 1 in
     (forall h, h ∈ r ->
        inScope kr_projectId store projectId (kh_item h) /\
        h = knowledgeHit query (kh_item h) /\ least <= kh_searchScore h) /\
     descendingBy kh_searchScore r /\
     (0 <= top -> Z.of_nat (length r) <= top) /\
     (forall k, inScope kr_projectId store projectId k ->
        least <= kh_searchScore (knowledgeHit query k) ->
        knowledgeHit query k ∈ r \/
        forall h, h ∈ r -> kh_searchScore (knowledgeHit query k) <= kh_searchScore h) /\
     (Z.of_nat (length store) <= top ->
      forall k, inScope kr_projectId store projectId k ->
        least <= kh_searchScore (knowledgeHit query k) -> knowledgeHit query k ∈ r)).
Proof.
  split.
  - intros store query projectId options.
    destruct (searchSnippets_ranked store query projectId options)
      as (H1 & H2 & H3 & H4 & H5 & _).
    cbv zeta. auto.
  - intros store query projectId options.
    destruct (searchKnowledge_ranked store query projectId options)
      as (H1 & H2 & H3 & H4 & H5 & _).
    cbv zeta. auto.
Qed.

Lemma search_returns_the_best_hits_witness :
  snippetHit "fetch" fetchSnippet
  ∈ searchSnippets [fetchSnippet; sortSnippet] "fetch" (Some "P") defaults /\
  knowledgeHit "fetch" fetchAnswer
  ∈ searchKnowledge [fetchAnswer] "fetch" None defaults.
Proof.
  destruct search_returns_the_best_hits as [Hsnip Hknow].
  split.
  - destruct (Hsnip [fetchSnippet; sortSnippet] "fetch" (Some "P") defaults)
      as (_ & _ & _ & _ & Hall).
    apply Hall.
    + vm_compute. discriminate.
    + split; [apply elem_of_cons; auto | intros p [= <-] _; reflexivity].
    + vm_compute. discriminate.
  - destruct (Hknow [fetchAnswer] "fetch" None defaults) as (_ & _ & _ & _ & Hall).
    apply Hall.
    + vm_compute. discriminate.
    + split; [apply elem_of_cons; auto | intros p [=]].
    + vm_compute. discriminate.
Defined.

(** ** The unified search *)








(** ** The score *)

Lemma calculateSearchScore_sum query text weights :
  calculateSearchScore query text weights
  = if isEmpty query || isEmpty text then 0
    else (if includes (toLowerCase text) (toLowerCase query)
          then w_exact weights * strlen (toLowerCase query) else 0)
         + sumZ (map (tokenContribution weights (tokenizeForSearch text))
                   (tokenizeForSearch query)).
Proof.
  unfold calculateSearchScore.
  destruct (isEmpty query || isEmpty text); [reflexivity |].
  rewrite SearchSpec.wordLoop_spec. destruct (includes _ _); lia.
Qed.

Lemma startsWith_refl s : startsWith s s = true.
Proof.
  induction s as [| c s IH]; simpl; [reflexivity |].
  rewrite Ascii.eqb_refl. exact IH.
Qed.

Lemma includes_refl s : includes s s = true.
Proof. destruct s; simpl; [reflexivity |]. rewrite Ascii.eqb_refl, startsWith_refl. reflexivity. Qed.

Lemma existsb_eqb_touches token textTokens :
  existsb (String.eqb token) textTokens = true ->
  existsb (touches token) textTokens = true.
Proof.
  rewrite !existsb_exists. intros (t & Ht & Heq). apply String.eqb_eq in Heq as <-.
  exists token. split; [exact Ht |]. unfold touches. rewrite includes_refl. reflexivity.
Qed.

Lemma tokenContribution_sign weights textTokens token :
  0 <= w_word weights -> 0 <= w_partial weights ->
  0 <= tokenContribution weights textTokens token
  <= Z.max (w_word weights) (w_partial weights).
Proof.
  intros Hw Hp. unfold tokenContribution.
  destruct (existsb (String.eqb token) textTokens); [lia |].
  destruct (existsb _ textTokens); lia.
Qed.

Lemma tokenContribution_positive weights textTokens token :
  0 < w_word weights -> 0 < w_partial weights ->
  (0 < tokenContribution weights textTokens token <->
   existsb (touches token) textTokens = true).
Proof.
  intros Hw Hp. unfold tokenContribution.
  destruct (existsb (String.eqb token) textTokens) eqn:Heq.
  - rewrite (existsb_eqb_touches _ _ Heq). split; [reflexivity | intros _; exact Hw].
  - fold (touches token). destruct (existsb (touches token) textTokens).
    + split; [reflexivity | intros _; exact Hp].
    + split; [lia | discriminate].
Qed.

Lemma sumZ_bounds (f : string -> Z) (bound : Z) (l : list string) :
  (forall x, 0 <= f x <= bound) ->
  0 <= sumZ (map f l) <= bound * Z.of_nat (length l).
Proof.
  intros Hf. induction l as [| x l IH]; simpl; [lia |].
  specialize (Hf x). lia.
Qed.

Lemma sumZ_positive (f : string -> Z) (l : list string) :
  (forall x, 0 <= f x) ->
  (0 < sumZ (map f l) <-> exists x, x ∈ l /\ 0 < f x).
Proof.
  intros Hf. induction l as [| x l IH]; simpl.
  - split; [lia | intros (y & Hy & _); apply elem_of_nil in Hy; contradiction].
  - assert (Hsum : 0 <= sumZ (map f l)).
    { clear IH. induction l as [| y l IHl]; simpl; [lia |]. specialize (Hf y). lia. }
    split.
    + intros Hpos. destruct (Z.lt_ge_cases 0 (f x)) as [Hx | Hx].
      * exists x. split; [apply elem_of_cons; auto | exact Hx].
      * assert (Hl : 0 < sumZ (map f l)) by (specialize (Hf x); lia).
        apply IH in Hl as (y & Hy & Hfy). exists y. split; [apply elem_of_cons; auto | exact Hfy].
    + intros (y & Hy & Hfy). apply elem_of_cons in Hy as [-> | Hy].
      * lia.
      * assert (Hl : 0 < sumZ (map f l)) by (apply IH; eauto).
        specialize (Hf x). lia.
Qed.

(** X21.  With weights that are not negative the search score is not
    negative and at most [exact * queryLower.length], for the lower-cased
    query, plus the larger of [word] and [partial] for every query token.  With positive weights it is
    positive exactly when query and text are not empty and either the text
    contains the query (case ignored) or a query token and a text token
    match, one containing the other: these are the texts a search with the
    default minimal score of 1 finds. *)
Theorem calculateSearchScore_bounds :
  forall (query text : string) (weights : Weights),
    (0 <= w_exact weights -> 0 <= w_word weights -> 0 <= w_partial weights ->
     0 <= calculateSearchScore query text weights
     <= w_exact weights * strlen (toLowerCase query)
        + Z.max (w_word weights) (w_partial weights)
          * Z.of_nat (length (tokenizeForSearch query))) /\
    (0 < w_exact weights -> 0 < w_word weights -> 0 < w_partial weights ->
     (1 <= calculateSearchScore query text weights <->
      query <> "" /\ text <> "" /\
      (includes (toLowerCase text) (toLowerCase query) = true \/
       matchingTokens query text))).
Proof.
  intros query text weights. rewrite calculateSearchScore_sum. split.
  - intros He Hw Hp.
    pose proof (sumZ_bounds (tokenContribution weights (tokenizeForSearch text))
                  (Z.max (w_word weights) (w_partial weights))
                  (tokenizeForSearch query)
                  (fun x => tokenContribution_sign weights _ x Hw Hp)) as Hsum.
    assert (Hlen : 0 <= strlen (toLowerCase query)) by (unfold strlen; lia).
    destruct (isEmpty query || isEmpty text); [nia |].
    destruct (includes _ _); nia.
  - intros He Hw Hp.
    assert (Htok : 0 < sumZ (map (tokenContribution weights (tokenizeForSearch text))
                            (tokenizeForSearch query))
                   <-> matchingTokens query text).
    { rewrite sumZ_positive
        by (intros x; apply tokenContribution_sign; lia).
      unfold matchingTokens. split.
      - intros (q & Hq & Hpos). apply tokenContribution_positive in Hpos; [| lia | lia].
        apply existsb_exists in Hpos as (t & Ht & Htouch).
        exists q, t. split; [exact Hq |]. split; [apply list_elem_of_In, Ht | exact Htouch].
      - intros (q & t & Hq & Ht & Htouch). exists q. split; [exact Hq |].
        apply tokenContribution_positive; [lia | lia |].
        apply existsb_exists. exists t. split; [apply list_elem_of_In, Ht | exact Htouch]. }
    assert (Hsum : 0 <= sumZ (map (tokenContribution weights (tokenizeForSearch text))
                            (tokenizeForSearch query))).
    { apply (sumZ_bounds _ (Z.max (w_word weights) (w_partial weights))).
      intros x. apply tokenContribution_sign; lia. }
    destruct query as [| q query];
      [cbn [isEmpty orb]; split; [lia | intros [H _]; congruence] |].
    destruct text as [| t text];
      [cbn [isEmpty orb]; split; [lia | intros (_ & H & _); congruence] |].
    cbn [isEmpty orb].
    assert (Hlen : 0 < strlen (toLowerCase (String q query)))
      by (unfold strlen; simpl String.length; lia).
    destruct (includes (toLowerCase (String t text)) (toLowerCase (String q query))).
    + split; [intros _; split; [discriminate | split; [discriminate | auto]] | nia].
    + split.
      * intros Hpos. split; [discriminate |]. split; [discriminate |].
        right. apply Htok. lia.
      * intros (_ & _ & [Hinc | Hmatch]); [discriminate |].
        apply Htok in Hmatch. lia.
Qed.

Lemma calculateSearchScore_bounds_witness :
  1 <= calculateSearchScore "fetch" "Fetch JSON from the API" defaultWeights.
Proof.
  destruct (calculateSearchScore_bounds "fetch" "Fetch JSON from the API"
              defaultWeights) as [_ Hpos].
  apply Hpos; try reflexivity.
  split; [discriminate |]. split; [discriminate |]. left. reflexivity.
Defined.

End FinderSpec.

(* ================================================================== *)
(** * Properties of the context matcher                                *)
(* ================================================================== *)

Module ContextSpec.
Import JS JSFacts Search Matcher MatcherSpec Context.

(** ** The Jaccard similarity of two word lists *)

Lemma jaccard_value set1 set2 :
  Set_of (Set_of set1 ++ Set_of set2)%list <> [] ->
  calculateJaccardSimilarity set1 set2
  = (Z.of_nat (length (List.filter (Set_has (Set_of set2)) (Set_of set1)))
     # Pos.of_nat (length (Set_of (Set_of set1 ++ Set_of set2)%list)))%Q.
Proof.
  intros Hne. unfold calculateJaccardSimilarity.
  destruct (Set_of (Set_of set1 ++ Set_of set2)%list); [congruence | reflexivity].
Qed.

Lemma jaccard_empty set1 set2 :
  Set_of (Set_of set1 ++ Set_of set2)%list = [] ->
  calculateJaccardSimilarity set1 set2 = 0%Q /\ set1 = [] /\ set2 = [].
Proof.
  intros He. unfold calculateJaccardSimilarity. rewrite He. split; [reflexivity |].
  assert (Hno : forall w, w ∉ (Set_of set1 ++ Set_of set2)%list).
  { intros w Hw. apply Set_of_elem in Hw. rewrite He in Hw.
    apply elem_of_nil in Hw. exact Hw. }
  split.
  - destruct set1 as [| x l]; [reflexivity | exfalso].
    apply (Hno x), elem_of_app. left. apply Set_of_elem, elem_of_cons. auto.
  - destruct set2 as [| x l]; [reflexivity | exfalso].
    apply (Hno x), elem_of_app. right. apply Set_of_elem, elem_of_cons. auto.
Qed.

Lemma common_elem set1 set2 w :
  w ∈ List.filter (Set_has (Set_of set2)) (Set_of set1) <-> w ∈ set1 /\ w ∈ set2.
Proof.
  rewrite elem_of_List_filter, Set_of_elem. unfold Set_has.
  rewrite bool_decide_eq_true, Set_of_elem. reflexivity.
Qed.

Lemma union_elem set1 set2 w :
  w ∈ Set_of (Set_of set1 ++ Set_of set2)%list <-> w ∈ set1 \/ w ∈ set2.
Proof. rewrite Set_of_elem, elem_of_app, !Set_of_elem. reflexivity. Qed.

Lemma common_NoDup set1 set2 :
  NoDup (List.filter (Set_has (Set_of set2)) (Set_of set1)).
Proof.
  rewrite <- (FinderSpec.Set_of_fixed (Set_of set1)) by apply FinderSpec.Set_of_NoDup.
  generalize (FinderSpec.Set_of_NoDup (Set_of set1)).
  generalize (Set_of (Set_of set1)). intros l Hnd.
  induction Hnd as [| x l Hx Hnd IH]; simpl; [constructor |].
  destruct (Set_has (Set_of set2) x); [| exact IH].
  constructor; [| exact IH]. intros Hin. apply Hx.
  apply elem_of_List_filter in Hin. exact (proj1 Hin).
Qed.

(** X22.  [calculateJaccardSimilarity] lies between 0 and 1 and does not
    depend on the order of its arguments; it is 1 exactly when the two
    lists hold the same words and are not empty, and 0 exactly when they
    share no word. *)
Theorem calculateJaccardSimilarity_is_jaccard :
  forall set1 set2 : list string,
    (0 <= calculateJaccardSimilarity set1 set2 <= 1)%Q /\
    calculateJaccardSimilarity set1 set2 = calculateJaccardSimilarity set2 set1 /\
    ((calculateJaccardSimilarity set1 set2 == 1)%Q <->
     sameWords set1 set2 /\ set1 <> []) /\
    ((calculateJaccardSimilarity set1 set2 == 0)%Q <->
     forall w, w ∈ set1 -> w ∉ set2).
Proof.
  intros set1 set2.
  destruct (Set_of (Set_of set1 ++ Set_of set2)%list) as [| u us] eqn:Hu.
  { destruct (jaccard_empty set1 set2 Hu) as (-> & -> & ->).
    split; [split; discriminate |]. split; [reflexivity |]. split.
    - split; [discriminate | intros [_ H]; congruence].
    - split; [intros _ w Hw; apply elem_of_nil in Hw; contradiction | reflexivity]. }
  assert (Hne : Set_of (Set_of set1 ++ Set_of set2)%list <> []) by congruence.
  assert (Hne' : Set_of (Set_of set2 ++ Set_of set1)%list <> []).
  { intros He. assert (Hin : u ∈ Set_of (Set_of set2 ++ Set_of set1)%list).
    { apply union_elem. apply or_comm. apply union_elem. rewrite Hu.
      apply elem_of_cons. auto. }
    rewrite He in Hin. apply elem_of_nil in Hin. exact Hin. }
  rewrite (jaccard_value set1 set2 Hne), (jaccard_value set2 set1 Hne').
  clear u us Hu.
  set (common := List.filter (Set_has (Set_of set2)) (Set_of set1)).
  set (union := Set_of (Set_of set1 ++ Set_of set2)%list) in *.
  assert (Hpos : (0 < length union)%nat) by (destruct union; [congruence | simpl; lia]).
  assert (Hsub : common ⊆+ union).
  { apply NoDup_submseteq; [apply common_NoDup |]. intros w Hw.
    apply common_elem in Hw. apply union_elem. tauto. }
  pose proof (submseteq_length _ _ Hsub) as Hle.
  split; [| split; [| split]].
  - unfold Qle. cbn [Qnum Qden]. rewrite (FinderSpec.Pos_of_nat_Z _ Hpos). split; lia.
  - f_equal.
    + f_equal. apply Permutation_length.
      apply NoDup_Permutation; [apply common_NoDup | apply common_NoDup |].
      intros w. unfold common. rewrite !common_elem. tauto.
    + f_equal. apply FinderSpec.Set_of_length_same. intros w.
      rewrite !elem_of_app, !Set_of_elem. tauto.
  - unfold Qeq. cbn [Qnum Qden]. rewrite (FinderSpec.Pos_of_nat_Z _ Hpos).
    rewrite Z.mul_1_r, Z.mul_1_l. split.
    + intros Hlen. apply Nat2Z.inj in Hlen.
      assert (Hperm : common ≡ₚ union)
        by (apply submseteq_length_Permutation; [exact Hsub | lia]).
      assert (Hall : forall w, w ∈ set1 \/ w ∈ set2 -> w ∈ set1 /\ w ∈ set2).
      { intros w Hw. apply common_elem. fold common. rewrite Hperm.
        apply union_elem, Hw. }
      split.
      * intros w. split; intros Hw; apply Hall; auto.
      * intros ->. destruct union as [| x xs] eqn:Hx; [simpl in Hpos; lia |].
        assert (Hin : x ∈ union) by (rewrite Hx; apply elem_of_cons; auto).
        unfold union in Hin. apply union_elem, Hall in Hin as [Hin _].
        apply elem_of_nil in Hin. exact Hin.
    + intros [Hsame _]. f_equal. apply Permutation_length.
      apply NoDup_Permutation; [apply common_NoDup | apply FinderSpec.Set_of_NoDup |].
      intros w. unfold common, union. rewrite common_elem, union_elem.
      specialize (Hsame w). tauto.
  - unfold Qeq. cbn [Qnum Qden]. rewrite Z.mul_1_r, Z.mul_0_l. split.
    + intros Hzero w H1 H2.
      assert (Hin : w ∈ common) by (apply common_elem; auto).
      destruct common; [apply elem_of_nil in Hin; exact Hin | simpl in Hzero; lia].
    + intros Hdisjoint. destruct common as [| x xs] eqn:Hc; [reflexivity | exfalso].
      assert (Hin : x ∈ common) by (rewrite Hc; apply elem_of_cons; auto).
      unfold common in Hin. apply common_elem in Hin as [H1 H2].
      exact (Hdisjoint x H1 H2).
Qed.

(** ** The two tokenizers *)

Lemma splitOnNonWord_cons s : exists w ws, splitOnNonWord s = w :: ws.
Proof.
  induction s as [| c s (w & ws & IH)]; simpl; [eauto |].
  rewrite IH. destruct (negb (isWordChar c)); [| eauto].
  destruct (startsWithNonWord s); eauto.
Qed.

Lemma noChar_app p a b : noChar p (a ++ b) = noChar p a && noChar p b.
Proof.
  induction a as [| c a IH]; simpl; [reflexivity |].
  rewrite IH, andb_assoc. reflexivity.
Qed.

Lemma splitOnNonWord_pieces s w :
  w ∈ splitOnNonWord s -> noChar isNonWord w = true.
Proof.
  revert w. induction s as [| c s IH]; intros w; simpl.
  - intros Hw. apply list_elem_of_singleton in Hw as ->. reflexivity.
  - destruct (splitOnNonWord s) as [| x xs] eqn:Hs;
      [intros Hw; apply elem_of_nil in Hw; contradiction |].
    destruct (isWordChar c) eqn:Hc; cbn [negb].
    + intros Hw. apply elem_of_cons in Hw as [-> | Hw].
      * simpl. unfold isNonWord at 1. rewrite Hc. apply IH, elem_of_cons. auto.
      * apply IH, elem_of_cons. auto.
    + destruct (startsWithNonWord s); intros Hw; [apply IH, Hw |].
      apply elem_of_cons in Hw as [-> | Hw]; [reflexivity | apply IH, Hw].
Qed.

Lemma isWordChar_lower c : isWordChar c = true -> isWordChar (toLowerChar c) = true.
Proof. destruct c as [[] [] [] [] [] [] [] []]; intros H; try discriminate H; reflexivity. Qed.

(** Lower-casing a string of word characters gives a string of word
    characters of the same length. *)
Lemma lower_word w :
  noChar isNonWord w = true ->
  noChar isNonWord (toLowerCase w) = true /\ strlen (toLowerCase w) = strlen w.
Proof.
  unfold strlen. induction w as [| c w IH]; [intros _; split; reflexivity |].
  change (toLowerCase (String c w)) with (String (toLowerChar c) (toLowerCase w)).
  cbn [noChar String.length]. intros H. apply andb_true_iff in H as [Hc Hw].
  unfold isNonWord in Hc. rewrite negb_involutive in Hc.
  destruct (IH Hw) as [IHword IHlen].
  unfold isNonWord at 1. rewrite (isWordChar_lower c Hc), IHword.
  split; [reflexivity | lia].
Qed.

Lemma blank_space c :
  isSpace (if isWordChar c || isSpace c then c else " "%char) = negb (isWordChar c).
Proof. destruct c as [[] [] [] [] [] [] [] []]; reflexivity. Qed.

Lemma startsWithSpace_blank s :
  startsWithSpace (blankPunctuation s) = startsWithNonWord s.
Proof. destruct s as [| c s]; simpl; [reflexivity | apply blank_space]. Qed.

(** Splitting the blanked text at white space is splitting the text at its
    non-word characters. *)
Lemma splitOnSpaces_blank s :
  splitOnSpaces (blankPunctuation s) = splitOnNonWord s.
Proof.
  induction s as [| c s IH]; [reflexivity |].
  change (blankPunctuation (String c s))
    with (String (if isWordChar c || isSpace c then c else " "%char)
            (blankPunctuation s)).
  cbn [splitOnSpaces splitOnNonWord].
  rewrite IH, blank_space, startsWithSpace_blank.
  destruct (splitOnNonWord_cons s) as (w & ws & ->).
  destruct (isWordChar c) eqn:Hc; cbn [negb orb]; reflexivity.
Qed.

Lemma splitOnNonWord_chars p s w :
  noChar p s = true -> w ∈ splitOnNonWord s -> noChar p w = true.
Proof.
  revert w. induction s as [| c s IH]; intros w; simpl.
  - intros _ Hw. apply list_elem_of_singleton in Hw as ->. reflexivity.
  - intros Hs. apply andb_true_iff in Hs as [Hc Hs].
    destruct (splitOnNonWord s) as [| x xs] eqn:Hsplit;
      [intros Hw; apply elem_of_nil in Hw; contradiction |].
    destruct (negb (isWordChar c)).
    + destruct (startsWithNonWord s); intros Hw; [apply IH; assumption |].
      apply elem_of_cons in Hw as [-> | Hw]; [reflexivity | apply IH; assumption].
    + intros Hw. apply elem_of_cons in Hw as [-> | Hw].
      * simpl. rewrite Hc. apply IH; [exact Hs | apply elem_of_cons; auto].
      * apply IH; [exact Hs | apply elem_of_cons; auto].
Qed.

Lemma noChar_isUpper_lower s : noChar isUpper (toLowerCase s) = true.
Proof.
  induction s as [| c s IH]; [reflexivity |].
  change (toLowerCase (String c s)) with (String (toLowerChar c) (toLowerCase s)).
  cbn [noChar]. unfold isUpper at 1.
  rewrite FinderSpec.toLowerChar_idem, Ascii.eqb_refl, IH. reflexivity.
Qed.

Lemma noChar_isUpper_fixed w : noChar isUpper w = true -> toLowerCase w = w.
Proof.
  induction w as [| c w IH]; [reflexivity |].
  cbn [noChar]. unfold isUpper at 1. rewrite negb_involutive.
  intros H. apply andb_true_iff in H as [Hc Hw].
  apply Ascii.eqb_eq in Hc.
  change (toLowerCase (String c w)) with (String (toLowerChar c) (toLowerCase w)).
  rewrite Hc, IH by exact Hw. reflexivity.
Qed.

Lemma map_fixed {A} (f : A -> A) (l : list A) :
  (forall x, x ∈ l -> f x = x) -> map f l = l.
Proof.
  induction l as [| x l IH]; intros H; simpl; [reflexivity |].
  rewrite H by (apply elem_of_cons; auto).
  rewrite IH; [reflexivity |]. intros y Hy. apply H, elem_of_cons. auto.
Qed.

Lemma tokenize_lower text :
  tokenizeForSearch text = tokenize (toLowerCase text).
Proof.
  unfold tokenize, tokenizeForSearch.
  destruct text as [| c text]; [reflexivity |]. cbn [isEmpty].
  rewrite splitOnSpaces_blank. symmetry. apply map_fixed.
  intros w Hw. apply elem_of_List_filter in Hw as [Hw _].
  apply noChar_isUpper_fixed.
  apply (splitOnNonWord_chars isUpper (toLowerCase (String c text)));
    [apply noChar_isUpper_lower | exact Hw].
Qed.

(** X23.  The tokenizer of the search is the tokenizer of the context
    matcher applied to the lower-cased text: splitting at runs of non-word
    characters and lower-casing the pieces, and lower-casing, blanking the
    punctuation and splitting at white space, give the same tokens once the
    text is in lower case; so the two agree on every text that lower-casing
    leaves as it is.  Every token of the context matcher is longer than two
    characters, consists of word characters only and has no upper-case
    letter. *)
Theorem tokenizers_agree_on_lower_case :
  forall text : string,
    tokenizeForSearch text = tokenize (toLowerCase text) /\
    (toLowerCase text = text -> tokenize text = tokenizeForSearch text) /\
    (forall t, t ∈ tokenize text ->
       2 < strlen t /\ noChar isNonWord t = true /\ toLowerCase t = t).
Proof.
  intros text. split; [apply tokenize_lower |]. split.
  - intros Hlower. rewrite tokenize_lower, Hlower. reflexivity.
  - intros t Ht. unfold tokenize in Ht.
    apply list_elem_of_fmap in Ht as (w & -> & Hw).
    apply elem_of_List_filter in Hw as [Hw Hlen]. apply Z.ltb_lt in Hlen.
    pose proof (splitOnNonWord_pieces text w Hw) as Hword.
    destruct (lower_word w Hword) as [Hlower Hsame].
    split; [rewrite Hsame; exact Hlen |].
    split; [exact Hlower | apply FinderSpec.toLowerCase_idem].
Qed.

Lemma tokenizers_agree_on_lower_case_witness :
  tokenize "fetch(url)" = tokenizeForSearch "fetch(url)" /\
  2 < strlen "fetch" /\ noChar isNonWord "fetch" = true /\ toLowerCase "fetch" = "fetch".
Proof.
  destruct (tokenizers_agree_on_lower_case "fetch(url)") as (_ & Hsame & Htokens).
  split; [apply Hsame; reflexivity |].
  apply Htokens. vm_compute. apply elem_of_cons. left. reflexivity.
Defined.

(** ** Imports *)

Lemma isSlash_toLowerChar c : isSlash (toLowerChar c) = isSlash c.
Proof. destruct c as [[] [] [] [] [] [] [] []]; reflexivity. Qed.

Lemma noChar_slash_lower s : noChar isSlash (toLowerCase s) = noChar isSlash s.
Proof.
  induction s as [| c s IH]; simpl; [reflexivity |].
  fold (toLowerCase s). rewrite isSlash_toLowerChar, IH. reflexivity.
Qed.

Lemma beforeSlash_noSlash s : noChar isSlash (beforeSlash s) = true.
Proof.
  induction s as [| c s IH]; simpl; [reflexivity |].
  destruct (Ascii.eqb c "/") eqn:Hc; [reflexivity |].
  simpl. unfold isSlash at 1. rewrite Hc. exact IH.
Qed.

Lemma beforeSlash_fixed s : noChar isSlash s = true -> beforeSlash s = s.
Proof.
  induction s as [| c s IH]; simpl; [reflexivity |].
  unfold isSlash at 1. destruct (Ascii.eqb c "/"); [discriminate |].
  simpl. intros H. rewrite IH by exact H. reflexivity.
Qed.

Lemma beforeSlash_app a b :
  noChar isSlash a = true -> beforeSlash (a ++ String "/" b) = a.
Proof.
  induction a as [| c a IH]; simpl; [reflexivity |].
  unfold isSlash at 1. destruct (Ascii.eqb c "/"); [discriminate |].
  simpl. intros H. rewrite IH by exact H. reflexivity.
Qed.

Lemma startsWith_app w post : startsWith (w ++ post) w = true.
Proof.
  induction w as [| c w IH]; simpl; [destruct post; reflexivity |].
  rewrite Ascii.eqb_refl. exact IH.
Qed.

Lemma includes_startsWith s sub : startsWith s sub = true -> includes s sub = true.
Proof. destruct s; simpl; intros ->; reflexivity. Qed.

Lemma includes_app pre w post : includes (pre ++ w ++ post) w = true.
Proof.
  induction pre as [| c pre IH].
  - apply includes_startsWith. change (startsWith (w ++ post) w = true). apply startsWith_app.
  - change (includes (String c (pre ++ w ++ post)) w = true). cbn [includes]. rewrite IH. apply orb_true_r.
Qed.

Lemma literal_app lit s rest : literal lit s = Some rest -> s = lit ++ rest.
Proof.
  revert s. induction lit as [| a lit IH]; intros s; simpl.
  - intros [= ->]. reflexivity.
  - destruct s as [| b s]; [discriminate |].
    destruct (Ascii.eqb_spec a b) as [-> | _]; [| discriminate].
    intros H. rewrite (IH _ H). reflexivity.
Qed.

Lemma trimStart_app s : exists sp, s = sp ++ trimStart s.
Proof.
  induction s as [| c s (sp & IH)]; simpl; [exists ""; reflexivity |].
  destruct (isSpace c).
  - exists (String c sp). change (String c s = String c (sp ++ trimStart s)).
    f_equal. exact IH.
  - exists "". reflexivity.
Qed.

Lemma spaces1_app s rest : spaces1 s = Some rest -> exists sp, s = sp ++ rest.
Proof.
  destruct s as [| c s]; simpl; [discriminate |].
  destruct (isSpace c); [| discriminate]. intros [= <-].
  destruct (trimStart_app s) as (sp & Hsp). exists (String c sp).
  change (String c s = String c (sp ++ trimStart s)). f_equal. exact Hsp.
Qed.

Lemma untilQuote_app s w rest :
  untilQuote s = Some (w, rest) ->
  noChar isQuote w = true /\ exists q, s = w ++ String q rest.
Proof.
  revert w rest. induction s as [| c s IH]; intros w rest; simpl; [discriminate |].
  destruct (isQuote c) eqn:Hc.
  - intros [= <- <-]. split; [reflexivity | exists c; reflexivity].
  - destruct (untilQuote s) as [[w' rest'] |]; [| discriminate].
    intros [= <- <-]. destruct (IH w' rest' eq_refl) as [Hno (q & ->)].
    split; [simpl; rewrite Hc; exact Hno | exists q; reflexivity].
Qed.

Lemma quoted_app s w rest :
  quoted s = Some (w, rest) ->
  w <> "" /\ noChar isQuote w = true /\ exists pre post, s = pre ++ w ++ post.
Proof.
  destruct s as [| c s]; simpl; [discriminate |].
  destruct (isQuote c); [| discriminate].
  destruct (untilQuote s) as [[w' rest'] |] eqn:Hu; [| discriminate].
  destruct (isEmpty w') eqn:He; [discriminate |]. intros [= <- <-].
  apply untilQuote_app in Hu as [Hno (q & ->)].
  split; [destruct w'; [discriminate | discriminate] |]. split; [exact Hno |].
  exists (String c ""), (String q rest'). reflexivity.
Qed.

Lemma app_occurs a pre w post : exists pre', a ++ pre ++ w ++ post = pre' ++ w ++ post.
Proof.
  exists (a ++ pre). induction a as [| c a IH]; [reflexivity |].
  change (String c (a ++ pre ++ w ++ post) = String c ((a ++ pre) ++ w ++ post)).
  f_equal. exact IH.
Qed.

Lemma importAt_app s w rest :
  importAt s = Some (w, rest) ->
  w <> "" /\ noChar isQuote w = true /\ exists pre post, s = pre ++ w ++ post.
Proof.
  unfold importAt.
  assert (Hk : forall lit,
            match literal lit s with
            | Some r => match spaces1 r with Some r' => quoted r' | None => None end
            | None => None
            end = Some (w, rest) ->
            w <> "" /\ noChar isQuote w = true /\ exists pre post, s = pre ++ w ++ post).
  { intros lit. destruct (literal lit s) as [r |] eqn:Hl; [| discriminate].
    apply literal_app in Hl as ->.
    destruct (spaces1 r) as [r' |] eqn:Hs; [| discriminate].
    apply spaces1_app in Hs as (sp & ->). intros Hq.
    apply quoted_app in Hq as (Hne & Hno & pre & post & ->).
    split; [exact Hne |]. split; [exact Hno |].
    destruct (app_occurs sp pre w post) as (pre1 & ->).
    destruct (app_occurs lit pre1 w post) as (pre2 & ->). eauto. }
  destruct (match literal "import" s with
            | Some r => match spaces1 r with Some r' => quoted r' | None => None end
            | None => None
            end) as [m |] eqn:Him.
  - intros [= ->]. apply (Hk "import"). exact Him.
  - apply (Hk "from").
Qed.

Lemma requireAt_app s w rest :
  requireAt s = Some (w, rest) ->
  w <> "" /\ noChar isQuote w = true /\ exists pre post, s = pre ++ w ++ post.
Proof.
  unfold requireAt.
  destruct (literal "require" s) as [r1 |] eqn:H1; [| discriminate].
  apply literal_app in H1 as ->.
  destruct (trimStart_app r1) as (sp1 & Hsp1).
  destruct (literal "(" (trimStart r1)) as [r2 |] eqn:H2; [| discriminate].
  apply literal_app in H2.
  destruct (trimStart_app r2) as (sp2 & Hsp2).
  destruct (quoted (trimStart r2)) as [[w' r3] |] eqn:H3; [| discriminate].
  destruct (literal ")" (trimStart r3)); [| discriminate]. intros [= <- <-].
  apply quoted_app in H3 as (Hne & Hno & pre & post & Hq).
  split; [exact Hne |]. split; [exact Hno |].
  rewrite Hsp1, H2, Hsp2, Hq.
  destruct (app_occurs sp2 pre w' post) as (p1 & ->).
  destruct (app_occurs "(" p1 w' post) as (p2 & ->).
  destruct (app_occurs sp1 p2 w' post) as (p3 & ->).
  destruct (app_occurs "require" p3 w' post) as (p4 & ->). eauto.
Qed.

Lemma matchAll_elem matchAt s : forall skip i,
  i ∈ matchAll matchAt skip s ->
  exists pre suffix rest, s = pre ++ suffix /\ matchAt suffix = Some (i, rest).
Proof.
  induction s as [| c s IH]; intros skip i; simpl.
  - intros Hi. apply elem_of_nil in Hi. contradiction.
  - assert (Hlater : forall k, i ∈ matchAll matchAt k s ->
              exists pre suffix rest,
                String c s = pre ++ suffix /\ matchAt suffix = Some (i, rest)).
    { intros k Hi. destruct (IH k i Hi) as (pre & suffix & rest & -> & Hm).
      exists (String c pre), suffix, rest. split; [reflexivity | exact Hm]. }
    destruct skip as [| skip]; [| apply Hlater].
    destruct (matchAt (String c s)) as [[w rest] |] eqn:Hm; [| apply Hlater].
    intros Hi. apply elem_of_cons in Hi as [-> | Hi]; [| eapply Hlater, Hi].
    exists "", (String c s), rest. split; [reflexivity | exact Hm].
Qed.

(** X24.  What the matcher takes for an import.  [normalizeImport] keeps
    the part of a path before its first slash, in lower case: its result
    has no slash, it leaves its own results as they are, and every path
    with the same first segment -- every package of one scope, too -- is
    the same to the matcher.  Every import that [extractCodeImports] finds
    is a non-empty piece of the code that holds no quote. *)
Theorem imports_are_first_segments :
  (forall importPath : string,
     noChar isSlash (normalizeImport importPath) = true /\
     normalizeImport (normalizeImport importPath) = normalizeImport importPath) /\
  (forall segment rest : string,
     noChar isSlash segment = true ->
     normalizeImport (segment ++ String "/" rest) = normalizeImport segment) /\
  (forall (code i : string),
     i ∈ extractCodeImports code ->
     i <> "" /\ noChar isQuote i = true /\ includes code i = true).
Proof.
  split; [| split].
  - intros importPath. unfold normalizeImport.
    assert (Hno : noChar isSlash (toLowerCase (beforeSlash importPath)) = true)
      by (rewrite noChar_slash_lower; apply beforeSlash_noSlash).
    split; [exact Hno |].
    rewrite (beforeSlash_fixed _ Hno). apply FinderSpec.toLowerCase_idem.
  - intros segment rest Hno. unfold normalizeImport.
    rewrite (beforeSlash_app _ _ Hno), (beforeSlash_fixed _ Hno). reflexivity.
  - intros code i Hi. unfold extractCodeImports in Hi.
    apply elem_of_app in Hi as [Hi | Hi];
      apply matchAll_elem in Hi as (pre & suffix & rest & -> & Hm);
      [apply importAt_app in Hm | apply requireAt_app in Hm];
      destruct Hm as (Hne & Hno & p & q & ->);
      (split; [exact Hne |]); (split; [exact Hno |]);
      destruct (app_occurs pre p i q) as (p' & ->); apply includes_app.
Qed.

Lemma imports_are_first_segments_witness :
  normalizeImport ("@testing-library" ++ String "/" "react")
  = normalizeImport "@testing-library" /\
  "react" <> "" /\ noChar isQuote "react" = true /\
  includes (sn_code jsSnippet) "react" = true.
Proof.
  destruct imports_are_first_segments as (_ & Hseg & Hcode).
  split; [apply Hseg; reflexivity |].
  apply (Hcode (sn_code jsSnippet) "react").
  vm_compute. apply elem_of_cons. left. reflexivity.
Defined.

(** ** The relevant context *)

Lemma dedup_covers results c :
  c ∈ results ->
  exists e, e ∈ deduplicateAndSort results /\ keyOf e = keyOf c /\
            (relevanceScore c <= relevanceScore e)%Q.
Proof.
  intros Hc. pose proof (final_entry results (keyOf c)) as Hent.
  destruct (Map_get (fold_left dedupStep results []) (keyOf c)) as [e |] eqn:Hg;
    simpl in Hent.
  - destruct Hent as (Hk & _ & Hall). exists e.
    split; [apply out_elem; rewrite Hk; exact Hg |]. split; [exact Hk |].
    rewrite Forall_forall in Hall. apply Hall. apply elem_of_List_filter.
    split; [exact Hc | apply String.eqb_refl].
  - exfalso. assert (Hin : c ∈ List.filter (hasKey (keyOf c)) results).
    { apply elem_of_List_filter. split; [exact Hc | apply String.eqb_refl]. }
    rewrite Hent in Hin. apply elem_of_nil in Hin. exact Hin.
Qed.

Lemma dedup_from results e :
  e ∈ deduplicateAndSort results ->
  exists c, c ∈ results /\ keyOf c = keyOf e /\ relevanceScore c = relevanceScore e.
Proof.
  intros He. apply out_elem in He.
  pose proof (final_entry results (keyOf e)) as Hent. rewrite He in Hent.
  simpl in Hent. destruct Hent as (_ & (c & Hc & Hs) & _).
  apply elem_of_List_filter in Hc as [Hc Hk]. apply String.eqb_eq in Hk.
  exists c. auto.
Qed.

Lemma StronglySorted_filter {A} (R : A -> A -> Prop) (f : A -> bool) l :
  StronglySorted R l -> StronglySorted R (List.filter f l).
Proof.
  induction 1 as [| x l Hs IH Hx]; simpl; [constructor |].
  destruct (f x); [| exact IH]. constructor; [exact IH |].
  rewrite Forall_forall in Hx |- *. intros y Hy.
  apply elem_of_List_filter in Hy as [Hy _]. apply Hx, Hy.
Qed.

Lemma StronglySorted_prefix {A} (R : A -> A -> Prop) l1 l2 :
  StronglySorted R (l1 ++ l2) ->
  StronglySorted R l1 /\ forall h x, h ∈ l1 -> x ∈ l2 -> R h x.
Proof.
  induction l1 as [| y l1 IH]; simpl; intros Hs.
  - split; [constructor |]. intros h x Hh. apply elem_of_nil in Hh. contradiction.
  - apply StronglySorted_inv in Hs as [Hs Hy]. destruct (IH Hs) as [Hs1 Hle].
    split.
    + constructor; [exact Hs1 |]. rewrite Forall_forall in Hy |- *.
      intros z Hz. apply Hy, elem_of_app. auto.
    + intros h x Hh Hx. apply elem_of_cons in Hh as [-> | Hh]; [| apply Hle; assumption].
      rewrite Forall_forall in Hy. apply Hy, elem_of_app. auto.
Qed.

Lemma slice0_full {A} n (l rest : list A) :
  0 <= n -> l = (Finder.slice0 n l ++ rest)%list -> rest <> [] ->
  Z.of_nat (length (Finder.slice0 n l)) = n.
Proof.
  intros Hn Hsplit Hrest. unfold Finder.slice0 in *.
  destruct (Z.ltb_spec n 0); [lia |].
  destruct (Nat.le_gt_cases (length l) (Z.to_nat n)) as [Hall | Hmore].
  - exfalso. rewrite firstn_all2 in Hsplit by exact Hall.
    apply Hrest. apply (app_inv_head l). rewrite app_nil_r. symmetry. exact Hsplit.
  - rewrite length_firstn. lia.
Qed.

Lemma NoDup_map_prefix {A B} (f : A -> B) (l1 l2 : list A) :
  NoDup (map f (l1 ++ l2)) -> NoDup (map f l1).
Proof. rewrite map_app. intros H. apply NoDup_app in H. tauto. Qed.

Lemma NoDup_map_filter {A B} (f : A -> B) (p : A -> bool) (l : list A) :
  NoDup (map f l) -> NoDup (map f (List.filter p l)).
Proof.
  induction l as [| x l IH]; simpl; intros Hnd; [constructor |].
  apply NoDup_cons in Hnd as [Hx Hnd]. destruct (p x); [| apply IH, Hnd].
  simpl. apply NoDup_cons. split; [| apply IH, Hnd].
  intros Hin. apply Hx. apply list_elem_of_fmap in Hin as (y & Hy & Hin).
  apply elem_of_List_filter in Hin as [Hin _].
  rewrite Hy. apply (list_elem_of_fmap_2 f). exact Hin.
Qed.

Section Relevant.
Variable matchAgainstError :
  DiagnosticContext -> list Snippet -> list Knowledge -> list MatchResult.
Variable matchByTextSimilarity :
  string -> list Snippet -> list Knowledge -> list MatchResult.
Variable now : Z.
Variable editorContext : EditorContext.
Variable snippets : list Snippet.
Variable knowledge : list Knowledge.
Variable options : MatchOptions.

Lemma relevant_split :
  exists rest,
    List.filter
      (fun r => Qle_bool (match minScore options with Some q => q | None => 15%Q end)
                  (relevanceScore r))
      (deduplicateAndSort
         (candidates matchAgainstError matchByTextSimilarity now editorContext
            snippets knowledge))
    = (findRelevantContext matchAgainstError matchByTextSimilarity now editorContext
         snippets knowledge options ++ rest)%list.
Proof. unfold findRelevantContext. apply FinderSpec.slice0_prefix. Qed.

Lemma relevant_best c :
  c ∈ candidates matchAgainstError matchByTextSimilarity now editorContext
        snippets knowledge ->
  (match minScore options with Some q => q | None => 15%Q end <= relevanceScore c)%Q ->
  0 <= match maxResults options with Some n => n | None => 10 end ->
  (exists e,
     e ∈ findRelevantContext matchAgainstError matchByTextSimilarity now editorContext
           snippets knowledge options /\
     keyOf e = keyOf c /\ (relevanceScore c <= relevanceScore e)%Q) \/
  (Z.of_nat (length (findRelevantContext matchAgainstError matchByTextSimilarity now
                       editorContext snippets knowledge options))
   = match maxResults options with Some n => n | None => 10 end /\
   forall e,
     e ∈ findRelevantContext matchAgainstError matchByTextSimilarity now editorContext
           snippets knowledge options ->
     (relevanceScore c <= relevanceScore e)%Q).
Proof.
  intros Hc Hmin Htop.
  destruct (dedup_covers _ c Hc) as (e0 & He0 & Hk & Hle).
  destruct relevant_split as [rest Hsplit].
  set (least := match minScore options with Some q => q | None => 15%Q end) in *.
  set (out := findRelevantContext matchAgainstError matchByTextSimilarity now
                editorContext snippets knowledge options) in *.
  assert (Hin : e0 ∈ (out ++ rest)%list).
  { rewrite <- Hsplit. apply elem_of_List_filter. split; [exact He0 |].
    apply Qle_bool_iff. eapply Qle_trans; eassumption. }
  apply elem_of_app in Hin as [Hin | Hin]; [left; exists e0; auto | right].
  pose proof (StronglySorted_filter descending
                (fun r => Qle_bool least (relevanceScore r)) _
                (sort_sorted (Map_values (fold_left dedupStep
                   (candidates matchAgainstError matchByTextSimilarity now editorContext
                      snippets knowledge) [])))) as Hsorted.
  fold (deduplicateAndSort
          (candidates matchAgainstError matchByTextSimilarity now editorContext
             snippets knowledge)) in Hsorted.
  rewrite Hsplit in Hsorted. apply StronglySorted_prefix in Hsorted as [_ Hbelow].
  split.
  - unfold out, findRelevantContext. fold least.
    apply (slice0_full _ _ rest Htop).
    + exact Hsplit.
    + intros ->. apply elem_of_nil in Hin. exact Hin.
  - intros e He. eapply Qle_trans; [exact Hle |]. apply (Hbelow e e0 He Hin).
Qed.

End Relevant.

(** X25.  Whatever the error matcher and the text matcher propose,
    [findRelevantContext] returns the best candidates: at most one result
    per (type, id), in descending order of score, at most [maxResults] (10
    by default), each with a score of at least [minScore] (15 by default)
    that is the score of one of the candidates for its key; and a candidate
    that reaches [minScore] is either represented by a result with its key
    and a score that is not lower, or the result list is full and none of
    its members scores lower than the candidate. *)
Theorem findRelevantContext_returns_the_best_candidates :
  forall (matchAgainstError :
            DiagnosticContext -> list Snippet -> list Knowledge -> list MatchResult)
         (matchByTextSimilarity :
            string -> list Snippet -> list Knowledge -> list MatchResult)
         (now : Z) (editorContext : EditorContext) (snippets : list Snippet)
         (knowledge : list Knowledge) (options : MatchOptions),
    let out := findRelevantContext matchAgainstError matchByTextSimilarity now
                 editorContext snippets knowledge options in
    let cs := candidates matchAgainstError matchByTextSimilarity now editorContext
                snippets knowledge in
    let top := match maxResults options with Some n => n | None => 10 end in
    let least := match minScore options with Some q => q | None => 15%Q end in
    NoDup (map keyOf out) /\
    StronglySorted descending out /\
    (0 <= top -> Z.of_nat (length out) <= top) /\
    (forall e, e ∈ out ->
       (least <= relevanceScore e)%Q /\
       exists c, c ∈ cs /\ keyOf c = keyOf e /\ relevanceScore c = relevanceScore e) /\
    (forall c, c ∈ cs -> (least <= relevanceScore c)%Q -> 0 <= top ->
       (exists e, e ∈ out /\ keyOf e = keyOf c /\
                  (relevanceScore c <= relevanceScore e)%Q) \/
       (Z.of_nat (length out) = top /\
        forall e, e ∈ out -> (relevanceScore c <= relevanceScore e)%Q)).
Proof.
  intros matchAgainstError matchByTextSimilarity now editorContext snippets knowledge
         options out cs top least.
  destruct (relevant_split matchAgainstError matchByTextSimilarity now editorContext
              snippets knowledge options) as [rest Hsplit].
  fold out cs least in Hsplit.
  assert (Hfiltered : forall e, e ∈ out ->
            e ∈ deduplicateAndSort cs /\ (least <= relevanceScore e)%Q).
  { intros e He.
    assert (Hin : e ∈ (out ++ rest)%list) by (apply elem_of_app; auto).
    rewrite <- Hsplit in Hin. apply elem_of_List_filter in Hin as [Hin Hle].
    split; [exact Hin | apply Qle_bool_iff, Hle]. }
  split; [| split; [| split; [| split]]].
  - apply (NoDup_map_prefix keyOf out rest). rewrite <- Hsplit.
    apply NoDup_map_filter, out_keys_NoDup.
  - pose proof (StronglySorted_filter descending
                  (fun r => Qle_bool least (relevanceScore r)) _
                  (sort_sorted (Map_values (fold_left dedupStep cs [])))) as Hsorted.
    fold (deduplicateAndSort cs) in Hsorted. rewrite Hsplit in Hsorted.
    apply StronglySorted_prefix in Hsorted. tauto.
  - apply FinderSpec.slice0_length.
  - intros e He. destruct (Hfiltered e He) as [Hin Hle].
    split; [exact Hle | apply dedup_from, Hin].
  - intros c Hc Hmin Htop. apply relevant_best; assumption.
Qed.

Lemma snippetLanguageMatch_candidate matchAgainstError matchByTextSimilarity now
    editorContext snippets knowledge s :
  s ∈ snippets ->
  toLowerCase (sn_language s) ∈ map toLowerCase (languageAliases editorContext) ->
  snippetLanguageMatch now s
  ∈ candidates matchAgainstError matchByTextSimilarity now editorContext
      snippets knowledge.
Proof.
  intros Hs Hlang. unfold candidates.
  apply elem_of_app. right. apply elem_of_app. left.
  unfold matchByLanguage. apply elem_of_app. left.
  apply list_elem_of_fmap. exists s. split; [reflexivity |].
  apply elem_of_List_filter. split; [exact Hs |].
  unfold Set_has. apply bool_decide_eq_true. apply Set_of_elem. exact Hlang.
Qed.

(** X26.  With the default options, a snippet written in the language of
    the editor, or in one of its aliases (case ignored), is always taken
    for relevant: it is among the results with a score of at least 30 --
    the language weight, above the default minimal score --, unless ten
    results are returned that all score at least as much as its language
    match, with or without the bonus for recent items. *)
Theorem snippet_in_editor_language_is_relevant :
  forall (matchAgainstError :
            DiagnosticContext -> list Snippet -> list Knowledge -> list MatchResult)
         (matchByTextSimilarity :
            string -> list Snippet -> list Knowledge -> list MatchResult)
         (now : Z) (editorContext : EditorContext) (snippets : list Snippet)
         (knowledge : list Knowledge) (s : Snippet),
    s ∈ snippets ->
    toLowerCase (sn_language s) ∈ map toLowerCase (languageAliases editorContext) ->
    let out := findRelevantContext matchAgainstError matchByTextSimilarity now
                 editorContext snippets knowledge noOptions in
    (exists e, e ∈ out /\ type e = snippet /\ itemId (item e) = sn_id s /\
               (30 <= relevanceScore e)%Q) \/
    (length out = 10%nat /\ forall e, e ∈ out -> (30 <= relevanceScore e)%Q).
Proof.
  intros matchAgainstError matchByTextSimilarity now editorContext snippets knowledge
         s Hs Hlang out.
  pose proof (snippetLanguageMatch_candidate matchAgainstError matchByTextSimilarity
                now editorContext snippets knowledge s Hs Hlang) as Hc.
  assert (Hscore : (30 <= relevanceScore (snippetLanguageMatch now s))%Q).
  { cbn [relevanceScore snippetLanguageMatch].
    change 30%Q with (inject_Z 30). rewrite <- Zle_Qle.
    unfold MATCH_WEIGHTS_language_exact, getRecencyBonus, MATCH_WEIGHTS_recency_bonus.
    destruct (_ <? _); lia. }
  destruct (relevant_best matchAgainstError matchByTextSimilarity now editorContext
              snippets knowledge noOptions _ Hc) as [(e & He & Hk & Hle) | [Hfull Hall]].
  - cbn [minScore noOptions]. eapply Qle_trans; [| exact Hscore]. discriminate.
  - cbn [maxResults noOptions]. lia.
  - left. exists e. apply keyOf_inj in Hk as [Ht Hi].
    split; [exact He |]. split; [exact Ht |]. split; [exact Hi |].
    eapply Qle_trans; eassumption.
  - right. cbn [maxResults noOptions] in Hfull. split; [fold out in Hfull; lia |].
    intros e He. eapply Qle_trans; [exact Hscore | apply Hall, He].
Qed.

Lemma snippet_in_editor_language_is_relevant_witness :
  (exists e,
     e ∈ findRelevantContext noErrorMatches noTextMatches 1000 jsEditor [jsSnippet] []
           noOptions /\
     type e = snippet /\ itemId (item e) = "s1" /\ (30 <= relevanceScore e)%Q) \/
  (length (findRelevantContext noErrorMatches noTextMatches 1000 jsEditor [jsSnippet] []
             noOptions) = 10%nat /\
   forall e,
     e ∈ findRelevantContext noErrorMatches noTextMatches 1000 jsEditor [jsSnippet] []
           noOptions -> (30 <= relevanceScore e)%Q).
Proof.
  apply (snippet_in_editor_language_is_relevant noErrorMatches noTextMatches 1000
           jsEditor [jsSnippet] [] jsSnippet).
  - apply elem_of_cons. left. reflexivity.
  - vm_compute. apply elem_of_cons. left. reflexivity.
Defined.

Lemma findRelevantContext_returns_the_best_candidates_witness :
  (exists e,
     e ∈ findRelevantContext noErrorMatches noTextMatches 1000 jsEditor [jsSnippet] []
           noOptions /\
     keyOf e = keyOf (snippetLanguageMatch 1000 jsSnippet) /\
     (relevanceScore (snippetLanguageMatch 1000 jsSnippet) <= relevanceScore e)%Q) \/
  (Z.of_nat (length (findRelevantContext noErrorMatches noTextMatches 1000 jsEditor
                       [jsSnippet] [] noOptions)) = 10 /\
   forall e,
     e ∈ findRelevantContext noErrorMatches noTextMatches 1000 jsEditor [jsSnippet] []
           noOptions ->
     (relevanceScore (snippetLanguageMatch 1000 jsSnippet) <= relevanceScore e)%Q).
Proof.
  destruct (findRelevantContext_returns_the_best_candidates noErrorMatches
              noTextMatches 1000 jsEditor [jsSnippet] [] noOptions)
    as (_ & _ & _ & _ & Hbest).
  apply (Hbest (snippetLanguageMatch 1000 jsSnippet)).
  - vm_compute. apply elem_of_cons. left. reflexivity.
  - vm_compute. discriminate.
  - vm_compute. discriminate.
Defined.

End ContextSpec.
